(** * goloader: relocation and runtime-integration engine

    A shallow embedding of [dymcode.go] (symbol table builder, address
    resolver, relocation engine, function-table builder, module registry)
    and the properties of it that the specification states.

    Conventions of the embedding.
    - The target is a 64-bit one (amd64, arm64): Go's [int] and [uintptr]
      are 64 bits wide and [PtrSize] evaluates to 8.  An [int] is a [Z]
      kept in the signed range by [int]; every arithmetic operation of the
      source is followed by the wrap-around the hardware performs.
    - A byte slice is a [list Z] of values below 256.  Slicing and indexing
      are bounds-checked as in Go and end in [Fault IndexOutOfRange] (a
      run-time panic); a store through [unsafe.Pointer] is not checked by
      Go, and one that runs past the end of its slice ends in
      [Fault WildStore].
    - Go maps are [gmap]s; a missing key reads as the zero value.
    - Collaborators that live outside [dymcode.go] (the memory allocator,
      the host run-time's dispatch-table constructor, the thread-local
      registration, the function-metadata reader) are variables of the
      sections that use them. *)

From Stdlib Require Import ZArith List Lia String Ascii Bool DecimalString Sorted.
From stdpp Require Import base option list gmap strings.

Local Open Scope Z_scope.

(** ** Outcomes of a Go computation *)

Inductive fault : Type :=
| IndexOutOfRange   (* run-time panic: index or slice bound out of range *)
| WildStore         (* unchecked store past the end of a slice *)
| NilDeref          (* dereference of a pointer that names no object *)
| Deadlock          (* Lock on a mutex that is already held *)
| Diverges          (* a loop that never leaves (cyclic module list) *)
| OutOfFuel.        (* the recursion bound of the model was too small *)

Inductive outcome (A : Type) : Type :=
| Done (a : A)
| Fault (f : fault).
Arguments Done {A} a.
Arguments Fault {A} f.

#[export] Instance outcome_ret : MRet outcome := fun A a => Done a.
#[export] Instance outcome_bind : MBind outcome := fun A B k m =>
  match m with
  | Done a => k a
  | Fault f => Fault f
  end.

Definition is_Done {A} (o : outcome A) : bool :=
  match o with Done _ => true | Fault _ => false end.

(** ** Machine integers *)

(** Go's [int] on a 64-bit target: two's complement wrap-around. *)
Definition int (z : Z) : Z := (z + 2 ^ 63) mod 2 ^ 64 - 2 ^ 63.
Definition uint64 (z : Z) : Z := z mod 2 ^ 64.
Definition uintptr (z : Z) : Z := z mod 2 ^ 64.
Definition uint32 (z : Z) : Z := z mod 2 ^ 32.
Definition byte (z : Z) : Z := z mod 256.

Definition iadd (a b : Z) : Z := int (a + b).
Definition isub (a b : Z) : Z := int (a - b).
Definition imul (a b : Z) : Z := int (a * b).
Infix "⊞" := iadd (at level 50, left associativity).
Infix "⊟" := isub (at level 50, left associativity).

Definition in_int (z : Z) : Prop := - 2 ^ 63 ≤ z < 2 ^ 63.

(** [const PtrSize = 4 << (^uintptr(0) >> 63)] *)
Definition PtrSize : Z := Z.shiftl 4 (Z.shiftr (2 ^ 64 - 1) 63).

(** ** Byte slices *)

Definition len {A} (l : list A) : Z := Z.of_nat (length l).

(** [b[k:]] *)
Definition slice_from {A} (b : list A) (k : Z) : outcome (list A) :=
  if (0 <=? k) && (k <=? len b) then Done (drop (Z.to_nat k) b)
  else Fault IndexOutOfRange.

(** [b[k]] *)
Definition index {A} (b : list A) (k : Z) : outcome A :=
  if 0 <=? k then
    match b !! Z.to_nat k with
    | Some x => Done x
    | None => Fault IndexOutOfRange
    end
  else Fault IndexOutOfRange.

(** The bytes [bs] written over [b] from position [k] on; the callers have
    checked that they fit. *)
Definition store (b : list Z) (k : Z) (bs : list Z) : list Z :=
  take (Z.to_nat k) b ++ bs ++ drop (Z.to_nat k + length bs) b.

(** [n] little-endian bytes of [v]. *)
Fixpoint le_bytes (n : nat) (v : Z) : list Z :=
  match n with
  | O => []
  | S n' => byte v :: le_bytes n' (Z.shiftr v 8)
  end.

(** [b[k] = byte(v)] *)
Definition set_byte (b : list Z) (k : Z) (v : Z) : outcome (list Z) :=
  if (0 <=? k) && (k <? len b) then Done (store b k [byte v])
  else Fault IndexOutOfRange.

(** [binary.LittleEndian.Uint32(b[k:])] *)
Definition Uint32 (b : list Z) (k : Z) : outcome Z :=
  view ← slice_from b k;
  match view with
  | b0 :: b1 :: b2 :: b3 :: _ =>
      Done (Z.lor (Z.lor (Z.lor b0 (Z.shiftl b1 8)) (Z.shiftl b2 16))
              (Z.shiftl b3 24))
  | _ => Fault IndexOutOfRange
  end.

(** [binary.LittleEndian.PutUint32(b[k:], v)] *)
Definition PutUint32 (b : list Z) (k : Z) (v : Z) : outcome (list Z) :=
  view ← slice_from b k;
  if 4 <=? len view then Done (store b k (le_bytes 4 v))
  else Fault IndexOutOfRange.

(** [binary.LittleEndian.PutUint64(b[k:], v)] *)
Definition PutUint64 (b : list Z) (k : Z) (v : Z) : outcome (list Z) :=
  view ← slice_from b k;
  if 8 <=? len view then Done (store b k (le_bytes 8 v))
  else Fault IndexOutOfRange.

(** The store of a [uintptr] through [unsafe.Pointer] at the address of
    [b[k:][0]]: the slice expression and the index 0 are checked, the
    eight-byte store is not. *)
Definition PutUintptr (b : list Z) (k : Z) (v : Z) : outcome (list Z) :=
  view ← slice_from b k;
  match view with
  | [] => Fault IndexOutOfRange
  | _ :: _ =>
      if PtrSize <=? len view then Done (store b k (le_bytes 8 v))
      else Fault WildStore
  end.

(** [copy(dst[k:], src)]: Go copies as many bytes as both sides hold. *)
Definition copy_at (dst : list Z) (k : Z) (src : list Z) : outcome (list Z) :=
  view ← slice_from dst k;
  Done (store dst k (take (length view) src)).

Definition is_bytes (b : list Z) : Prop := Forall (λ x, 0 ≤ x < 256) b.

(** ** Strings and the diagnostic buffer *)

Definition HasPrefix (s p : string) : bool := String.prefix p s.

(** [strWrite]: every piece is followed by a blank unless it is a newline. *)
Definition newline : string := String (ascii_of_nat 10) EmptyString.

Fixpoint strWrite (buf : string) (str : list string) : string :=
  match str with
  | [] => buf
  | s :: rest =>
      let buf := (buf ++ s)%string in
      let buf := if String.eqb s newline then buf else (buf ++ " ")%string in
      strWrite buf rest
  end.

(** [strconv.Itoa] *)
Definition Itoa (z : Z) : string := NilZero.string_of_int (Z.to_int z).

(** ** Constants of the object format *)

Definition R_ADDR : Z := 1.
Definition R_ADDRARM64 : Z := 3.
Definition R_ADDROFF : Z := 5.
Definition R_WEAKADDROFF : Z := 6.
Definition R_CALL : Z := 8.
Definition R_CALLARM : Z := 9.
Definition R_CALLARM64 : Z := 10.
Definition R_CALLIND : Z := 11.
Definition R_PCREL : Z := 15.
Definition R_TLS_LE : Z := 16.
Definition R_METHODOFF : Z := 24.

Definition Sxxx : Z := 0.
Definition STEXT : Z := 1.
Definition SRODATA : Z := 2.
Definition SNOPTRDATA : Z := 3.
Definition SDATA : Z := 4.
Definition SBSS : Z := 5.
Definition SNOPTRBSS : Z := 6.
Definition STLSBSS : Z := 7.
Definition SDWARFINFO : Z := 8.
Definition SDWARFRANGE : Z := 9.

Definition mov32bit : list Z := [0x00; 0x00; 0x80; 0xD2; 0x00; 0x00; 0xA0; 0xF2].
Definition armcode : list Z := [0x04; 0xF0; 0x1F; 0xE5; 0x00; 0x00; 0x00; 0x00].
Definition arm64code : list Z :=
  [0x43; 0x00; 0x00; 0x58; 0x60; 0x00; 0x1F; 0xD6;
   0x00; 0x00; 0x00; 0x00; 0x00; 0x00; 0x00; 0x00].
Definition x86code : list Z :=
  [0xff; 0x25; 0x00; 0x00; 0x00; 0x00; 0x00; 0x00;
   0x00; 0x00; 0x00; 0x00; 0x00; 0x00].
Definition movcode : Z := 0x8b.
Definition leacode : Z := 0x8d.
Definition cmplcode : Z := 0x83.
Definition jmpcode : Z := 0xe9.

(** ** relocADRP *)

(** The page delta the function computes from the site and the target. *)
Definition adrpPageOff (pc symAddr : Z) : Z :=
  let pcPage := pc ⊟ Z.land pc 0xfff in
  let lowOff := Z.land symAddr 0xfff in
  let symPage := symAddr ⊟ lowOff in
  symPage ⊟ pcPage.

(** The overflow branch: a mov/movk pair that materialises the low 32 bits
    of the target address in the register of the original adrp. *)
Definition adrpMovPair (mCode : list Z) (symAddr : Z) : outcome (list Z) :=
  movlow ← Uint32 (take 4 mov32bit) 0;
  movhigh ← Uint32 mov32bit 4;
  adrp ← Uint32 mCode 0;
  let symAddrUint32 := uint32 symAddr in
  let movlow :=
    Z.lor (Z.lor (Z.land adrp 0x1f) movlow)
      (uint32 (Z.shiftl (Z.land symAddrUint32 0xffff) 5)) in
  let movhigh :=
    Z.lor (Z.lor (Z.land adrp 0x1f) movhigh)
      (uint32 (Z.shiftl (Z.shiftr (Z.land symAddrUint32 0xffff0000) 16) 5)) in
  mCode ← PutUint32 mCode 0 movlow;
  PutUint32 mCode 4 movhigh.

(** The page-relative branch: the immediate fields are or-ed into the
    adrp/add pair found at the site. *)
Definition adrpPagePatch (mCode : list Z) (pageOff symAddr : Z) : outcome (list Z) :=
  let lowOff := Z.land symAddr 0xfff in
  let pageAnd :=
    Z.lor (uint32 (Z.shiftl (uint32 (Z.land (Z.shiftr pageOff 12) 3)) 29))
          (uint32 (Z.shiftl (uint32 (Z.land (Z.shiftr pageOff 15) 0x7ffff)) 5)) in
  adrp ← Uint32 mCode 0;
  let adrp := Z.lor adrp pageAnd in
  mCode ← PutUint32 mCode 0 adrp;
  let lowOff := int (Z.shiftl lowOff 10) in
  adrpAdd ← Uint32 mCode 4;
  let adrpAdd := Z.lor adrpAdd (uint32 lowOff) in
  PutUint32 mCode 4 adrpAdd.

(** [relocADRP(mCode, pc, symAddr, symName)]; the name is only used by a
    print statement that is commented out, and the line the function
    prints on standard output is left out. *)
Definition relocADRP (mCode : list Z) (pc symAddr : Z) : outcome (list Z) :=
  let pageOff := adrpPageOff pc symAddr in
  if (pageOff >? 0x7FFFFFFF) || (pageOff <? - 0x80000000)
  then adrpMovPair mCode symAddr
  else adrpPagePatch mCode pageOff symAddr.

(** ** Data model *)

Record Reloc : Type := mkReloc {
  Reloc_Offset : Z;
  Reloc_SymOff : Z;
  Reloc_Size : Z;
  Reloc_Type : Z;
  Reloc_Add : Z
}.

Record SymData : Type := mkSymData {
  Sym_Name : string;
  Sym_Kind : Z;
  Sym_Offset : Z;
  Sym_Reloc : list Reloc
}.

Record functab : Type := mkFunctab {
  entry : Z;
  funcoff : Z
}.

Record findfuncbucket : Type := mkBucket {
  idx : Z;
  subbuckets : list Z
}.

(** [funcInfoData]: of the embedded [_func], whose declaration is in a
    version-specific file, the fields that [addFuncTab] reads or writes. *)
Record funcInfoData : Type := mkFuncInfo {
  fi_entry : Z;
  npcdata : Z;
  nfuncdata : Z;
  pcdata : list Z;
  funcdata : list Z
}.

Record Module : Type := mkModule {
  pclntable : list Z;
  pcfunc : list findfuncbucket;
  funcinfo : list funcInfoData;
  ftab : list functab;
  filetab : list Z;
  stkmaps : list (list Z)
}.

Record CodeReloc : Type := mkCodeReloc {
  Code : list Z;
  Data : list Z;
  Mod : Module;
  Syms : list SymData
}.

Record itabSym : Type := mkItabSym {
  it_ptr : Z;
  it_inter : Z;
  it_type : Z
}.

(** [itabReloc]; the fields [size] and [add] carry a prefix here. *)
Record itabReloc : Type := mkItabReloc {
  locOff : Z;
  symOff : Z;
  ir_size : Z;
  locType : Z;
  ir_add : Z
}.

(** An address of a [moduledata] node of the host's module list. *)
Definition addr : Type := Z.

Record CodeModule : Type := mkCodeModule {
  cm_Syms : gmap string Z;
  CodeBytePtr : Z;
  CodeByte : list Z;
  cm_Module : option addr;
  pcfuncdata : list findfuncbucket;
  cm_stkmaps : list (list Z);
  itabs : list itabReloc;
  itabSyms : list itabSym;
  typemap : gmap Z Z
}.

(** [segment].  [funcType] maps a name to a pointer into [symAddrs]; the
    pointer is kept as the index it points at.  [codeBytePtr] is the data
    pointer of the slice header of [codeByte], the address of its first
    byte. *)
Record segment : Type := mkSegment {
  codeBase : Z;
  dataBase : Z;
  codeLen : Z;
  maxCodeLen : Z;
  offset : Z;
  symAddrs : list Z;
  itabMap : gmap string Z;
  funcType : gmap string Z;
  codeBytePtr : Z;
  codeByte : list Z;
  typeSymPtr : gmap string Z;
  err : string
}.

(** What one load operation works on: the image (whose blobs are patched
    in place), the module under construction and the segment. *)
Record loadState : Type := mkLoadState {
  code : CodeReloc;
  codeModule : CodeModule;
  seg : segment
}.

Definition set_Code (c : list Z) (st : loadState) : loadState :=
  let cr := code st in
  mkLoadState (mkCodeReloc c (Data cr) (Mod cr) (Syms cr)) (codeModule st) (seg st).

Definition set_Data (d : list Z) (st : loadState) : loadState :=
  let cr := code st in
  mkLoadState (mkCodeReloc (Code cr) d (Mod cr) (Syms cr)) (codeModule st) (seg st).

Definition set_itabs (l : list itabReloc) (st : loadState) : loadState :=
  let cm := codeModule st in
  mkLoadState (code st)
    (mkCodeModule (cm_Syms cm) (CodeBytePtr cm) (CodeByte cm) (cm_Module cm) (pcfuncdata cm)
       (cm_stkmaps cm) l (itabSyms cm) (typemap cm))
    (seg st).

Definition seg_set_offset (x : Z) (s : segment) : segment :=
  mkSegment (codeBase s) (dataBase s) (codeLen s) (maxCodeLen s) x (symAddrs
    s) (itabMap s) (funcType s) (codeBytePtr s) (codeByte s) (typeSymPtr s)
    (err s).

Definition seg_set_codeByte (x : list Z) (s : segment) : segment :=
  mkSegment (codeBase s) (dataBase s) (codeLen s) (maxCodeLen s) (offset s)
    (symAddrs s) (itabMap s) (funcType s) (codeBytePtr s) x (typeSymPtr s)
    (err s).

Definition seg_set_err (x : string) (s : segment) : segment :=
  mkSegment (codeBase s) (dataBase s) (codeLen s) (maxCodeLen s) (offset s)
    (symAddrs s) (itabMap s) (funcType s) (codeBytePtr s) (codeByte s)
    (typeSymPtr s) x.

Definition seg_set_symAddrs (x : list Z) (s : segment) : segment :=
  mkSegment (codeBase s) (dataBase s) (codeLen s) (maxCodeLen s) (offset s) x
    (itabMap s) (funcType s) (codeBytePtr s) (codeByte s) (typeSymPtr s) (err
    s).

Definition seg_set_itabMap (x : gmap string Z) (s : segment) : segment :=
  mkSegment (codeBase s) (dataBase s) (codeLen s) (maxCodeLen s) (offset s)
    (symAddrs s) x (funcType s) (codeBytePtr s) (codeByte s) (typeSymPtr s)
    (err s).

Definition seg_set_funcType (x : gmap string Z) (s : segment) : segment :=
  mkSegment (codeBase s) (dataBase s) (codeLen s) (maxCodeLen s) (offset s)
    (symAddrs s) (itabMap s) x (codeBytePtr s) (codeByte s) (typeSymPtr s)
    (err s).

Definition seg_set_typeSymPtr (x : gmap string Z) (s : segment) : segment :=
  mkSegment (codeBase s) (dataBase s) (codeLen s) (maxCodeLen s) (offset s)
    (symAddrs s) (itabMap s) (funcType s) (codeBytePtr s) (codeByte s) x (err
    s).

Definition set_seg (s : segment) (st : loadState) : loadState :=
  mkLoadState (code st) (codeModule st) s.

Definition set_offset (o : Z) (st : loadState) : loadState :=
  set_seg (seg_set_offset o (seg st)) st.

Definition set_codeByte (b : list Z) (st : loadState) : loadState :=
  set_seg (seg_set_codeByte b (seg st)) st.

(** [strWrite(&seg.err, str...)] *)
Definition diag (str : list string) (st : loadState) : loadState :=
  set_seg (seg_set_err (strWrite (err (seg st)) str) (seg st)) st.

(** The blob that owns the relocation sites of a symbol ([relocByte]), and
    the assignment through that alias. *)
Definition relocByte (isText : bool) (st : loadState) : list Z :=
  if isText then Code (code st) else Data (code st).

Definition set_relocByte (isText : bool) (b : list Z) (st : loadState) : loadState :=
  if isText then set_Code b st else set_Data b st.

(** [range] loops with a body that may fault. *)
Fixpoint foldM {A S : Type} (f : A → S → outcome S) (l : list A) (s : S) : outcome S :=
  match l with
  | [] => Done s
  | x :: l' => s' ← f x s; foldM f l' s'
  end.

(** The same with the position of the element, as in [for i, x := range]. *)
Fixpoint foldMi {A S : Type} (f : Z → A → S → outcome S) (i : Z) (l : list A) (s : S)
  : outcome S :=
  match l with
  | [] => Done s
  | x :: l' => s' ← f i x s; foldMi f (i + 1) l' s'
  end.

(** [m[k]] of a Go map with integer values. *)
Definition map_get (m : gmap string Z) (k : string) : Z := default 0 (m !! k).

(** ** relocate *)

(** The displacement of a call or PC-relative site. *)
Definition pcrelOffset (symAddr addrBase : Z) (loc : Reloc) : Z :=
  symAddr ⊟ (addrBase ⊞ Reloc_Offset loc ⊞ Reloc_Size loc) ⊞ Reloc_Add loc.

(** The test that sends a call or PC-relative site to the trampoline. *)
Definition pcrelOverflow (offset : Z) : bool :=
  (offset >? 0x7fffffff) || (offset <? - 0x8000000).

(** The pointer a stub or a literal holds: four or eight bytes. *)
Definition putTarget (b : list Z) (k : Z) (target : Z) : outcome (list Z) :=
  if uint64 target >? 0xFFFFFFFF then PutUint64 b k (uint64 target)
  else PutUint32 b k (uint32 target).

(** [case R_CALL, R_PCREL] *)
Definition relocCallPCRel (curSym : SymData) (loc : Reloc) (sym : SymData)
    (symAddr : Z) (st : loadState) : outcome loadState :=
  let isText := Sym_Kind curSym =? STEXT in
  let addrBase := if isText then codeBase (seg st) else dataBase (seg st) in
  let offset0 := pcrelOffset symAddr addrBase loc in
  if pcrelOverflow offset0 then
    if offset (seg st) ⊞ 8 >? maxCodeLen (seg st) then
      Done (diag ["len overflow"; "sym:"; Sym_Name sym; newline] st)
    else
      rb ← slice_from (relocByte isText st) (Reloc_Offset loc ⊟ 2);
      let stubOff :=
        (codeBase (seg st) ⊞ offset (seg st))
          ⊟ (addrBase ⊞ Reloc_Offset loc ⊞ Reloc_Size loc) in
      let target := symAddr ⊞ Reloc_Add loc in
      if Reloc_Type loc =? R_CALL then
        cb ← copy_at (codeByte (seg st)) (offset (seg st)) x86code;
        rbytes ← PutUint32 (relocByte isText st) (Reloc_Offset loc) (uint32 stubOff);
        cb ← putTarget cb (offset (seg st) ⊞ 6) target;
        Done (set_offset (offset (seg st) ⊞ len x86code)
                (set_codeByte cb (set_relocByte isText rbytes st)))
      else
        rb0 ← index rb 0;
        known ←
          (if (rb0 =? leacode) || (rb0 =? movcode) || (rb0 =? cmplcode)
           then Done true
           else rb1 ← index rb 1; Done (rb1 =? jmpcode));
        if known : bool then
          rbytes ← PutUint32 (relocByte isText st) (Reloc_Offset loc) (uint32 stubOff);
          rbytes ← (if rb0 =? leacode
                    then set_byte rbytes (Reloc_Offset loc ⊟ 2) movcode
                    else Done rbytes);
          cb ← putTarget (codeByte (seg st)) (offset (seg st)) target;
          let step := if uint64 target >? 0xFFFFFFFF then 12 else 8 in
          Done (set_offset (offset (seg st) ⊞ step)
                  (set_codeByte cb (set_relocByte isText rbytes st)))
        else
          let st := diag ["offset overflow sym:"; Sym_Name sym; newline] st in
          rbytes ← PutUint32 (relocByte isText st) (Reloc_Offset loc) (uint32 offset0);
          Done (set_relocByte isText rbytes st)
  else
    rbytes ← PutUint32 (relocByte isText st) (Reloc_Offset loc) (uint32 offset0);
    Done (set_relocByte isText rbytes st).

(** The three low bytes of a branch instruction: [b := code.Code[off:]],
    [b[0] = byte(v)], [b[1] = byte(v >> 8)], [b[2] = byte(v >> 16)]. *)
Definition putImm24 (b : list Z) (k : Z) (v : Z) : outcome (list Z) :=
  view ← slice_from b k;
  if 3 <=? len view then Done (store b k (le_bytes 3 v))
  else Fault IndexOutOfRange.

(** The addend and the PC bias of the two branch encodings. *)
Definition armAddend (loc : Reloc) : Z * Z :=
  if Reloc_Type loc =? R_CALLARM then
    let a := Z.land (Reloc_Add loc) 0xffffff in
    (if a >? 256 then 0 else a ⊞ 2, 8)
  else (Reloc_Add loc, 0).

Definition armOffset (symAddr cBase : Z) (loc : Reloc) : Z :=
  let '(a, pcOff) := armAddend loc in
  Z.quot (symAddr ⊟ (cBase ⊞ Reloc_Offset loc ⊞ pcOff) ⊞ a) 4.

Definition armOverflow (offset : Z) : bool :=
  (offset >? 0x7FFFFF) || (offset <? - 0x800000).

(** [case R_CALLARM, R_CALLARM64] *)
Definition relocCallArm (loc : Reloc) (sym : SymData) (symAddr : Z)
    (st : loadState) : outcome loadState :=
  let '(a, pcOff) := armAddend loc in
  let offset0 := armOffset symAddr (codeBase (seg st)) loc in
  if armOverflow offset0 then
    if offset (seg st) ⊞ 4 >? maxCodeLen (seg st) then
      Done (diag ["len overflow"; "sym:"; Sym_Name sym; newline] st)
    else
      let align := Z.rem (offset (seg st)) 4 in
      let segOff :=
        if align =? 0 then offset (seg st)
        else offset (seg st) ⊞ (4 ⊟ align) in
      let offset1 := Z.quot (segOff ⊟ (Reloc_Offset loc ⊞ pcOff)) 4 in
      c ← putImm24 (Code (code st)) (Reloc_Offset loc) (uint32 offset1);
      let '(stub, jmpLocOff) :=
        if Reloc_Type loc =? R_CALLARM64 then (arm64code, 8) else (armcode, 4) in
      cb ← copy_at (codeByte (seg st)) segOff stub;
      cb ← PutUintptr cb (segOff ⊞ jmpLocOff) (uintptr (symAddr ⊞ imul a 4));
      Done (set_offset (segOff ⊞ len stub) (set_codeByte cb (set_Code c st)))
  else
    c ← putImm24 (Code (code st)) (Reloc_Offset loc) (uint32 offset0);
    Done (set_Code c st).

(** [case R_ADDRARM64] *)
Definition relocAddrArm64 (curSym : SymData) (loc : Reloc) (symAddr : Z)
    (st : loadState) : outcome loadState :=
  let st := if Sym_Kind curSym =? STEXT then st
            else diag [("not in code?" ++ newline)%string] st in
  mCode ← slice_from (Code (code st)) (Reloc_Offset loc);
  mCode ← relocADRP mCode (codeBase (seg st) ⊞ Reloc_Offset loc) symAddr;
  Done (set_Code (take (Z.to_nat (Reloc_Offset loc)) (Code (code st)) ++ mCode) st).

(** [case R_ADDR] *)
Definition relocAddr (curSym : SymData) (loc : Reloc) (symAddr : Z)
    (st : loadState) : outcome loadState :=
  let isText := Sym_Kind curSym =? STEXT in
  let offset0 := symAddr ⊞ Reloc_Add loc in
  rbytes ← PutUintptr (relocByte isText st) (Reloc_Offset loc) (uintptr offset0);
  Done (set_relocByte isText rbytes st).

(** [case R_ADDROFF, R_WEAKADDROFF, R_METHODOFF] *)
Definition relocAddrOff (curSym : SymData) (loc : Reloc) (sym : SymData)
    (symAddr : Z) (st : loadState) : outcome loadState :=
  let addrBase := codeBase (seg st) in
  let st := if Sym_Kind curSym =? STEXT
            then diag ["impossible!"; Sym_Name sym; "locate on code segment"; newline] st
            else st in
  let offset0 := symAddr ⊟ addrBase ⊞ Reloc_Add loc in
  d ← PutUint32 (Data (code st)) (Reloc_Offset loc) (uint32 offset0);
  Done (set_Data d st).

Section Relocate.

(** The name of the thread-local slot symbol, a constant declared in
    another file of the package. *)
Variable TLSNAME : string.

(** [case R_TLS_LE] *)
Definition relocTLS (symPtr : gmap string Z) (loc : Reloc) (st : loadState)
  : outcome loadState :=
  c ← PutUint32 (Code (code st)) (Reloc_Offset loc) (uint32 (map_get symPtr TLSNAME));
  Done (set_Code c st).

(** The body of the inner loop of [relocate]: one relocation [loc] of the
    symbol [curSym]. *)
Definition relocSite (symPtr : gmap string Z) (curSym : SymData) (loc : Reloc)
    (st : loadState) : outcome loadState :=
  sym ← index (Syms (code st)) (Reloc_SymOff loc);
  symAddr ← index (symAddrs (seg st)) (Reloc_SymOff loc);
  if symAddr =? -1 then Done st
  else if (symAddr =? 0) && HasPrefix (Sym_Name sym) "go.itab" then
    Done (set_itabs
            (itabs (codeModule st) ++
               [mkItabReloc (Reloc_Offset loc) (map_get (itabMap (seg st)) (Sym_Name sym))
                  (Reloc_Size loc) (Reloc_Type loc) (Reloc_Add loc)])
            st)
  else
    let t := Reloc_Type loc in
    if t =? R_TLS_LE then relocTLS symPtr loc st
    else if (t =? R_CALL) || (t =? R_PCREL) then relocCallPCRel curSym loc sym symAddr st
    else if (t =? R_CALLARM) || (t =? R_CALLARM64) then relocCallArm loc sym symAddr st
    else if t =? R_ADDRARM64 then relocAddrArm64 curSym loc symAddr st
    else if t =? R_ADDR then relocAddr curSym loc symAddr st
    else if t =? R_CALLIND then Done st
    else if (t =? R_ADDROFF) || (t =? R_WEAKADDROFF) || (t =? R_METHODOFF)
    then relocAddrOff curSym loc sym symAddr st
    else Done (diag ["unknown reloc type:"; Itoa t; Sym_Name sym; newline] st).

(** [relocate]: the symbols are ranged over as they stand on entry; the
    loop does not change them. *)
Definition relocate (symPtr : gmap string Z) (st : loadState) : outcome loadState :=
  foldM (λ curSym, foldM (relocSite symPtr curSym) (Sym_Reloc curSym))
    (Syms (code st)) st.

End Relocate.

(** ** addSymAddrs *)

Definition set_codeModule (cm : CodeModule) (st : loadState) : loadState :=
  mkLoadState (code st) cm (seg st).

Definition cm_set_Syms (x : gmap string Z) (cm : CodeModule) : CodeModule :=
  mkCodeModule x (CodeBytePtr cm) (CodeByte cm) (cm_Module cm) (pcfuncdata cm)
    (cm_stkmaps cm) (itabs cm) (itabSyms cm) (typemap cm).

Definition cm_set_itabSyms (x : list itabSym) (cm : CodeModule) : CodeModule :=
  mkCodeModule (cm_Syms cm) (CodeBytePtr cm) (CodeByte cm) (cm_Module cm)
    (pcfuncdata cm) (cm_stkmaps cm) (itabs cm) x (typemap cm).

Definition cm_set_typemap (x : gmap Z Z) (cm : CodeModule) : CodeModule :=
  mkCodeModule (cm_Syms cm) (CodeBytePtr cm) (CodeByte cm) (cm_Module cm)
    (pcfuncdata cm) (cm_stkmaps cm) (itabs cm) (itabSyms cm) x.

Definition cm_set_CodeByte (p : Z) (x : list Z) (cm : CodeModule) : CodeModule :=
  mkCodeModule (cm_Syms cm) p x (cm_Module cm) (pcfuncdata cm) (cm_stkmaps cm)
    (itabs cm) (itabSyms cm) (typemap cm).

(** [l[i] = v] *)
Definition set_index {A} (l : list A) (i : Z) (v : A) : outcome (list A) :=
  if (0 <=? i) && (i <? len l) then Done (<[Z.to_nat i := v]> l)
  else Fault IndexOutOfRange.

(** [seg.symAddrs[i] = v] *)
Definition set_symAddr (i v : Z) (st : loadState) : outcome loadState :=
  a ← set_index (symAddrs (seg st)) i v;
  Done (set_seg (seg_set_symAddrs a (seg st)) st).

Section Resolve.

Variable TLSNAME : string.

(** [RegTLS(symPtr, offset)], declared in another file of the package: it
    registers the slot with the host's thread-local mechanism and may
    write to the map it is handed. *)
Variable RegTLS : gmap string Z → Z → gmap string Z.

(** The body of the loop of [addSymAddrs] for the symbol [sym] at index
    [i]; [sym] is the copy the [range] clause made of [code.Syms[i]], which
    the loop never assigns. *)
Definition addSymAddr (i : Z) (sym : SymData) (s : gmap string Z * loadState)
  : outcome (gmap string Z * loadState) :=
  let '(symPtr, st) := s in
  if Sym_Offset sym =? -1 then
    match symPtr !! Sym_Name sym with
    | Some ptr => st ← set_symAddr i (int ptr) st; Done (symPtr, st)
    | None =>
        st ← set_symAddr i (-1) st;
        Done (symPtr, diag ["unresolve external:"; Sym_Name sym; newline] st)
    end
  else if String.eqb (Sym_Name sym) TLSNAME then
    Done (RegTLS symPtr (Sym_Offset sym), st)
  else if Sym_Kind sym =? STEXT then
    let a := Sym_Offset sym ⊞ codeBase (seg st) in
    st ← set_symAddr i a st;
    Done (symPtr,
          set_codeModule
            (cm_set_Syms (<[Sym_Name sym := uintptr a]> (cm_Syms (codeModule st)))
               (codeModule st)) st)
  else if HasPrefix (Sym_Name sym) "go.itab" then
    match symPtr !! Sym_Name sym with
    | Some ptr => st ← set_symAddr i (int ptr) st; Done (symPtr, st)
    | None =>
        Done (symPtr,
              set_seg (seg_set_itabMap (<[Sym_Name sym := i]> (itabMap (seg st)))
                         (seg st)) st)
    end
  else
    let a := Sym_Offset sym ⊞ dataBase (seg st) in
    st ← set_symAddr i a st;
    let st :=
      if HasPrefix (Sym_Name sym) "type.func"
      then set_seg (seg_set_funcType (<[Sym_Name sym := i]> (funcType (seg st)))
                      (seg st)) st
      else st in
    if HasPrefix (Sym_Name sym) "type." then
      match symPtr !! Sym_Name sym with
      | Some ptr => st ← set_symAddr i (int ptr) st; Done (symPtr, st)
      | None =>
          Done (symPtr,
                set_seg (seg_set_typeSymPtr
                           (<[Sym_Name sym := uintptr a]> (typeSymPtr (seg st)))
                           (seg st)) st)
      end
    else Done (symPtr, st).

Definition addSymAddrs (symPtr : gmap string Z) (st : loadState)
  : outcome (gmap string Z * loadState) :=
  foldMi addSymAddr 0 (Syms (code st)) (symPtr, st).

End Resolve.

(** ** addItab *)

Section Itab.

(** The order in which Go ranges over a map is not specified; it is a
    parameter of the model. *)
Variable rangeOrder : gmap string Z → list (string * Z).

(** [addIFaceSubFuncType(funcType, typemap, inter, codeBase)], declared in
    another file of the package.  It reads the interface descriptor at the
    address [inter] and may write through the maps and through the
    pointers into [symAddrs] that [funcType] holds. *)
Variable addIFaceSubFuncType :
  gmap string Z → gmap Z Z → Z → Z → list Z →
  outcome (gmap string Z * gmap Z Z * list Z).

(** The wrapper of the host run-time's dispatch-table constructor. *)
Variable getitab : Z → Z → bool → Z.

Definition addItabOne (e : string * Z) (st : loadState) : outcome loadState :=
  let '(itabName, itabIndex) := e in
  curSym ← index (Syms (code st)) itabIndex;
  r0 ← index (Sym_Reloc curSym) 0;
  inter ← index (symAddrs (seg st)) (Reloc_SymOff r0);
  r1 ← index (Sym_Reloc curSym) 1;
  _type ← index (symAddrs (seg st)) (Reloc_SymOff r1);
  if (inter =? -1) || (_type =? -1) then Done st
  else
    let cm := codeModule st in
    let sg := seg_set_itabMap (<[itabName := len (itabSyms cm)]> (itabMap (seg st)))
                (seg st) in
    let cm := cm_set_itabSyms (itabSyms cm ++ [mkItabSym 0 inter _type]) cm in
    r ← addIFaceSubFuncType (funcType sg) (typemap cm) inter (codeBase sg) (symAddrs sg);
    let '(ft, tm, sa) := r in
    Done (mkLoadState (code st) (cm_set_typemap tm cm)
            (seg_set_symAddrs sa (seg_set_funcType ft sg))).

Definition addItab (st : loadState) : outcome loadState :=
  foldM addItabOne (rangeOrder (itabMap (seg st))) st.

(** ** relocateItab *)

(** After [buildModule], [codeModule.CodeByte] and [seg.codeByte] are the
    same slice: a store through one is seen through the other. *)
Definition set_codeByte_shared (b : list Z) (st : loadState) : loadState :=
  set_codeModule (cm_set_CodeByte (codeBytePtr (seg st)) b (codeModule st))
    (set_codeByte b st).

Definition relocateItabOne (it : itabReloc) (st : loadState) : outcome loadState :=
  its ← index (itabSyms (codeModule st)) (symOff it);
  let symAddr := it_ptr its in
  if symAddr =? 0 then Done st
  else if locType it =? R_PCREL then
    let pc := codeBase (seg st) ⊞ locOff it ⊞ ir_size it in
    let offset0 := symAddr ⊟ pc ⊞ ir_add it in
    if (offset0 >? 0x7FFFFFFF) || (offset0 <? - 0x80000000) then
      let offset1 := (codeBase (seg st) ⊞ offset (seg st)) ⊟ pc ⊞ ir_add it in
      cb ← PutUint32 (codeByte (seg st)) (locOff it) (uint32 offset1);
      cb ← set_byte cb (locOff it ⊟ 2) movcode;
      cb ← PutUintptr cb (offset (seg st)) (uintptr symAddr);
      Done (set_offset (offset (seg st) ⊞ PtrSize) (set_codeByte_shared cb st))
    else
      cb ← PutUint32 (codeByte (seg st)) (locOff it) (uint32 offset0);
      Done (set_codeByte_shared cb st)
  else if locType it =? R_ADDRARM64 then
    mCode ← slice_from (codeByte (seg st)) (locOff it);
    mCode ← relocADRP mCode (codeBase (seg st) ⊞ locOff it) symAddr;
    Done (set_codeByte_shared
            (take (Z.to_nat (locOff it)) (codeByte (seg st)) ++ mCode) st)
  else Done st.

Definition relocateItab (st : loadState) : outcome loadState :=
  let syms :=
    map (λ it, mkItabSym (getitab (it_inter it) (it_type it) false)
                 (it_inter it) (it_type it))
      (itabSyms (codeModule st)) in
  let st := set_codeModule (cm_set_itabSyms syms (codeModule st)) st in
  foldM relocateItabOne (itabs (codeModule st)) st.

End Itab.

(** ** The host's module list *)

(** [moduledata], declared with the run-time's layout in a version-specific
    file: the fields [buildModule] assigns, and the link to the next node.
    The table [pclntable] is kept as its length; what it holds are memory
    images of Go structures. *)
Record moduledata : Type := mkModuledata {
  md_pclntableLen : Z;
  md_ftab : list functab;
  md_filetab : list Z;
  md_findfunctab : list findfuncbucket;
  md_minpc : Z;
  md_maxpc : Z;
  md_text : Z;
  md_etext : Z;
  md_types : Z;
  md_etypes : Z;
  md_typemap : gmap Z Z;
  md_next : option addr
}.

Definition md_set_next (n : option addr) (m : moduledata) : moduledata :=
  mkModuledata (md_pclntableLen m) (md_ftab m) (md_filetab m) (md_findfunctab m)
    (md_minpc m) (md_maxpc m) (md_text m) (md_etext m) (md_types m) (md_etypes m)
    (md_typemap m) n.

(** What the process does that another thread, the collector or the
    operating system can observe, in the order in which it happens. *)
Inductive event : Type :=
| EvMmap (base size : Z)
| EvMunmap (base : Z)
| EvGC
| EvLock
| EvUnlock
| EvLink (a : addr)
| EvUnlink (m : option addr).

(** The part of the process a load or an unload acts on: the [moduledata]
    nodes by address, the package's [modules] set, [modulesLock], the mapped
    regions by base address, and the events so far (latest last). *)
Record world : Type := mkWorld {
  heap : gmap addr moduledata;
  modules : gset addr;
  locked : bool;
  mapped : gset Z;
  trace : list event
}.

Definition emit (e : event) (w : world) : world :=
  mkWorld (heap w) (modules w) (locked w) (mapped w) (trace w ++ [e]).

Definition set_heap (h : gmap addr moduledata) (w : world) : world :=
  mkWorld h (modules w) (locked w) (mapped w) (trace w).

Definition set_modules (m : gset addr) (w : world) : world :=
  mkWorld (heap w) m (locked w) (mapped w) (trace w).

(** [modulesLock.Lock()] and [modulesLock.Unlock()] *)
Definition Lock (w : world) : outcome world :=
  if locked w then Fault Deadlock
  else Done (emit EvLock (mkWorld (heap w) (modules w) true (mapped w) (trace w))).

Definition Unlock (w : world) : outcome world :=
  if locked w
  then Done (emit EvUnlock (mkWorld (heap w) (modules w) false (mapped w) (trace w)))
  else Fault Deadlock.

(** [runtime.GC()]: a full collection; the model records that it ran. *)
Definition GC (w : world) : world := emit EvGC w.

(** Modelled from the spec: [Munmap], declared in another file of the
    package, is the memory allocator's [free(region)]; the region stops
    being mapped. *)
Definition Munmap (base : Z) (w : world) : world :=
  emit (EvMunmap base)
    (mkWorld (heap w) (modules w) (locked w) (mapped w ∖ {[base]}) (trace w)).

Section Registry.

(** The address of the run-time's [firstmoduledata]. *)
Variable firstmoduledata : addr.

(** The loop of [addModule]: the node whose [next] is nil, from [datap]
    on.  A walk of more steps than there are nodes has met a node twice and
    never leaves the loop. *)
Fixpoint lastModule (fuel : nat) (h : gmap addr moduledata) (datap : addr)
  : outcome addr :=
  match fuel with
  | O => Fault Diverges
  | S n =>
      match h !! datap with
      | None => Fault NilDeref
      | Some md =>
          match md_next md with
          | None => Done datap
          | Some nx => lastModule n h nx
          end
      end
  end.

(** [addModule(codeModule, aModule)]; the assignment to
    [codeModule.Module] is made by the caller of this function of the
    model. *)
Definition addModule (aModule : addr) (w : world) : outcome world :=
  let w := set_modules ({[aModule]} ∪ modules w) w in
  datap ← lastModule (S (size (heap w))) (heap w) firstmoduledata;
  Done (emit (EvLink aModule)
          (set_heap (alter (md_set_next (Some aModule)) datap (heap w)) w)).

(** The loop of [removeModule]. *)
Fixpoint unlinkModule (fuel : nat) (module : option addr)
    (h : gmap addr moduledata) (prevp : addr) (datap : option addr)
  : outcome (gmap addr moduledata) :=
  match fuel with
  | O => Fault Diverges
  | S n =>
      match datap with
      | None => Done h
      | Some d =>
          match h !! d with
          | None => Fault NilDeref
          | Some md =>
              if decide (module = Some d)
              then Done (alter (md_set_next (md_next md)) prevp h)
              else unlinkModule n module h d (md_next md)
          end
      end
  end.

(** [removeModule(module)]; [module] is an interface value, [None] when
    it holds no node. *)
Definition removeModule (module : option addr) (w : world) : outcome world :=
  h ← unlinkModule (S (S (size (heap w)))) module (heap w)
         firstmoduledata (Some firstmoduledata);
  let ms := match module with
            | Some a => modules w ∖ {[a]}
            | None => modules w
            end in
  Done (emit (EvUnlink module) (set_modules ms (set_heap h w))).

(** [Unload] *)
Definition Unload (cm : CodeModule) (w : world) : outcome world :=
  let w := GC w in
  w ← Lock w;
  w ← removeModule (cm_Module cm) w;
  w ← Unlock w;
  Done (Munmap (CodeBytePtr cm) w).

(** The nodes a traversal from [a] meets, [a] included, when the list ends
    within [fuel] steps. *)
Fixpoint traverse (fuel : nat) (h : gmap addr moduledata) (a : option addr)
  : option (list addr) :=
  match fuel with
  | O => None
  | S n =>
      match a with
      | None => Some []
      | Some d =>
          md ← h !! d;
          rest ← traverse n h (md_next md);
          Some (d :: rest)
      end
  end.

End Registry.

(** [chain h a l]: from the node [a] the [next] links lead through exactly
    the nodes [l] and then to nil. *)
Fixpoint chain (h : gmap addr moduledata) (a : addr) (l : list addr) : Prop :=
  match l with
  | [] => ∃ md, h !! a = Some md ∧ md_next md = None
  | b :: l' => ∃ md, h !! a = Some md ∧ md_next md = Some b ∧ chain h b l'
  end.

(** ** buildModule *)

Definition int32 (z : Z) : Z := (z + 2 ^ 31) mod 2 ^ 32 - 2 ^ 31.

(** The bounds checks of [b[k]] and of [b[k:]] on a slice of length [n]
    whose elements the model does not hold. *)
Definition check_index (n k : Z) : outcome unit :=
  if (0 <=? k) && (k <? n) then Done tt else Fault IndexOutOfRange.

Definition check_slice (n k : Z) : outcome unit :=
  if (0 <=? k) && (k <=? n) then Done tt else Fault IndexOutOfRange.

(** The loop [for i := len(ftab) - 1; i > 0; i-- { ftab[i] = ftab[i-1] }],
    entered with [i]. *)
Fixpoint shiftRight (i : nat) (l : list functab) : list functab :=
  match i with
  | O => l
  | S j =>
      match l !! j with
      | Some x => shiftRight j (<[S j := x]> l)
      | None => l
      end
  end.

(** [module.ftab[0].entry = v] and the like. *)
Definition set_entry (l : list functab) (i : Z) (v : Z) : outcome (list functab) :=
  f ← index l i;
  set_index l i (mkFunctab v (funcoff f)).

Definition set_funcoff (l : list functab) (i : Z) (v : Z) : outcome (list functab) :=
  f ← index l i;
  set_index l i (mkFunctab (entry f) v).

Section Build.

Variable firstmoduledata : addr.

(** [_funcSize], the size of a [_func], whose declaration is in a
    version-specific file. *)
Variable funcSize : Z.

(** The address at which the allocator places the array of
    [module.pclntable]; the alignment tests of [addFuncTab] depend on it. *)
Variable pclnBase : Z.

(** [addFuncTab] (go1.8 to go1.11) on the function table [mftab] of the
    module and the running offset [pclnOff] into its [pclntable] of length
    [pclnLen].  The counters [npcdata] and [nfuncdata] are 32 bits wide. *)
Definition addFuncTab (c : CodeReloc) (sg : segment) (pclnLen : Z) (i : Z)
    (s : list functab * Z) : outcome (list functab * Z) :=
  let '(mftab, pclnOff) := s in
  f ← index (ftab (Mod c)) i;
  e ← index (symAddrs sg) (int (entry f));
  mftab ← set_entry mftab i (uintptr e);
  _ ← check_index pclnLen pclnOff;
  let pclnOff :=
    if (PtrSize =? 8) && negb (Z.land (uintptr (pclnBase + pclnOff)) 4 =? 0)
    then pclnOff ⊞ 4 else pclnOff in
  mftab ← set_funcoff mftab i (uintptr pclnOff);
  fi ← index (funcinfo (Mod c)) i;
  _ ← check_slice pclnLen pclnOff;
  let pclnOff := pclnOff ⊞ funcSize in
  pclnOff ←
    (if 0 <? len (pcdata fi) then
       _ ← check_slice pclnLen pclnOff;
       Done (pclnOff ⊞ int (int32 (4 * npcdata fi)))
     else Done pclnOff);
  _ ← foldM (λ v (_ : unit),
               if v =? 0 then Done tt
               else m ← index (stkmaps (Mod c)) v; _ ← index m 0; Done tt)
        (funcdata fi) tt;
  _ ← check_index pclnLen (pclnOff ⊟ 1);
  pclnOff ←
    (if (PtrSize =? 8) && negb (Z.land (uintptr (pclnBase + (pclnOff - 1) + 1)) 4 =? 0)
     then _ ← check_slice pclnLen pclnOff; Done (pclnOff ⊞ 4)
     else Done pclnOff);
  _ ← check_slice pclnLen pclnOff;
  _ ← index (funcdata fi) 0;
  Done (mftab, pclnOff ⊞ int (int32 (PtrSize * nfuncdata fi))).

Definition cm_publish (a : addr) (c : CodeReloc) (cm : CodeModule) : CodeModule :=
  mkCodeModule (cm_Syms cm) (CodeBytePtr cm) (CodeByte cm) (Some a)
    (pcfunc (Mod c)) (stkmaps (Mod c)) (itabs cm) (itabSyms cm) (typemap cm).

(** [buildModule]; [aModule] is the address of the local [module], which
    escapes to the heap. *)
Definition buildModule (aModule : addr) (st : loadState) (w : world)
  : outcome (loadState * world) :=
  let c := code st in
  let sg := seg st in
  let n := len (ftab (Mod c)) in
  let pclnOff := len (pclntable (Mod c)) in
  let pclnLen := len (pclntable (Mod c)) ⊞ imul (funcSize ⊞ 128) n in
  _ ← check_slice pclnLen 0;
  _ ← index (pcfunc (Mod c)) 0;
  _ ← index (codeByte sg) 0;
  let minpc := uintptr (codeBytePtr sg) in
  _ ← index (codeByte sg) (len (Code c) ⊟ 1);
  let maxpc := uintptr (uintptr (codeBytePtr sg + (len (Code c) ⊟ 1)) + 2) in
  r ← foldM (addFuncTab c sg pclnLen) (map Z.of_nat (seq 0 (length (ftab (Mod c)))))
        (ftab (Mod c), pclnOff);
  let '(mftab, pclnOff) := r in
  _ ← check_slice pclnLen pclnOff;
  let mftab := mftab ++ [mkFunctab 0 0] in
  let mftab := shiftRight (length mftab - 1) mftab in
  let mftab := mftab ++ [mkFunctab 0 0] in
  mftab ← set_entry mftab 0 minpc;
  mftab ← set_entry mftab (len mftab - 1) maxpc;
  let module :=
    mkModuledata pclnOff mftab (filetab (Mod c)) (pcfunc (Mod c)) minpc maxpc
      (uintptr (codeBase sg)) (uintptr (codeBase sg ⊞ len (Code c)))
      (uintptr (codeBase sg)) (uintptr (codeBase sg ⊞ codeLen sg))
      (typemap (codeModule st)) None in
  w ← Lock w;
  w ← addModule firstmoduledata aModule (set_heap (<[aModule := module]> (heap w)) w);
  w ← Unlock w;
  cb ← copy_at (codeByte sg) 0 (Code c);
  cb ← copy_at cb (len (Code c)) (Data c);
  let cm := cm_set_CodeByte (codeBytePtr sg) cb (cm_publish aModule c (codeModule st)) in
  Done (mkLoadState c cm (seg_set_codeByte cb sg), w).

End Build.

(** ** Load *)

(** What [Load] hands back: the two results, and the image and the symbol
    map as the call leaves them. *)
Record loadResult : Type := mkLoadResult {
  lr_module : option CodeModule;
  lr_error : option string;
  lr_code : CodeReloc;
  lr_symPtr : gmap string Z
}.

Section Load.

Variable TLSNAME : string.
Variable RegTLS : gmap string Z → Z → gmap string Z.
Variable rangeOrder : gmap string Z → list (string * Z).
Variable addIFaceSubFuncType :
  gmap string Z → gmap Z Z → Z → Z → list Z →
  outcome (gmap string Z * gmap Z Z * list Z).
Variable getitab : Z → Z → bool → Z.
Variable firstmoduledata : addr.
Variable funcSize : Z.
Variable pclnBase : Z.

(** [Mmap(size)], declared in another file of the package: an error, or
    the address and the bytes of the region. *)
Variable Mmap : Z → world → string + (Z * list Z).

(** The address the allocator gives the [moduledata] of the load. *)
Variable allocModule : world → addr.

(** The body of [Load] between the allocation of the region and the
    [return] statements. *)
Definition loadPhases (c : CodeReloc) (symPtr : gmap string Z) (w : world)
    (region : Z * list Z) : outcome (gmap string Z * loadState * world) :=
  let '(base, bytes) := region in
  let cLen := len (Code c) ⊞ len (Data c) in
  let maxLen := imul cLen 2 in
  let w := emit (EvMmap base maxLen)
             (mkWorld (heap w) (modules w) (locked w) ({[base]} ∪ mapped w)
                (trace w)) in
  let cm := mkCodeModule ∅ 0 [] None [] [] [] [] ∅ in
  let sg := mkSegment (int base) (int base ⊞ len (Code c)) cLen maxLen cLen
              (replicate (length (Syms c)) 0) ∅ ∅ base bytes ∅ "" in
  r ← addSymAddrs TLSNAME RegTLS symPtr (mkLoadState c cm sg);
  let '(symPtr, st) := r in
  st ← addItab rangeOrder addIFaceSubFuncType st;
  st ← relocate TLSNAME symPtr st;
  r ← buildModule firstmoduledata funcSize pclnBase (allocModule w) st w;
  let '(st, w) := r in
  st ← relocateItab getitab st;
  Done (symPtr, st, w).

Definition Load (c : CodeReloc) (symPtr : gmap string Z) (w : world)
  : outcome (loadResult * world) :=
  let cLen := len (Code c) ⊞ len (Data c) in
  let maxLen := imul cLen 2 in
  match Mmap maxLen w with
  | inl e => Done (mkLoadResult None (Some e) c symPtr, w)
  | inr region =>
      r ← loadPhases c symPtr w region;
      let '(symPtr, st, w) := r in
      if 0 <? Z.of_nat (String.length (err (seg st)))
      then Done (mkLoadResult (Some (codeModule st)) (Some (err (seg st)))
                   (code st) symPtr, w)
      else Done (mkLoadResult (Some (codeModule st)) None (code st) symPtr, w)
  end.

End Load.

(** ** The symbol table builder *)

(** What the object parser hands over: a relocation names its target, and
    a symbol comes with the bytes the builder reads for it from the object
    file ([Data.Size] bytes at [Data.Offset]). *)
Record goReloc : Type := mkGoReloc {
  re_Offset : Z;
  re_Size : Z;
  re_Sym : string;
  re_Type : Z;
  re_Add : Z
}.

Record goSym : Type := mkGoSym {
  gs_Name : string;
  gs_Kind : Z;
  gs_DupOK : bool;
  gs_Data : list Z;
  gs_Reloc : list goReloc
}.

(** The state of one build: the image under construction, the interning
    map, and the two maps that only [readFuncData] uses. *)
Record buildState : Type := mkBuildState {
  reloc : CodeReloc;
  symMap : gmap string Z;
  gcObjs : gmap string Z;
  fileTabOffsetMap : gmap string Z
}.

Definition bs_set_reloc (r : CodeReloc) (bs : buildState) : buildState :=
  mkBuildState r (symMap bs) (gcObjs bs) (fileTabOffsetMap bs).

(** [addSym(symMap, &reloc.Syms, rsym)] *)
Definition addSym (rsym : SymData) (bs : buildState) : outcome (Z * buildState) :=
  let r := reloc bs in
  match symMap bs !! Sym_Name rsym with
  | None =>
      let off := len (Syms r) in
      Done (off,
            mkBuildState (mkCodeReloc (Code r) (Data r) (Mod r) (Syms r ++ [rsym]))
              (<[Sym_Name rsym := off]> (symMap bs)) (gcObjs bs) (fileTabOffsetMap bs))
  | Some off =>
      syms ← set_index (Syms r) off rsym;
      Done (off, bs_set_reloc (mkCodeReloc (Code r) (Data r) (Mod r) syms) bs)
  end.

(** [strings.TrimLeft], [strings.TrimRight] and [strings.Trim] for a cutset
    of ASCII characters. *)
Fixpoint inCutset (c : ascii) (cutset : string) : bool :=
  match cutset with
  | EmptyString => false
  | String d rest => Ascii.eqb c d || inCutset c rest
  end.

Fixpoint TrimLeft (s cutset : string) : string :=
  match s with
  | EmptyString => EmptyString
  | String c rest => if inCutset c cutset then TrimLeft rest cutset else s
  end.

Fixpoint strRev (s acc : string) : string :=
  match s with
  | EmptyString => acc
  | String c rest => strRev rest (String c acc)
  end.

Definition TrimRight (s cutset : string) : string :=
  strRev (TrimLeft (strRev s EmptyString) cutset) EmptyString.

Definition Trim (s cutset : string) : string :=
  TrimRight (TrimLeft s cutset) cutset.

(** [[]byte(s)] *)
Fixpoint bytesOf (s : string) : list Z :=
  match s with
  | EmptyString => []
  | String c rest => Z.of_nat (nat_of_ascii c) :: bytesOf rest
  end.

Section Builder.

Variable TLSNAME : string.
Variable R_CALLIND_NAME : string.

(** [readFuncData], declared in another file of the package: it fills the
    function metadata of the image and the two maps; it is handed neither
    the symbols nor the blobs nor the interning map. *)
Variable readFuncData :
  Module → goSym → gmap string goSym → gmap string Z → gmap string Z → Z → Z →
  Module * gmap string Z * gmap string Z.

(** The symbol record made for a relocation target that no compilation
    unit defines, and the bytes it adds to the data blob. *)
Definition externalSym (re : goReloc) (dataLen : Z) : SymData * list Z :=
  let name := re_Sym re in
  let off := -1 in
  let '(name, off) :=
    if re_Type re =? R_TLS_LE then (TLSNAME, int (re_Offset re)) else (name, off) in
  let '(name, off) :=
    if re_Type re =? R_CALLIND then (R_CALLIND_NAME, 0) else (name, off) in
  if HasPrefix name "type..importpath." then
    let path := Trim (TrimLeft name "type..importpath.") "." in
    (mkSymData name 0 dataLen [], bytesOf path ++ [0])
  else (mkSymData name 0 off [], []).

(** [relocSym]; the recursion is bounded by [fuel].  The bytes of the
    symbol are those that [gs_Data] holds: the model starts where
    [file.Read] has filled [code].  A read that fails ends the program in
    the panic of [assert]; that outcome is not part of the model, whose
    runs are the runs of the program in which every read succeeds. *)
Fixpoint relocSym (fuel : nat) (allSyms : gmap string goSym) (curSym : goSym)
    (bs : buildState) : outcome (Z * buildState) :=
  match fuel with
  | O => Fault OutOfFuel
  | S fuel' =>
      match symMap bs !! gs_Name curSym with
      | Some curSymOffset => Done (curSymOffset, bs)
      | None =>
          r ← addSym (mkSymData (gs_Name curSym) (gs_Kind curSym) 0 []) bs;
          let '(curSymOffset, bs) := r in
          let cr := reloc bs in
          let '(symOffset, bs) :=
            if gs_Kind curSym =? STEXT then
              let off := len (Code cr) in
              let '(m, g, f) :=
                readFuncData (Mod cr) curSym allSyms (gcObjs bs)
                  (fileTabOffsetMap bs) curSymOffset off in
              (off,
               mkBuildState
                 (mkCodeReloc (Code cr ++ gs_Data curSym) (Data cr) m (Syms cr))
                 (symMap bs) g f)
            else
              (len (Data cr),
               bs_set_reloc
                 (mkCodeReloc (Code cr) (Data cr ++ gs_Data curSym) (Mod cr) (Syms cr))
                 bs) in
          let rsym := mkSymData (gs_Name curSym) (gs_Kind curSym) symOffset [] in
          r ← addSym rsym bs;
          let '(_, bs) := r in
          r ← foldM
                (λ re (acc : list Reloc * buildState),
                   let '(relocs, bs) := acc in
                   r ← match allSyms !! re_Sym re with
                       | Some s => relocSym fuel' allSyms s bs
                       | None =>
                           let cr := reloc bs in
                           let '(exSym, pathb) := externalSym re (len (Data cr)) in
                           addSym exSym
                             (bs_set_reloc
                                (mkCodeReloc (Code cr) (Data cr ++ pathb) (Mod cr) (Syms cr))
                                bs)
                       end;
                   let '(symOff, bs) := r in
                   Done (relocs ++
                           [mkReloc (int (re_Offset re) ⊞ symOffset) symOff
                              (int (re_Size re)) (int (re_Type re)) (int (re_Add re))],
                         bs))
                (gs_Reloc curSym) ([], bs);
          let '(relocs, bs) := r in
          let cr := reloc bs in
          old ← index (Syms cr) curSymOffset;
          syms ← set_index (Syms cr) curSymOffset
                   (mkSymData (Sym_Name old) (Sym_Kind old) (Sym_Offset old) relocs);
          Done (curSymOffset,
                bs_set_reloc (mkCodeReloc (Code cr) (Data cr) (Mod cr) syms) bs)
      end
  end.

(** The loop over the symbols of the parsed objects that [ReadObj] and
    [ReadObjs] share: the roots are the text symbols that are not marked
    duplicate-OK and the read-only data whose name starts with [type.]. *)
Definition isRoot (s : goSym) : bool :=
  ((gs_Kind s =? STEXT) && negb (gs_DupOK s))
  || ((gs_Kind s =? SRODATA) && HasPrefix (gs_Name s) "type.").

Definition readRoots (fuel : nat) (allSyms : gmap string goSym) (syms : list goSym)
    (bs : buildState) : outcome buildState :=
  foldM (λ s bs, if isRoot s
                 then r ← relocSym fuel allSyms s bs; Done r.2
                 else Done bs)
    syms bs.

(** [allSyms[sym.Name] = symFile{...}] for every symbol of every object. *)
Definition collectSyms (objs : list (list goSym)) : gmap string goSym :=
  fold_left (λ m s, <[gs_Name s := s]> m) (concat objs) ∅.

Definition emptyBuild : buildState :=
  mkBuildState (mkCodeReloc [] [] (mkModule [] [] [] [] [] []) []) ∅ ∅ ∅.

(** [ReadObjs] after the files are opened and parsed; every recursive call
    of [relocSym] interns a name of [allSyms] that was not interned before,
    which bounds the depth. *)
Definition ReadObjs (objs : list (list goSym)) : outcome CodeReloc :=
  let allSyms := collectSyms objs in
  bs ← readRoots (S (size allSyms)) allSyms (concat objs) emptyBuild;
  Done (reloc bs).

End Builder.

(** ** Notions the specification uses *)

(** [z] is representable as a signed integer of [bits] bits. *)
Definition fits_signed (bits z : Z) : Prop :=
  - 2 ^ (bits - 1) ≤ z < 2 ^ (bits - 1).

#[export] Instance fits_signed_dec bits z : Decision (fits_signed bits z).
Proof. unfold fits_signed. apply _. Defined.

(** The A64 instructions [MOVZ Xd, #imm16] and [MOVK Xd, #imm16, LSL #16]. *)
Definition movz (rd imm16 : Z) : Z :=
  Z.lor (Z.lor rd 0xD2800000) (Z.shiftl imm16 5).
Definition movk16 (rd imm16 : Z) : Z :=
  Z.lor (Z.lor rd 0xF2A00000) (Z.shiftl imm16 5).

(** The two words at the site load the 32-bit value [v] into register [rd]. *)
Definition movPair (res : list Z) (rd v : Z) : Prop :=
  Uint32 res 0 = Done (movz rd (Z.land v 0xffff))
  ∧ Uint32 res 4 = Done (movk16 rd (Z.shiftr v 16)).

(** [relocADRP] answers with the mov pair for the register of the adrp. *)
Definition emitsMovPair (mCode : list Z) (pc symAddr : Z) : Prop :=
  ∃ w0 res,
    Uint32 mCode 0 = Done w0
    ∧ relocADRP mCode pc symAddr = Done res
    ∧ movPair res (Z.land w0 0x1f) (uint32 symAddr).

(** The fallback rule as the specification words it: the mov pair exactly
    when the page delta needs more than 33 bits. *)
Definition adrpFallbackBeyond33 (mCode : list Z) (pc symAddr : Z) : Prop :=
  emitsMovPair mCode pc symAddr ↔ ¬ fits_signed 33 (adrpPageOff pc symAddr).

(** Whether the range test of [relocate] sends the site [loc] of [curSym]
    to the trampoline; a site whose target has no resolved-address entry
    does not get that far. *)
Definition siteOverflows (sg : segment) (curSym : SymData) (loc : Reloc) : bool :=
  match symAddrs sg !! Z.to_nat (Reloc_SymOff loc) with
  | None => false
  | Some symAddr =>
      let t := Reloc_Type loc in
      if (t =? R_CALL) || (t =? R_PCREL) then
        pcrelOverflow
          (pcrelOffset symAddr
             (if Sym_Kind curSym =? STEXT then codeBase sg else dataBase sg) loc)
      else if (t =? R_CALLARM) || (t =? R_CALLARM64) then
        armOverflow (armOffset symAddr (codeBase sg) loc)
      else false
  end.

(** The displacement of the site fits the encoding the instruction has by
    nature: 32 signed bits for a call or a PC-relative reference, 24
    signed bits of word offset for the two branch encodings. *)
Definition fitsNatural (sg : segment) (curSym : SymData) (loc : Reloc) : Prop :=
  match symAddrs sg !! Z.to_nat (Reloc_SymOff loc) with
  | None => True
  | Some symAddr =>
      let t := Reloc_Type loc in
      if (t =? R_CALL) || (t =? R_PCREL) then
        fits_signed 32
          (pcrelOffset symAddr
             (if Sym_Kind curSym =? STEXT then codeBase sg else dataBase sg) loc)
      else if (t =? R_CALLARM) || (t =? R_CALLARM64) then
        fits_signed 24 (armOffset symAddr (codeBase sg) loc)
      else True
  end.

(** Every relocation site of the image satisfies [P]. *)
Definition allSites (P : SymData → Reloc → Prop) (c : CodeReloc) : Prop :=
  Forall (λ curSym, Forall (P curSym) (Sym_Reloc curSym)) (Syms c).

(** In the sequence [t] an event [e1] comes before an event [e2]. *)
Definition precedes (e1 e2 : event) (t : list event) : Prop :=
  ∃ i j : nat, (i < j)%nat ∧ t !! i = Some e1 ∧ t !! j = Some e2.

(** The order of [Unload] as the specification words it: the events the
    call adds have the unlinking before the collection and the collection
    before the unmapping. *)
Definition unlinkCollectUnmap (first : addr) (cm : CodeModule) (w : world) : Prop :=
  ∃ w', Unload first cm w = Done w'
    ∧ let t := drop (length (trace w)) (trace w') in
      precedes (EvUnlink (cm_Module cm)) EvGC t
      ∧ precedes EvGC (EvMunmap (CodeBytePtr cm)) t.




(** ** Relations between states that the proofs use *)

(** The word that [Uint32] reads back from four bytes. *)
Definition word_of (b0 b1 b2 b3 : Z) : Z :=
  Z.lor (Z.lor (Z.lor b0 (Z.shiftl b1 8)) (Z.shiftl b2 16)) (Z.shiftl b3 24).

(** The parts of the state that [relocate] only reads. *)
Definition same_static (st st' : loadState) : Prop :=
  Syms (code st') = Syms (code st)
  ∧ symAddrs (seg st') = symAddrs (seg st)
  ∧ codeBase (seg st') = codeBase (seg st)
  ∧ dataBase (seg st') = dataBase (seg st)
  ∧ maxCodeLen (seg st') = maxCodeLen (seg st)
  ∧ itabMap (seg st') = itabMap (seg st).

(** The trampoline allocator: the bump offset and the mapped bytes. *)
Definition same_trampoline (st st' : loadState) : Prop :=
  offset (seg st') = offset (seg st) ∧ codeByte (seg st') = codeByte (seg st).

(** The interning map only grows: a name keeps the index it has. *)
Definition interned_mono (bs bs' : buildState) : Prop :=
  ∀ n j, symMap bs !! n = Some j → symMap bs' !! n = Some j.

(** The names of [allSyms] that are not interned yet. *)
Definition pending (allSyms : gmap string goSym) (bs : buildState) : gset string :=
  dom allSyms ∖ dom (symMap bs).

(** The report of [st'] continues the report of [st]. *)
Definition report_extends (st st' : loadState) : Prop :=
  ∃ t, err (seg st') = (err (seg st) ++ t)%string.

(** ** Concrete images and collaborators for the examples *)

(** An [adrp x0, 0] followed by [add x0, x0, #0]. *)
Definition adrpSite : list Z := [0x00; 0x00; 0x00; 0x90; 0x00; 0x00; 0x00; 0x91].

Definition noModule : CodeModule := mkCodeModule ∅ 0 [] None [] [] [] [] ∅.
Definition noMod : Module := mkModule [] [] [] [] [] [].

(** The function metadata of an image with one function, the symbol of
    index 0. *)
Definition fnMod : Module :=
  mkModule (replicate 8 0) [mkBucket 0 (replicate 16 0)]
    [mkFuncInfo 0 0 1 [] [0]] [mkFunctab 0 0] [] [].

(** A function [main.f] of sixteen bytes at the start of the code blob,
    with a call at offset 1 (opcode [e8], displacement at offset 2) to
    [main.g], which the host process holds. *)
Definition callSite : Reloc := mkReloc 2 1 4 R_CALL 0.
Definition callSyms : list SymData :=
  [mkSymData "main.f" STEXT 0 [callSite]; mkSymData "main.g" Sxxx (-1) []].
Definition callImage : CodeReloc :=
  mkCodeReloc
    [0x90; 0xe8; 0; 0; 0; 0; 0x90; 0x90; 0x90; 0x90; 0x90; 0x90; 0x90; 0x90; 0x90; 0xc3]
    [] fnMod callSyms.

(** The state in which [relocate] finds a load of [callImage] into a
    region mapped at [0x20000000], with [main.g] resolved to [gAddr]. *)
Definition callState (gAddr : Z) : loadState :=
  mkLoadState callImage
    (mkCodeModule {["main.f" := 0x20000000]} 0 [] None [] [] [] [] ∅)
    (mkSegment 0x20000000 0x20000010 16 32 16 [0x20000000; gAddr] ∅ ∅
       0x20000000 (replicate 32 0) ∅ "").

(** A function of eight bytes with the same call, loaded into a region of
    sixteen bytes, and [main.g] five GiB away. *)
Definition farHost : gmap string Z := {["main.g" := 0x160000000]}.
Definition smallCallImage : CodeReloc :=
  mkCodeReloc [0x90; 0xe8; 0; 0; 0; 0; 0x90; 0xc3] [] fnMod callSyms.
Definition smallCallState : loadState :=
  mkLoadState smallCallImage
    (mkCodeModule {["main.f" := 0x20000000]} 0 [] None [] [] [] [] ∅)
    (mkSegment 0x20000000 0x20000008 8 16 8 [0x20000000; 0x160000000] ∅ ∅
       0x20000000 (replicate 16 0) ∅ "").

(** A function of twelve bytes that starts with a [bl] to [main.g], loaded
    into a region of twenty-four bytes. *)
Definition blImage : CodeReloc :=
  mkCodeReloc [0; 0; 0; 0x94; 0x1f; 0x20; 0x03; 0xd5; 0xc0; 0x03; 0x5f; 0xd6] [] fnMod
    [mkSymData "main.f" STEXT 0 [mkReloc 0 1 4 R_CALLARM64 0];
     mkSymData "main.g" Sxxx (-1) []].
Definition blState : loadState :=
  mkLoadState blImage
    (mkCodeModule {["main.f" := 0x20000000]} 0 [] None [] [] [] [] ∅)
    (mkSegment 0x20000000 0x2000000c 12 24 12 [0x20000000; 0x160000000] ∅ ∅
       0x20000000 (replicate 24 0) ∅ "").

Definition hostModule (next : option addr) : moduledata :=
  mkModuledata 0 [] [] [] 0 0 0 0 0 0 ∅ next.

(** A process whose module list holds the run-time's own module at
    address 1 and a module at address 2; the node at address 3 is built and
    not yet linked. *)
Definition hostWorld : world :=
  mkWorld
    (<[1 := hostModule (Some 2)]> (<[2 := hostModule None]>
       (<[3 := hostModule None]> ∅)))
    {[2]} false ∅ [].

(** The module of the node at address 2, with its region at [0x20000000]. *)
Definition loadedModule : CodeModule :=
  mkCodeModule ∅ 0x20000000 [] (Some 2) [] [] [] [] ∅.

Definition loadedWorld : world :=
  mkWorld
    (<[1 := hostModule (Some 2)]> (<[2 := hostModule None]> ∅))
    {[2]} false {[0x20000000]} [].

(** A thread-local access at offset 9 of [main.f]; on amd64 the
    relocation names no symbol. *)
Definition tlsReloc : goReloc := mkGoReloc 9 4 "" R_TLS_LE 0.

Definition tlsState : loadState :=
  mkLoadState
    (mkCodeReloc (replicate 16 0x90) [] noMod
       [mkSymData "main.f" STEXT 0 [mkReloc 9 1 4 R_TLS_LE 0];
        (externalSym "(TLS)" "R_CALLIND" tlsReloc 0).1])
    noModule
    (mkSegment 0x20000000 0x20000010 16 32 16 [0; 0] ∅ ∅ 0x20000000
       (replicate 32 0) ∅ "").

(** An image with one function of sixteen bytes, resolved and relocated
    in a region mapped at [0x20000000]. *)
Definition fnImage : CodeReloc :=
  mkCodeReloc (replicate 16 0x90) [] fnMod [mkSymData "main.f" STEXT 0 []].
Definition fnState : loadState :=
  mkLoadState fnImage noModule
    (mkSegment 0x20000000 0x20000010 16 32 16 [0x20000000] ∅ ∅ 0x20000000
       (replicate 32 0) ∅ "").

Definition fnBuilt : outcome (loadState * world) :=
  buildModule 1 40 0x1000 3 fnState loadedWorld.

(** Collaborators for the examples: an allocator that maps every region
    at [0x20000000] and refuses the empty one, a host without dispatch
    tables, and the thread-local registration as a map update. *)
Definition demoMmap (n : Z) (w : world) : string + (Z * list Z) :=
  if n <=? 0 then inl "mmap: invalid argument"
  else inr (0x20000000, replicate (Z.to_nat n) 0).
Definition demoRegTLS (sp : gmap string Z) (off : Z) : gmap string Z :=
  <["(TLS)" := off]> sp.
Definition demoSubFuncType (ft : gmap string Z) (tm : gmap Z Z) (inter cb : Z)
    (sa : list Z) : outcome (gmap string Z * gmap Z Z * list Z) :=
  Done (ft, tm, sa).

Definition demoLoad (c : CodeReloc) (symPtr : gmap string Z) (w : world)
  : outcome (loadResult * world) :=
  Load "(TLS)" demoRegTLS map_to_list demoSubFuncType (λ _ _ _, 0) 1 40 0x1000
    demoMmap (λ _, 3) c symPtr w.

(** The first phase of [demoLoad] for an image of two symbols with a code
    blob of [n] bytes. *)
Definition demoResolve (c : CodeReloc) (symPtr : gmap string Z)
  : outcome (gmap string Z * loadState) :=
  let n := len (Code c) in
  addSymAddrs "(TLS)" demoRegTLS symPtr
    (mkLoadState c noModule
       (mkSegment 0x20000000 (0x20000000 + n) n (2 * n) n [0; 0] ∅ ∅ 0x20000000
          (replicate (Z.to_nat (2 * n)) 0) ∅ "")).


Definition demoReadFuncData (m : Module) (s : goSym) (all : gmap string goSym)
    (g f : gmap string Z) (cur off : Z) : Module * gmap string Z * gmap string Z :=
  (mkModule (pclntable m) (pcfunc m) (funcinfo m) (ftab m ++ [mkFunctab cur 0])
     (filetab m) (stkmaps m), g, f).

(** Two functions that call each other; the second also calls a function
    of the host. *)
Definition objF : goSym :=
  mkGoSym "main.f" STEXT false [0xe8; 0; 0; 0; 0; 0xc3]
    [mkGoReloc 1 4 "main.g" R_CALL 0].
Definition objG : goSym :=
  mkGoSym "main.g" STEXT false [0xe8; 0; 0; 0; 0; 0xe8; 0; 0; 0; 0; 0xc3]
    [mkGoReloc 1 4 "main.f" R_CALL 0; mkGoReloc 6 4 "fmt.Println" R_CALL 0].
Definition demoSyms : gmap string goSym := collectSyms [[objF; objG]].

Definition demoIntern (fuel : nat) (s : goSym) (bs : buildState)
  : outcome (Z * buildState) :=
  relocSym "(TLS)" "R_CALLIND" demoReadFuncData fuel demoSyms s bs.

(** ** Further definitions *)

(** A process whose module list holds three nodes: the run-time's own
    module at address 1 and two loaded modules at the addresses 2 and 3. *)
Definition listWorld : world :=
  mkWorld
    (<[1 := hostModule (Some 2)]> (<[2 := hostModule (Some 3)]>
       (<[3 := hostModule None]> ∅)))
    {[2; 3]} false ∅ [].

(** What [relocate] leaves alone: it patches bytes of the two blobs and of
    the mapped region in place, moves the bump offset, appends to the
    report and to the list of deferred dispatch-table sites, and changes
    nothing else, in particular not a length. *)
Definition patched_in_place (st st' : loadState) : Prop :=
  Syms (code st') = Syms (code st)
  ∧ Mod (code st') = Mod (code st)
  ∧ length (Code (code st')) = length (Code (code st))
  ∧ length (Data (code st')) = length (Data (code st))
  ∧ length (codeByte (seg st')) = length (codeByte (seg st))
  ∧ symAddrs (seg st') = symAddrs (seg st)
  ∧ codeBase (seg st') = codeBase (seg st)
  ∧ dataBase (seg st') = dataBase (seg st)
  ∧ codeLen (seg st') = codeLen (seg st)
  ∧ maxCodeLen (seg st') = maxCodeLen (seg st)
  ∧ codeBytePtr (seg st') = codeBytePtr (seg st)
  ∧ itabMap (seg st') = itabMap (seg st)
  ∧ funcType (seg st') = funcType (seg st)
  ∧ typeSymPtr (seg st') = typeSymPtr (seg st)
  ∧ cm_Syms (codeModule st') = cm_Syms (codeModule st)
  ∧ cm_Module (codeModule st') = cm_Module (codeModule st)
  ∧ itabSyms (codeModule st') = itabSyms (codeModule st)
  ∧ typemap (codeModule st') = typemap (codeModule st).

(** The number that little-endian bytes stand for. *)
Fixpoint le_value (bs : list Z) : Z :=
  match bs with
  | [] => 0
  | b :: rest => b + 256 * le_value rest
  end.

(** The target of the site [loc] is the symbol [sym], resolved to the
    address [symAddr]: [relocate] neither skips the site as unresolved nor
    defers it as a dispatch table that is still to be built. *)
Definition resolvedTarget (st : loadState) (loc : Reloc) (sym : SymData) (symAddr : Z)
  : Prop :=
  index (Syms (code st)) (Reloc_SymOff loc) = Done sym
  ∧ index (symAddrs (seg st)) (Reloc_SymOff loc) = Done symAddr
  ∧ symAddr ≠ -1
  ∧ (symAddr =? 0) && HasPrefix (Sym_Name sym) "go.itab" = false.

(** The function [main.f] of [callImage] as a symbol record. *)
Definition callF : SymData := mkSymData "main.f" STEXT 0 [callSite].

(** A table in the data blob whose second word is the address of
    [main.f], in a region mapped at [0x20000000]. *)
Definition addrSite : Reloc := mkReloc 8 0 8 R_ADDR 0.
Definition addrTab : SymData := mkSymData "main.tab" SRODATA 0 [addrSite].
Definition addrState : loadState :=
  mkLoadState
    (mkCodeReloc (replicate 16 0x90) (replicate 16 0) noMod
       [mkSymData "main.f" STEXT 0 []; addrTab])
    noModule
    (mkSegment 0x20000000 0x20000010 32 64 32 [0x20000000; 0x20000010] ∅ ∅
       0x20000000 (replicate 64 0) ∅ "").

(** A function of sixteen bytes that starts with a [bl] to [main.g], in a
    region of thirty-two bytes, with [main.g] resolved to [gAddr]. *)
Definition blSite : Reloc := mkReloc 0 1 4 R_CALLARM64 0.
Definition blF : SymData := mkSymData "main.f" STEXT 0 [blSite].
Definition blRoomState (gAddr : Z) : loadState :=
  mkLoadState
    (mkCodeReloc
       [0; 0; 0; 0x94; 0x1f; 0x20; 0x03; 0xd5; 0x1f; 0x20; 0x03; 0xd5;
        0xc0; 0x03; 0x5f; 0xd6]
       [] fnMod [blF; mkSymData "main.g" Sxxx (-1) []])
    (mkCodeModule {["main.f" := 0x20000000]} 0 [] None [] [] [] [] ∅)
    (mkSegment 0x20000000 0x20000010 16 32 16 [0x20000000; gAddr] ∅ ∅
       0x20000000 (replicate 32 0) ∅ "").

(** The site of the thread-local access of [tlsState]. *)
Definition tlsSite : Reloc := mkReloc 9 1 4 R_TLS_LE 0.

(** An outcome that is a result with the property [P], or the exhaustion
    of the recursion bound of the model: not a panic. *)
Definition returns {A} (P : A → Prop) (o : outcome A) : Prop :=
  match o with
  | Done a => P a
  | Fault f => f = OutOfFuel
  end.

(** The interning map and the symbol array of a build agree: a name is
    interned under the position of the record that carries it, and every
    record is interned under its position. *)
Definition interned_wf (bs : buildState) : Prop :=
  (∀ n i, symMap bs !! n = Some i →
          0 ≤ i ∧ ∃ s, Syms (reloc bs) !! Z.to_nat i = Some s ∧ Sym_Name s = n)
  ∧ (∀ (k : nat) s, Syms (reloc bs) !! k = Some s →
                    symMap bs !! Sym_Name s = Some (Z.of_nat k)).

(** Every relocation of every record names a position of the array. *)
Definition relocs_in_range (syms : list SymData) : Prop :=
  Forall (λ s, Forall (λ loc, 0 ≤ Reloc_SymOff loc < len syms) (Sym_Reloc s)) syms.

Definition build_wf (bs : buildState) : Prop :=
  interned_wf bs ∧ relocs_in_range (Syms (reloc bs)).

(** The bytes [bs] stand in [blob] from the offset [off] on. *)
Definition holds_at (blob : list Z) (off : Z) (bs : list Z) : Prop :=
  ∃ pre post, blob = pre ++ bs ++ post ∧ off = len pre.

Section Layout.

Variable TLSNAME : string.
Variable R_CALLIND_NAME : string.

(** The name of the record that the relocation [re] of a parsed symbol is
    made to point at: the target itself when a compilation unit defines
    it, the record of an external symbol otherwise. *)
Definition targetName (allSyms : gmap string goSym) (re : goReloc) : string :=
  match allSyms !! re_Sym re with
  | Some s => gs_Name s
  | None => Sym_Name (externalSym TLSNAME R_CALLIND_NAME re 0).1
  end.

(** The relocation [loc] of a record placed at [symOffset] is the
    relocation [re] of the parsed symbol: the offset rebased to the blob,
    size, type and addend as parsed, and the position of the target's
    record in the array [syms]. *)
Definition reloc_of (allSyms : gmap string goSym) (syms : list SymData)
    (symOffset : Z) (re : goReloc) (loc : Reloc) : Prop :=
  Reloc_Offset loc = int (re_Offset re) ⊞ symOffset
  ∧ Reloc_Size loc = int (re_Size re)
  ∧ Reloc_Type loc = int (re_Type re)
  ∧ Reloc_Add loc = int (re_Add re)
  ∧ ∃ t, syms !! Z.to_nat (Reloc_SymOff loc) = Some t
         ∧ Sym_Name t = targetName allSyms re.

(** The record [s] places the parsed symbol [g] in the image [c]: name
    and kind are those of [g], and the bytes of [g] stand at the offset of
    the record in the code blob (text) or in the data blob (all else). *)
Definition placed (c : CodeReloc) (g : goSym) (s : SymData) : Prop :=
  Sym_Name s = gs_Name g
  ∧ Sym_Kind s = gs_Kind g
  ∧ holds_at (if gs_Kind g =? STEXT then Code c else Data c) (Sym_Offset s) (gs_Data g).

(** The record [s] lays the parsed symbol [g] out in the image [c]: it
    places it, and its relocations are those of [g], one for one. *)
Definition lays_out (allSyms : gmap string goSym) (c : CodeReloc) (g : goSym)
    (s : SymData) : Prop :=
  placed c g s
  ∧ Forall2 (reloc_of allSyms (Syms c) (Sym_Offset s)) (gs_Reloc g) (Sym_Reloc s).

(** The invariant of a build between two calls of [relocSym]: every
    record of a defined name places a parsed symbol of the pool and, unless
    the name is one of those under way ([stack]), lays it out; every other
    record is the bare record of an external symbol. *)
Definition layout_inv (allSyms : gmap string goSym) (pool : goSym → Prop)
    (stack : gset string) (bs : buildState) : Prop :=
  (∀ n, n ∈ stack → is_Some (symMap bs !! n))
  ∧ ∀ (k : nat) s, Syms (reloc bs) !! k = Some s →
      (Sym_Name s ∈ dom allSyms →
         ∃ g, pool g ∧ placed (reloc bs) g s
              ∧ (Sym_Name s ∉ stack →
                 Forall2 (reloc_of allSyms (Syms (reloc bs)) (Sym_Offset s))
                   (gs_Reloc g) (Sym_Reloc s)))
      ∧ (Sym_Name s ∉ dom allSyms → Sym_Kind s = 0 ∧ Sym_Reloc s = []).

(** What a build keeps of an earlier state: the blobs only grow at their
    end, an interned name keeps its position, a record keeps its name, and
    the record of a defined name keeps its kind and its offset. *)
Definition build_ext (allSyms : gmap string goSym) (bs bs' : buildState) : Prop :=
  (∃ more, Code (reloc bs') = Code (reloc bs) ++ more)
  ∧ (∃ more, Data (reloc bs') = Data (reloc bs) ++ more)
  ∧ interned_mono bs bs'
  ∧ ∀ (k : nat) s, Syms (reloc bs) !! k = Some s →
      ∃ s', Syms (reloc bs') !! k = Some s' ∧ Sym_Name s' = Sym_Name s
            ∧ (Sym_Name s ∈ dom allSyms →
               Sym_Kind s' = Sym_Kind s ∧ Sym_Offset s' = Sym_Offset s).

End Layout.

(** ** Reading object files *)

(** What [ReadObj] and [ReadObjs] return: the image or nil, and the
    error or nil. *)
Record readResult : Type := mkReadResult {
  rr_reloc : option CodeReloc;
  rr_error : option string
}.

Section Files.

(** An open file, and the two functions of the Go library that the
    readers call: [os.Open], and [goobj.Parse], which yields the symbols
    of the object (each with the bytes the builder will read for it). *)
Variable file : Type.
Variable Open : string → string + file.
Variable Parse : file → string → string + list goSym.

Variable TLSNAME : string.
Variable R_CALLIND_NAME : string.
Variable readFuncData :
  Module → goSym → gmap string goSym → gmap string Z → gmap string Z → Z → Z →
  Module * gmap string Z * gmap string Z.

(** The first loop of [ReadObjs]: every file is opened before any is
    parsed.  (The deferred [Close] calls are left out.) *)
Fixpoint openFiles (files : list string) (fs : list file) : string + list file :=
  match files with
  | [] => inr fs
  | name :: rest =>
      match Open name with
      | inl e => inl e
      | inr f => openFiles rest (fs ++ [f])
      end
  end.

(** The second loop, [for i, f := range fs]: an empty package path is
    replaced by [main] in the caller's slice, and the file is parsed. *)
Fixpoint parseFiles (i : Z) (fs : list file) (pkgPath : list string)
    (goObjs : list (list goSym))
  : outcome (list string * (string + list (list goSym))) :=
  match fs with
  | [] => Done (pkgPath, inr goObjs)
  | f :: rest =>
      p ← index pkgPath i;
      pkgPath ← (if String.eqb p "" then set_index pkgPath i "main" else Done pkgPath);
      p ← index pkgPath i;
      match Parse f p with
      | inl e => Done (pkgPath, inl ("read error: " ++ e)%string)
      | inr obj => parseFiles (i + 1) rest pkgPath (goObjs ++ [obj])
      end
  end.

(** [ReadObjs(files, pkgPath)] from the file names on; the second
    component is the caller's [pkgPath] as the call leaves it. *)
Definition ReadObjsFiles (files pkgPath : list string)
  : outcome (readResult * list string) :=
  match openFiles files [] with
  | inl e => Done (mkReadResult None (Some e), pkgPath)
  | inr fs =>
      r ← parseFiles 0 fs pkgPath [];
      let '(pkgPath, parsed) := r in
      match parsed with
      | inl e => Done (mkReadResult None (Some e), pkgPath)
      | inr objs =>
          c ← ReadObjs TLSNAME R_CALLIND_NAME readFuncData objs;
          Done (mkReadResult (Some c) None, pkgPath)
      end
  end.

(** [ReadObj(f)] *)
Definition ReadObj (f : file) : outcome readResult :=
  match Parse f "main" with
  | inl e => Done (mkReadResult None (Some ("read error: " ++ e)%string))
  | inr obj =>
      let syms := fold_left (λ m s, <[gs_Name s := s]> m) obj ∅ in
      bs ← readRoots TLSNAME R_CALLIND_NAME readFuncData (S (size syms)) syms obj
             emptyBuild;
      Done (mkReadResult (Some (reloc bs)) None)
  end.

End Files.

(** Object files for the examples: a name is that of a file when it is
    not empty, and the file holds the symbols [objF] and [objG]. *)
Definition demoOpen (name : string) : string + string :=
  if String.eqb name "" then inl "open : no such file or directory" else inr name.
Definition demoParse (f : string) (pkg : string) : string + list goSym :=
  inr [objF; objG].

(** A relocation whose target is the import path of the package [os]. *)
Definition importOs : goReloc := mkGoReloc 0 8 "type..importpath.os." R_ADDR 0.

(** The state in which [Load] starts the resolution of [callImage] in a
    region mapped at [0x20000000], and what [addSymAddrs] makes of it
    when the host holds [main.g]. *)
Definition callInit : loadState :=
  mkLoadState callImage noModule
    (mkSegment 0x20000000 0x20000010 16 32 16 [0; 0] ∅ ∅ 0x20000000
       (replicate 32 0) ∅ "").

Definition callResolved : gmap string Z * loadState :=
  Eval vm_compute in
    match addSymAddrs "(TLS)" demoRegTLS farHost callInit with
    | Done x => x
    | Fault _ => (∅, callInit)
    end.

(** What [demoLoad] returns for [fnImage] in [loadedWorld]. *)
Definition fnLoaded : loadResult * world :=
  Eval vm_compute in
    match demoLoad fnImage ∅ loadedWorld with
    | Done x => x
    | Fault _ => (mkLoadResult None None fnImage ∅, loadedWorld)
    end.

(** What [buildModule] leaves of [fnState] in [loadedWorld]. *)
Definition fnBuiltOut : loadState * world :=
  Eval vm_compute in
    match fnBuilt with
    | Done x => x
    | Fault _ => (fnState, loadedWorld)
    end.

(** A function [main.f] with a site of type [R_ADDROFF] at offset 4 whose
    target is the type descriptor [type.T], at offset 4 of the data blob;
    the image is loaded into a region mapped at [0x20000000]. *)
Definition offSite : Reloc := mkReloc 4 1 4 R_ADDROFF 0.
Definition offFn : SymData := mkSymData "main.f" STEXT 0 [offSite].
Definition offType : SymData := mkSymData "type.T" SRODATA 4 [].
Definition offState : loadState :=
  mkLoadState
    (mkCodeReloc (replicate 16 0x90) (replicate 8 0) noMod [offFn; offType])
    noModule
    (mkSegment 0x20000000 0x20000010 24 48 24 [0x20000000; 0x20000014] ∅ ∅
       0x20000000 (replicate 48 0) ∅ "").

(** A module after [buildModule], in a region of thirty-two bytes mapped at
    [0x20000000] with the bump offset at [o]: the site at offset 4 uses a
    dispatch table, which the host has at [ptr]. *)
Definition itabSite : itabReloc := mkItabReloc 4 0 4 R_PCREL 0.
Definition itabState (ptr o : Z) : loadState :=
  mkLoadState fnImage
    (mkCodeModule ∅ 0x20000000 (replicate 16 0x90 ++ replicate 16 0) (Some 3)
       [] [] [itabSite] [mkItabSym ptr 0x1000 0x2000] ∅)
    (mkSegment 0x20000000 0x20000010 16 32 o [0x20000000] ∅ ∅ 0x20000000
       (replicate 16 0x90 ++ replicate 16 0) ∅ "").

(** The state in which [addItab] finds an image whose symbol of index 2 is
    the dispatch table of the type [T] for the interface [I], both
    resolved, and which the host does not hold. *)
Definition itabInit : loadState :=
  mkLoadState
    (mkCodeReloc [] (replicate 24 0) noMod
       [mkSymData "type.I" SRODATA 0 [];
        mkSymData "type.T" SRODATA 8 [];
        mkSymData "go.itab.T,I" SRODATA 16
          [mkReloc 0 0 8 R_ADDR 0; mkReloc 8 1 8 R_ADDR 0]])
    noModule
    (mkSegment 0x20000000 0x20000000 24 48 24 [0x20000000; 0x20000008; 0]
       {["go.itab.T,I" := 2]} ∅ 0x20000000 (replicate 48 0) ∅ "").

(** ** The symbol map after [addSymAddrs] *)

(** Of the statements of the loop of [addSymAddrs] only the call
    [RegTLS(symPtr, sym.Offset)] is given [symPtr] to change: the map after
    the loop over [syms] is the map on entry with [RegTLS] applied once for
    every symbol that is not external and has the thread-local name, in the
    order of the symbols. *)
Definition registerTLS (TLSNAME : string)
    (RegTLS : gmap string Z → Z → gmap string Z) (syms : list SymData)
    (symPtr : gmap string Z) : gmap string Z :=
  fold_left
    (λ sp sym,
       if Sym_Offset sym =? -1 then sp
       else if String.eqb (Sym_Name sym) TLSNAME then RegTLS sp (Sym_Offset sym)
       else sp)
    syms symPtr.

(** ** Images for the examples of [Load] and [buildModule] *)



(** ** Images that [buildModule] can publish *)


(** ** The results of [Load] as the specification words them *)

Section LoadClaim.

Variable TLSNAME : string.
Variable RegTLS : gmap string Z → Z → gmap string Z.
Variable rangeOrder : gmap string Z → list (string * Z).
Variable addIFaceSubFuncType :
  gmap string Z → gmap Z Z → Z → Z → list Z →
  outcome (gmap string Z * gmap Z Z * list Z).
Variable getitab : Z → Z → bool → Z.
Variable firstmoduledata : addr.
Variable funcSize : Z.
Variable pclnBase : Z.
Variable Mmap : Z → world → string + (Z * list Z).
Variable allocModule : world → addr.


End LoadClaim.
(** * Properties *)

(** ** Outcomes and machine integers *)

Lemma bind_Done {A B} (m : outcome A) (k : A → outcome B) (b : B) :
  m ≫= k = Done b → ∃ a, m = Done a ∧ k a = Done b.
Proof. destruct m as [a|f]; simpl; [eauto | discriminate]. Qed.

Ltac inv_bind H :=
  let a := fresh "a" in
  let Ha := fresh "Ha" in
  apply bind_Done in H; destruct H as (a & Ha & H).

Lemma int_id z : in_int z → int z = z.
Proof.
  unfold in_int, int. intros H.
  rewrite Z.mod_small by lia. lia.
Qed.

Lemma int_range z : in_int (int z).
Proof.
  unfold in_int, int.
  pose proof (Z.mod_pos_bound (z + 2 ^ 63) (2 ^ 64) ltac:(lia)). lia.
Qed.

Lemma PtrSize_8 : PtrSize = 8.
Proof. reflexivity. Qed.

(** ** Little-endian words *)

Lemma byte_testbit v i : 0 ≤ i →
  Z.testbit (byte v) i = (i <? 8) && Z.testbit v i.
Proof.
  intros Hi. unfold byte. change 256 with (2 ^ 8).
  destruct (Z.ltb_spec i 8).
  - rewrite Z.mod_pow2_bits_low by lia. reflexivity.
  - rewrite Z.mod_pow2_bits_high by lia. reflexivity.
Qed.

Lemma uint32_testbit v i : 0 ≤ i →
  Z.testbit (uint32 v) i = (i <? 32) && Z.testbit v i.
Proof.
  intros Hi. unfold uint32.
  destruct (Z.ltb_spec i 32).
  - rewrite Z.mod_pow2_bits_low by lia. reflexivity.
  - rewrite Z.mod_pow2_bits_high by lia. reflexivity.
Qed.

Lemma uint32_small v : 0 ≤ v < 2 ^ 32 → uint32 v = v.
Proof. intros H. unfold uint32. apply Z.mod_small. lia. Qed.

Lemma uint32_range v : 0 ≤ uint32 v < 2 ^ 32.
Proof. unfold uint32. apply Z.mod_pos_bound. lia. Qed.

Lemma word_of_le_bytes v :
  word_of (byte v) (byte (Z.shiftr v 8)) (byte (Z.shiftr (Z.shiftr v 8) 8))
    (byte (Z.shiftr (Z.shiftr (Z.shiftr v 8) 8) 8)) = uint32 v.
Proof.
  unfold word_of. apply Z.bits_inj'. intros i Hi.
  rewrite !Z.lor_spec, uint32_testbit by lia.
  rewrite byte_testbit by lia.
  destruct (Z.ltb_spec i 8).
  { rewrite !Z.shiftl_spec_low by lia.
    replace (i <? 32) with true by (symmetry; apply Z.ltb_lt; lia).
    simpl. rewrite !orb_false_r. reflexivity. }
  rewrite Z.shiftl_spec by lia. rewrite byte_testbit by lia.
  rewrite Z.shiftr_spec by lia. replace (i - 8 + 8) with i by lia.
  destruct (Z.ltb_spec i 16).
  { rewrite !Z.shiftl_spec_low by lia.
    replace (i <? 32) with true by (symmetry; apply Z.ltb_lt; lia).
    replace (i - 8 <? 8) with true by (symmetry; apply Z.ltb_lt; lia).
    simpl. rewrite !orb_false_r. reflexivity. }
  rewrite (Z.shiftl_spec _ 16) by lia. rewrite byte_testbit by lia.
  rewrite !Z.shiftr_spec by lia. replace (i - 16 + 8 + 8) with i by lia.
  destruct (Z.ltb_spec i 24).
  { rewrite !Z.shiftl_spec_low by lia.
    replace (i <? 32) with true by (symmetry; apply Z.ltb_lt; lia).
    replace (i - 8 <? 8) with false by (symmetry; apply Z.ltb_ge; lia).
    replace (i - 16 <? 8) with true by (symmetry; apply Z.ltb_lt; lia).
    simpl. rewrite !orb_false_r. reflexivity. }
  rewrite (Z.shiftl_spec _ 24) by lia. rewrite byte_testbit by lia.
  rewrite !Z.shiftr_spec by lia. replace (i - 24 + 8 + 8 + 8) with i by lia.
  replace (i - 8 <? 8) with false by (symmetry; apply Z.ltb_ge; lia).
  replace (i - 16 <? 8) with false by (symmetry; apply Z.ltb_ge; lia).
  simpl.
  destruct (Z.ltb_spec i 32).
  - replace (i - 24 <? 8) with true by (symmetry; apply Z.ltb_lt; lia).
    reflexivity.
  - replace (i - 24 <? 8) with false by (symmetry; apply Z.ltb_ge; lia).
    reflexivity.
Qed.

Lemma lor_range x y n :
  0 ≤ n → 0 ≤ x < 2 ^ n → 0 ≤ y < 2 ^ n → 0 ≤ Z.lor x y < 2 ^ n.
Proof.
  intros Hn Hx Hy. split; [apply Z.lor_nonneg; lia|].
  destruct (Z.eq_dec x 0) as [->|Hx0]; [rewrite Z.lor_0_l; lia|].
  destruct (Z.eq_dec y 0) as [->|Hy0]; [rewrite Z.lor_0_r; lia|].
  assert (0 < Z.lor x y).
  { pose proof (proj2 (Z.lor_nonneg x y) ltac:(lia)).
    destruct (Z.eq_dec (Z.lor x y) 0) as [E|]; [|lia].
    apply Z.lor_eq_0_iff in E. lia. }
  apply Z.log2_lt_pow2; [lia|].
  rewrite Z.log2_lor by lia.
  apply Z.max_lub_lt; apply Z.log2_lt_pow2; lia.
Qed.

Lemma shiftl_range x k n : 0 ≤ k → 0 ≤ n → 0 ≤ x < 2 ^ n → 0 ≤ Z.shiftl x k < 2 ^ (n + k).
Proof.
  intros Hk Hn Hx. rewrite Z.shiftl_mul_pow2 by lia.
  rewrite Z.pow_add_r by lia.
  assert (0 < 2 ^ k) by (apply Z.pow_pos_nonneg; lia). nia.
Qed.

Lemma word_of_range b0 b1 b2 b3 :
  0 ≤ b0 < 256 → 0 ≤ b1 < 256 → 0 ≤ b2 < 256 → 0 ≤ b3 < 256 →
  0 ≤ word_of b0 b1 b2 b3 < 2 ^ 32.
Proof.
  intros H0 H1 H2 H3. unfold word_of.
  pose proof (shiftl_range b1 8 8 ltac:(lia) ltac:(lia) H1).
  pose proof (shiftl_range b2 16 8 ltac:(lia) ltac:(lia) H2).
  pose proof (shiftl_range b3 24 8 ltac:(lia) ltac:(lia) H3).
  simpl in *.
  apply (lor_range _ _ 32); try lia.
  apply (lor_range _ _ 32); try lia.
  apply (lor_range _ _ 32); lia.
Qed.

(** ** relocADRP *)

Lemma Uint32_shape b w0 w1 :
  Uint32 b 0 = Done w0 → Uint32 b 4 = Done w1 →
  ∃ b0 b1 b2 b3 b4 b5 b6 b7 rest,
    b = b0 :: b1 :: b2 :: b3 :: b4 :: b5 :: b6 :: b7 :: rest
    ∧ w0 = word_of b0 b1 b2 b3 ∧ w1 = word_of b4 b5 b6 b7.
Proof.
  intros H0 H1.
  destruct b as [|b0 [|b1 [|b2 [|b3 [|b4 [|b5 [|b6 [|b7 rest]]]]]]]];
    try (vm_compute in H0; discriminate); try (vm_compute in H1; discriminate).
  exists b0, b1, b2, b3, b4, b5, b6, b7, rest.
  unfold Uint32, slice_from in H0, H1. simpl in H0, H1.
  destruct (4 <=? len (b0 :: b1 :: b2 :: b3 :: b4 :: b5 :: b6 :: b7 :: rest)) eqn:E;
    simpl in H1; [|discriminate].
  injection H0 as <-. injection H1 as <-. auto.
Qed.

Lemma pcrel32_test d :
  (d >? 0x7FFFFFFF) || (d <? - 0x80000000) = false ↔ fits_signed 32 d.
Proof.
  unfold fits_signed. rewrite orb_false_iff, Z.gtb_ltb, !Z.ltb_ge. simpl. lia.
Qed.

Lemma land_mask_testbit x n i : 0 ≤ n → 0 ≤ i →
  Z.testbit (Z.land x (2 ^ n - 1)) i = (i <? n) && Z.testbit x i.
Proof.
  intros Hn Hi. rewrite Z.land_spec.
  replace (2 ^ n - 1) with (Z.ones n) by (rewrite Z.ones_equiv; lia).
  destruct (Z.ltb_spec i n).
  - rewrite Z.ones_spec_low by lia. apply andb_true_r.
  - rewrite Z.ones_spec_high by lia. apply andb_false_r.
Qed.

(** The bits that the page-relative branch adds to the adrp word. *)
Lemma pageAnd_testbit d i : 0 ≤ i →
  Z.testbit
    (Z.lor (uint32 (Z.shiftl (uint32 (Z.land (Z.shiftr d 12) 3)) 29))
           (uint32 (Z.shiftl (uint32 (Z.land (Z.shiftr d 15) 0x7ffff)) 5))) i
  = ((i =? 29) && Z.testbit d 12) || ((i =? 30) && Z.testbit d 13)
    || ((5 <=? i) && (i <? 24) && Z.testbit d (i + 10)).
Proof.
  intros Hi. rewrite Z.lor_spec, !uint32_testbit by lia.
  change 3 with (2 ^ 2 - 1). change 0x7ffff with (2 ^ 19 - 1).
  f_equal.
  - destruct (Z.ltb_spec i 29).
    { rewrite Z.shiftl_spec_low by lia.
      replace (i =? 29) with false by (symmetry; apply Z.eqb_neq; lia).
      replace (i =? 30) with false by (symmetry; apply Z.eqb_neq; lia).
      rewrite andb_false_r. reflexivity. }
    rewrite Z.shiftl_spec by lia. rewrite uint32_testbit by lia.
    rewrite land_mask_testbit by lia. rewrite Z.shiftr_spec by lia.
    destruct (Z.eq_dec i 29) as [->|].
    { change (29 - 29 + 12) with 12.
      destruct (Z.testbit d 12), (Z.testbit d 13); reflexivity. }
    destruct (Z.eq_dec i 30) as [->|].
    { change (30 - 29 + 12) with 13.
      destruct (Z.testbit d 12), (Z.testbit d 13); reflexivity. }
    replace (i =? 29) with false by (symmetry; apply Z.eqb_neq; lia).
    replace (i =? 30) with false by (symmetry; apply Z.eqb_neq; lia).
    replace (i - 29 <? 2) with false by (symmetry; apply Z.ltb_ge; lia).
    simpl. rewrite !andb_false_r. reflexivity.
  - destruct (Z.ltb_spec i 5).
    { rewrite Z.shiftl_spec_low by lia.
      replace (5 <=? i) with false by (symmetry; apply Z.leb_gt; lia).
      rewrite andb_false_r. reflexivity. }
    rewrite Z.shiftl_spec by lia. rewrite uint32_testbit by lia.
    rewrite land_mask_testbit by lia. rewrite Z.shiftr_spec by lia.
    replace (i - 5 + 15) with (i + 10) by lia.
    replace (5 <=? i) with true by (symmetry; apply Z.leb_le; lia).
    destruct (Z.ltb_spec i 24).
    + replace (i <? 32) with true by (symmetry; apply Z.ltb_lt; lia).
      replace (i - 5 <? 32) with true by (symmetry; apply Z.ltb_lt; lia).
      replace (i - 5 <? 19) with true by (symmetry; apply Z.ltb_lt; lia).
      reflexivity.
    + replace (i - 5 <? 19) with false by (symmetry; apply Z.ltb_ge; lia).
      simpl. rewrite !andb_false_r. reflexivity.
Qed.

Lemma slice_from_ok {A} (b : list A) k :
  0 ≤ k ≤ len b → slice_from b k = Done (drop (Z.to_nat k) b).
Proof.
  intros H. unfold slice_from.
  replace (0 <=? k) with true by (symmetry; apply Z.leb_le; lia).
  replace (k <=? len b) with true by (symmetry; apply Z.leb_le; lia).
  reflexivity.
Qed.

Lemma len_cons {A} (x : A) l : len (x :: l) = 1 + len l.
Proof. unfold len. simpl length. lia. Qed.

Lemma len_nonneg {A} (l : list A) : 0 ≤ len l.
Proof. unfold len. lia. Qed.

Lemma len_app {A} (l1 l2 : list A) : len (l1 ++ l2) = len l1 + len l2.
Proof. unfold len. rewrite length_app. lia. Qed.

Lemma Uint32_0 b0 b1 b2 b3 rest :
  Uint32 (b0 :: b1 :: b2 :: b3 :: rest) 0 = Done (word_of b0 b1 b2 b3).
Proof.
  unfold Uint32. rewrite slice_from_ok by (pose proof (len_nonneg (b0 :: b1 :: b2 :: b3 :: rest)); lia).
  reflexivity.
Qed.

Lemma Uint32_4 a0 a1 a2 a3 b0 b1 b2 b3 rest :
  Uint32 (a0 :: a1 :: a2 :: a3 :: b0 :: b1 :: b2 :: b3 :: rest) 4
  = Done (word_of b0 b1 b2 b3).
Proof.
  unfold Uint32. rewrite slice_from_ok.
  - reflexivity.
  - rewrite !len_cons. pose proof (len_nonneg rest). lia.
Qed.

Lemma PutUint32_0 b0 b1 b2 b3 rest v :
  PutUint32 (b0 :: b1 :: b2 :: b3 :: rest) 0 v = Done (le_bytes 4 v ++ rest).
Proof.
  unfold PutUint32. rewrite slice_from_ok
    by (pose proof (len_nonneg (b0 :: b1 :: b2 :: b3 :: rest)); lia).
  simpl. rewrite !len_cons.
  replace (4 <=? 1 + (1 + (1 + (1 + len rest)))) with true
    by (symmetry; apply Z.leb_le; pose proof (len_nonneg rest); lia).
  reflexivity.
Qed.

Lemma PutUint32_4 a0 a1 a2 a3 b0 b1 b2 b3 rest v :
  PutUint32 (a0 :: a1 :: a2 :: a3 :: b0 :: b1 :: b2 :: b3 :: rest) 4 v
  = Done (a0 :: a1 :: a2 :: a3 :: le_bytes 4 v ++ rest).
Proof.
  unfold PutUint32. rewrite slice_from_ok
    by (rewrite !len_cons; pose proof (len_nonneg rest); lia).
  simpl. rewrite !len_cons.
  replace (4 <=? 1 + (1 + (1 + (1 + len rest)))) with true
    by (symmetry; apply Z.leb_le; pose proof (len_nonneg rest); lia).
  reflexivity.
Qed.

Lemma le_bytes4_word v rest :
  Uint32 (le_bytes 4 v ++ rest) 0 = Done (uint32 v).
Proof. simpl. rewrite Uint32_0. f_equal. apply word_of_le_bytes. Qed.

Lemma le_bytes4_word_4 a0 a1 a2 a3 v rest :
  Uint32 (a0 :: a1 :: a2 :: a3 :: le_bytes 4 v ++ rest) 4 = Done (uint32 v).
Proof. simpl. rewrite Uint32_4. f_equal. apply word_of_le_bytes. Qed.

Lemma land_range x m : 0 ≤ m → 0 ≤ Z.land x m ≤ m.
Proof.
  intros Hm. apply Z.ldiff_le; [assumption|].
  apply Z.bits_inj'. intros i Hi.
  rewrite Z.ldiff_spec, Z.land_spec, Z.bits_0.
  destruct (Z.testbit x i), (Z.testbit m i); reflexivity.
Qed.

Lemma is_bytes_cons x l : is_bytes (x :: l) ↔ (0 ≤ x < 256) ∧ is_bytes l.
Proof. unfold is_bytes. rewrite Forall_cons. reflexivity. Qed.

Lemma shiftr_land_high v :
  Z.shiftr (Z.land v 0xffff0000) 16 = Z.shiftr (uint32 v) 16.
Proof.
  apply Z.bits_inj'. intros i Hi.
  rewrite !Z.shiftr_spec, Z.land_spec, uint32_testbit by lia.
  change 0xffff0000 with (Z.shiftl (Z.ones 16) 16).
  rewrite Z.shiftl_spec by lia. replace (i + 16 - 16) with i by lia.
  destruct (Z.ltb_spec i 16).
  - rewrite Z.ones_spec_low by lia.
    replace (i + 16 <? 32) with true by (symmetry; apply Z.ltb_lt; lia).
    apply andb_true_r.
  - rewrite Z.ones_spec_high by lia.
    replace (i + 16 <? 32) with false by (symmetry; apply Z.ltb_ge; lia).
    apply andb_false_r.
Qed.

(** What the overflow branch leaves at the site. *)
Lemma adrpMovPair_spec b0 b1 b2 b3 b4 b5 b6 b7 rest symAddr :
  0 ≤ word_of b0 b1 b2 b3 < 2 ^ 32 →
  let mCode := b0 :: b1 :: b2 :: b3 :: b4 :: b5 :: b6 :: b7 :: rest in
  ∃ res, adrpMovPair mCode symAddr = Done res
    ∧ length res = length mCode ∧ drop 8 res = rest
    ∧ movPair res (Z.land (word_of b0 b1 b2 b3) 0x1f) (uint32 symAddr).
Proof.
  intros Hw mCode. unfold adrpMovPair, mCode.
  change (Uint32 (take 4 mov32bit) 0) with (Done (A:=Z) 0xD2800000).
  change (Uint32 mov32bit 4) with (Done (A:=Z) 0xF2A00000).
  rewrite Uint32_0. cbn [mbind outcome_bind].
  rewrite PutUint32_0. cbn [mbind outcome_bind].
  set (lo := Z.lor _ _). set (hi := Z.lor _ _).
  change (le_bytes 4 lo ++ b4 :: b5 :: b6 :: b7 :: rest)
    with (byte lo :: byte (Z.shiftr lo 8) :: byte (Z.shiftr (Z.shiftr lo 8) 8)
            :: byte (Z.shiftr (Z.shiftr (Z.shiftr lo 8) 8) 8)
            :: b4 :: b5 :: b6 :: b7 :: rest).
  rewrite PutUint32_4.
  eexists. split; [reflexivity|].
  split; [reflexivity|]. split; [reflexivity|].
  pose proof (land_range (word_of b0 b1 b2 b3) 0x1f ltac:(lia)) as Hrd.
  pose proof (uint32_range symAddr) as Hs.
  pose proof (land_range (uint32 symAddr) 0xffff ltac:(lia)) as Hl.
  assert (Hh : 0 ≤ Z.shiftr (uint32 symAddr) 16 < 2 ^ 16).
  { rewrite Z.shiftr_div_pow2 by lia. split.
    - apply Z.div_pos; lia.
    - apply Z.div_lt_upper_bound; lia. }
  assert (Hlo : 0 ≤ lo < 2 ^ 32).
  { unfold lo. apply lor_range; [lia| |apply uint32_range].
    apply lor_range; lia. }
  assert (Hhi : 0 ≤ hi < 2 ^ 32).
  { unfold hi. apply lor_range; [lia| |apply uint32_range].
    apply lor_range; lia. }
  split.
  - rewrite Uint32_0, word_of_le_bytes, uint32_small by assumption.
    unfold lo, movz. do 2 f_equal. apply uint32_small.
    pose proof (shiftl_range (Z.land (uint32 symAddr) 0xffff) 5 16
                  ltac:(lia) ltac:(lia) ltac:(lia)).
    simpl in *. lia.
  - rewrite le_bytes4_word_4, uint32_small by assumption.
    unfold hi, movk16. do 2 f_equal. rewrite shiftr_land_high.
    rewrite (uint32_small (uint32 symAddr)) by assumption.
    apply uint32_small.
    pose proof (shiftl_range (Z.shiftr (uint32 symAddr) 16) 5 16
                  ltac:(lia) ltac:(lia) Hh).
    simpl in *. lia.
Qed.

(** What the page-relative branch leaves at the site. *)
Lemma adrpPagePatch_spec b0 b1 b2 b3 b4 b5 b6 b7 rest d symAddr :
  0 ≤ word_of b0 b1 b2 b3 < 2 ^ 32 →
  0 ≤ word_of b4 b5 b6 b7 < 2 ^ 32 →
  let mCode := b0 :: b1 :: b2 :: b3 :: b4 :: b5 :: b6 :: b7 :: rest in
  ∃ res w0', adrpPagePatch mCode d symAddr = Done res
    ∧ length res = length mCode ∧ drop 8 res = rest
    ∧ Uint32 res 0 = Done w0'
    ∧ (∀ i, 0 ≤ i →
         Z.testbit w0' i
         = Z.testbit (word_of b0 b1 b2 b3) i
           || ((i =? 29) && Z.testbit d 12) || ((i =? 30) && Z.testbit d 13)
           || ((5 <=? i) && (i <? 24) && Z.testbit d (i + 10)))
    ∧ Uint32 res 4
      = Done (Z.lor (word_of b4 b5 b6 b7) (Z.shiftl (Z.land symAddr 0xfff) 10)).
Proof.
  intros Hw0 Hw1 mCode. unfold adrpPagePatch, mCode.
  rewrite Uint32_0. cbn [mbind outcome_bind].
  rewrite PutUint32_0. cbn [mbind outcome_bind].
  set (pageAnd := Z.lor (uint32 _) (uint32 _)).
  set (w0' := Z.lor (word_of b0 b1 b2 b3) pageAnd).
  change (le_bytes 4 w0' ++ b4 :: b5 :: b6 :: b7 :: rest)
    with (byte w0' :: byte (Z.shiftr w0' 8) :: byte (Z.shiftr (Z.shiftr w0' 8) 8)
            :: byte (Z.shiftr (Z.shiftr (Z.shiftr w0' 8) 8) 8)
            :: b4 :: b5 :: b6 :: b7 :: rest).
  rewrite Uint32_4. cbn [mbind outcome_bind].
  rewrite PutUint32_4.
  assert (Hp : 0 ≤ pageAnd < 2 ^ 32).
  { unfold pageAnd. apply lor_range; [lia| |]; apply uint32_range. }
  assert (Hw0' : 0 ≤ w0' < 2 ^ 32) by (apply lor_range; lia).
  pose proof (land_range symAddr 0xfff ltac:(lia)) as Hl.
  pose proof (shiftl_range (Z.land symAddr 0xfff) 10 12
                ltac:(lia) ltac:(lia) ltac:(lia)) as Hs.
  eexists _, w0'. split; [reflexivity|].
  split; [reflexivity|]. split; [reflexivity|].
  split; [|split].
  - rewrite Uint32_0, word_of_le_bytes, uint32_small by assumption. reflexivity.
  - intros i Hi. unfold w0'. rewrite Z.lor_spec.
    unfold pageAnd. rewrite pageAnd_testbit by assumption.
    rewrite !orb_assoc. reflexivity.
  - rewrite le_bytes4_word_4. f_equal.
    rewrite int_id by (unfold in_int; simpl in *; lia).
    rewrite (uint32_small (Z.shiftl _ _)) by (simpl in *; lia).
    apply uint32_small. apply lor_range; simpl in *; lia.
Qed.

(** C4, as amended.  With [d] the page delta the function computes:
    outside the signed 32-bit range the site receives the mov pair that
    loads the low 32 bits of the target address; inside it the adrp and
    add words are patched by or-ing in the immediates, the adrp outside
    its 19-bit field receiving bits 12 and 13 of [d] as its 2-bit field
    and the add receiving the low 12 bits of the address; and at a site
    that holds an adrp (bit 25 clear) the mov pair is emitted exactly in
    the first case. *)
Theorem relocADRP_spec mCode pc symAddr w0 w1 :
  is_bytes mCode → Uint32 mCode 0 = Done w0 → Uint32 mCode 4 = Done w1 →
  let d := adrpPageOff pc symAddr in
  ∃ res, relocADRP mCode pc symAddr = Done res
    ∧ length res = length mCode ∧ drop 8 res = drop 8 mCode
    ∧ (¬ fits_signed 32 d → movPair res (Z.land w0 0x1f) (uint32 symAddr))
    ∧ (fits_signed 32 d →
         ∃ w0', Uint32 res 0 = Done w0'
           ∧ (∀ i, 0 ≤ i → i < 5 ∨ 24 ≤ i →
                Z.testbit w0' i
                = Z.testbit w0 i
                  || ((i =? 29) && Z.testbit d 12) || ((i =? 30) && Z.testbit d 13))
           ∧ Uint32 res 4 = Done (Z.lor w1 (Z.shiftl (Z.land symAddr 0xfff) 10)))
    ∧ (Z.testbit w0 25 = false →
         (emitsMovPair mCode pc symAddr ↔ ¬ fits_signed 32 d)).
Proof.
  intros Hb H0 H1 d.
  destruct (Uint32_shape _ _ _ H0 H1)
    as (b0 & b1 & b2 & b3 & b4 & b5 & b6 & b7 & rest & -> & -> & ->).
  repeat (apply is_bytes_cons in Hb; destruct Hb as [? Hb]).
  assert (Hw0 : 0 ≤ word_of b0 b1 b2 b3 < 2 ^ 32) by (apply word_of_range; assumption).
  assert (Hw1 : 0 ≤ word_of b4 b5 b6 b7 < 2 ^ 32) by (apply word_of_range; assumption).
  unfold relocADRP. fold d.
  destruct ((d >? 0x7FFFFFFF) || (d <? - 0x80000000)) eqn:E.
  - assert (Hn : ¬ fits_signed 32 d).
    { intros Hf. apply pcrel32_test in Hf. congruence. }
    destruct (adrpMovPair_spec b0 b1 b2 b3 b4 b5 b6 b7 rest symAddr Hw0)
      as (res & Hr & Hlen & Hdrop & Hmov).
    exists res. rewrite Hr. split; [reflexivity|].
    split; [assumption|]. split; [assumption|].
    split; [intros _; assumption|]. split; [intros Hf; contradiction|].
    intros _. split; [intros _; assumption|]. intros _.
    exists (word_of b0 b1 b2 b3), res. split; [apply Uint32_0|].
    split; [|assumption].
    unfold relocADRP. fold d. rewrite E. assumption.
  - assert (Hf : fits_signed 32 d) by (apply pcrel32_test; assumption).
    destruct (adrpPagePatch_spec b0 b1 b2 b3 b4 b5 b6 b7 rest d symAddr Hw0 Hw1)
      as (res & w0' & Hr & Hlen & Hdrop & Hr0 & Hbits & Hr4).
    exists res. rewrite Hr. split; [reflexivity|].
    split; [assumption|]. split; [assumption|].
    split; [intros Hn; contradiction|]. split.
    + intros _. exists w0'. split; [assumption|]. split; [|assumption].
      intros i Hi Hout. rewrite Hbits by assumption.
      replace ((5 <=? i) && (i <? 24)) with false; [|symmetry].
      * rewrite orb_false_r. reflexivity.
      * destruct Hout; [apply andb_false_intro1, Z.leb_gt|apply andb_false_intro2, Z.ltb_ge]; lia.
    + intros H25. split; [|intros Hn; contradiction].
      intros (w & res' & Hw & Hres' & Hm0 & _). exfalso.
      rewrite Uint32_0 in Hw. injection Hw as <-.
      unfold relocADRP in Hres'. fold d in Hres'. rewrite E, Hr in Hres'.
      injection Hres' as <-.
      rewrite Hr0 in Hm0. injection Hm0 as Hm0.
      pose proof (Hbits 25 ltac:(lia)) as Hb25.
      rewrite H25 in Hb25.
      change (25 =? 29) with false in Hb25. change (25 =? 30) with false in Hb25.
      change (25 <? 24) with false in Hb25.
      rewrite andb_false_r in Hb25. cbn [orb andb] in Hb25.
      rewrite Hm0 in Hb25. unfold movz in Hb25.
      rewrite !Z.lor_spec in Hb25.
      change (Z.testbit 0xD2800000 25) with true in Hb25.
      rewrite orb_true_r in Hb25. discriminate.
Qed.

(** ** relocate: what a site leaves alone *)

Ltac go :=
  repeat match goal with
  | H : Done _ = Done _ |- _ => injection H as H; try subst
  | H : Fault _ = Done _ |- _ => discriminate H
  | H : (_ ≫= _) = Done _ |- _ =>
      let a := fresh "a" in
      let Ha := fresh "Ha" in
      apply bind_Done in H; destruct H as (a & Ha & H)
  | H : (if ?c then _ else _) = Done _ |- _ =>
      let E := fresh "E" in destruct c eqn:E
  | H : (let '(_, _) := ?p in _) = Done _ |- _ =>
      let E := fresh "E" in destruct p eqn:E
  | H : match ?x with _ => _ end = Done _ |- _ =>
      let E := fresh "E" in destruct x eqn:E
  end.

Lemma same_static_refl st : same_static st st.
Proof. repeat split. Qed.

Lemma same_static_trans st1 st2 st3 :
  same_static st1 st2 → same_static st2 st3 → same_static st1 st3.
Proof.
  unfold same_static. intros (?&?&?&?&?&?) (?&?&?&?&?&?).
  repeat split; congruence.
Qed.

Lemma same_trampoline_refl st : same_trampoline st st.
Proof. split; reflexivity. Qed.

Lemma same_trampoline_trans st1 st2 st3 :
  same_trampoline st1 st2 → same_trampoline st2 st3 → same_trampoline st1 st3.
Proof. unfold same_trampoline. intros [? ?] [? ?]. split; congruence. Qed.

Ltac frame_solve :=
  unfold same_static, same_trampoline, set_relocByte, diag, set_offset,
    set_codeByte, set_itabs, set_Code, set_Data, set_seg;
  repeat match goal with
         | |- context [if ?c then _ else _] => destruct c
         end;
  cbn; repeat split; reflexivity.

Section RelocateFrame.

Variable TLSNAME : string.

Lemma relocSite_static symPtr curSym loc st st' :
  relocSite TLSNAME symPtr curSym loc st = Done st' → same_static st st'.
Proof.
  unfold relocSite, relocTLS, relocCallPCRel, relocCallArm, relocAddrArm64,
    relocAddr, relocAddrOff.
  intros H. go; frame_solve.
Qed.

Lemma index_lookup {A} (l : list A) k x :
  index l k = Done x → l !! Z.to_nat k = Some x.
Proof.
  unfold index. intros H.
  destruct (0 <=? k); [|discriminate].
  destruct (l !! Z.to_nat k); [|discriminate].
  congruence.
Qed.

(** The displacements that the range test of the call and PC-relative
    case lets through to the direct encoding. *)
Lemma pcrelOverflow_range d :
  pcrelOverflow d = false ↔ - 0x8000000 ≤ d ≤ 0x7fffffff.
Proof.
  unfold pcrelOverflow. rewrite orb_false_iff, Z.gtb_ltb, !Z.ltb_ge. lia.
Qed.

Lemma armOverflow_range d :
  armOverflow d = false ↔ fits_signed 24 d.
Proof.
  unfold armOverflow, fits_signed.
  rewrite orb_false_iff, Z.gtb_ltb, !Z.ltb_ge. simpl. lia.
Qed.

Lemma relocCallPCRel_frame curSym loc sym symAddr st st' :
  pcrelOverflow
    (pcrelOffset symAddr
       (if Sym_Kind curSym =? STEXT then codeBase (seg st) else dataBase (seg st))
       loc) = false →
  relocCallPCRel curSym loc sym symAddr st = Done st' → same_trampoline st st'.
Proof.
  intros Hno. unfold relocCallPCRel. rewrite Hno.
  intros H. go. frame_solve.
Qed.

Lemma relocCallArm_frame loc sym symAddr st st' :
  armOverflow (armOffset symAddr (codeBase (seg st)) loc) = false →
  relocCallArm loc sym symAddr st = Done st' → same_trampoline st st'.
Proof.
  intros Hno. unfold relocCallArm.
  destruct (armAddend loc) as [a pcOff]. rewrite Hno.
  intros H. go. frame_solve.
Qed.

(** A site that the range test does not send to the trampoline leaves the
    trampoline allocator as it was. *)
Lemma relocSite_frame symPtr curSym loc st st' :
  siteOverflows (seg st) curSym loc = false →
  relocSite TLSNAME symPtr curSym loc st = Done st' → same_trampoline st st'.
Proof.
  intros Hno H. unfold relocSite in H.
  inv_bind H. inv_bind H.
  apply index_lookup in Ha0. unfold siteOverflows in Hno. rewrite Ha0 in Hno.
  cbn zeta in Hno.
  destruct (a0 =? -1); [go; apply same_trampoline_refl|].
  destruct ((a0 =? 0) && HasPrefix (Sym_Name a) "go.itab"); [go; frame_solve|].
  cbn zeta in H.
  destruct (Reloc_Type loc =? R_TLS_LE) eqn:Etls.
  { unfold relocTLS in H. go. frame_solve. }
  destruct ((Reloc_Type loc =? R_CALL) || (Reloc_Type loc =? R_PCREL)).
  { eapply relocCallPCRel_frame; eassumption. }
  destruct ((Reloc_Type loc =? R_CALLARM) || (Reloc_Type loc =? R_CALLARM64)).
  { eapply relocCallArm_frame; eassumption. }
  unfold relocAddrArm64, relocAddr, relocAddrOff in H.
  go; frame_solve.
Qed.

Lemma siteOverflows_static st st1 curSym loc :
  same_static st st1 →
  siteOverflows (seg st1) curSym loc = siteOverflows (seg st) curSym loc.
Proof.
  intros (_ & Ha & Hc & Hd & _). unfold siteOverflows. rewrite Ha, Hc, Hd.
  reflexivity.
Qed.

Lemma relocSites_frame symPtr curSym st0 locs :
  ∀ st st',
    same_static st0 st →
    Forall (λ loc, siteOverflows (seg st0) curSym loc = false) locs →
    foldM (relocSite TLSNAME symPtr curSym) locs st = Done st' →
    same_trampoline st st' ∧ same_static st0 st'.
Proof.
  induction locs as [|loc locs IH]; intros st st' Hs Hall H; simpl in H.
  - injection H as <-. split; [apply same_trampoline_refl | assumption].
  - inv_bind H. apply Forall_cons in Hall as [Hloc Hall].
    pose proof (relocSite_static _ _ _ _ _ Ha) as Hs1.
    assert (Hs01 : same_static st0 a) by (eapply same_static_trans; eassumption).
    rewrite <- (siteOverflows_static _ _ _ _ Hs) in Hloc.
    pose proof (relocSite_frame _ _ _ _ _ Hloc Ha) as Ht1.
    destruct (IH a st' Hs01 Hall H) as [Ht2 Hs2].
    split; [eapply same_trampoline_trans; eassumption | assumption].
Qed.

Lemma relocSyms_frame symPtr st0 syms :
  ∀ st st',
    same_static st0 st →
    Forall (λ curSym,
              Forall (λ loc, siteOverflows (seg st0) curSym loc = false)
                (Sym_Reloc curSym)) syms →
    foldM (λ curSym, foldM (relocSite TLSNAME symPtr curSym) (Sym_Reloc curSym))
      syms st = Done st' →
    same_trampoline st st' ∧ same_static st0 st'.
Proof.
  induction syms as [|curSym syms IH]; intros st st' Hs Hall H; simpl in H.
  - injection H as <-. split; [apply same_trampoline_refl | assumption].
  - inv_bind H. apply Forall_cons in Hall as [Hsym Hall].
    destruct (relocSites_frame symPtr curSym st0 _ _ _ Hs Hsym Ha)
      as [Ht1 Hs1].
    destruct (IH a st' Hs1 Hall H) as [Ht2 Hs2].
    split; [eapply same_trampoline_trans; eassumption | assumption].
Qed.

(** When the range test of the code sends no site of the image to the
    trampoline, [relocate] leaves the bump offset where it was and writes no
    byte of the mapped region. *)
Lemma relocate_frame symPtr st st' :
  allSites (λ curSym loc, siteOverflows (seg st) curSym loc = false) (code st) →
  relocate TLSNAME symPtr st = Done st' →
  offset (seg st') = offset (seg st) ∧ codeByte (seg st') = codeByte (seg st).
Proof.
  intros Hall H. unfold relocate in H.
  destruct (relocSyms_frame symPtr st (Syms (code st)) st st'
              (same_static_refl st) Hall H) as [Ht _].
  exact Ht.
Qed.

End RelocateFrame.

(** ** addSymAddrs *)

Lemma foldMi_app {A S : Type} (f : Z → A → S → outcome S) l1 : ∀ l2 k s,
  foldMi f k (l1 ++ l2) s = foldMi f k l1 s ≫= foldMi f (k + len l1) l2.
Proof.
  induction l1 as [|x l1 IH]; intros l2 k s; cbn [app foldMi].
  - cbn [mbind outcome_bind]. f_equal. unfold len. cbn. lia.
  - destruct (f k x s) as [s1|e]; cbn [mbind outcome_bind]; [|reflexivity].
    rewrite IH. do 2 f_equal. rewrite len_cons. lia.
Qed.

Section ResolveProps.

Variable TLSNAME : string.
Variable RegTLS : gmap string Z → Z → gmap string Z.

Lemma set_symAddr_other j v st st' (i : nat) :
  set_symAddr j v st = Done st' → Z.of_nat i ≠ j →
  symAddrs (seg st') !! i = symAddrs (seg st) !! i.
Proof.
  unfold set_symAddr, set_index. intros H Hne. go. cbn.
  apply list_lookup_insert_ne. apply andb_prop in E as [E _].
  apply Z.leb_le in E. lia.
Qed.

Lemma addSymAddr_other j sym sp st sp' st' (i : nat) :
  addSymAddr TLSNAME RegTLS j sym (sp, st) = Done (sp', st') → Z.of_nat i ≠ j →
  symAddrs (seg st') !! i = symAddrs (seg st) !! i.
Proof.
  unfold addSymAddr. intros H Hne. go; cbn;
    repeat match goal with
           | H : set_symAddr _ _ _ = Done _ |- _ =>
               apply (set_symAddr_other _ _ _ _ i) in H; [|assumption]
           end;
    destruct (HasPrefix (Sym_Name sym) "type.func"); cbn in *; congruence.
Qed.

(** The step of the loop for a thread-local slot symbol is the call of
    [RegTLS] and nothing else. *)
Lemma addSymAddr_TLS j sym sp st :
  Sym_Name sym = TLSNAME → Sym_Offset sym ≠ -1 →
  addSymAddr TLSNAME RegTLS j sym (sp, st)
  = Done (RegTLS sp (Sym_Offset sym), st).
Proof.
  intros Hn Ho. unfold addSymAddr.
  replace (Sym_Offset sym =? -1) with false by (symmetry; apply Z.eqb_neq; assumption).
  rewrite Hn, String.eqb_refl. reflexivity.
Qed.

Lemma addSymAddrs_loop l :
  ∀ (k : nat) sp st sp' st' (i : nat),
    foldMi (addSymAddr TLSNAME RegTLS) (Z.of_nat k) l (sp, st) = Done (sp', st') →
    (i < k)%nat
    ∨ (∃ sym, (k ≤ i)%nat ∧ l !! (i - k)%nat = Some sym
              ∧ Sym_Name sym = TLSNAME ∧ Sym_Offset sym ≠ -1) →
    symAddrs (seg st') !! i = symAddrs (seg st) !! i.
Proof.
  induction l as [|x l IH]; intros k sp st sp' st' i H Hi; cbn [foldMi] in H.
  - injection H as <- <-. reflexivity.
  - inv_bind H. destruct a as [sp1 st1].
    replace (Z.of_nat k + 1) with (Z.of_nat (S k)) in H by lia.
    destruct Hi as [Hlt | (sym & Hle & Hsym & Hn & Ho)].
    + rewrite (IH _ _ _ _ _ i H) by (left; lia).
      eapply addSymAddr_other; [eassumption | lia].
    + destruct (decide (i = k)) as [->|Hne].
      * replace (k - k)%nat with O in Hsym by lia. injection Hsym as ->.
        rewrite addSymAddr_TLS in Ha by assumption. injection Ha as <- <-.
        apply (IH _ _ _ _ _ k H). left. lia.
      * rewrite (IH _ _ _ _ _ i H).
        -- eapply addSymAddr_other; [eassumption | lia].
        -- right. exists sym. split; [lia|]. split; [|auto].
           replace (i - k)%nat with (S (i - S k)) in Hsym by lia. exact Hsym.
Qed.

Lemma set_symAddr_length j v st st' :
  set_symAddr j v st = Done st' →
  length (symAddrs (seg st')) = length (symAddrs (seg st))
  ∧ Syms (code st') = Syms (code st).
Proof.
  unfold set_symAddr, set_index. intros H. go. cbn.
  split; [apply length_insert | reflexivity].
Qed.

Lemma set_symAddr_Done j v st :
  0 ≤ j < len (symAddrs (seg st)) → ∃ st', set_symAddr j v st = Done st'.
Proof.
  intros Hj. unfold set_symAddr, set_index.
  replace (0 <=? j) with true by (symmetry; apply Z.leb_le; lia).
  replace (j <? len (symAddrs (seg st))) with true by (symmetry; apply Z.ltb_lt; lia).
  cbn. eauto.
Qed.

Lemma addSymAddr_length j sym sp st sp' st' :
  addSymAddr TLSNAME RegTLS j sym (sp, st) = Done (sp', st') →
  length (symAddrs (seg st')) = length (symAddrs (seg st)).
Proof.
  unfold addSymAddr. intros H. go;
    repeat match goal with
           | H : set_symAddr _ _ _ = Done _ |- _ =>
               apply set_symAddr_length in H; destruct H
           end;
    destruct (HasPrefix (Sym_Name sym) "type.func"); cbn in *; congruence.
Qed.

(** With a resolved-address entry for the index, a step of the loop
    cannot fault. *)
Lemma addSymAddr_Done j sym sp st :
  0 ≤ j < len (symAddrs (seg st)) →
  ∃ r, addSymAddr TLSNAME RegTLS j sym (sp, st) = Done r.
Proof.
  intros Hj. unfold addSymAddr.
  destruct (Sym_Offset sym =? -1).
  { destruct (sp !! Sym_Name sym);
      [destruct (set_symAddr_Done j (int z) st Hj) as [s1 ->]
      |destruct (set_symAddr_Done j (-1) st Hj) as [s1 ->]]; cbn; eauto. }
  destruct (Sym_Name sym =? TLSNAME)%string; [eauto|].
  destruct (Sym_Kind sym =? STEXT).
  { destruct (set_symAddr_Done j (Sym_Offset sym ⊞ codeBase (seg st)) st Hj)
      as [s1 ->]. cbn. eauto. }
  destruct (HasPrefix (Sym_Name sym) "go.itab").
  { destruct (sp !! Sym_Name sym); [|eauto].
    destruct (set_symAddr_Done j (int z) st Hj) as [s1 ->]. cbn. eauto. }
  destruct (set_symAddr_Done j (Sym_Offset sym ⊞ dataBase (seg st)) st Hj)
    as [s1 Hs1].
  rewrite Hs1. cbn [mbind outcome_bind].
  destruct (HasPrefix (Sym_Name sym) "type."); [|eauto].
  destruct (sp !! Sym_Name sym); [|eauto].
  apply set_symAddr_length in Hs1 as [Hlen _].
  set (s2 := if HasPrefix (Sym_Name sym) "type.func" then _ else s1).
  assert (Hj2 : 0 ≤ j < len (symAddrs (seg s2))).
  { unfold s2, len in *. destruct (HasPrefix (Sym_Name sym) "type.func"); cbn; lia. }
  destruct (set_symAddr_Done j (int z) s2 Hj2) as [s3 ->]. cbn. eauto.
Qed.

Lemma addSymAddrs_loop_Done l :
  ∀ (k : nat) sp st,
    (k + length l ≤ length (symAddrs (seg st)))%nat →
    ∃ r, foldMi (addSymAddr TLSNAME RegTLS) (Z.of_nat k) l (sp, st) = Done r.
Proof.
  induction l as [|x l IH]; intros k sp st Hlen; cbn [foldMi].
  - eauto.
  - cbn [length] in Hlen.
    destruct (addSymAddr_Done (Z.of_nat k) x sp st) as [[sp1 st1] H1].
    { unfold len. lia. }
    rewrite H1. cbn [mbind outcome_bind].
    replace (Z.of_nat k + 1) with (Z.of_nat (S k)) by lia.
    apply IH. apply addSymAddr_length in H1. lia.
Qed.

(** [addSymAddrs] returns when the resolved-address array has an entry
    for every symbol, as the one [Load] makes has. *)
Lemma addSymAddrs_Done symPtr st :
  length (symAddrs (seg st)) = length (Syms (code st)) →
  ∃ r, addSymAddrs TLSNAME RegTLS symPtr st = Done r.
Proof.
  intros Hlen. unfold addSymAddrs.
  apply (addSymAddrs_loop_Done _ O). lia.
Qed.

Section TLSSymbol.

Variable R_CALLIND_NAME : string.

(** The record synthesized for a thread-local relocation carries the
    thread-local name and an offset other than -1. *)
Lemma externalSym_TLS re dataLen :
  re_Type re = R_TLS_LE → 0 ≤ re_Offset re < 2 ^ 63 → 0 ≤ dataLen →
  let sym := (externalSym TLSNAME R_CALLIND_NAME re dataLen).1 in
  Sym_Name sym = TLSNAME ∧ Sym_Offset sym ≠ -1
  ∧ (HasPrefix TLSNAME "type..importpath." = false →
     Sym_Offset sym = re_Offset re).
Proof.
  intros Ht Ho Hd. unfold externalSym. rewrite Ht.
  change (R_TLS_LE =? R_TLS_LE) with true.
  change (R_TLS_LE =? R_CALLIND) with false. cbn iota.
  rewrite int_id by (unfold in_int; lia).
  destruct (HasPrefix TLSNAME "type..importpath."); cbn.
  - split; [reflexivity|]. split; [lia|]. discriminate.
  - split; [reflexivity|]. split; [lia|]. reflexivity.
Qed.

(** The map a step of the loop hands on. *)
Lemma addSymAddr_symPtr j sym sp st sp' st' :
  addSymAddr TLSNAME RegTLS j sym (sp, st) = Done (sp', st') →
  sp' = if Sym_Offset sym =? -1 then sp
        else if String.eqb (Sym_Name sym) TLSNAME then RegTLS sp (Sym_Offset sym)
        else sp.
Proof.
  unfold addSymAddr. intros H.
  destruct (Sym_Offset sym =? -1); [go; reflexivity|].
  destruct (Sym_Name sym =? TLSNAME)%string; [go; reflexivity|].
  go; reflexivity.
Qed.

Lemma addSymAddrs_symPtr l : ∀ k sp st sp' st',
  foldMi (addSymAddr TLSNAME RegTLS) k l (sp, st) = Done (sp', st') →
  sp' = registerTLS TLSNAME RegTLS l sp.
Proof.
  induction l as [|x l IH]; intros k sp st sp' st' H; cbn [foldMi] in H.
  - injection H as <- <-. reflexivity.
  - inv_bind H. destruct a as [sp1 st1].
    apply addSymAddr_symPtr in Ha. apply IH in H.
    unfold registerTLS in *. cbn [fold_left]. rewrite <- Ha. exact H.
Qed.

(** C8.  Let the symbol at index [i] be the record the builder
    synthesizes for a thread-local relocation of an external target.  In a
    segment with a resolved-address entry per symbol, [addSymAddrs]
    returns, and its run is: the loop over the symbols before [i]; then,
    for the symbol itself, the call of [RegTLS] with the map as it then is
    and the recorded offset, and nothing else, the state being handed on
    untouched; then the loop over the symbols behind [i], which starts
    from the map [RegTLS] gave.  Entry [i] of the resolved addresses is at
    the end what it was on entry (in [Load], the zero the array is made
    with): no address derived from [codeBase] or [dataBase] is stored
    there.  The map the run ends with is the map on entry with [RegTLS]
    applied once for each such symbol, in their order, and changed by
    nothing else. *)
Theorem addSymAddrs_TLS_slot re dataLen symPtr st (i : nat) :
  re_Type re = R_TLS_LE → 0 ≤ re_Offset re < 2 ^ 63 → 0 ≤ dataLen →
  let sym := (externalSym TLSNAME R_CALLIND_NAME re dataLen).1 in
  Syms (code st) !! i = Some sym →
  length (symAddrs (seg st)) = length (Syms (code st)) →
  ∃ sp1 st1 symPtr' st',
    addSymAddrs TLSNAME RegTLS symPtr st = Done (symPtr', st')
    ∧ foldMi (addSymAddr TLSNAME RegTLS) 0 (take i (Syms (code st))) (symPtr, st)
      = Done (sp1, st1)
    ∧ addSymAddr TLSNAME RegTLS (Z.of_nat i) sym (sp1, st1)
      = Done (RegTLS sp1 (Sym_Offset sym), st1)
    ∧ foldMi (addSymAddr TLSNAME RegTLS) (Z.of_nat (S i))
        (drop (S i) (Syms (code st))) (RegTLS sp1 (Sym_Offset sym), st1)
      = Done (symPtr', st')
    ∧ sp1 = registerTLS TLSNAME RegTLS (take i (Syms (code st))) symPtr
    ∧ symPtr' = registerTLS TLSNAME RegTLS (Syms (code st)) symPtr
    ∧ symAddrs (seg st') !! i = symAddrs (seg st) !! i
    ∧ ∀ sp s, addSymAddr TLSNAME RegTLS (Z.of_nat i) sym (sp, s)
              = Done (RegTLS sp (Sym_Offset sym), s).
Proof.
  intros Ht Ho Hd sym Hi Hlen.
  destruct (externalSym_TLS re dataLen Ht Ho Hd) as (Hn & Hoff & _).
  fold sym in Hn, Hoff.
  destruct (addSymAddrs_Done symPtr st Hlen) as [[symPtr' st'] Hrun].
  pose proof Hrun as Hsplit. unfold addSymAddrs in Hsplit.
  rewrite <- (take_drop_middle _ _ _ Hi) in Hsplit at 1.
  rewrite foldMi_app in Hsplit.
  apply bind_Done in Hsplit as ([sp1 st1] & Hpre & Hrest).
  cbn [foldMi] in Hrest.
  rewrite addSymAddr_TLS in Hrest by assumption.
  cbn [mbind outcome_bind] in Hrest.
  assert (Hk : 0 + len (take i (Syms (code st))) + 1 = Z.of_nat (S i)).
  { unfold len. rewrite length_take. apply lookup_lt_Some in Hi. lia. }
  rewrite Hk in Hrest.
  exists sp1, st1, symPtr', st'.
  split; [exact Hrun|]. split; [exact Hpre|].
  split; [apply addSymAddr_TLS; assumption|].
  split; [exact Hrest|].
  split; [eapply addSymAddrs_symPtr; exact Hpre|].
  split; [unfold addSymAddrs in Hrun; eapply addSymAddrs_symPtr; exact Hrun|].
  split.
  - unfold addSymAddrs in Hrun.
    apply (addSymAddrs_loop _ O _ _ _ _ i Hrun).
    right. exists sym. split; [lia|]. replace (i - 0)%nat with i by lia. auto.
  - intros sp s. apply addSymAddr_TLS; assumption.
Qed.

End TLSSymbol.

End ResolveProps.

(** ** The module list *)

Lemma chain_lookup h a l : chain h a l → is_Some (h !! a).
Proof. destruct l; intros (md & H & _); eauto. Qed.

Lemma chain_functional h a l1 : ∀ l2, chain h a l1 → chain h a l2 → l1 = l2.
Proof.
  revert a. induction l1 as [|b l1 IH]; intros a [|c l2] H1 H2; cbn in H1, H2.
  - reflexivity.
  - destruct H1 as (m1 & E1 & N1), H2 as (m2 & E2 & N2 & _). congruence.
  - destruct H1 as (m1 & E1 & N1 & _), H2 as (m2 & E2 & N2). congruence.
  - destruct H1 as (m1 & E1 & N1 & C1), H2 as (m2 & E2 & N2 & C2).
    assert (b = c) as -> by congruence. f_equal. eapply IH; eassumption.
Qed.

Lemma chain_suffix h l : ∀ a x,
  chain h a l → x ∈ l → ∃ l1 l2, l = l1 ++ x :: l2 ∧ chain h x l2.
Proof.
  induction l as [|b l IH]; intros a x H Hx.
  - apply elem_of_nil in Hx. contradiction.
  - destruct H as (md & E & N & C).
    apply elem_of_cons in Hx as [->|Hx].
    + exists [], l. split; [reflexivity | assumption].
    + destruct (IH b x C Hx) as (l1 & l2 & -> & C2).
      exists (b :: l1), l2. split; [reflexivity | assumption].
Qed.

Lemma chain_head_fresh h a l : chain h a l → a ∉ l.
Proof.
  intros H Ha.
  destruct (chain_suffix h l a a H Ha) as (l1 & l2 & E & C).
  pose proof (chain_functional _ _ _ _ H C) as E2.
  rewrite E2 in E. apply (f_equal length) in E.
  rewrite length_app in E. cbn in E. lia.
Qed.

Lemma chain_NoDup h l : ∀ a, chain h a l → NoDup (a :: l).
Proof.
  induction l as [|b l IH]; intros a H.
  - apply NoDup_singleton.
  - apply NoDup_cons. split; [eapply chain_head_fresh; eassumption|].
    destruct H as (md & E & N & C). apply IH. assumption.
Qed.

Lemma chain_dom h l : ∀ a x, chain h a l → x ∈ a :: l → x ∈ dom h.
Proof.
  induction l as [|b l IH]; intros a x H Hx.
  - apply list_elem_of_singleton in Hx as ->. apply elem_of_dom.
    eapply chain_lookup. eassumption.
  - apply elem_of_cons in Hx as [->|Hx].
    + apply elem_of_dom. eapply chain_lookup. eassumption.
    + destruct H as (md & E & N & C). eapply IH; eassumption.
Qed.

(** A chain has no more nodes than the heap. *)
Lemma chain_length h a l : chain h a l → (length (a :: l) ≤ size h)%nat.
Proof.
  intros H.
  rewrite <- size_dom.
  rewrite <- (size_list_to_set (C := gset addr) (a :: l))
    by (eapply chain_NoDup; eassumption).
  apply subseteq_size. intros x Hx. apply elem_of_list_to_set in Hx.
  eapply chain_dom; eassumption.
Qed.

Lemma last_cons {A} (l : list A) : ∀ x d, List.last (x :: l) d = List.last l x.
Proof.
  induction l as [|y l IH]; intros x d; [reflexivity|].
  change (List.last (x :: y :: l) d) with (List.last (y :: l) d).
  rewrite !IH. reflexivity.
Qed.

Lemma last_elem {A} (l : list A) : ∀ x, List.last l x ∈ x :: l.
Proof.
  induction l as [|y l IH]; intros x; [left|].
  rewrite last_cons. right. apply IH.
Qed.

Lemma lastModule_chain h l : ∀ a fuel,
  chain h a l → (length l < fuel)%nat →
  lastModule fuel h a = Done (List.last l a).
Proof.
  induction l as [|b l IH]; intros a fuel H Hf.
  - destruct fuel; [lia|]. destruct H as (md & E & N). cbn. rewrite E, N.
    reflexivity.
  - destruct fuel; [cbn in Hf; lia|]. destruct H as (md & E & N & C).
    cbn [lastModule]. rewrite E, N.
    rewrite (IH b fuel C) by (cbn in Hf; lia).
    rewrite last_cons. reflexivity.
Qed.

Lemma traverse_chain h l : ∀ a fuel,
  chain h a l → (S (length l) < fuel)%nat →
  traverse fuel h (Some a) = Some (a :: l).
Proof.
  induction l as [|b l IH]; intros a fuel H Hf.
  - destruct fuel as [|[|fuel]]; [cbn in Hf; lia..|].
    destruct H as (md & E & N). cbn. rewrite E. cbn. rewrite N. reflexivity.
  - destruct fuel; [lia|]. destruct H as (md & E & N & C).
    cbn [traverse]. rewrite E. cbn [mbind option_bind]. rewrite N.
    rewrite (IH b fuel C) by (cbn in Hf; lia). reflexivity.
Qed.

(** The bound of [addModule] is no restriction: when the loop leaves at
    all, it leaves within as many steps as the heap has nodes. *)
Lemma lastModule_Done_chain fuel h : ∀ a x,
  lastModule fuel h a = Done x → ∃ l, chain h a l ∧ x = List.last l a.
Proof.
  induction fuel as [|fuel IH]; intros a x H; [discriminate H|].
  cbn [lastModule] in H.
  destruct (h !! a) as [md|] eqn:E; [|discriminate H].
  destruct (md_next md) as [b|] eqn:N.
  - destruct (IH b x H) as (l & Hc & ->).
    exists (b :: l). split; [exists md; auto|]. symmetry. apply last_cons.
  - injection H as <-. exists []. split; [exists md; auto | reflexivity].
Qed.

Lemma lastModule_bound fuel h a x :
  lastModule fuel h a = Done x → lastModule (S (size h)) h a = Done x.
Proof.
  intros H. destruct (lastModule_Done_chain _ _ _ _ H) as (l & Hc & ->).
  apply lastModule_chain; [exact Hc|].
  pose proof (chain_length _ _ _ Hc) as Hl. cbn in Hl. lia.
Qed.

(** Linking [a] behind the last node extends the chain by [a]. *)
Lemma chain_link h l : ∀ x a md,
  chain h x l → a ∉ x :: l → h !! a = Some md → md_next md = None →
  chain (alter (md_set_next (Some a)) (List.last l x) h) x (l ++ [a]).
Proof.
  induction l as [|b l IH]; intros x a md H Ha Ea Na.
  - destruct H as (mx & Ex & Nx). cbn.
    assert (a ≠ x) by (intros ->; apply Ha; left).
    exists (md_set_next (Some a) mx). split.
    { rewrite lookup_alter_eq, Ex. reflexivity. }
    split; [reflexivity|].
    exists md. rewrite lookup_alter_ne by congruence. auto.
  - pose proof (chain_NoDup _ _ _ H) as Hnd.
    destruct H as (mx & Ex & Nx & C).
    assert (Hlx : List.last (b :: l) x = List.last l b) by apply last_cons.
    rewrite Hlx. cbn [app chain].
    assert (Hne : List.last l b ≠ x).
    { intros E. apply NoDup_cons in Hnd as [Hx _]. apply Hx. rewrite <- E.
      apply last_elem. }
    exists mx. rewrite lookup_alter_ne by assumption.
    split; [assumption|]. split; [assumption|].
    eapply IH; try eassumption.
    intros Hin. apply Ha. right. assumption.
Qed.

Lemma chain_last h l : ∀ x,
  chain h x l → ∃ ml, h !! List.last l x = Some ml ∧ md_next ml = None.
Proof.
  induction l as [|b l IH]; intros x H.
  - destruct H as (mx & E & N). eauto.
  - destruct H as (mx & E & N & C). rewrite last_cons. apply IH. assumption.
Qed.

(** The loop of [removeModule] on a chain that ends in the node sought:
    the node before it takes over its [next]. *)
Lemma unlink_chain h a md l : ∀ x prevp fuel,
  chain h x (l ++ [a]) → h !! a = Some md → (S (length l) < fuel)%nat →
  unlinkModule fuel (Some a) h prevp (Some x)
  = Done (alter (md_set_next (md_next md)) (List.last l x) h).
Proof.
  induction l as [|b l IH]; intros x prevp fuel H Ea Hf.
  - destruct fuel as [|[|fuel]]; [cbn in Hf; lia..|].
    pose proof (chain_head_fresh _ _ _ H) as Hx.
    destruct H as (mx & Ex & Nx & _).
    cbn [unlinkModule]. rewrite Ex.
    destruct (decide (Some a = Some x)) as [E|_].
    { exfalso. apply Hx. injection E as ->. left. }
    rewrite Nx, Ea.
    destruct (decide (Some a = Some a)); [reflexivity | congruence].
  - destruct fuel; [lia|].
    pose proof (chain_head_fresh _ _ _ H) as Hx.
    destruct H as (mx & Ex & Nx & C).
    cbn [unlinkModule]. rewrite Ex.
    destruct (decide (Some a = Some x)) as [E|_].
    { exfalso. apply Hx. injection E as ->. right.
      apply elem_of_app. right. left. }
    rewrite Nx. rewrite (IH b x fuel C Ea) by (cbn in Hf; lia).
    rewrite last_cons. reflexivity.
Qed.

Lemma md_set_next_undo a m :
  md_next m = None → md_set_next None (md_set_next (Some a) m) = m.
Proof. destruct m. cbn. intros ->. reflexivity. Qed.

Section RegistryProps.

Variable firstmoduledata : addr.

(** C7.  Let the module list be the nodes [l] behind [firstmoduledata],
    and [a] a node outside it whose [next] is nil and which [modules] does
    not hold.  [addModule] makes the list [l] followed by [a]: the nodes
    published before keep their order.  [removeModule] of [a] then leaves
    the heap and [modules] exactly as they were before the insertion, and
    a traversal of the list meets [firstmoduledata] and [l], not [a]. *)
Theorem addModule_removeModule (w : world) (a : addr) (l : list addr) md :
  chain (heap w) firstmoduledata l →
  a ∉ firstmoduledata :: l →
  heap w !! a = Some md → md_next md = None →
  a ∉ modules w →
  ∃ w1 w2,
    addModule firstmoduledata a w = Done w1
    ∧ chain (heap w1) firstmoduledata (l ++ [a])
    ∧ removeModule firstmoduledata (Some a) w1 = Done w2
    ∧ heap w2 = heap w ∧ modules w2 = modules w
    ∧ chain (heap w2) firstmoduledata l
    ∧ (∀ fuel, (S (length l) < fuel)%nat →
         traverse fuel (heap w2) (Some firstmoduledata)
         = Some (firstmoduledata :: l))
    ∧ a ∉ firstmoduledata :: l.
Proof.
  intros Hc Ha Ea Na Hm.
  set (tail := List.last l firstmoduledata).
  set (h1 := alter (md_set_next (Some a)) tail (heap w)).
  assert (Hc1 : chain h1 firstmoduledata (l ++ [a]))
    by (eapply chain_link; eassumption).
  assert (Hat : a ≠ tail).
  { intros ->. apply Ha. apply last_elem. }
  assert (Ea1 : h1 !! a = Some md).
  { unfold h1. rewrite lookup_alter_ne by congruence. assumption. }
  assert (Hadd : addModule firstmoduledata a w
                 = Done (emit (EvLink a)
                           (set_heap h1 (set_modules ({[a]} ∪ modules w) w)))).
  { unfold addModule. cbn [heap set_modules].
    rewrite (lastModule_chain _ l) by
      (try assumption; pose proof (chain_length _ _ _ Hc) as Hl; cbn in Hl; lia).
    reflexivity. }
  assert (Hh2 : alter (md_set_next (md_next md)) tail h1 = heap w).
  { rewrite Na. unfold h1. apply map_eq. intros k.
    destruct (chain_last _ _ _ Hc) as (ml & El & Nl). fold tail in El.
    destruct (decide (k = tail)) as [->|Hk].
    - rewrite !lookup_alter_eq, El. cbn. rewrite md_set_next_undo by assumption.
      reflexivity.
    - rewrite !lookup_alter_ne by congruence. reflexivity. }
  eexists _, _. split; [exact Hadd|].
  split; [exact Hc1|].
  split.
  { unfold removeModule. cbn [heap emit set_heap set_modules modules].
    rewrite (unlink_chain h1 a md l) by
      (try assumption; pose proof (chain_length _ _ _ Hc1) as Hl;
       rewrite length_cons, length_app in Hl; cbn in Hl; lia).
    fold tail. rewrite Hh2. reflexivity. }
  cbn [heap modules emit set_heap set_modules].
  split; [reflexivity|].
  split.
  { apply set_eq. intros x.
    rewrite elem_of_difference, elem_of_union, !elem_of_singleton.
    split; [intros [[->|Hx] Hne]; [contradiction | assumption]|].
    intros Hx. split; [right; assumption | intros ->; contradiction]. }
  split; [assumption|].
  split; [|assumption].
  intros fuel Hf. apply traverse_chain; assumption.
Qed.

End RegistryProps.

(** ** Unload *)

Section UnloadProps.

Variable firstmoduledata : addr.

(** On a list that ends, the loop of [removeModule] ends, whether it
    meets the node or not. *)
Lemma unlink_Done h module l : ∀ x prevp fuel,
  chain h x l → (S (length l) < fuel)%nat →
  ∃ h', unlinkModule fuel module h prevp (Some x) = Done h'.
Proof.
  induction l as [|b l IH]; intros x prevp fuel H Hf.
  - destruct fuel as [|[|fuel]]; [cbn in Hf; lia..|].
    destruct H as (mx & Ex & Nx). cbn [unlinkModule]. rewrite Ex.
    destruct (decide (module = Some x)); [eauto|]. rewrite Nx. eauto.
  - destruct fuel; [lia|]. destruct H as (mx & Ex & Nx & C).
    cbn [unlinkModule]. rewrite Ex.
    destruct (decide (module = Some x)); [eauto|]. rewrite Nx.
    apply IH; [assumption | cbn in Hf; lia].
Qed.

Lemma removeModule_Done module w l :
  chain (heap w) firstmoduledata l →
  ∃ w', removeModule firstmoduledata module w = Done w'
        ∧ trace w' = trace w ++ [EvUnlink module] ∧ locked w' = locked w
        ∧ mapped w' = mapped w.
Proof.
  intros Hc. unfold removeModule.
  destruct (unlink_Done (heap w) module l firstmoduledata firstmoduledata
              (S (S (size (heap w)))) Hc) as [h' ->].
  { pose proof (chain_length _ _ _ Hc) as Hl. cbn in Hl. lia. }
  cbn. eauto.
Qed.

(** C2, as amended.  When [modulesLock] is free and the module list ends,
    [Unload] returns, and what it does is, in this order: the collection,
    the unlinking of the node between taking and releasing the lock, and
    the unmapping of the region. *)
Theorem Unload_order (cm : CodeModule) (w : world) (l : list addr) :
  locked w = false →
  chain (heap w) firstmoduledata l →
  ∃ w', Unload firstmoduledata cm w = Done w'
    ∧ trace w' = trace w ++ [EvGC; EvLock; EvUnlink (cm_Module cm); EvUnlock;
                             EvMunmap (CodeBytePtr cm)]
    ∧ CodeBytePtr cm ∉ mapped w'.
Proof.
  intros Hl Hc. unfold Unload, Lock, GC.
  cbn [locked emit]. rewrite Hl. cbn [mbind outcome_bind].
  set (w1 := emit EvLock _).
  destruct (removeModule_Done (cm_Module cm) w1 l Hc) as (w2 & -> & Ht & Hk & Hm).
  cbn [mbind outcome_bind]. unfold Unlock. rewrite Hk. cbn [w1 emit locked].
  cbn [mbind outcome_bind]. eexists. split; [reflexivity|].
  unfold Munmap. cbn [trace emit mapped]. rewrite Ht. cbn [w1 emit trace].
  split; [rewrite <- !app_assoc; reflexivity|].
  rewrite not_elem_of_difference, elem_of_singleton. right. reflexivity.
Qed.

End UnloadProps.

(** ** The symbol table builder *)

(** An invariant of a [range] loop. *)
Lemma foldM_inv {A S : Type} (R : S → S → Prop) (f : A → S → outcome S) l :
  (∀ s, R s s) → (∀ s1 s2 s3, R s1 s2 → R s2 s3 → R s1 s3) →
  (∀ x s s', x ∈ l → f x s = Done s' → R s s') →
  ∀ s s', foldM f l s = Done s' → R s s'.
Proof.
  intros Hrefl Htrans. induction l as [|x l IH]; intros Hf s s' H; cbn in H.
  - injection H as <-. apply Hrefl.
  - inv_bind H. eapply Htrans.
    + eapply Hf; [left | eassumption].
    + apply IH; [|assumption]. intros y s1 s2 Hy. apply Hf. right. assumption.
Qed.

Lemma interned_mono_refl bs : interned_mono bs bs.
Proof. intros n j H. exact H. Qed.

Lemma interned_mono_trans b1 b2 b3 :
  interned_mono b1 b2 → interned_mono b2 b3 → interned_mono b1 b3.
Proof. intros H1 H2 n j H. apply H2, H1, H. Qed.

Lemma addSym_interned rsym bs off bs' :
  addSym rsym bs = Done (off, bs') →
  interned_mono bs bs' ∧ symMap bs' !! Sym_Name rsym = Some off.
Proof.
  unfold addSym. intros H.
  destruct (symMap bs !! Sym_Name rsym) as [o|] eqn:E.
  - go. split; [intros n j Hn; exact Hn | exact E].
  - go. split; [|cbn; apply lookup_insert_eq].
    intros n j Hn. cbn. rewrite lookup_insert_ne; [assumption | congruence].
Qed.

Section BuilderProps.

Variable TLSNAME : string.
Variable R_CALLIND_NAME : string.
Variable readFuncData :
  Module → goSym → gmap string goSym → gmap string Z → gmap string Z → Z → Z →
  Module * gmap string Z * gmap string Z.

Local Notation "'intern'" := (relocSym TLSNAME R_CALLIND_NAME readFuncData).
Local Notation "'build'" := (readRoots TLSNAME R_CALLIND_NAME readFuncData).

(** An interned name is answered from the map: the index it has, and the
    build state as it is. *)
Lemma relocSym_interned fuel allSyms curSym bs i :
  symMap bs !! gs_Name curSym = Some i →
  intern (S fuel) allSyms curSym bs = Done (i, bs).
Proof. intros H. cbn [relocSym]. rewrite H. reflexivity. Qed.

(** A call that returns has interned the name under the index it returns,
    and has kept every index handed out before. *)
Lemma relocSym_mono fuel allSyms : ∀ curSym bs i bs',
  intern fuel allSyms curSym bs = Done (i, bs') →
  interned_mono bs bs' ∧ symMap bs' !! gs_Name curSym = Some i.
Proof.
  induction fuel as [|fuel IH]; intros curSym bs i bs' H; [discriminate H|].
  cbn [relocSym] in H.
  destruct (symMap bs !! gs_Name curSym) as [o|] eqn:E.
  { injection H as <- <-. split; [apply interned_mono_refl | exact E]. }
  inv_bind H. destruct a as [curSymOffset bs1].
  apply addSym_interned in Ha as [Hm1 Hi1]. cbn [Sym_Name] in Hi1.
  set (step := if gs_Kind curSym =? STEXT then _ else _) in H.
  assert (Hstep : symMap step.2 = symMap bs1).
  { unfold step. destruct (gs_Kind curSym =? STEXT); [|reflexivity].
    destruct (readFuncData _ _ _ _ _ _ _) as [[m g] f]. reflexivity. }
  destruct step as [symOffset bs2]. cbn [snd] in Hstep.
  inv_bind H. destruct a as [o2 bs3].
  apply addSym_interned in Ha as [Hm3 _].
  inv_bind H. destruct a as [relocs bs4].
  assert (Hm4 : interned_mono bs3 bs4).
  { revert Ha.
    change (interned_mono bs3 bs4) with
      ((λ s s' : list Reloc * buildState, interned_mono s.2 s'.2)
         ([], bs3) (relocs, bs4)).
    apply foldM_inv.
    - intros s. apply interned_mono_refl.
    - intros s1 s2 s3. apply interned_mono_trans.
    - intros re [rl b] [rl' b'] _ Hre. cbn [snd].
      inv_bind Hre. destruct a as [symOff b1]. injection Hre as _ <-.
      destruct (allSyms !! re_Sym re) as [s|].
      + apply IH in Ha. tauto.
      + destruct (externalSym _ _ _ _) as [exSym pathb].
        apply addSym_interned in Ha as [Hm _]. exact Hm. }
  inv_bind H. inv_bind H. injection H as <- <-.
  assert (Hall : interned_mono bs1 bs4).
  { intros n j Hn. apply Hm4, Hm3. rewrite Hstep. exact Hn. }
  split.
  - intros n j Hn. cbn. apply Hall, Hm1, Hn.
  - cbn. apply Hall, Hi1.
Qed.

Lemma readRoots_mono fuel allSyms syms : ∀ bs bs',
  build fuel allSyms syms bs = Done bs' → interned_mono bs bs'.
Proof.
  unfold readRoots. apply foldM_inv.
  - apply interned_mono_refl.
  - apply interned_mono_trans.
  - intros s b b' _ H. destruct (isRoot s).
    + inv_bind H. destruct a as [i b1]. injection H as <-.
      apply relocSym_mono in Ha. tauto.
    + injection H as <-. apply interned_mono_refl.
Qed.

(** A second pass over roots that a first pass interned changes
    nothing. *)
Lemma readRoots_again fuel fuel' allSyms syms : ∀ bs bs' bs'',
  build fuel allSyms syms bs = Done bs' →
  interned_mono bs' bs'' →
  build (S fuel') allSyms syms bs'' = Done bs''.
Proof.
  induction syms as [|s syms IH]; intros bs bs' bs'' H Hm; [reflexivity|].
  unfold readRoots in H |- *. cbn [foldM] in H |- *.
  destruct (isRoot s).
  - inv_bind H. inv_bind Ha. destruct a0 as [i b1]. injection Ha as <-.
    cbn [snd] in H.
    pose proof (readRoots_mono _ _ _ _ _ H) as Hm1.
    apply relocSym_mono in Ha0 as [_ Hi].
    rewrite (relocSym_interned fuel' allSyms s bs'' i) by (apply Hm, Hm1, Hi).
    cbn [mbind outcome_bind snd]. eapply IH; eassumption.
  - inv_bind H. injection Ha as <-. cbn [mbind outcome_bind].
    eapply IH; eassumption.
Qed.

(** C6.  Interning is idempotent.  A call of [relocSym] for a name that
    the symbol map holds returns the index the map has for it and leaves
    the build state as it is: no symbol record and no byte is added.
    Hence a call that has returned an index returns it again when it is
    repeated, and a second pass over the roots of a build leaves the image
    of the first pass as it is.  (The builder ranges over slices only and
    is a function of the parsed objects: two builds of the same objects
    give the same indices and offsets.) *)
Theorem relocSym_idempotent fuel fuel' allSyms curSym bs :
  (∀ i, symMap bs !! gs_Name curSym = Some i →
        relocSym TLSNAME R_CALLIND_NAME readFuncData (S fuel') allSyms curSym bs
        = Done (i, bs))
  ∧ (∀ i bs',
       relocSym TLSNAME R_CALLIND_NAME readFuncData fuel allSyms curSym bs
       = Done (i, bs') →
       relocSym TLSNAME R_CALLIND_NAME readFuncData (S fuel') allSyms curSym bs'
       = Done (i, bs'))
  ∧ (∀ syms bs',
       readRoots TLSNAME R_CALLIND_NAME readFuncData fuel allSyms syms bs
       = Done bs' →
       readRoots TLSNAME R_CALLIND_NAME readFuncData (S fuel') allSyms syms bs'
       = Done bs').
Proof.
  split; [|split].
  - intros i H. apply relocSym_interned. exact H.
  - intros i bs' H. apply relocSym_interned.
    apply relocSym_mono in H. tauto.
  - intros syms bs' H. eapply readRoots_again; [exact H|].
    apply interned_mono_refl.
Qed.

(** *** The recursion bound of [ReadObjs] is never reached *)

Lemma bind_not_fault {A B} (bad : fault) (m : outcome A) (k : A → outcome B) :
  m ≠ Fault bad → (∀ a, m = Done a → k a ≠ Fault bad) → m ≫= k ≠ Fault bad.
Proof.
  intros Hm Hk. destruct m as [a|f]; cbn.
  - apply Hk. reflexivity.
  - intros E. apply Hm. congruence.
Qed.

Lemma foldM_not_fault {A S : Type} (bad : fault) (R : S → Prop)
    (f : A → S → outcome S) l :
  (∀ x s, x ∈ l → R s → f x s ≠ Fault bad ∧ ∀ s', f x s = Done s' → R s') →
  ∀ s, R s → foldM f l s ≠ Fault bad.
Proof.
  induction l as [|x l IH]; intros Hf s Hs; cbn; [discriminate|].
  destruct (Hf x s ltac:(left) Hs) as [Hx Hx'].
  apply bind_not_fault; [exact Hx|].
  intros s' Hs'. apply IH; [|apply Hx'; exact Hs'].
  intros y s1 Hy. apply Hf. right. exact Hy.
Qed.

Lemma set_index_not_OutOfFuel {A} (l : list A) i v :
  set_index l i v ≠ Fault OutOfFuel.
Proof. unfold set_index. destruct (_ && _); discriminate. Qed.

Lemma index_not_OutOfFuel {A} (l : list A) i : index l i ≠ Fault OutOfFuel.
Proof.
  unfold index. destruct (0 <=? i); [|discriminate].
  destruct (l !! Z.to_nat i); discriminate.
Qed.

Lemma addSym_not_OutOfFuel rsym bs : addSym rsym bs ≠ Fault OutOfFuel.
Proof.
  unfold addSym. destruct (symMap bs !! Sym_Name rsym); [|discriminate].
  apply bind_not_fault; [apply set_index_not_OutOfFuel | discriminate].
Qed.

Lemma pending_mono allSyms bs bs' :
  interned_mono bs bs' → pending allSyms bs' ⊆ pending allSyms bs.
Proof.
  intros Hm x. unfold pending. rewrite !elem_of_difference, !elem_of_dom.
  intros [Hx Hn]. split; [exact Hx|]. intros [j Hj]. apply Hn.
  exists j. apply Hm. exact Hj.
Qed.

Lemma relocSym_fuel allSyms :
  (∀ k s, allSyms !! k = Some s → gs_Name s = k) →
  ∀ fuel curSym bs,
    gs_Name curSym ∈ dom allSyms →
    (size (pending allSyms bs) < fuel)%nat →
    intern fuel allSyms curSym bs ≠ Fault OutOfFuel.
Proof.
  intros Hwf. induction fuel as [|fuel IH]; intros curSym bs Hdom Hsize; [lia|].
  cbn [relocSym].
  destruct (symMap bs !! gs_Name curSym) as [o|] eqn:E; [discriminate|].
  apply bind_not_fault; [apply addSym_not_OutOfFuel|].
  intros [curSymOffset bs1] H1.
  apply addSym_interned in H1 as [Hm1 Hi1]. cbn [Sym_Name] in Hi1.
  assert (Hlt : (size (pending allSyms bs1) < size (pending allSyms bs))%nat).
  { apply subset_size. split; [apply pending_mono; exact Hm1|].
    intros Hsub. specialize (Hsub (gs_Name curSym)).
    unfold pending in Hsub. rewrite !elem_of_difference, !elem_of_dom in Hsub.
    destruct Hsub as [_ Hn].
    - split; [apply elem_of_dom; exact Hdom|]. rewrite E. intros [j Hj]. discriminate.
    - apply Hn. eauto. }
  set (step := if gs_Kind curSym =? STEXT then _ else _).
  assert (Hstep : symMap step.2 = symMap bs1).
  { unfold step. destruct (gs_Kind curSym =? STEXT); [|reflexivity].
    destruct (readFuncData _ _ _ _ _ _ _) as [[m g] f]. reflexivity. }
  destruct step as [symOffset bs2]. cbn [snd] in Hstep.
  apply bind_not_fault; [apply addSym_not_OutOfFuel|].
  intros [o2 bs3] H3. apply addSym_interned in H3 as [Hm3 _].
  assert (Hm13 : interned_mono bs1 bs3).
  { intros n j Hn. apply Hm3. rewrite Hstep. exact Hn. }
  apply bind_not_fault.
  - apply (foldM_not_fault OutOfFuel
             (λ s : list Reloc * buildState, interned_mono bs1 s.2));
      [|exact Hm13].
    intros re [rl b] _ Hb. cbn [snd] in Hb.
    assert (Hstepf :
      match allSyms !! re_Sym re with
      | Some s => intern fuel allSyms s b
      | None =>
          let cr := reloc b in
          let '(exSym, pathb) :=
            externalSym TLSNAME R_CALLIND_NAME re (len (Data cr)) in
          addSym exSym
            (bs_set_reloc
               (mkCodeReloc (Code cr) (Data cr ++ pathb) (Mod cr) (Syms cr)) b)
      end ≠ Fault OutOfFuel
      ∧ ∀ r, match allSyms !! re_Sym re with
             | Some s => intern fuel allSyms s b
             | None =>
                 let cr := reloc b in
                 let '(exSym, pathb) :=
                   externalSym TLSNAME R_CALLIND_NAME re (len (Data cr)) in
                 addSym exSym
                   (bs_set_reloc
                      (mkCodeReloc (Code cr) (Data cr ++ pathb) (Mod cr) (Syms cr)) b)
             end = Done r → interned_mono bs1 r.2).
    { destruct (allSyms !! re_Sym re) as [s|] eqn:Es.
      - split.
        + apply IH.
          * rewrite (Hwf _ _ Es). apply elem_of_dom. eauto.
          * pose proof (subseteq_size _ _ (pending_mono allSyms _ _ Hb)). lia.
        + intros [i b'] Hr. apply relocSym_mono in Hr as [Hr _].
          eapply interned_mono_trans; eassumption.
      - cbn zeta. destruct (externalSym _ _ _ _) as [exSym pathb]. split.
        + apply addSym_not_OutOfFuel.
        + intros [i b'] Hr. apply addSym_interned in Hr as [Hr _].
          eapply interned_mono_trans; eassumption. }
    destruct Hstepf as [Hnf Hpres]. split.
    + apply bind_not_fault; [exact Hnf|]. intros [symOff b1] _. discriminate.
    + intros [rl' b'] Hs. inv_bind Hs. destruct a as [symOff b1].
      injection Hs as _ <-. apply (Hpres _ Ha).
  - intros [relocs bs4] _.
    apply bind_not_fault; [apply index_not_OutOfFuel|]. intros old _.
    apply bind_not_fault; [apply set_index_not_OutOfFuel|]. discriminate.
Qed.

Lemma collectSyms_wf objs :
  (∀ k s, collectSyms objs !! k = Some s → gs_Name s = k)
  ∧ ∀ s, s ∈ concat objs → gs_Name s ∈ dom (collectSyms objs).
Proof.
  unfold collectSyms. generalize (concat objs). intros l.
  assert (H : ∀ m : gmap string goSym,
             (∀ k s, m !! k = Some s → gs_Name s = k) →
             (∀ k s, fold_left (λ m s, <[gs_Name s := s]> m) l m !! k = Some s
                     → gs_Name s = k)
             ∧ (∀ k, k ∈ dom m ∨ (∃ s, s ∈ l ∧ gs_Name s = k) →
                     k ∈ dom (fold_left (λ m s, <[gs_Name s := s]> m) l m))).
  { induction l as [|x l IH]; intros m Hm; cbn [fold_left].
    - split; [exact Hm|]. intros k [Hk|(s & Hs & _)]; [exact Hk|].
      apply elem_of_nil in Hs. contradiction.
    - destruct (IH (<[gs_Name x := x]> m)) as [IH1 IH2].
      { intros k s Hk. destruct (decide (gs_Name x = k)) as [<-|Hne].
        - rewrite lookup_insert_eq in Hk. congruence.
        - rewrite lookup_insert_ne in Hk by exact Hne. apply Hm. exact Hk. }
      split; [exact IH1|]. intros k Hk. apply IH2.
      rewrite dom_insert, elem_of_union, elem_of_singleton.
      destruct Hk as [Hk|(s & Hs & Hn)]; [left; right; exact Hk|].
      apply elem_of_cons in Hs as [->|Hs]; [left; left; congruence|].
      right. eauto. }
  destruct (H ∅) as [H1 H2].
  { intros k s Hk. rewrite lookup_empty in Hk. discriminate. }
  split; [exact H1|]. intros s Hs. apply H2. right. eauto.
Qed.

(** With the bound [ReadObjs] passes, the builder never stops for lack of
    fuel: the depth of the recursion is bounded by the number of names. *)
Lemma ReadObjs_fuel objs :
  ReadObjs TLSNAME R_CALLIND_NAME readFuncData objs ≠ Fault OutOfFuel.
Proof.
  unfold ReadObjs. destruct (collectSyms_wf objs) as [Hwf Hdom].
  apply bind_not_fault; [|discriminate].
  unfold readRoots.
  apply (foldM_not_fault OutOfFuel (λ _, True)); [|exact I].
  intros s bs Hs _. split; [|auto].
  destruct (isRoot s); [|discriminate].
  apply bind_not_fault; [|discriminate].
  apply relocSym_fuel; [exact Hwf | apply Hdom; exact Hs|].
  assert (size (pending (collectSyms objs) bs) ≤ size (collectSyms objs))%nat; [|lia].
  rewrite <- size_dom. apply subseteq_size.
  unfold pending. intros x Hx. apply elem_of_difference in Hx. tauto.
Qed.

End BuilderProps.

(** ** buildModule *)

Lemma set_index_Done {A} (l : list A) k v l' :
  set_index l k v = Done l' → 0 ≤ k < len l ∧ l' = <[Z.to_nat k := v]> l.
Proof.
  unfold set_index. intros H. destruct (_ && _) eqn:E; [|discriminate].
  apply andb_prop in E as [E1 E2]. apply Z.leb_le in E1. apply Z.ltb_lt in E2.
  injection H as <-. auto.
Qed.



Lemma index_range {A} (l : list A) k x : index l k = Done x → 0 ≤ k < len l.
Proof.
  unfold index. intros H. destruct (Z.leb_spec 0 k); [|discriminate].
  destruct (l !! Z.to_nat k) eqn:E; [|discriminate].
  apply lookup_lt_Some in E. unfold len. lia.
Qed.

Lemma uintptr_int z : uintptr (int z) = uintptr z.
Proof.
  unfold uintptr, int.
  rewrite <- Zminus_mod_idemp_l, Z.mod_mod by lia.
  rewrite Zminus_mod_idemp_l. f_equal. lia.
Qed.

Section BuildProps.

Variable firstmoduledata : addr.
Variable funcSize : Z.
Variable pclnBase : Z.










End BuildProps.

(** ** The diagnostic report and Load *)

Lemma str_app_nil_r (s : string) : (s ++ "")%string = s.
Proof.
  induction s as [|c s IH]; [reflexivity|].
  change (String c (s ++ "")%string = String c s). f_equal. exact IH.
Qed.

Lemma str_app_assoc (s1 s2 s3 : string) :
  ((s1 ++ s2) ++ s3)%string = (s1 ++ (s2 ++ s3))%string.
Proof.
  induction s1 as [|c s1 IH]; [reflexivity|].
  change (String c ((s1 ++ s2) ++ s3)%string = String c (s1 ++ (s2 ++ s3))%string).
  f_equal. exact IH.
Qed.

Lemma str_app_empty (s1 s2 : string) : (s1 ++ s2)%string = "" → s1 = "" ∧ s2 = "".
Proof.
  destruct s1 as [|c s1]; [auto|].
  change (String c (s1 ++ s2)%string = "" → String c s1 = "" ∧ s2 = "").
  discriminate.
Qed.

(** [strWrite] appends to the buffer. *)
Lemma strWrite_app str : ∀ buf, strWrite buf str = (buf ++ strWrite "" str)%string.
Proof.
  induction str as [|s str IH]; intros buf; cbn [strWrite].
  - symmetry. apply str_app_nil_r.
  - rewrite IH. rewrite (IH (if String.eqb s newline then _ else _)).
    rewrite <- str_app_assoc. f_equal.
    cbn [String.append]. destruct (String.eqb s newline).
    + reflexivity.
    + rewrite str_app_assoc. reflexivity.
Qed.

(** A diagnostic that starts with a non-empty piece leaves a non-empty
    buffer, whatever the buffer held. *)
Lemma strWrite_nonempty buf s str : s ≠ "" → strWrite buf (s :: str) ≠ "".
Proof.
  intros Hs H. cbn [strWrite] in H. rewrite strWrite_app in H.
  apply str_app_empty in H as [H _].
  destruct (String.eqb s newline).
  - apply str_app_empty in H as [_ H]. contradiction.
  - apply str_app_empty in H as [H _]. apply str_app_empty in H as [_ H].
    contradiction.
Qed.

Lemma report_extends_refl st : report_extends st st.
Proof. exists "". symmetry. apply str_app_nil_r. Qed.

Lemma report_extends_trans s1 s2 s3 :
  report_extends s1 s2 → report_extends s2 s3 → report_extends s1 s3.
Proof.
  intros [t1 H1] [t2 H2]. exists (t1 ++ t2)%string.
  rewrite H2, H1. apply str_app_assoc.
Qed.

Lemma report_extends_diag str st : report_extends st (diag str st).
Proof. exists (strWrite "" str). cbn. apply strWrite_app. Qed.

Ltac report_solve :=
  unfold set_relocByte, set_offset, set_codeByte, set_itabs, set_Code, set_Data,
    set_seg, set_codeModule, set_codeByte_shared;
  repeat match goal with
         | |- context [if ?c then _ else _] => destruct c
         end;
  first [ apply report_extends_refl
        | apply report_extends_diag
        | match goal with
          | |- report_extends ?s (mkLoadState _ _ (seg (diag ?str ?s))) =>
              apply (report_extends_diag str s)
          | |- report_extends ?s (mkLoadState _ _ (seg ?s)) =>
              exists ""; symmetry; apply str_app_nil_r
          | |- report_extends ?s (mkLoadState _ _ ?g) =>
              exists ""; cbn; symmetry; apply str_app_nil_r
          end ].

Section ReportProps.

Variable TLSNAME : string.

Lemma relocSite_report symPtr curSym loc st st' :
  relocSite TLSNAME symPtr curSym loc st = Done st' → report_extends st st'.
Proof.
  unfold relocSite, relocTLS, relocCallPCRel, relocCallArm, relocAddrArm64,
    relocAddr, relocAddrOff.
  intros H. go; report_solve.
Qed.

Lemma relocate_report symPtr st st' :
  relocate TLSNAME symPtr st = Done st' → report_extends st st'.
Proof.
  unfold relocate. apply foldM_inv.
  - apply report_extends_refl.
  - apply report_extends_trans.
  - intros curSym s s' _. apply foldM_inv.
    + apply report_extends_refl.
    + apply report_extends_trans.
    + intros loc s1 s2 _. apply relocSite_report.
Qed.

Variable RegTLS : gmap string Z → Z → gmap string Z.

Lemma set_symAddr_report j v st st' :
  set_symAddr j v st = Done st' → err (seg st') = err (seg st).
Proof. unfold set_symAddr. intros H. go. reflexivity. Qed.

Lemma addSymAddr_report j sym sp st sp' st' :
  addSymAddr TLSNAME RegTLS j sym (sp, st) = Done (sp', st') →
  report_extends st st'.
Proof.
  unfold addSymAddr. intros H. go;
    repeat match goal with
           | H : set_symAddr _ _ _ = Done _ |- _ => apply set_symAddr_report in H
           end;
    try (eapply report_extends_trans; [|apply report_extends_diag]);
    unfold report_extends;
    destruct (HasPrefix (Sym_Name sym) "type.func");
    cbn in *; exists ""; rewrite str_app_nil_r; congruence.
Qed.

Lemma foldMi_inv {A S : Type} (R : S → S → Prop) (f : Z → A → S → outcome S) l :
  (∀ s, R s s) → (∀ s1 s2 s3, R s1 s2 → R s2 s3 → R s1 s3) →
  (∀ i x s s', f i x s = Done s' → R s s') →
  ∀ k s s', foldMi f k l s = Done s' → R s s'.
Proof.
  intros Hrefl Htrans Hf. induction l as [|x l IH]; intros k s s' H; cbn in H.
  - injection H as <-. apply Hrefl.
  - inv_bind H. eapply Htrans; [eapply Hf; eassumption | eapply IH; eassumption].
Qed.

Lemma addSymAddrs_report symPtr st symPtr' st' :
  addSymAddrs TLSNAME RegTLS symPtr st = Done (symPtr', st') →
  report_extends st st'.
Proof.
  unfold addSymAddrs.
  change (report_extends st st') with
    ((λ s s' : gmap string Z * loadState, report_extends s.2 s'.2)
       (symPtr, st) (symPtr', st')).
  apply foldMi_inv.
  - intros s. apply report_extends_refl.
  - intros s1 s2 s3. apply report_extends_trans.
  - intros i x [sp s] [sp1 s1]. apply addSymAddr_report.
Qed.

(** Once a diagnostic is in the report it stays there. *)
Lemma report_extends_nonempty st st' :
  report_extends st st' → err (seg st) ≠ "" → err (seg st') ≠ "".
Proof.
  intros [t Ht] Hne H. rewrite Ht in H. apply str_app_empty in H as [H _].
  contradiction.
Qed.

End ReportProps.

Section LoadProps.

Variable TLSNAME : string.
Variable RegTLS : gmap string Z → Z → gmap string Z.
Variable rangeOrder : gmap string Z → list (string * Z).
Variable addIFaceSubFuncType :
  gmap string Z → gmap Z Z → Z → Z → list Z →
  outcome (gmap string Z * gmap Z Z * list Z).
Variable getitab : Z → Z → bool → Z.
Variable firstmoduledata : addr.
Variable funcSize : Z.
Variable pclnBase : Z.
Variable Mmap : Z → world → string + (Z * list Z).
Variable allocModule : world → addr.

Local Notation "'load'" :=
  (Load TLSNAME RegTLS rangeOrder addIFaceSubFuncType getitab firstmoduledata
     funcSize pclnBase Mmap allocModule).
Local Notation "'phases'" :=
  (loadPhases TLSNAME RegTLS rangeOrder addIFaceSubFuncType getitab
     firstmoduledata funcSize pclnBase allocModule).


Lemma addItab_report st st' :
  addItab rangeOrder addIFaceSubFuncType st = Done st' →
  err (seg st') = err (seg st).
Proof.
  unfold addItab.
  apply (foldM_inv (λ s s' : loadState, err (seg s') = err (seg s))).
  - reflexivity.
  - intros s1 s2 s3 H1 H2. congruence.
  - intros [n i] s s' _ H. unfold addItabOne in H. go; reflexivity.
Qed.

Lemma relocateItab_report st st' :
  relocateItab getitab st = Done st' → err (seg st') = err (seg st).
Proof.
  unfold relocateItab. intros H.
  apply (foldM_inv (λ s s' : loadState, err (seg s') = err (seg s))) in H.
  - exact H.
  - reflexivity.
  - intros s1 s2 s3 H1 H2. congruence.
  - intros it s s' _ Hs. unfold relocateItabOne in Hs. go; reflexivity.
Qed.

Lemma buildModule_report a st w st' w' :
  buildModule firstmoduledata funcSize pclnBase a st w = Done (st', w') →
  err (seg st') = err (seg st).
Proof.
  unfold buildModule. intros H.
  repeat (let a := fresh "a" in let Ha := fresh "Ha" in
          apply bind_Done in H; destruct H as (a & Ha & H);
          try match type of H with
              | (let '(_, _) := ?p in _) = _ => destruct p
              end).
  injection H as <- <-. reflexivity.
Qed.

(** The report [Load] decides on is what the address resolver and the
    relocation engine wrote: it starts empty, [addSymAddrs] and [relocate]
    append to it, and no other phase touches it. *)
Lemma loadPhases_report c symPtr w region sp st w' :
  phases c symPtr w region = Done (sp, st, w') →
  ∃ st0 sp1 st1 st2 st3,
    err (seg st0) = ""
    ∧ addSymAddrs TLSNAME RegTLS symPtr st0 = Done (sp1, st1)
    ∧ report_extends st0 st1
    ∧ err (seg st2) = err (seg st1)
    ∧ relocate TLSNAME sp1 st2 = Done st3
    ∧ report_extends st2 st3
    ∧ err (seg st) = err (seg st3).
Proof.
  unfold loadPhases. destruct region as [base bytes]. intros H.
  inv_bind H. destruct a as [sp1 st1].
  inv_bind H. rename a into st2. inv_bind H. rename a into st3.
  inv_bind H. destruct a as [st4 w4]. inv_bind H. injection H as <- <- <-.
  eexists _, sp1, st1, st2, st3.
  split; [|split; [exact Ha|]]; [reflexivity|].
  split; [eapply addSymAddrs_report; exact Ha|].
  split; [eapply addItab_report; exact Ha0|].
  split; [exact Ha1|].
  split; [eapply relocate_report; exact Ha1|].
  rewrite (relocateItab_report _ _ Ha3).
  eapply buildModule_report. exact Ha2.
Qed.


End LoadProps.


(** * The theorems at concrete images *)

(** ** relocADRP *)

Lemma adrpSite_bytes : is_bytes adrpSite.
Proof. unfold is_bytes, adrpSite. repeat constructor; lia. Defined.

(** C4, counterexample: a target 2 GiB above the site has a page delta of
    2^31, which a signed 33-bit field holds, and the site receives the mov
    pair all the same. *)
Lemma relocADRP_fallback_within_33 :
  ¬ adrpFallbackBeyond33 adrpSite 0x10000 0x80010000.
Proof.
  unfold adrpFallbackBeyond33. intros [H _]. apply H.
  - exists 0x90000000, [0; 0; 128; 210; 32; 0; 176; 242].
    split; [reflexivity|]. split; [vm_compute; reflexivity|].
    split; vm_compute; reflexivity.
  - assert (E : adrpPageOff 0x10000 0x80010000 = 0x80000000) by (vm_compute; reflexivity).
    rewrite E. unfold fits_signed. lia.
Qed.

Lemma relocADRP_spec_witness :
  ∃ res, relocADRP adrpSite 0x10000 0x12345678 = Done res
         ∧ Uint32 res 4 = Done 0x9119E000.
Proof.
  destruct (relocADRP_spec adrpSite 0x10000 0x12345678 0x90000000 0x91000000
              adrpSite_bytes eq_refl eq_refl)
    as (res & Hres & _ & _ & _ & Hin & _).
  exists res. split; [exact Hres|].
  destruct Hin as (w0' & _ & _ & H4).
  - unfold fits_signed. vm_compute. split; [discriminate | reflexivity].
  - exact H4.
Defined.

(** The 19-bit field of the adrp is taken from bit 15 of the page delta
    upwards: a target four pages above the site leaves the pair as it was,
    which addresses the page of the site. *)
Example relocADRP_page_bit14 :
  adrpPageOff 0x10000 0x14000 = 0x4000
  ∧ relocADRP adrpSite 0x10000 0x14000 = Done adrpSite.
Proof. split; vm_compute; reflexivity. Qed.

(** ** relocate *)

(** C1, the code at the boundaries.  At [0x7fffffff] the
    displacement is written at the site and at [0x80000000] the call goes
    through a stub.  On the negative side the change is not at
    [-0x80000000]: [-0x8000000] is the last displacement written at the
    site, and at [-0x8000001], well inside the signed 32-bit range, the
    site receives the displacement of a stub and the bump offset moves by
    the fourteen bytes of the stub. *)
Theorem relocate_call_boundaries (TLSNAME : string) :
  let run d :=
    relocate TLSNAME {["main.g" := 0x20000006 + d]} (callState (0x20000006 + d)) in
  let direct d st' :=
    Uint32 (Code (code st')) 2 = Done (uint32 d) ∧ offset (seg st') = 16 in
  let viaStub st' :=
    Uint32 (Code (code st')) 2 = Done 10 ∧ offset (seg st') = 30 in
  (∀ d, d ∈ [0x7fffffff; 0x80000000; - 0x8000000; - 0x8000001; - 0x80000000] →
        pcrelOffset (0x20000006 + d) (codeBase (seg (callState 0))) callSite = d
        ∧ demoResolve callImage {["main.g" := 0x20000006 + d]}
          = Done ({["main.g" := 0x20000006 + d]}, callState (0x20000006 + d)))
  ∧ (∃ st', run 0x7fffffff = Done st' ∧ direct 0x7fffffff st')
  ∧ (∃ st', run 0x80000000 = Done st' ∧ viaStub st')
  ∧ (∃ st', run (- 0x8000000) = Done st' ∧ direct (- 0x8000000) st')
  ∧ fits_signed 32 (- 0x8000001)
  ∧ (∃ st', run (- 0x8000001) = Done st' ∧ viaStub st'
            ∧ uint32 (- 0x8000001) ≠ 10)
  ∧ (∃ st', run (- 0x80000000) = Done st' ∧ viaStub st').
Proof.
  cbv zeta.
  split.
  { intros d Hd. repeat (apply elem_of_cons in Hd as [->|Hd]);
      [split; vm_compute; reflexivity..|]. apply elem_of_nil in Hd. contradiction. }
  split; [eexists; split; [vm_compute; reflexivity | split; reflexivity]|].
  split; [eexists; split; [vm_compute; reflexivity | split; reflexivity]|].
  split; [eexists; split; [vm_compute; reflexivity | split; reflexivity]|].
  split; [unfold fits_signed; lia|].
  split.
  - eexists. split; [vm_compute; reflexivity|].
    split; [split; reflexivity|]. vm_compute. discriminate.
  - eexists. split; [vm_compute; reflexivity | split; reflexivity].
Qed.

(** C9, the code at an image whose only site fits its natural encoding:
    the displacement of the call is [-0x8000001], which 32 signed bits
    hold, and [relocate] still allocates a stub: the bump offset leaves its
    initial value and bytes of the trampoline area are written. *)
Theorem relocate_stub_within_rel32 (TLSNAME : string) :
  let st := callState (0x20000006 + - 0x8000001) in
  demoResolve callImage {["main.g" := 0x20000006 + - 0x8000001]}
  = Done ({["main.g" := 0x20000006 + - 0x8000001]}, st)
  ∧ allSites (fitsNatural (seg st)) (code st)
  ∧ ∃ st', relocate TLSNAME {["main.g" := 0x20000006 + - 0x8000001]} st = Done st'
      ∧ offset (seg st) = 16 ∧ offset (seg st') = 30
      ∧ drop 16 (codeByte (seg st)) = replicate 16 0
      ∧ take 10 (drop 16 (codeByte (seg st')))
        = [0xff; 0x25; 0; 0; 0; 0; 0x05; 0x00; 0x00; 0x18].
Proof.
  cbv zeta. split; [vm_compute; reflexivity|]. split.
  - unfold allSites. cbn. repeat constructor.
    unfold fitsNatural. cbn.
    change (pcrelOffset _ _ _) with (- 0x8000001). unfold fits_signed. lia.
  - eexists. split; [vm_compute; reflexivity|].
    repeat split; reflexivity.
Qed.

(** C10, the code at two images whose trampoline area is shorter than a
    stub.  In both the capacity test lets the site through.  The
    fourteen-byte stub of the call is cut to the eight bytes that are
    left and the store of the target address at its offset 6 is out of
    range; of the sixteen-byte stub of the branch twelve bytes fit and the
    unchecked store of the address at its offset 8 runs four bytes past
    the end of the region. *)
Theorem relocate_stub_exceeds_region (TLSNAME : string) :
  demoResolve smallCallImage farHost = Done (farHost, smallCallState)
  ∧ (offset (seg smallCallState) ⊞ 8 >? maxCodeLen (seg smallCallState)) = false
  ∧ len (codeByte (seg smallCallState)) = maxCodeLen (seg smallCallState)
  ∧ relocate TLSNAME farHost smallCallState = Fault IndexOutOfRange
  ∧ demoLoad smallCallImage farHost loadedWorld = Fault IndexOutOfRange
  ∧ demoResolve blImage farHost = Done (farHost, blState)
  ∧ (offset (seg blState) ⊞ 4 >? maxCodeLen (seg blState)) = false
  ∧ len (codeByte (seg blState)) = maxCodeLen (seg blState)
  ∧ relocate TLSNAME farHost blState = Fault WildStore
  ∧ demoLoad blImage farHost loadedWorld = Fault WildStore.
Proof. repeat split; vm_compute; reflexivity. Qed.

(** ** The module list *)

Lemma hostWorld_chain : chain (heap hostWorld) 1 [2].
Proof.
  exists (hostModule (Some 2)). split; [reflexivity|]. split; [reflexivity|].
  exists (hostModule None). split; reflexivity.
Defined.

Lemma addModule_removeModule_witness :
  ∃ w1 w2, addModule 1 3 hostWorld = Done w1
           ∧ removeModule 1 (Some 3) w1 = Done w2
           ∧ heap w2 = heap hostWorld.
Proof.
  destruct (addModule_removeModule 1 hostWorld 3 [2] (hostModule None))
    as (w1 & w2 & H1 & _ & H2 & H3 & _).
  - exact hostWorld_chain.
  - intros H. repeat (apply elem_of_cons in H as [H|H]; [discriminate H|]).
    apply elem_of_nil in H. exact H.
  - reflexivity.
  - reflexivity.
  - intros H. change (3 ∈ ({[2]} : gset addr)) in H.
    apply elem_of_singleton in H. discriminate H.
  - exists w1, w2. auto.
Defined.

(** ** Unload *)

Lemma loadedWorld_chain : chain (heap loadedWorld) 1 [2].
Proof.
  exists (hostModule (Some 2)). split; [reflexivity|]. split; [reflexivity|].
  exists (hostModule None). split; reflexivity.
Defined.

(** C2, counterexample: the collection is the first thing [Unload] does;
    the unlinking follows it. *)
Lemma Unload_collects_first : ¬ unlinkCollectUnmap 1 loadedModule loadedWorld.
Proof.
  intros (w' & H & (i & j & Hij & Hi & Hj) & _).
  vm_compute in H. injection H as <-. cbn in Hi, Hj.
  destruct j as [|j]; [lia|].
  destruct j as [|[|[|[|j]]]]; cbn in Hj; discriminate Hj.
Qed.

Lemma Unload_order_witness :
  ∃ w', Unload 1 loadedModule loadedWorld = Done w'
        ∧ trace w' = [EvGC; EvLock; EvUnlink (Some 2); EvUnlock; EvMunmap 0x20000000].
Proof.
  destruct (Unload_order 1 loadedModule loadedWorld [2] eq_refl loadedWorld_chain)
    as (w' & H & Ht & _).
  exists w'. split; [exact H | exact Ht].
Defined.

(** ** addSymAddrs *)

Lemma addSymAddrs_TLS_slot_witness :
  ∃ st',
    addSymAddrs "(TLS)" (λ sp off, <["(TLS)" := off]> sp) ∅ tlsState
    = Done (<["(TLS)" := 9]> ∅, st')
    ∧ symAddrs (seg st') !! 1%nat = Some 0.
Proof.
  destruct (addSymAddrs_TLS_slot "(TLS)" (λ sp off, <["(TLS)" := off]> sp)
              "R_CALLIND" tlsReloc 0 ∅ tlsState 1)
    as (sp1 & st1 & sp & st' & H & _ & _ & _ & _ & Hsp & Hi & _).
  - reflexivity.
  - cbn. lia.
  - lia.
  - reflexivity.
  - reflexivity.
  - exists st'. rewrite Hsp in H. split; [exact H|]. rewrite Hi. reflexivity.
Defined.


(** ** Load *)



(** The three ways [Load] returns: without an error, with the report of an
    unresolved symbol, and without a module. *)
Example Load_returns :
  (∃ r w', demoLoad fnImage ∅ loadedWorld = Done (r, w')
           ∧ lr_module r ≠ None ∧ lr_error r = None)
  ∧ (∃ r w', demoLoad callImage ∅ loadedWorld = Done (r, w')
             ∧ lr_module r ≠ None
             ∧ lr_error r = Some ("unresolve external: main.g " ++ newline)%string)
  ∧ (∃ r, demoLoad (mkCodeReloc [] [] fnMod []) ∅ loadedWorld = Done (r, loadedWorld)
          ∧ lr_module r = None ∧ lr_error r = Some "mmap: invalid argument").
Proof.
  split; [|split].
  - eexists _, _. split; [vm_compute; reflexivity|]. split; [discriminate | reflexivity].
  - eexists _, _. split; [vm_compute; reflexivity|]. split; [discriminate | reflexivity].
  - eexists. split; [vm_compute; reflexivity|]. split; reflexivity.
Qed.

(** ** The symbol table builder *)

Lemma demoIntern_Done : is_Done (demoIntern 3 objF emptyBuild) = true.
Proof. vm_compute. reflexivity. Defined.

Lemma relocSym_idempotent_witness :
  ∃ i bs', demoIntern 3 objF emptyBuild = Done (i, bs')
           ∧ demoIntern 1 objF bs' = Done (i, bs').
Proof.
  pose proof demoIntern_Done as Hd.
  destruct (demoIntern 3 objF emptyBuild) as [[i bs']|f] eqn:E;
    [|discriminate Hd].
  exists i, bs'. split; [reflexivity|].
  exact (proj1 (proj2 (relocSym_idempotent "(TLS)" "R_CALLIND" demoReadFuncData
                         3 0 demoSyms objF emptyBuild)) i bs' E).
Defined.

(** The image of the two functions: indices and offsets in the order of
    first discovery. *)
Example ReadObjs_demo :
  ∃ c, ReadObjs "(TLS)" "R_CALLIND" demoReadFuncData [[objF; objG]] = Done c
       ∧ map (λ s, (Sym_Name s, Sym_Offset s)) (Syms c)
         = [("main.f", 0); ("main.g", 6); ("fmt.Println", -1)]
       ∧ len (Code c) = 17.
Proof.
  eexists. split; [vm_compute; reflexivity|]. split; reflexivity.
Qed.


(** The same call seen from outside: [Load] of [callImage] with [main.g]
    at a displacement of [-0x8000001] returns a module without a
    diagnostic, whose call site holds the displacement of the stub and
    whose trampoline area holds the stub with the address of [main.g]. *)
Example Load_call_through_stub :
  ∃ r w' cm,
    demoLoad callImage {["main.g" := 0x18000005]} loadedWorld = Done (r, w')
    ∧ lr_module r = Some cm ∧ lr_error r = None
    ∧ take 4 (drop 2 (CodeByte cm)) = [10; 0; 0; 0]
    ∧ take 10 (drop 16 (CodeByte cm)) = [0xff; 0x25; 0; 0; 0; 0; 0x05; 0; 0; 0x18].
Proof.
  eexists _, _, _. split; [vm_compute; reflexivity|].
  split; [reflexivity|]. split; [reflexivity|]. split; reflexivity.
Qed.

(** * Further properties of the code *)

(** ** The module list: [addModule] and [removeModule] *)

(** A change of a node outside a chain leaves the chain as it is. *)
Lemma chain_alter_fresh h f x l : ∀ b,
  chain h b l → x ∉ b :: l → chain (alter f x h) b l.
Proof.
  induction l as [|c l IH]; intros b H Hx.
  - destruct H as (mb & Eb & Nb). exists mb. split; [|assumption].
    rewrite lookup_alter_ne; [assumption|].
    intros ->. apply Hx. left.
  - destruct H as (mb & Eb & Nb & C). exists mb.
    split; [|split; [assumption|]].
    + rewrite lookup_alter_ne; [assumption|]. intros ->. apply Hx. left.
    + apply IH; [assumption|]. intros Hin. apply Hx. right. assumption.
Qed.

Lemma md_set_next_same m : md_set_next (md_next m) m = m.
Proof. destruct m. reflexivity. Qed.

(** The loop of [removeModule] when it meets the node [a] behind the
    nodes [l1]: the node before [a] takes over the [next] of [a]. *)
Lemma unlink_found h a md l2 l1 : ∀ x prevp fuel,
  chain h x (l1 ++ a :: l2) → h !! a = Some md → (S (length l1) < fuel)%nat →
  unlinkModule fuel (Some a) h prevp (Some x)
  = Done (alter (md_set_next (md_next md)) (List.last l1 x) h).
Proof.
  induction l1 as [|b l1 IH]; intros x prevp fuel H Ea Hf.
  - destruct fuel as [|[|fuel]]; [cbn in Hf; lia..|].
    pose proof (chain_head_fresh _ _ _ H) as Hx.
    destruct H as (mx & Ex & Nx & _).
    cbn [unlinkModule]. rewrite Ex.
    destruct (decide (Some a = Some x)) as [E|_].
    { exfalso. apply Hx. injection E as ->. left. }
    rewrite Nx, Ea.
    destruct (decide (Some a = Some a)); [reflexivity | congruence].
  - destruct fuel; [lia|].
    pose proof (chain_head_fresh _ _ _ H) as Hx.
    destruct H as (mx & Ex & Nx & C).
    cbn [unlinkModule]. rewrite Ex.
    destruct (decide (Some a = Some x)) as [E|_].
    { exfalso. apply Hx. injection E as ->. right.
      apply elem_of_app. right. left. }
    rewrite Nx. rewrite (IH b x fuel C Ea) by (cbn in Hf; lia).
    rewrite last_cons. reflexivity.
Qed.

(** The list after the unlinking. *)
Lemma chain_unlink h a md l2 l1 : ∀ x,
  chain h x (l1 ++ a :: l2) → h !! a = Some md →
  chain (alter (md_set_next (md_next md)) (List.last l1 x) h) x (l1 ++ l2).
Proof.
  induction l1 as [|b l1 IH]; intros x H Ea.
  - pose proof (chain_head_fresh _ _ _ H) as Hx.
    destruct H as (mx & Ex & Nx & C). cbn [app List.last].
    destruct l2 as [|c l2].
    + destruct C as (ma & Ea' & Na). rewrite Ea in Ea'. injection Ea' as <-.
      exists (md_set_next (md_next md) mx). rewrite lookup_alter_eq, Ex.
      split; [reflexivity|]. rewrite Na. destruct mx; reflexivity.
    + destruct C as (ma & Ea' & Na & C). rewrite Ea in Ea'. injection Ea' as <-.
      exists (md_set_next (md_next md) mx). rewrite lookup_alter_eq, Ex.
      split; [reflexivity|]. split; [rewrite Na; destruct mx; reflexivity|].
      apply chain_alter_fresh; [assumption|].
      intros Hin. apply Hx. right. assumption.
  - pose proof (chain_head_fresh _ _ _ H) as Hx.
    destruct H as (mx & Ex & Nx & C). rewrite last_cons. cbn [app].
    exists mx. split.
    + rewrite lookup_alter_ne; [assumption|]. intros E. apply Hx.
      pose proof (last_elem l1 b) as Hl. rewrite E in Hl.
      rewrite elem_of_cons in Hl. destruct Hl as [->|Hl]; [left|].
      right. apply elem_of_app. left. assumption.
    + split; [assumption|]. apply IH; assumption.
Qed.

(** The loop of [removeModule] when no node of the list behind [x] is the
    one sought. *)
Lemma unlink_absent h module l : ∀ x prevp fuel,
  chain h x l → (∀ a, module = Some a → a ∉ x :: l) → (S (length l) < fuel)%nat →
  unlinkModule fuel module h prevp (Some x) = Done h.
Proof.
  induction l as [|b l IH]; intros x prevp fuel H Hm Hf.
  - destruct fuel as [|[|fuel]]; [cbn in Hf; lia..|].
    destruct H as (mx & Ex & Nx). cbn [unlinkModule]. rewrite Ex.
    destruct (decide (module = Some x)) as [E|_].
    { exfalso. apply (Hm x E). left. }
    rewrite Nx. reflexivity.
  - destruct fuel; [lia|]. destruct H as (mx & Ex & Nx & C).
    cbn [unlinkModule]. rewrite Ex.
    destruct (decide (module = Some x)) as [E|_].
    { exfalso. apply (Hm x E). left. }
    rewrite Nx. apply IH; [assumption| |cbn in Hf; lia].
    intros a E Hin. apply (Hm a E). right. assumption.
Qed.

Section RegistryMore.

Variable firstmoduledata : addr.

(** [addModule] returns exactly when the module list ends: the loop that
    looks for the last node leaves on a nil [next] and on nothing else.
    When the list is [firstmoduledata] followed by [l], the call links the
    node behind the last of them, adds it to [modules], and changes
    nothing else. *)
Theorem addModule_returns (a : addr) (w : world) :
  ((∃ w', addModule firstmoduledata a w = Done w')
   ↔ (∃ l, chain (heap w) firstmoduledata l))
  ∧ ∀ l, chain (heap w) firstmoduledata l →
      addModule firstmoduledata a w
      = Done (mkWorld
                (alter (md_set_next (Some a)) (List.last l firstmoduledata) (heap w))
                ({[a]} ∪ modules w) (locked w) (mapped w) (trace w ++ [EvLink a])).
Proof.
  assert (Hspec : ∀ l, chain (heap w) firstmoduledata l →
      addModule firstmoduledata a w
      = Done (mkWorld
                (alter (md_set_next (Some a)) (List.last l firstmoduledata) (heap w))
                ({[a]} ∪ modules w) (locked w) (mapped w) (trace w ++ [EvLink a]))).
  { intros l Hc. unfold addModule. cbn [heap set_modules].
    rewrite (lastModule_chain _ l) by
      (try assumption; pose proof (chain_length _ _ _ Hc) as Hl; cbn in Hl; lia).
    reflexivity. }
  split; [|exact Hspec]. split.
  - intros [w' H]. unfold addModule in H. cbn [heap set_modules] in H.
    destruct (lastModule _ _ _) as [x|] eqn:E; [|discriminate H].
    destruct (lastModule_Done_chain _ _ _ _ E) as (l & Hc & _). eauto.
  - intros [l Hc]. rewrite (Hspec l Hc). eauto.
Qed.

(** [removeModule] of a node of the list takes exactly that node out: the
    nodes before and behind it keep their order, only the [next] of the
    node before it changes, and [modules] loses the node. *)
Theorem removeModule_unlinks (w : world) (a : addr) (l1 l2 : list addr) :
  chain (heap w) firstmoduledata (l1 ++ a :: l2) →
  ∃ w', removeModule firstmoduledata (Some a) w = Done w'
    ∧ chain (heap w') firstmoduledata (l1 ++ l2)
    ∧ (a ∉ firstmoduledata :: l1 ++ l2)
    ∧ modules w' = modules w ∖ {[a]}
    ∧ (∀ x, x ≠ List.last l1 firstmoduledata → heap w' !! x = heap w !! x).
Proof.
  intros Hc.
  destruct (chain_suffix _ _ _ a Hc) as (k1 & k2 & _ & Ca).
  { apply elem_of_app. right. left. }
  destruct (chain_lookup _ _ _ Ca) as [md Ea].
  exists (emit (EvUnlink (Some a))
            (set_modules (modules w ∖ {[a]})
               (set_heap (alter (md_set_next (md_next md))
                            (List.last l1 firstmoduledata) (heap w)) w))).
  split.
  { unfold removeModule.
    rewrite (unlink_found _ a md l2 l1) by
      (try assumption; pose proof (chain_length _ _ _ Hc) as Hl;
       rewrite length_cons, length_app in Hl; cbn in Hl; lia).
    reflexivity. }
  cbn [heap modules emit set_heap set_modules].
  split; [apply (chain_unlink _ a); assumption|].
  split.
  { pose proof (chain_NoDup _ _ _ Hc) as Hn.
    rewrite app_comm_cons in Hn. apply NoDup_app in Hn.
    destruct Hn as (_ & Hd & Hn2). apply NoDup_cons in Hn2.
    rewrite app_comm_cons. rewrite elem_of_app. intros [Hin|Hin].
    - apply (Hd a Hin). left.
    - apply Hn2. assumption. }
  split; [reflexivity|].
  intros x Hx. rewrite lookup_alter_ne by congruence. reflexivity.
Qed.

(** [removeModule] leaves the list as it is when its argument is not one
    of the nodes behind [firstmoduledata]: a nil interface, a module that
    was never linked or is unlinked already, and [firstmoduledata] itself,
    which the loop gives its own [next] back.  The key is deleted from
    [modules] all the same. *)
Theorem removeModule_keeps_list (w : world) (module : option addr) (l : list addr) :
  chain (heap w) firstmoduledata l →
  (∀ a, module = Some a → a ∉ l) →
  ∃ w', removeModule firstmoduledata module w = Done w'
    ∧ heap w' = heap w
    ∧ modules w' = match module with
                   | Some a => modules w ∖ {[a]}
                   | None => modules w
                   end.
Proof.
  intros Hc Hm.
  assert (Hu : unlinkModule (S (S (size (heap w)))) module (heap w)
                 firstmoduledata (Some firstmoduledata) = Done (heap w)).
  { pose proof (chain_length _ _ _ Hc) as Hl. cbn in Hl.
    destruct (decide (module = Some firstmoduledata)) as [E|Hne].
    - destruct (chain_lookup _ _ _ Hc) as [md Ef].
      cbn [unlinkModule]. rewrite Ef.
      destruct (decide (module = Some firstmoduledata)); [|contradiction].
      f_equal. apply map_eq. intros k.
      destruct (decide (k = firstmoduledata)) as [->|Hk].
      + rewrite lookup_alter_eq, Ef. cbn. rewrite md_set_next_same. reflexivity.
      + rewrite lookup_alter_ne by congruence. reflexivity.
    - apply (unlink_absent _ _ l); [assumption| |lia].
      intros a E. rewrite not_elem_of_cons. split; [congruence | exact (Hm a E)]. }
  unfold removeModule. rewrite Hu. cbn [mbind outcome_bind].
  eexists. split; [reflexivity|]. cbn. split; reflexivity.
Qed.

End RegistryMore.

Lemma listWorld_chain : chain (heap listWorld) 1 [2; 3].
Proof.
  exists (hostModule (Some 2)). split; [reflexivity|]. split; [reflexivity|].
  exists (hostModule (Some 3)). split; [reflexivity|]. split; [reflexivity|].
  exists (hostModule None). split; reflexivity.
Qed.

Lemma removeModule_unlinks_witness :
  ∃ w', removeModule 1 (Some 2) listWorld = Done w'
    ∧ chain (heap w') 1 ([] ++ [3])
    ∧ (2 ∉ 1 :: [] ++ [3])
    ∧ modules w' = modules listWorld ∖ {[2]}
    ∧ (∀ x, x ≠ List.last [] 1 → heap w' !! x = heap listWorld !! x).
Proof. exact (removeModule_unlinks 1 listWorld 2 [] [3] listWorld_chain). Defined.

Lemma removeModule_keeps_list_witness :
  ∃ w', removeModule 1 (Some 1) listWorld = Done w'
    ∧ heap w' = heap listWorld
    ∧ modules w' = modules listWorld ∖ {[1]}.
Proof.
  apply (removeModule_keeps_list 1 listWorld (Some 1) [2; 3] listWorld_chain).
  intros a E. injection E as <-. rewrite !not_elem_of_cons.
  repeat split; [discriminate..|]. apply not_elem_of_nil.
Defined.

(** ** [relocate] patches in place *)

Lemma slice_from_Done {A} (b : list A) k v :
  slice_from b k = Done v → 0 ≤ k ≤ len b ∧ v = drop (Z.to_nat k) b.
Proof.
  unfold slice_from. intros H.
  destruct ((0 <=? k) && (k <=? len b)) eqn:E; [|discriminate H].
  apply andb_true_iff in E as [E1 E2]. injection H as <-.
  split; [lia | reflexivity].
Qed.

Lemma store_length b k bs :
  0 ≤ k → (Z.to_nat k + length bs ≤ length b)%nat →
  length (store b k bs) = length b.
Proof.
  intros Hk Hl. unfold store.
  rewrite !length_app, length_take, length_drop. lia.
Qed.

Lemma le_bytes_length n v : length (le_bytes n v) = n.
Proof. revert v. induction n as [|n IH]; intros v; cbn; [|rewrite IH]; reflexivity. Qed.

Lemma PutUint32_length b k v b' : PutUint32 b k v = Done b' → length b' = length b.
Proof.
  unfold PutUint32. intros H. inv_bind H.
  apply slice_from_Done in Ha as [Hk ->].
  destruct (4 <=? len _) eqn:E; [|discriminate H]. injection H as <-.
  apply Z.leb_le in E. unfold len in *. rewrite length_drop in E.
  apply store_length; [lia|]. rewrite ?le_bytes_length. cbn [length]. lia.
Qed.

Lemma PutUint64_length b k v b' : PutUint64 b k v = Done b' → length b' = length b.
Proof.
  unfold PutUint64. intros H. inv_bind H.
  apply slice_from_Done in Ha as [Hk ->].
  destruct (8 <=? len _) eqn:E; [|discriminate H]. injection H as <-.
  apply Z.leb_le in E. unfold len in *. rewrite length_drop in E.
  apply store_length; [lia|]. rewrite ?le_bytes_length. cbn [length]. lia.
Qed.

Lemma PutUintptr_length b k v b' : PutUintptr b k v = Done b' → length b' = length b.
Proof.
  unfold PutUintptr. intros H. inv_bind H.
  apply slice_from_Done in Ha as [Hk ->].
  destruct (drop _ _) as [|x view] eqn:Ed; [discriminate H|].
  rewrite PtrSize_8 in H.
  destruct (8 <=? len _) eqn:E; [|discriminate H]. injection H as <-.
  apply Z.leb_le in E. unfold len in *. rewrite <- Ed, length_drop in E.
  apply store_length; [lia|]. rewrite ?le_bytes_length. cbn [length]. lia.
Qed.

Lemma putImm24_length b k v b' : putImm24 b k v = Done b' → length b' = length b.
Proof.
  unfold putImm24. intros H. inv_bind H.
  apply slice_from_Done in Ha as [Hk ->].
  destruct (3 <=? len _) eqn:E; [|discriminate H]. injection H as <-.
  apply Z.leb_le in E. unfold len in *. rewrite length_drop in E.
  apply store_length; [lia|]. rewrite ?le_bytes_length. cbn [length]. lia.
Qed.

Lemma set_byte_length b k v b' : set_byte b k v = Done b' → length b' = length b.
Proof.
  unfold set_byte. intros H.
  destruct ((0 <=? k) && (k <? len b)) eqn:E; [|discriminate H].
  apply andb_true_iff in E as [E1 E2]. injection H as <-.
  apply Z.leb_le in E1. apply Z.ltb_lt in E2.
  unfold len in *. apply store_length; [lia|]. cbn. lia.
Qed.

Lemma copy_at_length dst k src b' : copy_at dst k src = Done b' → length b' = length dst.
Proof.
  unfold copy_at. intros H. inv_bind H.
  apply slice_from_Done in Ha as [Hk ->]. injection H as <-.
  unfold len in *. apply store_length; [lia|].
  rewrite length_take, length_drop. lia.
Qed.

Lemma putTarget_length b k v b' : putTarget b k v = Done b' → length b' = length b.
Proof.
  unfold putTarget. destruct (_ >? _).
  - apply PutUint64_length.
  - apply PutUint32_length.
Qed.

Lemma relocADRP_length mCode pc symAddr res :
  relocADRP mCode pc symAddr = Done res → length res = length mCode.
Proof.
  unfold relocADRP, adrpMovPair, adrpPagePatch. intros H.
  destruct (_ || _); go;
    repeat match goal with
           | H : PutUint32 _ _ _ = Done _ |- _ => apply PutUint32_length in H
           end; congruence.
Qed.

Lemma patched_in_place_refl st : patched_in_place st st.
Proof. unfold patched_in_place. repeat split; reflexivity. Qed.

Lemma patched_in_place_trans s1 s2 s3 :
  patched_in_place s1 s2 → patched_in_place s2 s3 → patched_in_place s1 s3.
Proof.
  unfold patched_in_place. intros H1 H2.
  repeat match goal with H : _ ∧ _ |- _ => destruct H end.
  repeat split; congruence.
Qed.

Ltac place_solve :=
  unfold patched_in_place, set_relocByte, relocByte, diag, set_offset,
    set_codeByte, set_itabs, set_Code, set_Data, set_seg in *;
  repeat match goal with
         | H : PutUint32 _ _ _ = Done _ |- _ => apply PutUint32_length in H
         | H : PutUint64 _ _ _ = Done _ |- _ => apply PutUint64_length in H
         | H : PutUintptr _ _ _ = Done _ |- _ => apply PutUintptr_length in H
         | H : putImm24 _ _ _ = Done _ |- _ => apply putImm24_length in H
         | H : putTarget _ _ _ = Done _ |- _ => apply putTarget_length in H
         | H : set_byte _ _ _ = Done _ |- _ => apply set_byte_length in H
         | H : copy_at _ _ _ = Done _ |- _ => apply copy_at_length in H
         | H : relocADRP _ _ _ = Done _ |- _ => apply relocADRP_length in H
         end;
  repeat match goal with
         | |- context [if ?c then _ else _] => destruct c
         | H : context [if ?c then _ else _] |- _ => destruct c
         end;
  cbn in *; repeat split; try reflexivity; try congruence;
  try (match goal with
       | H : slice_from _ _ = Done _ |- _ => apply slice_from_Done in H as [? ->]
       end;
       rewrite length_app, length_take; rewrite length_drop in *;
       unfold len in *; lia).

Section RelocatePlace.

Variable TLSNAME : string.

Lemma relocSite_place symPtr curSym loc st st' :
  relocSite TLSNAME symPtr curSym loc st = Done st' → patched_in_place st st'.
Proof.
  unfold relocSite, relocTLS, relocCallPCRel, relocCallArm, relocAddrArm64,
    relocAddr, relocAddrOff.
  intros H. go; place_solve.
Qed.

(** [relocate] patches the two blobs and the mapped region in place: it
    returns with every length, the symbol table, the function metadata,
    the resolved addresses, the base addresses and the symbol map of the
    module as it found them. *)
Theorem relocate_in_place (symPtr : gmap string Z) (st st' : loadState) :
  relocate TLSNAME symPtr st = Done st' → patched_in_place st st'.
Proof.
  unfold relocate.
  apply (foldM_inv patched_in_place);
    [apply patched_in_place_refl | apply patched_in_place_trans |].
  intros curSym s s' _.
  apply (foldM_inv patched_in_place);
    [apply patched_in_place_refl | apply patched_in_place_trans |].
  intros loc s1 s2 _. apply relocSite_place.
Qed.

End RelocatePlace.

Lemma relocate_in_place_witness :
  ∃ st', relocate "(TLS)" ∅ (callState 0x20000100) = Done st'
         ∧ patched_in_place (callState 0x20000100) st'.
Proof.
  assert (H : is_Done (relocate "(TLS)" ∅ (callState 0x20000100)) = true)
    by (vm_compute; reflexivity).
  destruct (relocate "(TLS)" ∅ (callState 0x20000100)) as [st'|] eqn:E; [|discriminate H].
  exists st'. split; [reflexivity|]. exact (relocate_in_place "(TLS)" ∅ _ _ E).
Defined.

(** ** What [relocate] writes at a site *)

Lemma store_eq b k bs :
  store b k bs = take (Z.to_nat k) b ++ bs ++ drop (Z.to_nat k + length bs) b.
Proof. reflexivity. Qed.

Lemma slice_from_Done_iff {A} (b : list A) k :
  0 ≤ k ≤ len b → slice_from b k = Done (drop (Z.to_nat k) b).
Proof. apply slice_from_ok. Qed.

Lemma len_drop {A} (b : list A) k : 0 ≤ k ≤ len b → len (drop (Z.to_nat k) b) = len b - k.
Proof. unfold len. rewrite length_drop. lia. Qed.

Lemma PutUint32_ok b k v :
  0 ≤ k → k + 4 ≤ len b →
  PutUint32 b k v
  = Done (take (Z.to_nat k) b ++ le_bytes 4 v ++ drop (Z.to_nat k + 4) b).
Proof.
  intros Hk Hl. unfold PutUint32. rewrite slice_from_ok by lia.
  cbn [mbind outcome_bind]. rewrite len_drop by lia.
  destruct (4 <=? len b - k) eqn:E; [|apply Z.leb_gt in E; lia].
  reflexivity.
Qed.

Lemma PutUint64_ok b k v :
  0 ≤ k → k + 8 ≤ len b →
  PutUint64 b k v
  = Done (take (Z.to_nat k) b ++ le_bytes 8 v ++ drop (Z.to_nat k + 8) b).
Proof.
  intros Hk Hl. unfold PutUint64. rewrite slice_from_ok by lia.
  cbn [mbind outcome_bind]. rewrite len_drop by lia.
  destruct (8 <=? len b - k) eqn:E; [|apply Z.leb_gt in E; lia].
  reflexivity.
Qed.

Lemma putImm24_ok b k v :
  0 ≤ k → k + 3 ≤ len b →
  putImm24 b k v
  = Done (take (Z.to_nat k) b ++ le_bytes 3 v ++ drop (Z.to_nat k + 3) b).
Proof.
  intros Hk Hl. unfold putImm24. rewrite slice_from_ok by lia.
  cbn [mbind outcome_bind]. rewrite len_drop by lia.
  destruct (3 <=? len b - k) eqn:E; [|apply Z.leb_gt in E; lia].
  reflexivity.
Qed.

(** The unchecked store of a pointer: inside the slice when eight bytes
    are left, past its end when fewer are. *)
Lemma PutUintptr_ok b k v :
  0 ≤ k → k + 8 ≤ len b →
  PutUintptr b k v
  = Done (take (Z.to_nat k) b ++ le_bytes 8 v ++ drop (Z.to_nat k + 8) b).
Proof.
  intros Hk Hl. unfold PutUintptr. rewrite slice_from_ok by lia.
  cbn [mbind outcome_bind].
  pose proof (len_drop b k ltac:(lia)) as Hd.
  destruct (drop (Z.to_nat k) b) as [|x view] eqn:Ed.
  { unfold len in *. cbn [length] in Hd. lia. }
  rewrite PtrSize_8. rewrite Hd.
  destruct (8 <=? _) eqn:E; [|apply Z.leb_gt in E; lia].
  reflexivity.
Qed.

Lemma PutUintptr_wild b k v :
  0 ≤ k < len b → len b < k + 8 → PutUintptr b k v = Fault WildStore.
Proof.
  intros Hk Hl. unfold PutUintptr. rewrite slice_from_ok by lia.
  cbn [mbind outcome_bind].
  pose proof (len_drop b k ltac:(lia)) as Hd.
  destruct (drop (Z.to_nat k) b) as [|x view] eqn:Ed.
  { unfold len in *. cbn [length] in Hd. lia. }
  rewrite PtrSize_8. rewrite Hd.
  destruct (8 <=? _) eqn:E; [apply Z.leb_le in E; lia|].
  reflexivity.
Qed.

Lemma copy_at_ok dst k src :
  0 ≤ k → k + len src ≤ len dst →
  copy_at dst k src
  = Done (take (Z.to_nat k) dst ++ src ++ drop (Z.to_nat k + length src) dst).
Proof.
  intros Hk Hl. unfold copy_at. rewrite slice_from_ok by (pose proof (len_nonneg src); lia).
  cbn [mbind outcome_bind]. unfold store. rewrite length_drop.
  rewrite (take_ge src) by (unfold len in *; lia). reflexivity.
Qed.

(** Reading back what [PutUint32] wrote. *)
Lemma Uint32_written b k v rest :
  0 ≤ k → length b = Z.to_nat k →
  Uint32 (b ++ le_bytes 4 v ++ rest) k = Done (uint32 v).
Proof.
  intros Hk Hl. unfold Uint32, slice_from.
  assert (Hlen : len (b ++ le_bytes 4 v ++ rest) = k + 4 + len rest).
  { unfold len. rewrite !length_app, le_bytes_length. lia. }
  rewrite Hlen.
  destruct ((0 <=? k) && (k <=? k + 4 + len rest)) eqn:E.
  2:{ apply andb_false_iff in E as [E|E]; [apply Z.leb_gt in E | apply Z.leb_gt in E];
      pose proof (len_nonneg rest); lia. }
  cbn [mbind outcome_bind]. rewrite drop_app_length' by lia.
  exact (le_bytes4_word v rest).
Qed.

Lemma uint32_idem v : uint32 (uint32 v) = uint32 v.
Proof. unfold uint32. apply Zmod_mod. Qed.

Lemma int32_uint32 d : - 2 ^ 31 ≤ d < 2 ^ 31 → int32 (uint32 d) = d.
Proof.
  intros Hd. unfold int32, uint32.
  rewrite Zplus_mod_idemp_l.
  rewrite Z.mod_small by lia. lia.
Qed.

Lemma le_value_le_bytes n : ∀ v, le_value (le_bytes n v) = v mod 2 ^ (8 * Z.of_nat n).
Proof.
  induction n as [|n IH]; intros v.
  - cbn. rewrite Z.mod_1_r. reflexivity.
  - cbn [le_bytes le_value]. rewrite IH. unfold byte.
    replace (8 * Z.of_nat (S n)) with (8 + 8 * Z.of_nat n) by lia.
    rewrite Z.pow_add_r by lia. rewrite Z.shiftr_div_pow2 by lia.
    change (2 ^ 8) with 256.
    rewrite Z.rem_mul_r by lia. reflexivity.
Qed.

Lemma le_bytes_app n : ∀ m v,
  le_bytes (n + m) v = le_bytes n v ++ le_bytes m (Z.shiftr v (8 * Z.of_nat n)).
Proof.
  induction n as [|n IH]; intros m v.
  - cbn. rewrite Z.shiftr_0_r. reflexivity.
  - cbn [Nat.add le_bytes app]. rewrite IH. rewrite Z.shiftr_shiftr by lia.
    replace (8 * Z.of_nat (S n)) with (8 + 8 * Z.of_nat n) by lia. reflexivity.
Qed.

Lemma le_bytes_8_small v : 0 ≤ v < 2 ^ 32 → le_bytes 8 v = le_bytes 4 v ++ [0; 0; 0; 0].
Proof.
  intros Hv. change 8%nat with (4 + 4)%nat. rewrite le_bytes_app.
  change (8 * Z.of_nat 4) with 32. rewrite Z.shiftr_div_pow2 by lia.
  rewrite Z.div_small by lia. reflexivity.
Qed.

Lemma uint32_uint64 v : uint32 (uint64 v) = uint32 v.
Proof.
  unfold uint32, uint64. apply Z.mod_mod_divide.
  exists (2 ^ 32). reflexivity.
Qed.

Section RelocateSites.

Variable TLSNAME : string.

(** How [relocate] treats a site whose target is resolved: by the type of
    the relocation alone. *)
Lemma relocSite_resolved symPtr curSym loc st sym symAddr :
  resolvedTarget st loc sym symAddr →
  relocSite TLSNAME symPtr curSym loc st
  = let t := Reloc_Type loc in
    if t =? R_TLS_LE then relocTLS TLSNAME symPtr loc st
    else if (t =? R_CALL) || (t =? R_PCREL) then relocCallPCRel curSym loc sym symAddr st
    else if (t =? R_CALLARM) || (t =? R_CALLARM64) then relocCallArm loc sym symAddr st
    else if t =? R_ADDRARM64 then relocAddrArm64 curSym loc symAddr st
    else if t =? R_ADDR then relocAddr curSym loc symAddr st
    else if t =? R_CALLIND then Done st
    else if (t =? R_ADDROFF) || (t =? R_WEAKADDROFF) || (t =? R_METHODOFF)
    then relocAddrOff curSym loc sym symAddr st
    else Done (diag ["unknown reloc type:"; Itoa t; Sym_Name sym; newline] st).
Proof.
  intros (Hs & Ha & Hne & Hitab). unfold relocSite. rewrite Hs, Ha.
  cbn [mbind outcome_bind].
  destruct (symAddr =? -1) eqn:E; [apply Z.eqb_eq in E; contradiction|].
  rewrite Hitab. reflexivity.
Qed.

(** A call or a PC-relative reference whose displacement passes the range
    test of [relocate] is encoded at the site: the four bytes at the
    offset of the relocation become the displacement from the end of the
    field to the target plus the addend, little-endian, which the
    processor reads back as that signed number; no other byte of the blob
    and nothing else of the state changes. *)
Theorem relocSite_pcrel_direct symPtr curSym loc st sym symAddr :
  resolvedTarget st loc sym symAddr →
  Reloc_Type loc = R_CALL ∨ Reloc_Type loc = R_PCREL →
  let isText := Sym_Kind curSym =? STEXT in
  let d := pcrelOffset symAddr
             (if isText then codeBase (seg st) else dataBase (seg st)) loc in
  let blob := relocByte isText st in
  let off := Reloc_Offset loc in
  - 0x8000000 ≤ d ≤ 0x7fffffff →
  0 ≤ off → off + 4 ≤ len blob →
  ∃ blob',
    relocSite TLSNAME symPtr curSym loc st = Done (set_relocByte isText blob' st)
    ∧ blob' = take (Z.to_nat off) blob ++ le_bytes 4 (uint32 d)
                ++ drop (Z.to_nat off + 4) blob
    ∧ Uint32 blob' off = Done (uint32 d)
    ∧ int32 (uint32 d) = d.
Proof.
  intros Hres Ht isText d blob off Hd Hoff Hlen.
  rewrite (relocSite_resolved _ _ _ _ _ _ Hres). cbn zeta.
  assert (Hty : (Reloc_Type loc =? R_TLS_LE) = false
                ∧ (Reloc_Type loc =? R_CALL) || (Reloc_Type loc =? R_PCREL) = true).
  { destruct Ht as [-> | ->]; split; reflexivity. }
  destruct Hty as [-> ->].
  unfold relocCallPCRel. fold isText. fold d.
  rewrite (proj2 (pcrelOverflow_range d) Hd).
  fold blob. fold off. rewrite (PutUint32_ok blob off) by assumption.
  cbn [mbind outcome_bind].
  eexists. split; [reflexivity|]. split; [reflexivity|].
  split.
  - rewrite Uint32_written; [rewrite uint32_idem; reflexivity | assumption |].
    rewrite length_take. unfold len in Hlen. lia.
  - apply int32_uint32. lia.
Qed.

(** A call whose displacement fails the range test, with fourteen bytes
    left in the mapped region: [relocate] builds the stub [jmp *0(%rip)]
    followed by the eight bytes of the target address at the bump offset,
    points the call at the stub, and moves the bump offset behind it. *)
Theorem relocSite_call_stub symPtr curSym loc st sym symAddr :
  resolvedTarget st loc sym symAddr →
  Reloc_Type loc = R_CALL →
  let isText := Sym_Kind curSym =? STEXT in
  let addrBase := if isText then codeBase (seg st) else dataBase (seg st) in
  let blob := relocByte isText st in
  let region := codeByte (seg st) in
  let off := Reloc_Offset loc in
  let o := offset (seg st) in
  let target := uint64 (symAddr ⊞ Reloc_Add loc) in
  let stubDisp := (codeBase (seg st) ⊞ o) ⊟ (addrBase ⊞ off ⊞ Reloc_Size loc) in
  pcrelOverflow (pcrelOffset symAddr addrBase loc) = true →
  2 ≤ off → off + 4 ≤ len blob → len blob < 2 ^ 63 →
  0 ≤ o → o + 14 ≤ len region → len region < 2 ^ 63 →
  o + 8 ≤ maxCodeLen (seg st) →
  relocSite TLSNAME symPtr curSym loc st
  = Done (set_offset (o + 14)
            (set_codeByte
               (take (Z.to_nat o) region ++ [0xff; 0x25; 0; 0; 0; 0]
                  ++ le_bytes 8 target ++ drop (Z.to_nat o + 14) region)
               (set_relocByte isText
                  (take (Z.to_nat off) blob ++ le_bytes 4 (uint32 stubDisp)
                     ++ drop (Z.to_nat off + 4) blob) st))).
Proof.
  intros Hres Ht isText addrBase blob region off o target stubDisp
    Hov Hoff Hlen Hblob Ho Hroom Hregion Hmax.
  rewrite (relocSite_resolved _ _ _ _ _ _ Hres). cbn zeta. rewrite Ht.
  change (R_CALL =? R_TLS_LE) with false.
  change ((R_CALL =? R_CALL) || (R_CALL =? R_PCREL)) with true. cbn match.
  unfold relocCallPCRel. fold isText. fold addrBase. rewrite Hov.
  fold o. fold off. fold blob. fold region. rewrite Ht.
  change (R_CALL =? R_CALL) with true. cbn match.
  assert (Ho8 : o ⊞ 8 = o + 8) by (apply int_id; unfold in_int; lia).
  assert (Ho6 : o ⊞ 6 = o + 6) by (apply int_id; unfold in_int; lia).
  assert (Ho14 : o ⊞ len x86code = o + 14) by (apply int_id; unfold in_int; cbn; lia).
  assert (Hoff2 : off ⊟ 2 = off - 2) by (apply int_id; unfold in_int; lia).
  rewrite Ho8, Ho6, Ho14, Hoff2.
  destruct (o + 8 >? maxCodeLen (seg st)) eqn:E; [apply Z.gtb_lt in E; lia|].
  rewrite slice_from_ok by lia. cbn [mbind outcome_bind].
  rewrite (copy_at_ok region o x86code) by (change (len x86code) with 14; lia). cbn [mbind outcome_bind].
  rewrite (PutUint32_ok blob off) by lia. cbn [mbind outcome_bind].
  set (cb := take (Z.to_nat o) region ++ x86code ++ drop (Z.to_nat o + length x86code) region).
  assert (Hr1 : length (take (Z.to_nat o) region) = Z.to_nat o).
  { rewrite length_take. unfold len in Hroom. lia. }
  assert (Hcb : len cb = len region).
  { unfold cb, len. rewrite !length_app, Hr1, length_drop. cbn [x86code length]. 
    unfold len in Hroom. lia. }
  assert (Htake : take (Z.to_nat (o + 6)) cb
                  = take (Z.to_nat o) region ++ [0xff; 0x25; 0; 0; 0; 0]).
  { unfold cb. replace (Z.to_nat (o + 6)) with (Z.to_nat o + 6)%nat by lia.
    rewrite take_app_add' by (symmetry; exact Hr1). reflexivity. }
  assert (Hdrop : ∀ n, (n ≤ 8)%nat →
            drop (Z.to_nat (o + 6) + n) cb
            = drop n [0; 0; 0; 0; 0; 0; 0; 0] ++ drop (Z.to_nat o + 14) region).
  { intros n Hn. unfold cb.
    replace (Z.to_nat (o + 6) + n)%nat with (Z.to_nat o + (6 + n))%nat by lia.
    rewrite drop_app_add' by (symmetry; exact Hr1).
    cbn [x86code length].
    do 9 (destruct n as [|n]; [reflexivity|]). lia. }
  unfold putTarget. fold target.
  destruct (target >? 0xFFFFFFFF) eqn:Et.
  - unfold target at 1. unfold uint64 at 1. fold (uint64 (symAddr ⊞ Reloc_Add loc)).
    fold target.
    rewrite (PutUint64_ok cb (o + 6)) by lia. cbn [mbind outcome_bind].
    rewrite Htake, (Hdrop 8%nat) by lia. cbn [drop app].
    rewrite <- !app_assoc. reflexivity.
  - rewrite (PutUint32_ok cb (o + 6)) by lia. cbn [mbind outcome_bind].
    rewrite Htake, (Hdrop 4%nat) by lia. cbn [drop].
    assert (Hsmall : 0 ≤ target < 2 ^ 32).
    { assert (0 ≤ target) by (unfold target, uint64; apply Z.mod_pos_bound; lia).
      rewrite Z.gtb_ltb in Et. apply Z.ltb_ge in Et. lia. }
    rewrite (le_bytes_8_small target Hsmall).
    assert (Hu : uint32 (symAddr ⊞ Reloc_Add loc) = target).
    { rewrite <- uint32_uint64. fold target. apply uint32_small. exact Hsmall. }
    rewrite Hu. rewrite <- !app_assoc. reflexivity.
Qed.

(** An absolute address ([R_ADDR]): the eight bytes at the site become
    the address of the target plus the addend.  The store goes through an
    unchecked pointer: a site with fewer than eight bytes behind it makes
    it run past the end of the blob. *)
Theorem relocSite_addr symPtr curSym loc st sym symAddr :
  resolvedTarget st loc sym symAddr →
  Reloc_Type loc = R_ADDR →
  let isText := Sym_Kind curSym =? STEXT in
  let blob := relocByte isText st in
  let off := Reloc_Offset loc in
  let a := uintptr (symAddr ⊞ Reloc_Add loc) in
  0 ≤ off < len blob →
  (off + 8 ≤ len blob →
     relocSite TLSNAME symPtr curSym loc st
     = Done (set_relocByte isText
               (take (Z.to_nat off) blob ++ le_bytes 8 a
                  ++ drop (Z.to_nat off + 8) blob) st))
  ∧ (len blob < off + 8 →
     relocSite TLSNAME symPtr curSym loc st = Fault WildStore)
  ∧ le_value (le_bytes 8 a) = a.
Proof.
  intros Hres Ht isText blob off a Hoff.
  rewrite (relocSite_resolved _ _ _ _ _ _ Hres). cbn zeta. rewrite Ht.
  change (R_ADDR =? R_TLS_LE) with false.
  change ((R_ADDR =? R_CALL) || (R_ADDR =? R_PCREL)) with false.
  change ((R_ADDR =? R_CALLARM) || (R_ADDR =? R_CALLARM64)) with false.
  change (R_ADDR =? R_ADDRARM64) with false.
  change (R_ADDR =? R_ADDR) with true. cbn match.
  unfold relocAddr. fold isText. fold blob. fold off. fold a.
  split; [|split].
  - intros Hl. rewrite (PutUintptr_ok blob off) by lia. reflexivity.
  - intros Hl. rewrite (PutUintptr_wild blob off) by lia. reflexivity.
  - rewrite le_value_le_bytes. change (2 ^ (8 * Z.of_nat 8)) with (2 ^ 64).
    unfold a, uintptr. apply Zmod_mod.
Qed.

(** A branch ([R_CALLARM], [R_CALLARM64]) whose word offset passes the
    range test: the three low bytes of the instruction become the low 24
    bits of the offset; the fourth byte, which holds the operation code,
    and everything else stay. *)
Theorem relocSite_branch_direct symPtr curSym loc st sym symAddr :
  resolvedTarget st loc sym symAddr →
  Reloc_Type loc = R_CALLARM ∨ Reloc_Type loc = R_CALLARM64 →
  let d := armOffset symAddr (codeBase (seg st)) loc in
  let c := Code (code st) in
  let off := Reloc_Offset loc in
  fits_signed 24 d →
  0 ≤ off → off + 3 ≤ len c →
  relocSite TLSNAME symPtr curSym loc st
  = Done (set_Code (take (Z.to_nat off) c ++ le_bytes 3 (uint32 d)
                      ++ drop (Z.to_nat off + 3) c) st)
  ∧ le_value (le_bytes 3 (uint32 d)) = d mod 2 ^ 24.
Proof.
  intros Hres Ht d c off Hd Hoff Hlen.
  rewrite (relocSite_resolved _ _ _ _ _ _ Hres). cbn zeta.
  assert (Hty : (Reloc_Type loc =? R_TLS_LE) = false
                ∧ (Reloc_Type loc =? R_CALL) || (Reloc_Type loc =? R_PCREL) = false
                ∧ (Reloc_Type loc =? R_CALLARM) || (Reloc_Type loc =? R_CALLARM64) = true).
  { destruct Ht as [-> | ->]; repeat split; reflexivity. }
  destruct Hty as (-> & -> & ->).
  unfold relocCallArm. fold d.
  destruct (armAddend loc) as [a pcOff].
  rewrite (proj2 (armOverflow_range d) Hd).
  fold c. fold off. rewrite (putImm24_ok c off) by assumption.
  split; [reflexivity|].
  rewrite le_value_le_bytes. change (2 ^ (8 * Z.of_nat 3)) with (2 ^ 24).
  unfold uint32. apply Z.mod_mod_divide. exists (2 ^ 8). reflexivity.
Qed.

(** A thread-local access ([R_TLS_LE]): the four bytes at the site in the
    code blob become the value that the symbol map holds for the
    thread-local slot, and zero when it holds none. *)
Theorem relocSite_tls symPtr curSym loc st sym symAddr :
  resolvedTarget st loc sym symAddr →
  Reloc_Type loc = R_TLS_LE →
  let c := Code (code st) in
  let off := Reloc_Offset loc in
  let v := default 0 (symPtr !! TLSNAME) in
  0 ≤ off → off + 4 ≤ len c →
  relocSite TLSNAME symPtr curSym loc st
  = Done (set_Code (take (Z.to_nat off) c ++ le_bytes 4 (uint32 v)
                      ++ drop (Z.to_nat off + 4) c) st).
Proof.
  intros Hres Ht c off v Hoff Hlen.
  rewrite (relocSite_resolved _ _ _ _ _ _ Hres). cbn zeta. rewrite Ht.
  change (R_TLS_LE =? R_TLS_LE) with true. cbn match.
  unfold relocTLS. fold c. fold off.
  rewrite (PutUint32_ok c off) by assumption. reflexivity.
Qed.

(** An arm64 branch whose word offset fails the range test, with room for
    the stub in the mapped region: the bump offset is first rounded up to a
    multiple of four; the stub [ldr x3, 8; br x3] followed by the eight
    bytes of the target address goes there, the branch is pointed at the
    stub, and the bump offset moves behind it. *)
Theorem relocSite_branch_stub symPtr curSym loc st sym symAddr :
  resolvedTarget st loc sym symAddr →
  Reloc_Type loc = R_CALLARM64 →
  let c := Code (code st) in
  let region := codeByte (seg st) in
  let off := Reloc_Offset loc in
  let o := offset (seg st) in
  let o' := 4 * ((o + 3) / 4) in
  let target := uintptr (symAddr ⊞ imul (Reloc_Add loc) 4) in
  armOverflow (armOffset symAddr (codeBase (seg st)) loc) = true →
  0 ≤ off → off + 3 ≤ len c → len c < 2 ^ 63 →
  0 ≤ o → o' + 16 ≤ len region → len region < 2 ^ 63 →
  o + 4 ≤ maxCodeLen (seg st) →
  relocSite TLSNAME symPtr curSym loc st
  = Done (set_offset (o' + 16)
            (set_codeByte
               (take (Z.to_nat o') region
                  ++ [0x43; 0x00; 0x00; 0x58; 0x60; 0x00; 0x1F; 0xD6]
                  ++ le_bytes 8 target ++ drop (Z.to_nat o' + 16) region)
               (set_Code
                  (take (Z.to_nat off) c ++ le_bytes 3 (uint32 (Z.quot (o' - off) 4))
                     ++ drop (Z.to_nat off + 3) c) st))).
Proof.
  intros Hres Ht c region off o o' target Hov Hoff Hlen Hc Ho Hroom Hregion Hmax.
  rewrite (relocSite_resolved _ _ _ _ _ _ Hres). cbn zeta. rewrite Ht.
  change (R_CALLARM64 =? R_TLS_LE) with false.
  change ((R_CALLARM64 =? R_CALL) || (R_CALLARM64 =? R_PCREL)) with false.
  change ((R_CALLARM64 =? R_CALLARM) || (R_CALLARM64 =? R_CALLARM64)) with true.
  cbn match. unfold relocCallArm.
  assert (Hadd : armAddend loc = (Reloc_Add loc, 0)).
  { unfold armAddend. rewrite Ht. reflexivity. }
  rewrite Hadd, Hov. fold o. fold off. fold c. fold region. rewrite Ht.
  change (R_CALLARM64 =? R_CALLARM64) with true. cbn match.
  assert (Hoo : o ≤ o').
  { unfold o'. pose proof (Z.div_mod (o + 3) 4 ltac:(lia)) as Hdm3.
    pose proof (Z.mod_pos_bound (o + 3) 4 ltac:(lia)) as Hm3. lia. }
  assert (Ho4 : o ⊞ 4 = o + 4) by (apply int_id; unfold in_int; lia).
  rewrite Ho4.
  destruct (o + 4 >? maxCodeLen (seg st)) eqn:E; [apply Z.gtb_lt in E; lia|].
  assert (Hseg : (if Z.rem o 4 =? 0 then o else o ⊞ (4 ⊟ Z.rem o 4)) = o').
  { rewrite Z.rem_mod_nonneg by lia.
    pose proof (Z.mod_pos_bound o 4 ltac:(lia)) as Hm.
    pose proof (Z.div_mod o 4 ltac:(lia)) as Hdm.
    destruct (o mod 4 =? 0) eqn:Em.
    - apply Z.eqb_eq in Em. unfold o'.
      pose proof (Z.div_mod (o + 3) 4 ltac:(lia)) as Hdm3.
      pose proof (Z.mod_pos_bound (o + 3) 4 ltac:(lia)) as Hm3. lia.
    - apply Z.eqb_neq in Em.
      assert (H4 : 4 ⊟ o mod 4 = 4 - o mod 4) by (apply int_id; unfold in_int; lia).
      rewrite H4.
      assert (Ho' : o ⊞ (4 - o mod 4) = o + (4 - o mod 4))
        by (apply int_id; unfold in_int; lia).
      rewrite Ho'. unfold o'.
      pose proof (Z.div_mod (o + 3) 4 ltac:(lia)) as Hdm3.
      pose proof (Z.mod_pos_bound (o + 3) 4 ltac:(lia)) as Hm3. lia. }
  rewrite Hseg.
  assert (H1 : off ⊞ 0 = off)
    by (unfold iadd; rewrite Z.add_0_r; apply int_id; unfold in_int; lia).
  assert (H2 : o' ⊟ off = o' - off) by (apply int_id; unfold in_int; lia).
  assert (H3 : o' ⊞ 8 = o' + 8) by (apply int_id; unfold in_int; lia).
  assert (H4 : o' ⊞ len arm64code = o' + 16)
    by (apply int_id; unfold in_int; change (len arm64code) with 16; lia).
  rewrite H1, H2, H3, H4.
  rewrite (putImm24_ok c off) by lia. cbn [mbind outcome_bind].
  rewrite (copy_at_ok region o' arm64code) by (change (len arm64code) with 16; lia).
  cbn [mbind outcome_bind].
  set (cb := take (Z.to_nat o') region ++ arm64code
               ++ drop (Z.to_nat o' + length arm64code) region).
  assert (Hr1 : length (take (Z.to_nat o') region) = Z.to_nat o').
  { rewrite length_take. unfold len in Hroom. lia. }
  assert (Hcb : len cb = len region).
  { unfold cb, len. rewrite !length_app, Hr1, length_drop. cbn [arm64code length].
    unfold len in Hroom. lia. }
  fold target.
  rewrite (PutUintptr_ok cb (o' + 8)) by lia.
  cbn [mbind outcome_bind]. do 3 f_equal.
  unfold cb. replace (Z.to_nat (o' + 8)) with (Z.to_nat o' + 8)%nat by lia.
  rewrite take_app_add' by (symmetry; exact Hr1).
  replace (Z.to_nat o' + 8 + 8)%nat with (Z.to_nat o' + 16)%nat by lia.
  rewrite drop_app_add' by (symmetry; exact Hr1).
  cbn [arm64code take drop length app]. rewrite <- !app_assoc. reflexivity.
Qed.

End RelocateSites.

Ltac closed_side :=
  repeat split; vm_compute; first [reflexivity | discriminate | congruence].

Lemma relocSite_pcrel_direct_witness :
  ∃ blob',
    relocSite "(TLS)" ∅ callF callSite (callState 0x20000100)
    = Done (set_relocByte true blob' (callState 0x20000100))
    ∧ blob' = [0x90; 0xe8; 0xfa; 0; 0; 0; 0x90; 0x90; 0x90; 0x90; 0x90; 0x90; 0x90;
               0x90; 0x90; 0xc3]
    ∧ Uint32 blob' 2 = Done 0xfa
    ∧ int32 0xfa = 0xfa.
Proof.
  exact (relocSite_pcrel_direct "(TLS)" ∅ callF callSite (callState 0x20000100)
           (mkSymData "main.g" Sxxx (-1) []) 0x20000100
           ltac:(closed_side) ltac:(left; reflexivity) ltac:(closed_side)
           ltac:(closed_side) ltac:(closed_side)).
Defined.

Lemma relocSite_call_stub_witness :
  relocSite "(TLS)" ∅ callF callSite (callState 0x160000000)
  = Done (set_offset 30
            (set_codeByte
               (replicate 16 0 ++ [0xff; 0x25; 0; 0; 0; 0; 0; 0; 0; 0x60; 1; 0; 0; 0]
                  ++ [0; 0])
               (set_relocByte true
                  [0x90; 0xe8; 0x0a; 0; 0; 0; 0x90; 0x90; 0x90; 0x90; 0x90; 0x90; 0x90;
                   0x90; 0x90; 0xc3]
                  (callState 0x160000000)))).
Proof.
  exact (relocSite_call_stub "(TLS)" ∅ callF callSite (callState 0x160000000)
           (mkSymData "main.g" Sxxx (-1) []) 0x160000000
           ltac:(closed_side) eq_refl ltac:(closed_side) ltac:(closed_side)
           ltac:(closed_side) ltac:(closed_side) ltac:(closed_side)
           ltac:(closed_side) ltac:(closed_side) ltac:(closed_side)).
Defined.

Lemma relocSite_addr_witness :
  (8 + 8 ≤ 16 →
   relocSite "(TLS)" ∅ addrTab addrSite addrState
   = Done (set_relocByte false
             (replicate 8 0 ++ [0; 0; 0; 0x20; 0; 0; 0; 0]) addrState))
  ∧ (16 < 8 + 8 → relocSite "(TLS)" ∅ addrTab addrSite addrState = Fault WildStore)
  ∧ le_value [0; 0; 0; 0x20; 0; 0; 0; 0] = 0x20000000.
Proof.
  exact (relocSite_addr "(TLS)" ∅ addrTab addrSite addrState
           (mkSymData "main.f" STEXT 0 []) 0x20000000
           ltac:(closed_side) eq_refl ltac:(closed_side)).
Defined.

Lemma relocSite_branch_direct_witness :
  relocSite "(TLS)" ∅ blF blSite (blRoomState 0x20000100)
  = Done (set_Code
            [0x40; 0; 0; 0x94; 0x1f; 0x20; 0x03; 0xd5; 0x1f; 0x20; 0x03; 0xd5;
             0xc0; 0x03; 0x5f; 0xd6] (blRoomState 0x20000100))
  ∧ le_value [0x40; 0; 0] = 0x40 mod 2 ^ 24.
Proof.
  exact (relocSite_branch_direct "(TLS)" ∅ blF blSite (blRoomState 0x20000100)
           (mkSymData "main.g" Sxxx (-1) []) 0x20000100
           ltac:(closed_side) ltac:(right; reflexivity) ltac:(closed_side)
           ltac:(closed_side) ltac:(closed_side)).
Defined.

Lemma relocSite_branch_stub_witness :
  relocSite "(TLS)" ∅ blF blSite (blRoomState 0x160000000)
  = Done (set_offset 32
            (set_codeByte
               (replicate 16 0
                  ++ [0x43; 0x00; 0x00; 0x58; 0x60; 0x00; 0x1F; 0xD6;
                      0; 0; 0; 0x60; 1; 0; 0; 0])
               (set_Code
                  [4; 0; 0; 0x94; 0x1f; 0x20; 0x03; 0xd5; 0x1f; 0x20; 0x03; 0xd5;
                   0xc0; 0x03; 0x5f; 0xd6] (blRoomState 0x160000000)))).
Proof.
  exact (relocSite_branch_stub "(TLS)" ∅ blF blSite (blRoomState 0x160000000)
           (mkSymData "main.g" Sxxx (-1) []) 0x160000000
           ltac:(closed_side) eq_refl ltac:(closed_side) ltac:(closed_side)
           ltac:(closed_side) ltac:(closed_side) ltac:(closed_side)
           ltac:(closed_side) ltac:(closed_side) ltac:(closed_side)).
Defined.

Lemma relocSite_tls_witness :
  relocSite "(TLS)" {["(TLS)" := 0x28]} callF tlsSite tlsState
  = Done (set_Code (replicate 9 0x90 ++ [0x28; 0; 0; 0] ++ replicate 3 0x90) tlsState).
Proof.
  exact (relocSite_tls "(TLS)" {["(TLS)" := 0x28]} callF tlsSite tlsState
           (externalSym "(TLS)" "R_CALLIND" tlsReloc 0).1 0
           ltac:(closed_side) eq_refl ltac:(closed_side) ltac:(closed_side)).
Defined.

(** ** The symbol table builder never panics and builds a well-formed image *)

Lemma returns_bind {A B} (P : A → Prop) (Q : B → Prop) (m : outcome A)
    (k : A → outcome B) :
  returns P m → (∀ a, m = Done a → P a → returns Q (k a)) → returns Q (m ≫= k).
Proof.
  intros Hm Hk. destruct m as [a|f]; cbn in *; [apply Hk; [reflexivity | exact Hm]|].
  exact Hm.
Qed.

Lemma returns_foldM {A S : Type} (P : S → Prop) (f : A → S → outcome S) l :
  (∀ x s, x ∈ l → P s → returns P (f x s)) →
  ∀ s, P s → returns P (foldM f l s).
Proof.
  induction l as [|x l IH]; intros Hf s Hs; cbn; [exact Hs|].
  apply (returns_bind P); [apply Hf; [left | exact Hs]|].
  intros s' _ Hs'. apply IH; [|exact Hs'].
  intros y s1 Hy. apply Hf. right. exact Hy.
Qed.

Lemma returns_weaken {A} (P Q : A → Prop) (o : outcome A) :
  (∀ a, o = Done a → P a → Q a) → returns P o → returns Q o.
Proof. destruct o; cbn; [intros H; apply H; reflexivity | auto]. Qed.

Lemma relocs_in_range_grow (syms syms' : list SymData) :
  relocs_in_range syms → (length syms ≤ length syms')%nat →
  Forall (λ s, Forall (λ loc, 0 ≤ Reloc_SymOff loc < len syms') (Sym_Reloc s)) syms.
Proof.
  intros H Hl. eapply Forall_impl; [exact H|]. intros s Hs.
  eapply Forall_impl; [exact Hs|]. intros loc Hloc. unfold len in *. cbn beta. lia.
Qed.

(** [addSym] on a well-formed build: it returns, the record is at the
    position returned, and the build stays well formed. *)
Lemma addSym_wf rsym bs :
  build_wf bs → Forall (λ loc, 0 ≤ Reloc_SymOff loc < len (Syms (reloc bs))) (Sym_Reloc rsym) →
  ∃ off bs',
    addSym rsym bs = Done (off, bs')
    ∧ build_wf bs'
    ∧ 0 ≤ off
    ∧ Syms (reloc bs') !! Z.to_nat off = Some rsym
    ∧ (length (Syms (reloc bs)) ≤ length (Syms (reloc bs')))%nat
    ∧ (symMap bs !! Sym_Name rsym = None → off = len (Syms (reloc bs))
         ∧ Syms (reloc bs') = Syms (reloc bs) ++ [rsym])
    ∧ Code (reloc bs') = Code (reloc bs) ∧ Data (reloc bs') = Data (reloc bs)
    ∧ Mod (reloc bs') = Mod (reloc bs)
    ∧ gcObjs bs' = gcObjs bs ∧ fileTabOffsetMap bs' = fileTabOffsetMap bs.
Proof.
  intros [[W1 W2] WR] Hr. unfold addSym.
  destruct (symMap bs !! Sym_Name rsym) as [off|] eqn:E.
  - destruct (W1 _ _ E) as (Hoff & s & Hs & Hn).
    assert (Hlt : (Z.to_nat off < length (Syms (reloc bs)))%nat)
      by (eapply lookup_lt_Some; exact Hs).
    unfold set_index.
    destruct ((0 <=? off) && (off <? len (Syms (reloc bs)))) eqn:Eb.
    2:{ apply andb_false_iff in Eb as [Eb|Eb];
        [apply Z.leb_gt in Eb | apply Z.ltb_ge in Eb]; unfold len in *; lia. }
    cbn [mbind outcome_bind]. eexists _, _. split; [reflexivity|].
    unfold bs_set_reloc, build_wf, interned_wf.
    cbn [reloc symMap Syms Code Data Mod gcObjs fileTabOffsetMap].
    split; [|split; [exact Hoff|split; [|split; [|split; [congruence|]]]]].
    + split; [split|].
      * intros n i Hi. destruct (W1 _ _ Hi) as (Hi0 & t & Ht & Hnt).
        split; [exact Hi0|].
        destruct (decide (Z.to_nat i = Z.to_nat off)) as [Eq|Ne].
        -- exists rsym. rewrite Eq, list_lookup_insert_eq by exact Hlt.
           split; [reflexivity|]. rewrite Eq in Ht. congruence.
        -- exists t. rewrite list_lookup_insert_ne by congruence. auto.
      * intros k t Hk.
        destruct (decide (k = Z.to_nat off)) as [->|Ne].
        -- rewrite list_lookup_insert_eq in Hk by exact Hlt. injection Hk as <-.
           rewrite E. f_equal. lia.
        -- rewrite list_lookup_insert_ne in Hk by congruence. apply W2. exact Hk.
      * unfold relocs_in_range, len in *. rewrite length_insert.
        apply Forall_insert; [exact WR | exact Hr].
    + apply list_lookup_insert_eq. exact Hlt.
    + rewrite length_insert. lia.
    + repeat split; reflexivity.
  - eexists _, _. split; [reflexivity|].
    unfold build_wf, interned_wf.
    cbn [reloc symMap Syms Code Data Mod gcObjs fileTabOffsetMap].
    assert (Hlen : Z.to_nat (len (Syms (reloc bs))) = length (Syms (reloc bs)))
      by (unfold len; lia).
    split; [|split; [apply len_nonneg|split; [|split; [|split]]]].
    + split; [split|].
      * intros n i Hi.
        destruct (decide (Sym_Name rsym = n)) as [<-|Ne].
        -- rewrite lookup_insert_eq in Hi. injection Hi as <-.
           split; [apply len_nonneg|]. exists rsym. split; [|reflexivity].
           rewrite Hlen. apply list_lookup_middle. reflexivity.
        -- rewrite lookup_insert_ne in Hi by exact Ne.
           destruct (W1 _ _ Hi) as (Hi0 & t & Ht & Hnt).
           split; [exact Hi0|]. exists t. split; [|exact Hnt].
           apply lookup_app_l_Some. exact Ht.
      * intros k t Hk. apply lookup_app_Some in Hk as [Hk|[Hk1 Hk2]].
        -- pose proof (W2 _ _ Hk) as Hm.
           rewrite lookup_insert_ne; [exact Hm|]. intros Eq. rewrite Eq in E.
           congruence.
        -- destruct (k - length (Syms (reloc bs)))%nat as [|j] eqn:Ek;
             [|destruct j; discriminate Hk2].
           injection Hk2 as <-. rewrite lookup_insert_eq. f_equal.
           unfold len. lia.
      * unfold relocs_in_range. apply Forall_app. split.
        -- apply relocs_in_range_grow; [exact WR|]. rewrite length_app. lia.
        -- apply Forall_singleton. eapply Forall_impl; [exact Hr|].
           intros loc Hloc. cbn beta in *. rewrite len_app. cbn. unfold len in *. lia.
    + rewrite Hlen. apply list_lookup_middle. reflexivity.
    + rewrite length_app. lia.
    + intros _. split; reflexivity.
    + repeat split; reflexivity.
Qed.

Lemma build_wf_ext bs bs' :
  symMap bs' = symMap bs → Syms (reloc bs') = Syms (reloc bs) →
  build_wf bs → build_wf bs'.
Proof.
  unfold build_wf, interned_wf. intros -> ->. auto.
Qed.

Lemma index_ok {A} (l : list A) k :
  0 ≤ k < len l → ∃ x, index l k = Done x ∧ l !! Z.to_nat k = Some x.
Proof.
  intros Hk. unfold index.
  destruct (0 <=? k) eqn:E; [|apply Z.leb_gt in E; lia].
  destruct (l !! Z.to_nat k) as [x|] eqn:El; [eauto|].
  apply lookup_ge_None in El. unfold len in Hk. lia.
Qed.

Lemma set_index_ok {A} (l : list A) k v :
  0 ≤ k < len l → set_index l k v = Done (<[Z.to_nat k := v]> l).
Proof.
  intros Hk. unfold set_index.
  destruct ((0 <=? k) && (k <? len l)) eqn:E; [reflexivity|].
  apply andb_false_iff in E as [E|E];
    [apply Z.leb_gt in E | apply Z.ltb_ge in E]; lia.
Qed.

(** Replacing a record by one of the same name keeps the build well
    formed when the relocations of the new record are in range. *)
Lemma build_wf_update bs (k : nat) old new :
  build_wf bs → Syms (reloc bs) !! k = Some old → Sym_Name new = Sym_Name old →
  Forall (λ loc, 0 ≤ Reloc_SymOff loc < len (Syms (reloc bs))) (Sym_Reloc new) →
  build_wf
    (bs_set_reloc
       (mkCodeReloc (Code (reloc bs)) (Data (reloc bs)) (Mod (reloc bs))
          (<[k := new]> (Syms (reloc bs)))) bs).
Proof.
  intros [[W1 W2] WR] Hk Hn Hr.
  assert (Hlt : (k < length (Syms (reloc bs)))%nat) by (eapply lookup_lt_Some; exact Hk).
  unfold build_wf, interned_wf, bs_set_reloc. cbn [reloc symMap Syms].
  split; [split|].
  - intros n i Hi. destruct (W1 _ _ Hi) as (Hi0 & t & Ht & Hnt).
    split; [exact Hi0|].
    destruct (decide (Z.to_nat i = k)) as [Eq|Ne].
    + exists new. rewrite Eq, list_lookup_insert_eq by exact Hlt.
      split; [reflexivity|]. rewrite Eq in Ht. congruence.
    + exists t. rewrite list_lookup_insert_ne by congruence. auto.
  - intros j t Hj. destruct (decide (j = k)) as [->|Ne].
    + rewrite list_lookup_insert_eq in Hj by exact Hlt. injection Hj as <-.
      rewrite Hn. apply W2. exact Hk.
    + rewrite list_lookup_insert_ne in Hj by congruence. apply W2. exact Hj.
  - unfold relocs_in_range, len in *. rewrite length_insert.
    apply Forall_insert; [exact WR | exact Hr].
Qed.

Section BuilderWf.

Variable TLSNAME : string.
Variable R_CALLIND_NAME : string.
Variable readFuncData :
  Module → goSym → gmap string goSym → gmap string Z → gmap string Z → Z → Z →
  Module * gmap string Z * gmap string Z.

Lemma externalSym_Reloc re dataLen :
  Sym_Reloc (externalSym TLSNAME R_CALLIND_NAME re dataLen).1 = [].
Proof.
  unfold externalSym.
  destruct (re_Type re =? R_TLS_LE); destruct (re_Type re =? R_CALLIND);
    cbn; match goal with |- context [HasPrefix ?a ?b] => destruct (HasPrefix a b) end;
    reflexivity.
Qed.

(** [relocSym] on a well-formed build does not panic; what it returns is
    a position of the array, and the build it leaves is well formed and no
    shorter. *)
Lemma relocSym_ok allSyms : ∀ fuel curSym bs,
  build_wf bs →
  returns (λ r, build_wf r.2 ∧ 0 ≤ r.1 < len (Syms (reloc r.2))
                ∧ (length (Syms (reloc bs)) ≤ length (Syms (reloc r.2)))%nat)
    (relocSym TLSNAME R_CALLIND_NAME readFuncData fuel allSyms curSym bs).
Proof.
  induction fuel as [|fuel IH]; intros curSym bs Hwf; [reflexivity|].
  cbn [relocSym].
  destruct (symMap bs !! gs_Name curSym) as [o|] eqn:E.
  { cbn. split; [exact Hwf|]. split; [|lia].
    destruct Hwf as [[W1 _] _]. destruct (W1 _ _ E) as (Ho & s & Hs & _).
    apply lookup_lt_Some in Hs. unfold len. lia. }
  destruct (addSym_wf (mkSymData (gs_Name curSym) (gs_Kind curSym) 0 []) bs Hwf
              (Forall_nil_2 _))
    as (off & bs1 & -> & Hwf1 & Hoff & Hat & Hl1 & Hnew & _).
  cbn [mbind outcome_bind].
  destruct (Hnew E) as [Eoff Esyms]. clear Hnew.
  assert (Hofflt : off < len (Syms (reloc bs1))).
  { apply lookup_lt_Some in Hat. unfold len. lia. }
  set (step := if gs_Kind curSym =? STEXT then _ else _).
  assert (Hstep : symMap step.2 = symMap bs1
                  ∧ Syms (reloc step.2) = Syms (reloc bs1)).
  { unfold step. destruct (gs_Kind curSym =? STEXT); [|split; reflexivity].
    destruct (readFuncData _ _ _ _ _ _ _) as [[m g] f]. split; reflexivity. }
  destruct step as [symOffset bs2]. cbn [snd] in Hstep. destruct Hstep as [Hm2 Hs2].
  assert (Hwf2 : build_wf bs2) by (eapply build_wf_ext; eassumption).
  destruct (addSym_wf (mkSymData (gs_Name curSym) (gs_Kind curSym) symOffset []) bs2
              Hwf2 (Forall_nil_2 _))
    as (off3 & bs3 & -> & Hwf3 & _ & _ & Hl3 & _).
  cbn [mbind outcome_bind]. rewrite Hs2 in Hl3.
  apply (returns_bind
           (λ acc : list Reloc * buildState,
              build_wf acc.2
              ∧ (length (Syms (reloc bs1)) ≤ length (Syms (reloc acc.2)))%nat
              ∧ Forall (λ loc, 0 ≤ Reloc_SymOff loc < len (Syms (reloc acc.2))) acc.1)).
  - apply returns_foldM; [|cbn; split; [exact Hwf3|split; [exact Hl3|constructor]]].
    intros re [rl b] _ (Hwfb & Hlb & Hrl). cbn [fst snd] in *.
    apply (returns_bind
             (λ r : Z * buildState,
                build_wf r.2 ∧ 0 ≤ r.1 < len (Syms (reloc r.2))
                ∧ (length (Syms (reloc b)) ≤ length (Syms (reloc r.2)))%nat)).
    + destruct (allSyms !! re_Sym re) as [s|]; [apply IH; exact Hwfb|].
      cbn zeta.
      pose proof (externalSym_Reloc re (len (Data (reloc b)))) as Hex.
      destruct (externalSym _ _ _ _) as [exSym pathb]. cbn [fst] in Hex.
      set (b1 := bs_set_reloc _ b).
      assert (Hwfb1 : build_wf b1) by (eapply build_wf_ext; [| |exact Hwfb]; reflexivity).
      destruct (addSym_wf exSym b1 Hwfb1) as (o & b2 & -> & Hwf' & Ho & Hat' & Hl' & _).
      { rewrite Hex. constructor. }
      cbn. split; [exact Hwf'|]. split; [|exact Hl'].
      apply lookup_lt_Some in Hat'. unfold len. lia.
    + intros [symOff b'] _ (Hwf' & Hso & Hl'). cbn [fst snd] in *. cbn.
      split; [exact Hwf'|]. split; [lia|].
      apply Forall_app. split.
      * eapply Forall_impl; [exact Hrl|]. intros loc Hloc. cbn beta in *.
        unfold len in *. lia.
      * apply Forall_singleton. cbn. exact Hso.
  - intros [relocs bs4] _ (Hwf4 & Hl4 & Hr4). cbn [fst snd] in *.
    assert (Hin : 0 ≤ off < len (Syms (reloc bs4))) by (unfold len in *; lia).
    destruct (index_ok (Syms (reloc bs4)) off Hin) as (old & -> & Hold).
    cbn [mbind outcome_bind]. rewrite (set_index_ok _ off) by exact Hin.
    cbn. split; [|split].
    + apply (build_wf_update bs4 (Z.to_nat off) old); [exact Hwf4 | exact Hold | reflexivity|].
      exact Hr4.
    + unfold len. rewrite length_insert. unfold len in Hin. lia.
    + rewrite length_insert. rewrite Esyms in Hl4. rewrite length_app in Hl4. lia.
Qed.

Lemma emptyBuild_wf : build_wf emptyBuild.
Proof.
  split; [split|].
  - intros n i H. cbn in H. rewrite lookup_empty in H. discriminate.
  - intros k s H. cbn in H. rewrite lookup_nil in H. discriminate.
  - constructor.
Qed.

Lemma readRoots_ok fuel allSyms syms : ∀ bs,
  build_wf bs →
  returns build_wf (readRoots TLSNAME R_CALLIND_NAME readFuncData fuel allSyms syms bs).
Proof.
  unfold readRoots. apply returns_foldM. intros s bs _ Hwf.
  destruct (isRoot s); [|exact Hwf].
  eapply returns_bind; [apply relocSym_ok; exact Hwf|].
  intros [i b] _ (Hwf' & _). exact Hwf'.
Qed.

(** The builder ends within its fuel, in a state that is well formed. *)
Lemma readRoots_returns_wf (objs : list (list goSym)) :
  ∃ bs, readRoots TLSNAME R_CALLIND_NAME readFuncData
          (S (size (collectSyms objs))) (collectSyms objs) (concat objs)
          emptyBuild = Done bs
        ∧ build_wf bs.
Proof.
  pose proof (ReadObjs_fuel TLSNAME R_CALLIND_NAME readFuncData objs) as Hfuel.
  unfold ReadObjs in Hfuel.
  pose proof (readRoots_ok (S (size (collectSyms objs))) (collectSyms objs)
                (concat objs) emptyBuild emptyBuild_wf) as Hok.
  destruct (readRoots _ _ _ _ _ _ _) as [bs|f]; cbn in *.
  - exists bs. split; [reflexivity | exact Hok].
  - subst f. contradiction.
Qed.

(** Whenever [ReadObjs] returns an image, no two symbol records of the
    image have the same name, and every relocation of every record names
    a record of the image. *)
Theorem ReadObjs_well_formed (objs : list (list goSym)) (c : CodeReloc) :
  ReadObjs TLSNAME R_CALLIND_NAME readFuncData objs = Done c →
  NoDup (map Sym_Name (Syms c))
  ∧ allSites (λ _ loc, 0 ≤ Reloc_SymOff loc < len (Syms c)) c.
Proof.
  intros Hc.
  destruct (readRoots_returns_wf objs) as (bs & Hbs & [[W1 W2] WR]).
  unfold ReadObjs in Hc. rewrite Hbs in Hc. cbn [mbind outcome_bind] in Hc.
  injection Hc as <-. split; [|exact WR].
  apply NoDup_alt. intros i j n Hi Hj.
  rewrite list_lookup_fmap in Hi, Hj.
  destruct (Syms (reloc bs) !! i) as [si|] eqn:Ei; [|discriminate].
  destruct (Syms (reloc bs) !! j) as [sj|] eqn:Ej; [|discriminate].
  cbn in Hi, Hj. injection Hi as Hi. injection Hj as Hj.
  pose proof (W2 _ _ Ei) as Mi. pose proof (W2 _ _ Ej) as Mj.
  rewrite Hi in Mi. rewrite Hj in Mj. rewrite Mi in Mj. injection Mj as Mj. lia.
Qed.

End BuilderWf.

(** ** The image lays the parsed symbols out *)

Lemma holds_at_app blob off bs more :
  holds_at blob off bs → holds_at (blob ++ more) off bs.
Proof.
  intros (pre & post & -> & ->). exists pre, (post ++ more).
  rewrite <- !app_assoc. split; reflexivity.
Qed.

Lemma holds_at_end blob bs : holds_at (blob ++ bs) (len blob) bs.
Proof. exists blob, []. rewrite app_nil_r. split; reflexivity. Qed.

Lemma placed_ext c c' g s s' :
  placed c g s →
  (∃ more, Code c' = Code c ++ more) → (∃ more, Data c' = Data c ++ more) →
  Sym_Name s' = Sym_Name s → Sym_Kind s' = Sym_Kind s → Sym_Offset s' = Sym_Offset s →
  placed c' g s'.
Proof.
  intros (Hn & Hk & Hh) [mc Hc] [md Hd] En Ek Eo. unfold placed.
  rewrite En, Ek, Eo, Hc, Hd. split; [exact Hn|]. split; [exact Hk|].
  destruct (gs_Kind g =? STEXT); apply holds_at_app; exact Hh.
Qed.

(** [addSym] of a record without relocations, position by position. *)
Lemma addSym_spec rsym bs :
  build_wf bs → Sym_Reloc rsym = [] →
  ∃ (j : nat) bs',
    addSym rsym bs = Done (Z.of_nat j, bs')
    ∧ build_wf bs'
    ∧ Syms (reloc bs') !! j = Some rsym
    ∧ (∀ k : nat, k ≠ j → Syms (reloc bs') !! k = Syms (reloc bs) !! k)
    ∧ (∀ old, Syms (reloc bs) !! j = Some old → Sym_Name old = Sym_Name rsym)
    ∧ symMap bs' = <[Sym_Name rsym := Z.of_nat j]> (symMap bs)
    ∧ (symMap bs !! Sym_Name rsym = None → j = length (Syms (reloc bs)))
    ∧ Code (reloc bs') = Code (reloc bs) ∧ Data (reloc bs') = Data (reloc bs).
Proof.
  intros Hwf Hr.
  destruct (addSym_wf rsym bs Hwf) as (off & bs' & Hadd & Hwf' & Hoff & Hat & _).
  { rewrite Hr. constructor. }
  exists (Z.to_nat off), bs'. rewrite Z2Nat.id by exact Hoff.
  split; [exact Hadd|]. split; [exact Hwf'|]. split; [exact Hat|].
  destruct Hwf as [[W1 W2] _]. unfold addSym in Hadd.
  destruct (symMap bs !! Sym_Name rsym) as [o|] eqn:E.
  - destruct (W1 _ _ E) as (Ho & s & Hs & Hn).
    assert (Hin : 0 ≤ o < len (Syms (reloc bs))).
    { apply lookup_lt_Some in Hs. unfold len. lia. }
    rewrite (set_index_ok _ o) in Hadd by exact Hin. cbn in Hadd.
    injection Hadd as <- <-. cbn.
    split; [intros k Hk; apply list_lookup_insert_ne; congruence|].
    split; [intros old Hold; congruence|].
    split; [symmetry; apply insert_id; exact E|].
    split; [discriminate|]. split; reflexivity.
  - injection Hadd as <- <-. cbn.
    assert (Hlen : Z.to_nat (len (Syms (reloc bs))) = length (Syms (reloc bs)))
      by (unfold len; lia).
    rewrite Hlen. split.
    { intros k Hk. destruct (decide (k < length (Syms (reloc bs)))%nat) as [Hlt|Hge].
      - apply lookup_app_l. exact Hlt.
      - rewrite !lookup_ge_None_2; [reflexivity|lia|rewrite length_app; cbn; lia]. }
    split; [intros old Hold; apply lookup_lt_Some in Hold; lia|].
    split; [reflexivity|]. split; [reflexivity|]. split; reflexivity.
Qed.

Lemma build_wf_NoDup bs : build_wf bs → NoDup (map Sym_Name (Syms (reloc bs))).
Proof.
  intros [[_ W2] _]. apply NoDup_alt. intros i1 i2 n Hi1 Hi2.
  rewrite list_lookup_fmap in Hi1, Hi2.
  destruct (Syms (reloc bs) !! i1) as [s1|] eqn:E1; [|discriminate].
  destruct (Syms (reloc bs) !! i2) as [s2|] eqn:E2; [|discriminate].
  cbn in Hi1, Hi2. injection Hi1 as Hi1. injection Hi2 as Hi2.
  pose proof (W2 _ _ E1) as M1. pose proof (W2 _ _ E2) as M2.
  rewrite Hi1 in M1. rewrite Hi2 in M2. rewrite M1 in M2. injection M2 as M2. lia.
Qed.

Section LayoutProps.

Variable TLSNAME : string.
Variable R_CALLIND_NAME : string.
Variable readFuncData :
  Module → goSym → gmap string goSym → gmap string Z → gmap string Z → Z → Z →
  Module * gmap string Z * gmap string Z.
Variable allSyms : gmap string goSym.
Variable pool : goSym → Prop.

Local Notation "'relocOf'" := (reloc_of TLSNAME R_CALLIND_NAME allSyms).
Local Notation "'inv'" := (layout_inv TLSNAME R_CALLIND_NAME allSyms pool).
Local Notation "'ext'" := (build_ext allSyms).

Lemma reloc_of_stable (syms syms' : list SymData) off re loc :
  (∀ (k : nat) t, syms !! k = Some t →
     ∃ t', syms' !! k = Some t' ∧ Sym_Name t' = Sym_Name t) →
  relocOf syms off re loc → relocOf syms' off re loc.
Proof.
  intros Hst (H1 & H2 & H3 & H4 & t & Ht & Hn).
  repeat (split; [assumption|]).
  destruct (Hst _ _ Ht) as (t' & Ht' & Hn'). exists t'. split; [exact Ht' | congruence].
Qed.

Lemma reloc_of_all_stable (syms syms' : list SymData) off res locs :
  (∀ (k : nat) t, syms !! k = Some t →
     ∃ t', syms' !! k = Some t' ∧ Sym_Name t' = Sym_Name t) →
  Forall2 (relocOf syms off) res locs → Forall2 (relocOf syms' off) res locs.
Proof.
  intros Hst H. eapply Forall2_impl; [exact H|].
  intros re loc. apply reloc_of_stable. exact Hst.
Qed.

Lemma build_ext_refl bs : ext bs bs.
Proof.
  split; [exists []; symmetry; apply app_nil_r|].
  split; [exists []; symmetry; apply app_nil_r|].
  split; [apply interned_mono_refl|].
  intros k s Hk. exists s. auto.
Qed.

Lemma build_ext_trans b1 b2 b3 : ext b1 b2 → ext b2 b3 → ext b1 b3.
Proof.
  intros ([c1 Hc1] & [d1 Hd1] & Hm1 & Hr1) ([c2 Hc2] & [d2 Hd2] & Hm2 & Hr2).
  split; [exists (c1 ++ c2); rewrite Hc2, Hc1, app_assoc; reflexivity|].
  split; [exists (d1 ++ d2); rewrite Hd2, Hd1, app_assoc; reflexivity|].
  split; [eapply interned_mono_trans; eassumption|].
  intros k s Hk. destruct (Hr1 _ _ Hk) as (s1 & Hk1 & Hn1 & Hd1').
  destruct (Hr2 _ _ Hk1) as (s2 & Hk2 & Hn2 & Hd2').
  exists s2. split; [exact Hk2|]. split; [congruence|].
  intros Hdom. destruct (Hd1' Hdom) as [Ha Hb].
  rewrite <- Hn1 in Hdom. destruct (Hd2' Hdom) as [Ha' Hb']. split; congruence.
Qed.

Lemma ext_names bs bs' :
  ext bs bs' →
  ∀ (k : nat) t, Syms (reloc bs) !! k = Some t →
    ∃ t', Syms (reloc bs') !! k = Some t' ∧ Sym_Name t' = Sym_Name t.
Proof.
  intros (_ & _ & _ & Hr) k t Hk. destruct (Hr _ _ Hk) as (t' & H1 & H2 & _). eauto.
Qed.

(** The record of an external symbol: its name is the target's, the name
    of the thread-local slot or the name for indirect calls; its kind is
    zero and it has no relocations. *)
Lemma externalSym_shape re dataLen :
  let s := (externalSym TLSNAME R_CALLIND_NAME re dataLen).1 in
  Sym_Name s = Sym_Name (externalSym TLSNAME R_CALLIND_NAME re 0).1
  ∧ (Sym_Name s = re_Sym re ∨ Sym_Name s = TLSNAME ∨ Sym_Name s = R_CALLIND_NAME)
  ∧ Sym_Kind s = 0 ∧ Sym_Reloc s = [].
Proof.
  unfold externalSym.
  destruct (re_Type re =? R_TLS_LE); destruct (re_Type re =? R_CALLIND);
    cbn zeta; cbv beta iota;
    match goal with |- context [HasPrefix ?a ?b] => destruct (HasPrefix a b) end;
    cbn; auto.
Qed.

(** A change of one record, or a record more, keeps the invariant when
    the new record satisfies it. *)
Lemma layout_inv_change stack stack' bs bs' (j : nat) (r : SymData) :
  inv stack bs →
  NoDup (map Sym_Name (Syms (reloc bs'))) →
  (∃ more, Code (reloc bs') = Code (reloc bs) ++ more) →
  (∃ more, Data (reloc bs') = Data (reloc bs) ++ more) →
  (∀ k : nat, k ≠ j → Syms (reloc bs') !! k = Syms (reloc bs) !! k) →
  Syms (reloc bs') !! j = Some r →
  (∀ old, Syms (reloc bs) !! j = Some old → Sym_Name old = Sym_Name r) →
  (∀ n, n ∈ stack' → is_Some (symMap bs' !! n)) →
  (∀ n, n ≠ Sym_Name r → n ∉ stack' → n ∉ stack) →
  ((Sym_Name r ∈ dom allSyms →
      ∃ g, pool g ∧ placed (reloc bs') g r
           ∧ (Sym_Name r ∉ stack' →
              Forall2 (relocOf (Syms (reloc bs')) (Sym_Offset r))
                (gs_Reloc g) (Sym_Reloc r)))
   ∧ (Sym_Name r ∉ dom allSyms → Sym_Kind r = 0 ∧ Sym_Reloc r = [])) →
  inv stack' bs'.
Proof.
  intros [_ Hinv] Hnd Hc Hd Hsame Hj Hold Hst Hstack Hr.
  split; [exact Hst|]. intros k s Hk.
  destruct (decide (k = j)) as [->|Hne].
  { rewrite Hj in Hk. injection Hk as <-. exact Hr. }
  assert (Hk0 : Syms (reloc bs) !! k = Some s) by (rewrite <- Hsame by exact Hne; exact Hk).
  assert (Hnames : ∀ (k : nat) t, Syms (reloc bs) !! k = Some t →
            ∃ t', Syms (reloc bs') !! k = Some t' ∧ Sym_Name t' = Sym_Name t).
  { intros k' t Hk'. destruct (decide (k' = j)) as [->|Hne'].
    - exists r. split; [exact Hj|]. symmetry. apply Hold. exact Hk'.
    - exists t. rewrite Hsame by exact Hne'. auto. }
  assert (Hsr : Sym_Name s ≠ Sym_Name r).
  { intros Eq. apply Hne.
    apply (NoDup_lookup _ k j (Sym_Name s) Hnd).
    - rewrite list_lookup_fmap, Hk. reflexivity.
    - rewrite list_lookup_fmap, Hj. cbn. congruence. }
  destruct (Hinv _ _ Hk0) as [Hdef Hext]. split; [|exact Hext].
  intros Hdom. destruct (Hdef Hdom) as (g & Hp & Hpl & Hrel).
  exists g. split; [exact Hp|]. split.
  - eapply placed_ext; try eassumption; reflexivity.
  - intros Hns. eapply reloc_of_all_stable; [exact Hnames|].
    apply Hrel. apply Hstack; assumption.
Qed.

Hypothesis allSyms_wf : ∀ k s, allSyms !! k = Some s → gs_Name s = k ∧ pool s.
Hypothesis TLSNAME_free : TLSNAME ∉ dom allSyms.
Hypothesis R_CALLIND_NAME_free : R_CALLIND_NAME ∉ dom allSyms.

(** The record of an external symbol passes the invariant at any position
    it is put. *)
Lemma externalSym_step stack re b symOff b1 :
  allSyms !! re_Sym re = None →
  build_wf b → inv stack b →
  (let cr := reloc b in
   let '(exSym, pathb) := externalSym TLSNAME R_CALLIND_NAME re (len (Data cr)) in
   addSym exSym
     (bs_set_reloc (mkCodeReloc (Code cr) (Data cr ++ pathb) (Mod cr) (Syms cr)) b))
  = Done (symOff, b1) →
  build_wf b1 ∧ inv stack b1 ∧ ext b b1
  ∧ ∃ t, Syms (reloc b1) !! Z.to_nat symOff = Some t
         ∧ Sym_Name t = targetName TLSNAME R_CALLIND_NAME allSyms re.
Proof.
  intros Hnone Hwf Hinv H. cbn zeta in H.
  pose proof (externalSym_shape re (len (Data (reloc b)))) as Hsh. cbn zeta in Hsh.
  destruct (externalSym _ _ _ _) as [exSym pathb]. cbn [fst] in Hsh.
  destruct Hsh as (Hn0 & Hn & Hkind & Hr).
  set (b0 := bs_set_reloc _ b) in H.
  assert (Hwf0 : build_wf b0) by (eapply build_wf_ext; [| |exact Hwf]; reflexivity).
  destruct (addSym_spec exSym b0 Hwf0 Hr)
    as (j & b' & Hadd & Hwf' & Hat & Hsame & Hold & Hmap & _ & Hc & Hd).
  rewrite Hadd in H. injection H as <- <-. rewrite Nat2Z.id.
  assert (Hfree : Sym_Name exSym ∉ dom allSyms).
  { destruct Hn as [->|[->| ->]]; [|assumption..].
    apply not_elem_of_dom. exact Hnone. }
  pose proof (build_wf_NoDup _ Hwf') as HND.
  split; [exact Hwf'|]. split; [|split].
  - apply (layout_inv_change stack stack b b' j exSym); try assumption.
    + exists []. rewrite Hc. cbn. symmetry. apply app_nil_r.
    + exists pathb. rewrite Hd. reflexivity.
    + intros n Hin. rewrite Hmap. destruct Hinv as [Hst _].
      destruct (decide (Sym_Name exSym = n)) as [<-|Hne].
      * rewrite lookup_insert_eq. eauto.
      * rewrite lookup_insert_ne by exact Hne. apply Hst. exact Hin.
    + auto.
    + split; [intros Hdom; contradiction | auto].
  - split; [exists []; rewrite Hc; cbn; symmetry; apply app_nil_r|].
    split; [exists pathb; rewrite Hd; reflexivity|].
    split.
    { apply addSym_interned in Hadd as [Hm _]. exact Hm. }
    intros k s Hk. destruct (decide (k = j)) as [->|Hne].
    + exists exSym. split; [exact Hat|]. split; [symmetry; apply Hold; exact Hk|].
      intros Hdom. exfalso. apply Hfree. rewrite <- (Hold _ Hk). exact Hdom.
    + exists s. rewrite Hsame by exact Hne. auto.
  - exists exSym. split; [exact Hat|].
    unfold targetName. rewrite Hnone. exact Hn0.
Qed.

(** [relocSym] keeps the invariant: when it returns, the symbol it was
    called for and every symbol it interned on the way are laid out. *)
Lemma relocSym_layout : ∀ fuel curSym bs stack i bs',
  build_wf bs → inv stack bs → pool curSym → gs_Name curSym ∈ dom allSyms →
  relocSym TLSNAME R_CALLIND_NAME readFuncData fuel allSyms curSym bs = Done (i, bs') →
  build_wf bs' ∧ inv stack bs' ∧ ext bs bs'.
Proof.
  induction fuel as [|fuel IH]; intros curSym bs stack i bs' Hwf Hinv Hpool Hdom H;
    [discriminate H|].
  assert (Hwf' : build_wf bs').
  { pose proof (relocSym_ok TLSNAME R_CALLIND_NAME readFuncData allSyms (S fuel)
                  curSym bs Hwf) as Hok.
    rewrite H in Hok. cbn in Hok. tauto. }
  split; [exact Hwf'|].
  cbn [relocSym] in H.
  destruct (symMap bs !! gs_Name curSym) as [o|] eqn:E.
  { injection H as <- <-. split; [exact Hinv | apply build_ext_refl]. }
  set (name := gs_Name curSym) in *.
  (* the placeholder *)
  destruct (addSym_spec (mkSymData name (gs_Kind curSym) 0 []) bs Hwf eq_refl)
    as (j & bs1 & Hadd1 & Hwf1 & Hat1 & Hsame1 & _ & Hmap1 & Hj & Hc1 & Hd1).
  cbn [Sym_Name] in *. specialize (Hj E). subst j.
  rewrite Hadd1 in H. cbn [mbind outcome_bind] in H.
  (* the bytes *)
  set (step := if gs_Kind curSym =? STEXT then _ else _) in H.
  assert (Hstep :
    symMap step.2 = symMap bs1 ∧ Syms (reloc step.2) = Syms (reloc bs1)
    ∧ (if gs_Kind curSym =? STEXT
       then Code (reloc step.2) = Code (reloc bs) ++ gs_Data curSym
            ∧ Data (reloc step.2) = Data (reloc bs)
            ∧ step.1 = len (Code (reloc bs))
       else Data (reloc step.2) = Data (reloc bs) ++ gs_Data curSym
            ∧ Code (reloc step.2) = Code (reloc bs)
            ∧ step.1 = len (Data (reloc bs)))).
  { unfold step. destruct (gs_Kind curSym =? STEXT).
    - destruct (readFuncData _ _ _ _ _ _ _) as [[m g] f]. cbn.
      rewrite Hc1, Hd1. auto.
    - cbn. rewrite Hc1, Hd1. auto. }
  destruct step as [symOffset bs2]. cbn [fst snd] in Hstep.
  destruct Hstep as (Hm2 & Hs2 & Hblob).
  assert (Hwf2 : build_wf bs2) by (eapply build_wf_ext; eassumption).
  (* the record with its offset *)
  set (rsym := mkSymData name (gs_Kind curSym) symOffset []) in *.
  destruct (addSym_spec rsym bs2 Hwf2 eq_refl)
    as (j & bs3 & Hadd3 & Hwf3 & Hat3 & Hsame3 & _ & Hmap3 & _ & Hc3 & Hd3).
  rewrite Hadd3 in H. cbn [mbind outcome_bind] in H.
  assert (Hj : j = length (Syms (reloc bs))).
  { pose proof (addSym_interned _ _ _ _ Hadd3) as [Hmono Hl].
    assert (Hl2 : symMap bs2 !! name = Some (Z.of_nat (length (Syms (reloc bs)))))
      by (rewrite Hm2, Hmap1; apply lookup_insert_eq).
    apply Hmono in Hl2. cbn [Sym_Name rsym] in Hl. rewrite Hl in Hl2.
    injection Hl2 as Hl2. lia. }
  subst j.
  set (n0 := length (Syms (reloc bs))) in *.
  assert (Hsame : ∀ k : nat, k ≠ n0 → Syms (reloc bs3) !! k = Syms (reloc bs) !! k).
  { intros k Hk. rewrite Hsame3, Hs2, Hsame1 by exact Hk. reflexivity. }
  assert (Hmap : symMap bs3 = <[name := Z.of_nat n0]> (symMap bs)).
  { rewrite Hmap3, Hm2, Hmap1. cbn [Sym_Name rsym]. apply insert_insert_eq. }
  assert (Hcode3 : ∃ more, Code (reloc bs3) = Code (reloc bs) ++ more).
  { rewrite Hc3. destruct (gs_Kind curSym =? STEXT).
    - destruct Hblob as (-> & _). eauto.
    - destruct Hblob as (_ & -> & _). exists []. symmetry. apply app_nil_r. }
  assert (Hdata3 : ∃ more, Data (reloc bs3) = Data (reloc bs) ++ more).
  { rewrite Hd3. destruct (gs_Kind curSym =? STEXT).
    - destruct Hblob as (_ & -> & _). exists []. symmetry. apply app_nil_r.
    - destruct Hblob as (-> & _). eauto. }
  assert (Hplaced3 : placed (reloc bs3) curSym rsym).
  { split; [reflexivity|]. split; [reflexivity|]. cbn [Sym_Offset rsym].
    rewrite Hc3, Hd3. destruct (gs_Kind curSym =? STEXT).
    - destruct Hblob as (-> & _ & ->). apply holds_at_end.
    - destruct Hblob as (-> & _ & ->). apply holds_at_end. }
  assert (Hnone : Syms (reloc bs) !! n0 = None) by (apply lookup_ge_None_2; unfold n0; lia).
  assert (Hinv3 : inv (stack ∪ {[name]}) bs3).
  { apply (layout_inv_change stack (stack ∪ {[name]}) bs bs3 n0 rsym); try assumption.
    - apply build_wf_NoDup. exact Hwf3.
    - intros old Hold. rewrite Hnone in Hold. discriminate.
    - intros n Hn. rewrite Hmap. destruct (decide (name = n)) as [<-|Hne].
      + rewrite lookup_insert_eq. eauto.
      + rewrite lookup_insert_ne by exact Hne. destruct Hinv as [Hst _]. apply Hst.
        apply elem_of_union in Hn as [Hn|Hn]; [exact Hn|].
        apply elem_of_singleton in Hn. congruence.
    - intros n _ Hn Hin. apply Hn. apply elem_of_union. left. exact Hin.
    - split.
      + intros _. exists curSym. split; [exact Hpool|]. split; [exact Hplaced3|].
        intros Hn. exfalso. apply Hn. apply elem_of_union. right.
        apply elem_of_singleton. reflexivity.
      + intros Hn. contradiction. }
  assert (Hext3 : ext bs bs3).
  { split; [exact Hcode3|]. split; [exact Hdata3|]. split.
    - intros n i' Hi. rewrite Hmap. rewrite lookup_insert_ne; [exact Hi|].
      intros <-. rewrite E in Hi. discriminate.
    - intros k s Hk. exists s. rewrite Hsame; [auto|].
      apply lookup_lt_Some in Hk. unfold n0. lia. }
  (* the relocations *)
  inv_bind H. destruct a as [relocs bs4].
  match type of Ha with foldM ?f _ _ = _ => set (stepf := f) in Ha end.
  assert (Hfold : ∀ rest done rl b rl' b',
            build_wf b → inv (stack ∪ {[name]}) b → ext bs3 b →
            Forall2 (relocOf (Syms (reloc b)) symOffset) done rl →
            foldM stepf rest (rl, b) = Done (rl', b') →
            build_wf b' ∧ inv (stack ∪ {[name]}) b' ∧ ext bs3 b'
            ∧ Forall2 (relocOf (Syms (reloc b')) symOffset) (done ++ rest) rl').
  { induction rest as [|re rest IHr]; intros done rl b rl' b' Hwb Hib Heb Hrl Hf.
    - cbn in Hf. injection Hf as <- <-. rewrite app_nil_r. auto.
    - cbn [foldM] in Hf. inv_bind Hf. destruct a as [rl1 b1].
      unfold stepf at 1 in Ha0. inv_bind Ha0. destruct a as [symOff b1'].
      injection Ha0 as <- <-.
      assert (Hone : build_wf b1' ∧ inv (stack ∪ {[name]}) b1' ∧ ext b b1'
                     ∧ ∃ t, Syms (reloc b1') !! Z.to_nat symOff = Some t
                            ∧ Sym_Name t = targetName TLSNAME R_CALLIND_NAME allSyms re).
      { destruct (allSyms !! re_Sym re) as [s|] eqn:Es.
        - destruct (allSyms_wf _ _ Es) as [Hsn Hsp].
          assert (Hsd : gs_Name s ∈ dom allSyms) by (rewrite Hsn; apply elem_of_dom; eauto).
          destruct (IH s b _ _ _ Hwb Hib Hsp Hsd Ha1) as (Hw1 & Hi1 & He1).
          split; [exact Hw1|]. split; [exact Hi1|]. split; [exact He1|].
          apply relocSym_mono in Ha1 as [_ Hl].
          destruct Hw1 as [[W1 _] _]. destruct (W1 _ _ Hl) as (_ & t & Ht & Hnt).
          exists t. split; [exact Ht|]. unfold targetName. rewrite Es. exact Hnt.
        - apply (externalSym_step _ re b); assumption. }
      destruct Hone as (Hw1 & Hi1 & He1 & t & Ht & Hnt).
      replace (done ++ re :: rest) with ((done ++ [re]) ++ rest)
        by (rewrite <- app_assoc; reflexivity).
      refine (IHr (done ++ [re]) _ b1' rl' b' Hw1 Hi1 _ _ Hf).
      + eapply build_ext_trans; eassumption.
      + apply Forall2_app.
        * eapply reloc_of_all_stable; [apply ext_names; exact He1 | exact Hrl].
        * constructor; [|constructor]. repeat (split; [reflexivity|]).
          exists t. cbn. auto. }
  destruct (Hfold (gs_Reloc curSym) [] [] bs3 relocs bs4 Hwf3 Hinv3
              (build_ext_refl _) (Forall2_nil_2 _ _ _) Ha) as (Hwf4 & Hinv4 & Hext4 & Hrel4).
  cbn [app] in Hrel4. clear Hfold.
  (* the assignment of the relocations *)
  inv_bind H. inv_bind H. injection H as <- <-.
  apply index_lookup in Ha0. rename a into old.
  apply set_index_Done in Ha1 as [Hin ->].
  rewrite Nat2Z.id in *.
  destruct Hext4 as (Hcode4 & Hdata4 & Hmono4 & Hrec4).
  destruct (Hrec4 _ _ Hat3) as (old' & Hold' & Hon & Hokd).
  rewrite Hold' in Ha0. injection Ha0 as ->.
  destruct (Hokd Hdom) as [Hok Hoo]. cbn [Sym_Name Sym_Kind Sym_Offset rsym] in *.
  set (r5 := mkSymData (Sym_Name old) (Sym_Kind old) (Sym_Offset old) relocs) in *.
  set (bs5 := bs_set_reloc _ bs4) in *.
  assert (Hnames5 : ∀ (k : nat) t, Syms (reloc bs4) !! k = Some t →
            ∃ t', Syms (reloc bs5) !! k = Some t' ∧ Sym_Name t' = Sym_Name t).
  { intros k t Hk. cbn. destruct (decide (k = n0)) as [->|Hne].
    - exists r5. rewrite list_lookup_insert_eq by (eapply lookup_lt_Some; exact Hk).
      split; [reflexivity|]. rewrite Hold' in Hk. injection Hk as <-. reflexivity.
    - exists t. rewrite list_lookup_insert_ne by congruence. auto. }
  split.
  - apply (layout_inv_change (stack ∪ {[name]}) stack bs4 bs5 n0 r5); try assumption.
    + apply build_wf_NoDup. exact Hwf'.
    + exists []. symmetry. apply app_nil_r.
    + exists []. symmetry. apply app_nil_r.
    + intros k Hk. cbn. apply list_lookup_insert_ne. congruence.
    + cbn. apply list_lookup_insert_eq. eapply lookup_lt_Some. exact Hold'.
    + intros o' Ho'. rewrite Hold' in Ho'. injection Ho' as <-. reflexivity.
    + intros n Hn. destruct Hinv4 as [Hst _]. apply Hst. apply elem_of_union. auto.
    + intros n Hne Hn Hi. apply elem_of_union in Hi as [Hi|Hi]; [contradiction|].
      apply elem_of_singleton in Hi. apply Hne. cbn. congruence.
    + split.
      * intros _. exists curSym. split; [exact Hpool|]. split.
        -- eapply (placed_ext (reloc bs3) (reloc bs5) curSym rsym r5);
             [exact Hplaced3 | exact Hcode4 | exact Hdata4 | ..]; cbn; congruence.
        -- intros _. cbn [Sym_Offset Sym_Reloc r5]. rewrite Hoo.
           eapply reloc_of_all_stable; [exact Hnames5 | exact Hrel4].
      * intros Hn. exfalso. apply Hn. cbn. rewrite Hon. exact Hdom.
  - eapply build_ext_trans; [exact Hext3|].
    split; [exact Hcode4|]. split; [exact Hdata4|]. split; [exact Hmono4|].
    intros k s Hk. destruct (Hrec4 _ _ Hk) as (s4 & Hk4 & Hn4 & Hd4).
    cbn. destruct (decide (k = n0)) as [->|Hne].
    + exists r5. rewrite list_lookup_insert_eq by (eapply lookup_lt_Some; exact Hk4).
      rewrite Hold' in Hk4. injection Hk4 as <-.
      split; [reflexivity|]. split; [exact Hn4|]. exact Hd4.
    + exists s4. rewrite list_lookup_insert_ne by congruence. auto.
Qed.

End LayoutProps.

Lemma collectSyms_values objs k s :
  collectSyms objs !! k = Some s → s ∈ concat objs.
Proof.
  unfold collectSyms. generalize (concat objs). intros l.
  assert (H : ∀ m : gmap string goSym,
             fold_left (λ m s, <[gs_Name s := s]> m) l m !! k = Some s →
             m !! k = Some s ∨ s ∈ l).
  { induction l as [|x l IH]; intros m Hm; cbn [fold_left] in Hm; [auto|].
    destruct (IH _ Hm) as [Hk|Hk]; [|right; right; exact Hk].
    destruct (decide (gs_Name x = k)) as [<-|Hne].
    - rewrite lookup_insert_eq in Hk. injection Hk as ->. right. left.
    - rewrite lookup_insert_ne in Hk by exact Hne. auto. }
  intros Hk. destruct (H ∅ Hk) as [Hk'|Hk']; [|exact Hk'].
  rewrite lookup_empty in Hk'. discriminate.
Qed.

Section LayoutTheorem.

Variable TLSNAME : string.
Variable R_CALLIND_NAME : string.
Variable readFuncData :
  Module → goSym → gmap string goSym → gmap string Z → gmap string Z → Z → Z →
  Module * gmap string Z * gmap string Z.

Lemma readRoots_layout allSyms pool fuel :
  (∀ k s, allSyms !! k = Some s → gs_Name s = k ∧ pool s) →
  TLSNAME ∉ dom allSyms → R_CALLIND_NAME ∉ dom allSyms →
  ∀ syms bs bs',
    (∀ s, s ∈ syms → pool s ∧ gs_Name s ∈ dom allSyms) →
    build_wf bs → layout_inv TLSNAME R_CALLIND_NAME allSyms pool ∅ bs →
    readRoots TLSNAME R_CALLIND_NAME readFuncData fuel allSyms syms bs = Done bs' →
    build_wf bs' ∧ layout_inv TLSNAME R_CALLIND_NAME allSyms pool ∅ bs'
    ∧ interned_mono bs bs'
    ∧ ∀ g, g ∈ syms → isRoot g = true → is_Some (symMap bs' !! gs_Name g).
Proof.
  intros Hall HT HC. induction syms as [|s syms IH]; intros bs bs' Hs Hwf Hinv H.
  - injection H as <-. split; [exact Hwf|]. split; [exact Hinv|].
    split; [apply interned_mono_refl|]. intros g Hg. apply elem_of_nil in Hg. contradiction.
  - unfold readRoots in H. cbn [foldM] in H. inv_bind H.
    fold (readRoots TLSNAME R_CALLIND_NAME readFuncData fuel allSyms syms a) in H.
    destruct (Hs s ltac:(left)) as [Hp Hd].
    assert (Hone : build_wf a
                   ∧ layout_inv TLSNAME R_CALLIND_NAME allSyms pool ∅ a
                   ∧ interned_mono bs a
                   ∧ (isRoot s = true → is_Some (symMap a !! gs_Name s))).
    { destruct (isRoot s).
      - inv_bind Ha. destruct a0 as [i b]. injection Ha as <-. cbn [snd].
        destruct (relocSym_layout TLSNAME R_CALLIND_NAME readFuncData allSyms pool
                    Hall HT HC _ _ _ _ _ _ Hwf Hinv Hp Hd Ha0) as (Hw & Hi & _).
        apply relocSym_mono in Ha0 as [Hm Hl]. eauto.
      - injection Ha as <-. split; [exact Hwf|]. split; [exact Hinv|].
        split; [apply interned_mono_refl | discriminate]. }
    destruct Hone as (Hwa & Hia & Hma & Hra).
    destruct (IH a bs') as (Hw' & Hi' & Hm' & Hr'); try assumption.
    { intros g Hg. apply Hs. right. exact Hg. }
    split; [exact Hw'|]. split; [exact Hi'|].
    split; [eapply interned_mono_trans; eassumption|].
    intros g Hg Hroot. apply elem_of_cons in Hg as [->|Hg]; [|apply Hr'; assumption].
    destruct (Hra Hroot) as [j Hj]. exists j. apply Hm'. exact Hj.
Qed.

(** The image that [ReadObjs] builds lays the parsed objects out, provided
    no object defines a symbol with the name of the thread-local slot or
    with the name for indirect calls.  Every root (a text symbol that is
    not duplicate-OK, a read-only [type.] symbol) has a record.  A record
    whose name some object defines has the kind of a parsed symbol of that
    name, the bytes of that symbol stand in the code blob (text) or the
    data blob (all else) at the offset of the record, and its relocations
    are those of the symbol, one for one: offsets rebased to the blob, and
    targets named by their position in the symbol array.  Every other
    record is a bare external: kind zero, no relocations. *)
Theorem ReadObjs_layout (objs : list (list goSym)) :
  TLSNAME ∉ dom (collectSyms objs) →
  R_CALLIND_NAME ∉ dom (collectSyms objs) →
  ∃ c, ReadObjs TLSNAME R_CALLIND_NAME readFuncData objs = Done c
    ∧ (∀ g, g ∈ concat objs → isRoot g = true →
         ∃ s, s ∈ Syms c ∧ Sym_Name s = gs_Name g)
    ∧ (∀ s, s ∈ Syms c →
         (Sym_Name s ∈ dom (collectSyms objs) →
            ∃ g, g ∈ concat objs
                 ∧ lays_out TLSNAME R_CALLIND_NAME (collectSyms objs) c g s)
         ∧ (Sym_Name s ∉ dom (collectSyms objs) →
            Sym_Kind s = 0 ∧ Sym_Reloc s = [])).
Proof.
  intros HT HC.
  destruct (readRoots_returns_wf TLSNAME R_CALLIND_NAME readFuncData objs)
    as (bs0 & Hbs0 & _).
  assert (Hc : ReadObjs TLSNAME R_CALLIND_NAME readFuncData objs
               = Done (reloc bs0))
    by (unfold ReadObjs; rewrite Hbs0; reflexivity).
  exists (reloc bs0). split; [exact Hc|].
  unfold ReadObjs in Hc. inv_bind Hc. injection Hc as <-. rename a into bs.
  destruct (collectSyms_wf objs) as [Hwf Hdom].
  destruct (readRoots_layout (collectSyms objs) (λ g, g ∈ concat objs)
              (S (size (collectSyms objs)))
              ltac:(intros k s Hk; split;
                    [exact (Hwf _ _ Hk) | exact (collectSyms_values _ _ _ Hk)])
              HT HC (concat objs) emptyBuild bs)
    as (Hw & Hi & _ & Hr); try assumption.
  { intros s Hs. split; [exact Hs | apply Hdom; exact Hs]. }
  { apply emptyBuild_wf. }
  { split; [intros n Hn; apply elem_of_empty in Hn; contradiction|].
    intros k s Hk. cbn in Hk. rewrite lookup_nil in Hk. discriminate. }
  split.
  - intros g Hg Hroot. destruct (Hr g Hg Hroot) as [j Hj].
    destruct Hw as [[W1 _] _]. destruct (W1 _ _ Hj) as (_ & s & Hs & Hn).
    exists s. split; [|exact Hn]. eapply list_elem_of_lookup_2. exact Hs.
  - intros s Hs. apply list_elem_of_lookup_1 in Hs as [k Hk].
    destruct Hi as [_ Hi]. destruct (Hi _ _ Hk) as [Hdef Hext].
    split; [|exact Hext]. intros Hd. destruct (Hdef Hd) as (g & Hg & Hpl & Hrel).
    exists g. split; [exact Hg|]. split; [exact Hpl|].
    apply Hrel. apply not_elem_of_empty.
Qed.

End LayoutTheorem.

Lemma ReadObjs_layout_witness :
  ∃ c, ReadObjs "(TLS)" "R_CALLIND" demoReadFuncData [[objF; objG]] = Done c
    ∧ (∀ g, g ∈ concat [[objF; objG]] → isRoot g = true →
         ∃ s, s ∈ Syms c ∧ Sym_Name s = gs_Name g)
    ∧ (∀ s, s ∈ Syms c →
         (Sym_Name s ∈ dom (collectSyms [[objF; objG]]) →
            ∃ g, g ∈ concat [[objF; objG]]
                 ∧ lays_out "(TLS)" "R_CALLIND" (collectSyms [[objF; objG]]) c g s)
         ∧ (Sym_Name s ∉ dom (collectSyms [[objF; objG]]) →
            Sym_Kind s = 0 ∧ Sym_Reloc s = [])).
Proof.
  apply (ReadObjs_layout "(TLS)" "R_CALLIND" demoReadFuncData [[objF; objG]]);
    apply not_elem_of_dom; vm_compute; reflexivity.
Defined.

Lemma ReadObjs_well_formed_witness :
  ∃ c, ReadObjs "(TLS)" "R_CALLIND" demoReadFuncData [[objF; objG]] = Done c
       ∧ NoDup (map Sym_Name (Syms c))
       ∧ allSites (λ _ loc, 0 ≤ Reloc_SymOff loc < len (Syms c)) c.
Proof.
  destruct (ReadObjs "(TLS)" "R_CALLIND" demoReadFuncData [[objF; objG]])
    as [c|f] eqn:E; [|vm_compute in E; discriminate E].
  exists c. split; [reflexivity|].
  exact (ReadObjs_well_formed "(TLS)" "R_CALLIND" demoReadFuncData
           [[objF; objG]] c E).
Defined.

(** ** Import paths of external symbols *)

Lemma inCutset_app c (p q : string) :
  inCutset c q = true → inCutset c (p ++ q)%string = true.
Proof.
  intros H. induction p as [|d p IH]; [exact H|].
  change (inCutset c (String d (p ++ q)%string) = true).
  cbn [inCutset]. rewrite IH. apply orb_true_r.
Qed.

Lemma str_app_cons_assoc (q : string) c p :
  (q ++ String c p)%string = ((q ++ String c EmptyString) ++ p)%string.
Proof.
  induction q as [|d q IHq]; [reflexivity|].
  change (String d (q ++ String c p)%string
          = String d ((q ++ String c EmptyString) ++ p)%string).
  rewrite IHq. reflexivity.
Qed.

Lemma TrimLeft_cutset_prefix cutset s : ∀ p q,
  cutset = (q ++ p)%string → TrimLeft (p ++ s)%string cutset = TrimLeft s cutset.
Proof.
  induction p as [|c p IH]; intros q Hq; [reflexivity|].
  change (TrimLeft (String c (p ++ s)%string) cutset = TrimLeft s cutset).
  cbn [TrimLeft].
  assert (Hc : inCutset c cutset = true).
  { rewrite Hq. apply inCutset_app. cbn [inCutset]. rewrite Ascii.eqb_refl. reflexivity. }
  rewrite Hc. apply (IH (q ++ String c EmptyString)%string).
  rewrite Hq. apply str_app_cons_assoc.
Qed.

Lemma HasPrefix_app (p rest : string) : HasPrefix (p ++ rest)%string p = true.
Proof.
  unfold HasPrefix. induction p as [|c p IH].
  { change (String.prefix "" rest = true). destruct rest; reflexivity. }
  change (String.prefix (String c p) (String c (p ++ rest)%string) = true).
  cbn [String.prefix]. destruct (ascii_dec c c); [exact IH | contradiction].
Qed.

Section ImportPath.

Variable TLSNAME : string.
Variable R_CALLIND_NAME : string.

(** The record that [relocSym] makes for an external symbol whose name
    starts with [type..importpath.]: its offset is the end of the data
    blob, and the bytes added there are taken from the rest of the name by
    [TrimLeft] with the prefix as the set of characters to drop, so that
    every leading character of the path that occurs in the prefix is lost
    with it; dots are trimmed at both ends and a zero byte is added. *)
Theorem externalSym_importpath (re : goReloc) (dataLen : Z) (rest : string) :
  re_Type re ≠ R_TLS_LE → re_Type re ≠ R_CALLIND →
  re_Sym re = ("type..importpath." ++ rest)%string →
  externalSym TLSNAME R_CALLIND_NAME re dataLen
  = (mkSymData (re_Sym re) 0 dataLen [],
     bytesOf (Trim (TrimLeft rest "type..importpath.") ".") ++ [0]).
Proof.
  intros Ht Hc Hn. unfold externalSym.
  destruct (re_Type re =? R_TLS_LE) eqn:E1; [apply Z.eqb_eq in E1; contradiction|].
  destruct (re_Type re =? R_CALLIND) eqn:E2; [apply Z.eqb_eq in E2; contradiction|].
  cbn zeta. cbv beta iota.
  assert (Hp : HasPrefix (re_Sym re) "type..importpath." = true).
  { rewrite Hn. apply HasPrefix_app. }
  rewrite Hp. rewrite Hn at 2.
  rewrite (TrimLeft_cutset_prefix "type..importpath." rest "type..importpath." "")
    by reflexivity.
  reflexivity.
Qed.

End ImportPath.

Lemma externalSym_importpath_witness :
  externalSym "(TLS)" "R_CALLIND" importOs 7
  = (mkSymData "type..importpath.os." 0 7 [], [115; 0]).
Proof.
  exact (externalSym_importpath "(TLS)" "R_CALLIND" importOs 7 "os."
           ltac:(discriminate) ltac:(discriminate) eq_refl).
Defined.

(** ** Reading object files *)

Section FilesProps.

Variable file : Type.
Variable Open : string → string + file.
Variable Parse : file → string → string + list goSym.
Variable TLSNAME : string.
Variable R_CALLIND_NAME : string.
Variable readFuncData :
  Module → goSym → gmap string goSym → gmap string Z → gmap string Z → Z → Z →
  Module * gmap string Z * gmap string Z.

(** [ReadObj] of an open file gives the image, or the error, that
    [ReadObjs] gives for that file alone with the package path [main] or
    with the empty one; [ReadObjs] also leaves [main] in the caller's
    slice of package paths. *)
Theorem ReadObjs_one_file (name p : string) (f : file) :
  Open name = inr f → p = "" ∨ p = "main" →
  ReadObjsFiles file Open Parse TLSNAME R_CALLIND_NAME readFuncData [name] [p]
  = (r ← ReadObj file Parse TLSNAME R_CALLIND_NAME readFuncData f; Done (r, ["main"])).
Proof.
  intros Ho Hp. unfold ReadObjsFiles, ReadObj. cbn [openFiles]. rewrite Ho.
  cbn [app openFiles].
  assert (Hparse :
    parseFiles file Parse 0 [f] [p] []
    = match Parse f "main" with
      | inl e => Done (["main"], inl ("read error: " ++ e)%string)
      | inr obj => Done (["main"], inr [obj])
      end).
  { cbn [parseFiles].
    destruct Hp as [-> | ->].
    - change (index [""] 0) with (Done (A:=string) "").
      cbn [mbind outcome_bind]. change (String.eqb "" "") with true. cbv iota.
      change (set_index [""] 0 "main") with (Done ["main"]).
      cbn [mbind outcome_bind].
      change (index ["main"] 0) with (Done (A:=string) "main").
      cbn [mbind outcome_bind]. destruct (Parse f "main"); reflexivity.
    - change (index ["main"] 0) with (Done (A:=string) "main").
      cbn [mbind outcome_bind]. change (String.eqb "main" "") with false. cbv iota.
      cbn [mbind outcome_bind].
      change (index ["main"] 0) with (Done (A:=string) "main").
      cbn [mbind outcome_bind]. destruct (Parse f "main"); reflexivity. }
  rewrite Hparse. destruct (Parse f "main") as [e|obj]; [reflexivity|].
  cbn [mbind outcome_bind]. unfold ReadObjs, collectSyms. cbn [concat].
  rewrite app_nil_r.
  destruct (readRoots _ _ _ _ _ _ _); reflexivity.
Qed.

(** The files are all opened before a package path is looked at, and the
    paths are indexed by the position of the file without a check of their
    number: with fewer paths than files that open and parse, [ReadObjs]
    panics with an index out of range. *)
Theorem ReadObjs_short_pkgPath (files pkgPath : list string) (fs : list file) :
  openFiles file Open files [] = inr fs →
  (∀ f p, ∃ obj, Parse f p = inr obj) →
  (length pkgPath < length fs)%nat →
  ReadObjsFiles file Open Parse TLSNAME R_CALLIND_NAME readFuncData files pkgPath
  = Fault IndexOutOfRange.
Proof.
  intros Ho Hp Hl. unfold ReadObjsFiles. rewrite Ho.
  assert (H : ∀ fs (i : nat) pkgPath objs,
             (i ≤ length pkgPath)%nat → (length pkgPath < i + length fs)%nat →
             parseFiles file Parse (Z.of_nat i) fs pkgPath objs = Fault IndexOutOfRange).
  { clear -Hp. intros fs. induction fs as [|f fs IH]; intros i pkgPath objs Hi0 Hl;
      [cbn in Hl; lia|].
    cbn [parseFiles].
    destruct (decide (i < length pkgPath)%nat) as [Hi|Hi].
    - destruct (index_ok pkgPath (Z.of_nat i)) as (p & -> & Hpi);
        [unfold len; lia|].
      cbn [mbind outcome_bind].
      assert (Hset : ∃ pp, (if String.eqb p "" then set_index pkgPath (Z.of_nat i) "main"
                            else Done pkgPath) = Done pp
                           ∧ length pp = length pkgPath).
      { destruct (String.eqb p ""); [|eauto].
        rewrite set_index_ok by (unfold len; lia).
        eexists. split; [reflexivity|]. apply length_insert. }
      destruct Hset as (pp & -> & Hpp). cbn [mbind outcome_bind].
      destruct (index_ok pp (Z.of_nat i)) as (p' & -> & _); [unfold len; lia|].
      cbn [mbind outcome_bind].
      destruct (Hp f p') as [obj ->].
      replace (Z.of_nat i + 1) with (Z.of_nat (S i)) by lia.
      apply IH; cbn in Hl; lia.
    - assert (Hidx : index pkgPath (Z.of_nat i) = Fault IndexOutOfRange).
      { unfold index. destruct (0 <=? Z.of_nat i); [|reflexivity].
        rewrite Nat2Z.id. rewrite lookup_ge_None_2 by lia. reflexivity. }
      rewrite Hidx. reflexivity. }
  change 0 with (Z.of_nat 0). rewrite (H fs 0%nat pkgPath []) by (cbn; lia).
  reflexivity.
Qed.

End FilesProps.

Lemma ReadObjs_one_file_witness :
  ReadObjsFiles string demoOpen demoParse "(TLS)" "R_CALLIND" demoReadFuncData
    ["f.o"] [""]
  = (r ← ReadObj string demoParse "(TLS)" "R_CALLIND" demoReadFuncData "f.o";
     Done (r, ["main"])).
Proof.
  exact (ReadObjs_one_file string demoOpen demoParse "(TLS)" "R_CALLIND"
           demoReadFuncData "f.o" "" "f.o" eq_refl (or_introl eq_refl)).
Defined.

Lemma ReadObjs_short_pkgPath_witness :
  ReadObjsFiles string demoOpen demoParse "(TLS)" "R_CALLIND" demoReadFuncData
    ["f.o"; "g.o"] ["main"]
  = Fault IndexOutOfRange.
Proof.
  apply (ReadObjs_short_pkgPath string demoOpen demoParse "(TLS)" "R_CALLIND"
           demoReadFuncData ["f.o"; "g.o"] ["main"] ["f.o"; "g.o"]).
  - reflexivity.
  - intros f p. eexists. reflexivity.
  - cbn. lia.
Defined.

(** ** What [addSymAddrs] resolves *)

Lemma str_app_cancel (s t : string) : (s ++ t)%string = s → t = "".
Proof.
  induction s as [|c s IH]; [auto|].
  change (String c (s ++ t)%string = String c s → t = "").
  intros H. injection H as H. auto.
Qed.

Lemma strWrite_grows buf s str : s ≠ "" → strWrite buf (s :: str) ≠ buf.
Proof.
  intros Hs H. rewrite strWrite_app in H. apply str_app_cancel in H.
  exact (strWrite_nonempty "" s str Hs H).
Qed.

Ltac sym_addr_solve :=
  repeat match goal with
         | H : set_symAddr _ _ _ = Done _ |- _ =>
             unfold set_symAddr in H; apply bind_Done in H;
             destruct H as (? & ? & H); injection H as <-
         end;
  repeat match goal with
         | |- context [if ?c then _ else _] => destruct c
         end;
  cbn in *; repeat split; try reflexivity; try congruence.

Section ResolveMore.

Variable TLSNAME : string.
Variable RegTLS : gmap string Z → Z → gmap string Z.

(** What a step of the loop never touches. *)
Lemma addSymAddr_static j sym sp st sp' st' :
  addSymAddr TLSNAME RegTLS j sym (sp, st) = Done (sp', st') →
  code st' = code st ∧ codeBase (seg st') = codeBase (seg st)
  ∧ dataBase (seg st') = dataBase (seg st).
Proof.
  unfold addSymAddr. intros H. go; sym_addr_solve.
Qed.

Lemma addSymAddr_cmSyms j sym sp st sp' st' n :
  addSymAddr TLSNAME RegTLS j sym (sp, st) = Done (sp', st') →
  Sym_Name sym ≠ n →
  cm_Syms (codeModule st') !! n = cm_Syms (codeModule st) !! n.
Proof.
  unfold addSymAddr. intros H Hn. go; sym_addr_solve.
  all: try (rewrite lookup_insert_ne by assumption; reflexivity).
Qed.

Lemma addSymAddrs_tail l : ∀ k sp st sp' st' n,
  foldMi (addSymAddr TLSNAME RegTLS) k l (sp, st) = Done (sp', st') →
  n ∉ map Sym_Name l →
  cm_Syms (codeModule st') !! n = cm_Syms (codeModule st) !! n.
Proof.
  induction l as [|x l IH]; intros k sp st sp' st' n H Hn; cbn [foldMi] in H.
  - injection H as <- <-. reflexivity.
  - inv_bind H. destruct a as [sp1 st1]. cbn [map] in Hn.
    apply not_elem_of_cons in Hn as [Hx Hl].
    rewrite (IH _ _ _ _ _ n H Hl).
    eapply addSymAddr_cmSyms; [eassumption | congruence].
Qed.

Lemma addSymAddrs_static l : ∀ k sp st sp' st',
  foldMi (addSymAddr TLSNAME RegTLS) k l (sp, st) = Done (sp', st') →
  code st' = code st ∧ codeBase (seg st') = codeBase (seg st)
  ∧ dataBase (seg st') = dataBase (seg st).
Proof.
  induction l as [|x l IH]; intros k sp st sp' st' H; cbn [foldMi] in H.
  - injection H as <- <-. auto.
  - inv_bind H. destruct a as [sp1 st1].
    destruct (IH _ _ _ _ _ H) as (H1 & H2 & H3).
    destruct (addSymAddr_static _ _ _ _ _ _ Ha) as (G1 & G2 & G3).
    repeat split; congruence.
Qed.

(** Every function of the image is resolved to the start of the mapped
    region plus its offset in the code blob, and, names being distinct,
    published under its name in the symbol map of the module. *)
Theorem addSymAddrs_text symPtr st sp' st' (i : nat) sym :
  addSymAddrs TLSNAME RegTLS symPtr st = Done (sp', st') →
  Syms (code st) !! i = Some sym →
  Sym_Offset sym ≠ -1 → Sym_Name sym ≠ TLSNAME → Sym_Kind sym = STEXT →
  let a := Sym_Offset sym ⊞ codeBase (seg st) in
  symAddrs (seg st') !! i = Some a
  ∧ (NoDup (map Sym_Name (Syms (code st))) →
     cm_Syms (codeModule st') !! Sym_Name sym = Some (uintptr a)).
Proof.
  intros H Hi Ho Hn Hk a. unfold addSymAddrs in H.
  pose proof (take_drop_middle _ _ _ Hi) as Hsplit.
  rewrite <- Hsplit in H. rewrite foldMi_app in H.
  apply bind_Done in H as ([sp1 st1] & Hpre & H). cbn [foldMi] in H.
  apply bind_Done in H as ([sp2 st2] & Hstep & H).
  assert (Hlen : 0 + len (take i (Syms (code st))) = Z.of_nat i).
  { unfold len. rewrite length_take. apply lookup_lt_Some in Hi. lia. }
  rewrite Hlen in *.
  destruct (addSymAddrs_static _ _ _ _ _ _ Hpre) as (_ & Hcb & _).
  unfold addSymAddr in Hstep.
  destruct (Sym_Offset sym =? -1) eqn:E1; [apply Z.eqb_eq in E1; contradiction|].
  destruct (String.eqb (Sym_Name sym) TLSNAME) eqn:E2;
    [apply String.eqb_eq in E2; contradiction|].
  rewrite Hk in Hstep. change (STEXT =? STEXT) with true in Hstep. cbv iota in Hstep.
  apply bind_Done in Hstep as (st1' & Hset & Hstep). injection Hstep as <- <-.
  unfold set_symAddr in Hset. apply bind_Done in Hset as (sa & Hsa & Hset).
  injection Hset as <-.
  apply set_index_Done in Hsa as [Hr ->]. rewrite Nat2Z.id in *.
  replace (Z.of_nat i + 1) with (Z.of_nat (S i)) in H by lia.
  split.
  - rewrite (addSymAddrs_loop TLSNAME RegTLS _ _ _ _ _ _ i H) by (left; lia).
    cbn. rewrite list_lookup_insert_eq by (unfold len in Hr; lia).
    unfold a. rewrite Hcb. reflexivity.
  - intros Hnd. rewrite <- Hsplit in Hnd. rewrite map_app in Hnd. cbn [map] in Hnd.
    apply NoDup_app in Hnd as (_ & _ & Hnd). apply NoDup_cons in Hnd as [Hnd _].
    rewrite (addSymAddrs_tail _ _ _ _ _ _ (Sym_Name sym) H Hnd). cbn.
    rewrite lookup_insert_eq. unfold a. rewrite Hcb. reflexivity.
Qed.

(** A step of the loop for a symbol that is not a thread-local slot. *)
Lemma addSymAddr_external (j : nat) sym sp st :
  (Sym_Offset sym ≠ -1 → Sym_Name sym ≠ TLSNAME) →
  (j < length (symAddrs (seg st)))%nat →
  ∃ st1,
    addSymAddr TLSNAME RegTLS (Z.of_nat j) sym (sp, st) = Done (sp, st1)
    ∧ length (symAddrs (seg st1)) = length (symAddrs (seg st))
    ∧ (Sym_Offset sym = -1 →
       symAddrs (seg st1) !! j
       = Some (match sp !! Sym_Name sym with Some p => int p | None => -1 end))
    ∧ (err (seg st1) = err (seg st)
       ↔ (Sym_Offset sym = -1 → is_Some (sp !! Sym_Name sym))).
Proof.
  intros Hn Hj.
  assert (Hset : ∀ v s, length (symAddrs (seg s)) = length (symAddrs (seg st)) →
            set_symAddr (Z.of_nat j) v s
            = Done (set_seg (seg_set_symAddrs (<[j := v]> (symAddrs (seg s))) (seg s)) s)).
  { intros v s Hl. unfold set_symAddr. rewrite set_index_ok by (unfold len; lia).
    rewrite Nat2Z.id. reflexivity. }
  unfold addSymAddr.
  destruct (Sym_Offset sym =? -1) eqn:E1.
  - apply Z.eqb_eq in E1. destruct (sp !! Sym_Name sym) as [p|] eqn:Ep.
    + rewrite Hset by reflexivity. cbn [mbind outcome_bind]. eexists.
      split; [reflexivity|]. cbn. split; [apply length_insert|].
      split; [intros _; apply list_lookup_insert_eq; exact Hj|].
      split; [eauto | reflexivity].
    + rewrite Hset by reflexivity. cbn [mbind outcome_bind]. eexists.
      split; [reflexivity|]. cbn -[strWrite]. split; [apply length_insert|].
      split; [intros _; apply list_lookup_insert_eq; exact Hj|].
      split.
      * intros H. exfalso. revert H. apply strWrite_grows. discriminate.
      * intros H. destruct (H E1) as [x Hx]. discriminate.
  - apply Z.eqb_neq in E1.
    destruct (String.eqb (Sym_Name sym) TLSNAME) eqn:E2.
    { apply String.eqb_eq in E2. exfalso. exact (Hn E1 E2). }
    destruct (Sym_Kind sym =? STEXT).
    { rewrite Hset by reflexivity. cbn [mbind outcome_bind]. eexists.
      split; [reflexivity|]. cbn. split; [apply length_insert|].
      split; [intros; contradiction|]. split; [intros; contradiction | reflexivity]. }
    destruct (HasPrefix (Sym_Name sym) "go.itab").
    { destruct (sp !! Sym_Name sym).
      - rewrite Hset by reflexivity. cbn [mbind outcome_bind]. eexists.
        split; [reflexivity|]. cbn. split; [apply length_insert|].
        split; [intros; contradiction|]. split; [intros; contradiction | reflexivity].
      - eexists. split; [reflexivity|]. cbn. split; [reflexivity|].
        split; [intros; contradiction|]. split; [intros; contradiction | reflexivity]. }
    rewrite Hset by reflexivity. cbn [mbind outcome_bind].
    set (s2 := if HasPrefix (Sym_Name sym) "type.func" then _ else _).
    assert (Hs2 : length (symAddrs (seg s2)) = length (symAddrs (seg st))
                  ∧ err (seg s2) = err (seg st)).
    { unfold s2. destruct (HasPrefix (Sym_Name sym) "type.func"); cbn;
        rewrite length_insert; auto. }
    destruct Hs2 as [Hl2 He2].
    destruct (HasPrefix (Sym_Name sym) "type.").
    + destruct (sp !! Sym_Name sym).
      * rewrite Hset by exact Hl2. cbn [mbind outcome_bind]. eexists.
        split; [reflexivity|]. cbn. split; [rewrite length_insert; exact Hl2|].
        split; [intros; contradiction|]. split; [intros; contradiction | intros _; exact He2].
      * eexists. split; [reflexivity|]. cbn. split; [exact Hl2|].
        split; [intros; contradiction|]. split; [intros; contradiction | intros _; exact He2].
    + eexists. split; [reflexivity|]. split; [exact Hl2|].
      split; [intros; contradiction|]. split; [intros; contradiction | intros _; exact He2].
Qed.

Lemma addSymAddrs_externals_loop l : ∀ (k : nat) sp st,
  Forall (λ s, Sym_Offset s ≠ -1 → Sym_Name s ≠ TLSNAME) l →
  (k + length l ≤ length (symAddrs (seg st)))%nat →
  ∃ st',
    foldMi (addSymAddr TLSNAME RegTLS) (Z.of_nat k) l (sp, st) = Done (sp, st')
    ∧ (∀ (j : nat) sym, l !! j = Some sym → Sym_Offset sym = -1 →
         symAddrs (seg st') !! (k + j)%nat
         = Some (match sp !! Sym_Name sym with Some p => int p | None => -1 end))
    ∧ report_extends st st'
    ∧ (err (seg st') = err (seg st)
       ↔ Forall (λ s, Sym_Offset s = -1 → is_Some (sp !! Sym_Name s)) l).
Proof.
  induction l as [|x l IH]; intros k sp st Hall Hlen.
  - exists st. split; [reflexivity|]. split; [intros j sym Hj; discriminate|].
    split; [apply report_extends_refl|]. split; [constructor | reflexivity].
  - apply Forall_cons in Hall as [Hx Hall]. cbn [length] in Hlen.
    destruct (addSymAddr_external k x sp st Hx ltac:(lia))
      as (st1 & Hstep & Hl1 & Hv1 & He1).
    destruct (IH (S k) sp st1 Hall ltac:(lia)) as (st' & Hrest & Hv & Hr & He).
    exists st'. cbn [foldMi]. rewrite Hstep. cbn [mbind outcome_bind].
    replace (Z.of_nat k + 1) with (Z.of_nat (S k)) by lia.
    split; [exact Hrest|].
    assert (Hr1 : report_extends st st1).
    { eapply (addSymAddr_report TLSNAME RegTLS). exact Hstep. }
    split; [|split; [eapply report_extends_trans; eassumption|]].
    + intros j sym Hj Ho. destruct j as [|j].
      * injection Hj as ->. rewrite Nat.add_0_r.
        rewrite (addSymAddrs_loop TLSNAME RegTLS _ _ _ _ _ _ k Hrest) by (left; lia).
        apply Hv1. exact Ho.
      * replace (k + S j)%nat with (S k + j)%nat by lia. apply Hv; assumption.
    + destruct Hr1 as [t1 Ht1]. destruct Hr as [t2 Ht2]. rewrite Forall_cons. split.
      * intros Heq. rewrite Ht2, Ht1, str_app_assoc in Heq.
        apply str_app_cancel in Heq. apply str_app_empty in Heq as [-> ->].
        rewrite str_app_nil_r in Ht1, Ht2. split; [apply He1 | apply He]; assumption.
      * intros [Hx' Hl']. transitivity (err (seg st1)); [apply He | apply He1]; assumption.
Qed.

(** External symbols are resolved from the symbol map of the host: when
    the image holds no thread-local slot, [addSymAddrs] returns with the
    map as it was, an external symbol has the address the map gives for
    its name, or -1 when the map has none, and the report has grown exactly
    when some external symbol is missing from the map. *)
Theorem addSymAddrs_externals symPtr st :
  Forall (λ s, Sym_Offset s ≠ -1 → Sym_Name s ≠ TLSNAME) (Syms (code st)) →
  length (symAddrs (seg st)) = length (Syms (code st)) →
  ∃ st',
    addSymAddrs TLSNAME RegTLS symPtr st = Done (symPtr, st')
    ∧ (∀ (i : nat) sym, Syms (code st) !! i = Some sym → Sym_Offset sym = -1 →
         symAddrs (seg st') !! i
         = Some (match symPtr !! Sym_Name sym with Some p => int p | None => -1 end))
    ∧ (err (seg st') = err (seg st)
       ↔ Forall (λ s, Sym_Offset s = -1 → is_Some (symPtr !! Sym_Name s))
           (Syms (code st))).
Proof.
  intros Hall Hlen.
  destruct (addSymAddrs_externals_loop (Syms (code st)) 0 symPtr st Hall ltac:(lia))
    as (st' & H & Hv & _ & He).
  exists st'. split; [exact H|]. split; [|exact He].
  intros i sym Hi Ho. exact (Hv i sym Hi Ho).
Qed.

End ResolveMore.

Lemma addSymAddrs_text_witness :
  symAddrs (seg callResolved.2) !! 0%nat = Some (0 ⊞ 0x20000000)
  ∧ (NoDup (map Sym_Name (Syms (code callInit))) →
     cm_Syms (codeModule callResolved.2) !! "main.f" = Some (uintptr (0 ⊞ 0x20000000))).
Proof.
  apply (addSymAddrs_text "(TLS)" demoRegTLS farHost callInit callResolved.1
           callResolved.2 0 callF).
  - vm_compute. reflexivity.
  - reflexivity.
  - discriminate.
  - discriminate.
  - reflexivity.
Defined.

Lemma addSymAddrs_externals_witness :
  ∃ st',
    addSymAddrs "(TLS)" demoRegTLS ∅ callInit = Done (∅, st')
    ∧ (∀ (i : nat) sym, Syms (code callInit) !! i = Some sym → Sym_Offset sym = -1 →
         symAddrs (seg st') !! i
         = Some (match (∅ : gmap string Z) !! Sym_Name sym with
                 | Some p => int p
                 | None => -1
                 end))
    ∧ (err (seg st') = err (seg callInit)
       ↔ Forall (λ s, Sym_Offset s = -1 → is_Some ((∅ : gmap string Z) !! Sym_Name s))
           (Syms (code callInit))).
Proof.
  apply (addSymAddrs_externals "(TLS)" demoRegTLS ∅ callInit).
  - repeat constructor; intros _; discriminate.
  - reflexivity.
Defined.

(** ** [buildModule], [Load] and [Unload] *)

Lemma chain_insert_fresh h a m l : ∀ x,
  chain h x l → a ∉ x :: l → chain (<[a := m]> h) x l.
Proof.
  induction l as [|b l IH]; intros x H Ha.
  - destruct H as (mx & Ex & Nx). exists mx. split; [|exact Nx].
    rewrite lookup_insert_ne; [exact Ex|]. intros ->. apply Ha. left.
  - destruct H as (mx & Ex & Nx & C). exists mx.
    split; [|split; [exact Nx|]].
    + rewrite lookup_insert_ne; [exact Ex|]. intros ->. apply Ha. left.
    + apply IH; [exact C|]. intros Hin. apply Ha. right. exact Hin.
Qed.

Section BuildMore.

Variable firstmoduledata : addr.
Variable funcSize : Z.
Variable pclnBase : Z.

Lemma addModule_on_chain a w l :
  chain (heap w) firstmoduledata l →
  addModule firstmoduledata a w
  = Done (mkWorld
            (alter (md_set_next (Some a)) (List.last l firstmoduledata) (heap w))
            ({[a]} ∪ modules w) (locked w) (mapped w) (trace w ++ [EvLink a])).
Proof.
  intros Hc. unfold addModule. cbn [heap set_modules].
  rewrite (lastModule_chain _ l) by
    (try assumption; pose proof (chain_length _ _ _ Hc) as Hl; cbn in Hl; lia).
  reflexivity.
Qed.

(** What [buildModule] does, part by part. *)
Lemma buildModule_parts a st w st' w' :
  buildModule firstmoduledata funcSize pclnBase a st w = Done (st', w') →
  ∃ md wl wa cb1 cb,
    md_next md = None
    ∧ md_minpc md = uintptr (codeBytePtr (seg st))
    ∧ md_text md = uintptr (codeBase (seg st))
    ∧ md_etext md = uintptr (codeBase (seg st) ⊞ len (Code (code st)))
    ∧ md_types md = uintptr (codeBase (seg st))
    ∧ md_etypes md = uintptr (codeBase (seg st) ⊞ codeLen (seg st))
    ∧ md_findfunctab md = pcfunc (Mod (code st))
    ∧ md_typemap md = typemap (codeModule st)
    ∧ Lock w = Done wl
    ∧ addModule firstmoduledata a (set_heap (<[a := md]> (heap wl)) wl) = Done wa
    ∧ Unlock wa = Done w'
    ∧ is_Some (pcfunc (Mod (code st)) !! 0%nat)
    ∧ 0 ≤ len (Code (code st)) ⊟ 1 < len (codeByte (seg st))
    ∧ copy_at (codeByte (seg st)) 0 (Code (code st)) = Done cb1
    ∧ copy_at cb1 (len (Code (code st))) (Data (code st)) = Done cb
    ∧ st' = mkLoadState (code st)
              (cm_set_CodeByte (codeBytePtr (seg st)) cb
                 (cm_publish a (code st) (codeModule st)))
              (seg_set_codeByte cb (seg st)).
Proof.
  unfold buildModule. intros H.
  inv_bind H. inv_bind H. inv_bind H. inv_bind H. inv_bind H.
  destruct a4 as [m off].
  inv_bind H. inv_bind H. rename a5 into L1. inv_bind H. rename a5 into L2.
  inv_bind H. rename a5 into wl. inv_bind H. rename a5 into wa.
  inv_bind H. rename a5 into wu. inv_bind H. inv_bind H.
  injection H as <- <-.
  match type of Ha8 with
  | addModule _ _ (set_heap (<[_ := ?m]> _) _) = _ =>
      exists m, wl, wa, a5, a6
  end.
  cbn [md_next md_minpc md_text md_etext md_types md_etypes md_findfunctab
       md_typemap].
  repeat match goal with |- _ ∧ _ => split end;
    try reflexivity; try eassumption.
  - apply index_lookup in Ha0. eauto.
  - apply index_range in Ha2. lia.
  - apply index_range in Ha2. lia.
Qed.

End BuildMore.

Lemma Lock_world w wl :
  Lock w = Done wl →
  locked w = false
  ∧ wl = mkWorld (heap w) (modules w) true (mapped w) (trace w ++ [EvLock]).
Proof.
  unfold Lock. destruct (locked w); [discriminate|].
  intros H. injection H as <-. split; reflexivity.
Qed.

Lemma Unlock_world w wu :
  Unlock w = Done wu →
  locked w = true
  ∧ wu = mkWorld (heap w) (modules w) false (mapped w) (trace w ++ [EvUnlock]).
Proof.
  unfold Unlock. destruct (locked w); [|discriminate].
  intros H. injection H as <-. split; reflexivity.
Qed.

Lemma alter_link_undo (h : gmap addr moduledata) t a mt :
  h !! t = Some mt → md_next mt = None →
  alter (md_set_next None) t (alter (md_set_next (Some a)) t h) = h.
Proof.
  intros Et Nt. apply map_eq. intros i.
  destruct (decide (i = t)) as [->|Hi].
  - rewrite !lookup_alter_eq, Et. cbn. rewrite md_set_next_undo by exact Nt.
    reflexivity.
  - rewrite !lookup_alter_ne by congruence. reflexivity.
Qed.

Section BuildWorld.

Variable firstmoduledata : addr.
Variable funcSize : Z.
Variable pclnBase : Z.

(** The process after [buildModule], when the module list is the chain [l]
    and the address of the new node is not in use. *)
Lemma buildModule_world a st w st' w' l :
  buildModule firstmoduledata funcSize pclnBase a st w = Done (st', w') →
  chain (heap w) firstmoduledata l →
  ∃ md,
    md_next md = None
    ∧ md_minpc md = uintptr (codeBytePtr (seg st))
    ∧ md_text md = uintptr (codeBase (seg st))
    ∧ md_etext md = uintptr (codeBase (seg st) ⊞ len (Code (code st)))
    ∧ locked w = false
    ∧ (heap w !! a = None →
       w' = mkWorld
              (alter (md_set_next (Some a)) (List.last l firstmoduledata)
                 (<[a := md]> (heap w)))
              ({[a]} ∪ modules w) false (mapped w)
              (trace w ++ [EvLock; EvLink a; EvUnlock])).
Proof.
  intros H Hc.
  destruct (buildModule_parts _ _ _ _ _ _ _ _ H)
    as (md & wl & wa & cb1 & cb & N & Mi & T & ET & _ & _ & _ & _ & HL & HA & HU & _).
  exists md. repeat (split; [assumption|]).
  apply Lock_world in HL as (Hl & ->). split; [exact Hl|].
  intros Hfresh.
  assert (Ha : a ∉ firstmoduledata :: l).
  { intros Hin. apply (chain_dom _ _ _ _ Hc) in Hin.
    apply elem_of_dom in Hin as [? Hin]. congruence. }
  rewrite (addModule_on_chain _ _ _ l) in HA.
  2:{ cbn [set_heap heap]. apply chain_insert_fresh; assumption. }
  injection HA as <-.
  apply Unlock_world in HU as (_ & ->).
  cbn [set_heap heap modules locked mapped trace].
  rewrite <- !app_assoc. reflexivity.
Qed.

(** After [buildModule] the mapped region holds the code blob followed by
    the data blob, as far as the region reaches, and behind them the bytes
    it held before; the module's [CodeByte] is that region, and the image
    is as it was. *)
Theorem buildModule_fills_region (a : addr) (st : loadState) (w : world)
    (st' : loadState) (w' : world) :
  buildModule firstmoduledata funcSize pclnBase a st w = Done (st', w') →
  len (Code (code st)) < 2 ^ 63 →
  codeByte (seg st')
  = take (length (codeByte (seg st))) (Code (code st) ++ Data (code st))
    ++ drop (length (Code (code st)) + length (Data (code st)))
         (codeByte (seg st))
  ∧ CodeByte (codeModule st') = codeByte (seg st')
  ∧ CodeBytePtr (codeModule st') = codeBytePtr (seg st')
  ∧ code st' = code st.
Proof.
  intros H Hint.
  destruct (buildModule_parts _ _ _ _ _ _ _ _ H)
    as (md & wl & wa & cb1 & cb & _ & _ & _ & _ & _ & _ & _ & _ & _ & _ & _
        & _ & Hr & H1 & H2 & ->).
  cbn. repeat split; try reflexivity.
  set (C := Code (code st)) in *. set (D := Data (code st)) in *.
  set (b := codeByte (seg st)) in *.
  assert (HC : (length C ≤ length b)%nat).
  { unfold isub, len in Hr, Hint.
    rewrite int_id in Hr by (unfold in_int; lia). lia. }
  rewrite copy_at_ok in H1 by (unfold len; lia).
  change (Z.to_nat 0) with 0%nat in H1. cbn [take app Nat.add] in H1.
  injection H1 as <-.
  unfold copy_at in H2.
  rewrite slice_from_ok in H2.
  2:{ unfold len. rewrite length_app, length_drop. lia. }
  cbn [mbind outcome_bind] in H2. injection H2 as <-.
  unfold store, len. rewrite Nat2Z.id.
  rewrite take_app_length, drop_app_length, length_drop.
  rewrite take_app, (take_ge C) by lia. rewrite <- app_assoc.
  f_equal. f_equal.
  rewrite drop_app, (drop_ge C) by lia. cbn [app].
  rewrite drop_drop, length_take.
  destruct (decide (length D ≤ length b - length C)%nat) as [Hd|Hd].
  - f_equal. lia.
  - rewrite !drop_ge by lia. reflexivity.
Qed.

End BuildWorld.

Section LoadMore.

Variable TLSNAME : string.
Variable RegTLS : gmap string Z → Z → gmap string Z.
Variable rangeOrder : gmap string Z → list (string * Z).
Variable addIFaceSubFuncType :
  gmap string Z → gmap Z Z → Z → Z → list Z →
  outcome (gmap string Z * gmap Z Z * list Z).
Variable getitab : Z → Z → bool → Z.
Variable firstmoduledata : addr.
Variable funcSize : Z.
Variable pclnBase : Z.
Variable Mmap : Z → world → string + (Z * list Z).
Variable allocModule : world → addr.

Lemma addSymAddrs_region sp st sp' st' :
  addSymAddrs TLSNAME RegTLS sp st = Done (sp', st') →
  code st' = code st ∧ codeBytePtr (seg st') = codeBytePtr (seg st).
Proof.
  unfold addSymAddrs.
  apply (foldMi_inv
           (λ s s' : gmap string Z * loadState,
              code s'.2 = code s.2
              ∧ codeBytePtr (seg s'.2) = codeBytePtr (seg s.2))
           (addSymAddr TLSNAME RegTLS)).
  - intros s. split; reflexivity.
  - intros s1 s2 s3 [H1 H2] [H3 H4]. split; congruence.
  - intros i x [sp1 s1] [sp2 s2] H. unfold addSymAddr in H.
    go; sym_addr_solve.
Qed.

Lemma addItab_region st st' :
  addItab rangeOrder addIFaceSubFuncType st = Done st' →
  code st' = code st ∧ codeBytePtr (seg st') = codeBytePtr (seg st).
Proof.
  unfold addItab.
  apply (foldM_inv (λ s s' : loadState,
           code s' = code s ∧ codeBytePtr (seg s') = codeBytePtr (seg s))).
  - intros s. split; reflexivity.
  - intros s1 s2 s3 [H1 H2] [H3 H4]. split; congruence.
  - intros [n i] s s' _ H. unfold addItabOne in H. go; split; reflexivity.
Qed.

Lemma relocate_patched symPtr st st' :
  relocate TLSNAME symPtr st = Done st' → patched_in_place st st'.
Proof.
  unfold relocate.
  apply (foldM_inv patched_in_place);
    [apply patched_in_place_refl | apply patched_in_place_trans |].
  intros curSym s s' _.
  apply (foldM_inv patched_in_place);
    [apply patched_in_place_refl | apply patched_in_place_trans |].
  intros loc s1 s2 _. apply relocSite_place.
Qed.

Lemma relocateItab_region st st' :
  relocateItab getitab st = Done st' →
  CodeBytePtr (codeModule st) = codeBytePtr (seg st) →
  cm_Module (codeModule st') = cm_Module (codeModule st)
  ∧ CodeBytePtr (codeModule st') = CodeBytePtr (codeModule st).
Proof.
  unfold relocateItab. intros H Hp.
  apply (foldM_inv (λ s s' : loadState,
           cm_Module (codeModule s') = cm_Module (codeModule s)
           ∧ codeBytePtr (seg s') = codeBytePtr (seg s)
           ∧ (CodeBytePtr (codeModule s) = codeBytePtr (seg s) →
              CodeBytePtr (codeModule s') = CodeBytePtr (codeModule s)))) in H.
  - destruct H as (H1 & _ & H3). cbn in H1, H3. split; [exact H1|].
    apply H3. exact Hp.
  - intros s. repeat split; reflexivity.
  - intros s1 s2 s3 (H1 & H2 & H3) (H4 & H5 & H6).
    split; [congruence|]. split; [congruence|].
    intros E. rewrite H6; [apply H3; exact E|]. rewrite H3, H2; exact E.
  - intros it s s' _ Hs. unfold relocateItabOne in Hs.
    go; cbn; repeat split; try reflexivity; try (intros <-; reflexivity).
Qed.

(** The phases of [Load], one by one. *)
Lemma loadPhases_parts c symPtr w base bytes sp st w' :
  loadPhases TLSNAME RegTLS rangeOrder addIFaceSubFuncType getitab
    firstmoduledata funcSize pclnBase allocModule c symPtr w (base, bytes)
  = Done (sp, st, w') →
  let w0 := mkWorld (heap w) (modules w) (locked w) ({[base]} ∪ mapped w)
              (trace w ++ [EvMmap base (imul (len (Code c) ⊞ len (Data c)) 2)]) in
  ∃ st3 st4,
    Mod (code st3) = Mod c
    ∧ length (Code (code st3)) = length (Code c)
    ∧ codeBytePtr (seg st3) = base
    ∧ buildModule firstmoduledata funcSize pclnBase (allocModule w0) st3 w0
      = Done (st4, w')
    ∧ relocateItab getitab st4 = Done st.
Proof.
  unfold loadPhases. intros H.
  inv_bind H. destruct a as [sp1 st1].
  inv_bind H. rename a into st2. inv_bind H. rename a into st3.
  inv_bind H. destruct a as [st4 w4]. inv_bind H. injection H as <- <- <-.
  exists st3, st4.
  apply addSymAddrs_region in Ha as [C1 P1]. cbn in C1, P1.
  apply addItab_region in Ha0 as [C2 P2].
  apply relocate_patched in Ha1.
  destruct Ha1 as (_ & M3 & L3 & _ & _ & _ & _ & _ & _ & _ & P3 & _).
  repeat split.
  - rewrite M3, C2, C1. reflexivity.
  - rewrite L3, C2, C1. reflexivity.
  - rewrite P3, P2, P1. reflexivity.
  - exact Ha2.
  - exact Ha3.
Qed.

(** An image whose code blob is empty, or whose bucket table [pcfunc] is
    empty, cannot be loaded: [buildModule] takes the address of
    [seg.codeByte[len(code.Code)-1]] and of [code.Mod.pcfunc[0]].  So when
    [Load] returns for such an image, the allocation has failed and the
    module is nil. *)
Theorem Load_needs_code (c : CodeReloc) (symPtr : gmap string Z) (w : world)
    (r : loadResult) (w' : world) :
  Code c = [] ∨ pcfunc (Mod c) = [] →
  Load TLSNAME RegTLS rangeOrder addIFaceSubFuncType getitab firstmoduledata
    funcSize pclnBase Mmap allocModule c symPtr w = Done (r, w') →
  ∃ e, Mmap (imul (len (Code c) ⊞ len (Data c)) 2) w = inl e
       ∧ r = mkLoadResult None (Some e) c symPtr ∧ w' = w.
Proof.
  intros Hc H. unfold Load in H.
  destruct (Mmap _ w) as [e|[base bytes]] eqn:EM.
  - injection H as <- <-. exists e. repeat split; reflexivity.
  - exfalso. inv_bind H. destruct a as [[sp st] w1].
    destruct (loadPhases_parts _ _ _ _ _ _ _ _ Ha)
      as (st3 & st4 & M3 & L3 & _ & HB & _).
    destruct (buildModule_parts _ _ _ _ _ _ _ _ HB)
      as (md & wl & wa & cb1 & cb & _ & _ & _ & _ & _ & _ & _ & _ & _ & _ & _
          & [b Hb] & Hr & _).
    destruct Hc as [Hc|Hc].
    + assert (E : len (Code (code st3)) ⊟ 1 = -1)
        by (unfold len; rewrite L3, Hc; reflexivity).
      rewrite E in Hr. lia.
    + rewrite M3, Hc in Hb. discriminate Hb.
Qed.

(** Loading and then unloading.  Let the module list be the nodes [l]
    behind [firstmoduledata], and let [Load] return a module whose node was
    not in use before.  Then the list after the load is [l] followed by
    that node, and [Unload] of the module returns and leaves the list [l]
    again, every other node as it was before the load, the module out of
    [modules], its region not mapped, and the lock free; in between, the
    process has mapped the region, linked the node under the lock,
    collected, unlinked the node under the lock and unmapped the region, in
    this order. *)
Theorem Load_then_Unload (c : CodeReloc) (symPtr : gmap string Z) (w : world)
    (l : list addr) (r : loadResult) (w1 : world) (cm : CodeModule) :
  chain (heap w) firstmoduledata l →
  Load TLSNAME RegTLS rangeOrder addIFaceSubFuncType getitab firstmoduledata
    funcSize pclnBase Mmap allocModule c symPtr w = Done (r, w1) →
  lr_module r = Some cm →
  (∀ a, cm_Module cm = Some a → heap w !! a = None) →
  ∃ a w2,
    cm_Module cm = Some a
    ∧ chain (heap w1) firstmoduledata (l ++ [a])
    ∧ modules w1 = {[a]} ∪ modules w
    ∧ mapped w1 = {[CodeBytePtr cm]} ∪ mapped w
    ∧ Unload firstmoduledata cm w1 = Done w2
    ∧ chain (heap w2) firstmoduledata l
    ∧ (∀ x, x ≠ a → heap w2 !! x = heap w !! x)
    ∧ modules w2 = modules w ∖ {[a]}
    ∧ mapped w2 = mapped w ∖ {[CodeBytePtr cm]}
    ∧ locked w2 = false
    ∧ trace w2
      = trace w
        ++ [EvMmap (CodeBytePtr cm) (imul (len (Code c) ⊞ len (Data c)) 2);
            EvLock; EvLink a; EvUnlock;
            EvGC; EvLock; EvUnlink (Some a); EvUnlock;
            EvMunmap (CodeBytePtr cm)].
Proof.
  intros Hc H Hm Hfresh. unfold Load in H.
  destruct (Mmap _ w) as [e|[base bytes]] eqn:EM.
  { injection H as <- <-. discriminate Hm. }
  inv_bind H. destruct a as [[sp st] w1'].
  assert (cm = codeModule st ∧ w1 = w1') as [-> <-].
  { destruct (0 <? _) in H; injection H as <- <-; cbn in Hm;
      injection Hm as <-; split; reflexivity. }
  clear H.
  destruct (loadPhases_parts _ _ _ _ _ _ _ _ Ha)
    as (st3 & st4 & _ & _ & P3 & HB & HR).
  set (size := imul (len (Code c) ⊞ len (Data c)) 2) in *.
  set (w0 := mkWorld (heap w) (modules w) (locked w) ({[base]} ∪ mapped w)
               (trace w ++ [EvMmap base size])) in *.
  set (a := allocModule w0) in *.
  destruct (buildModule_parts _ _ _ _ _ _ _ _ HB)
    as (md0 & wl0 & wa0 & cb1 & cb & _ & _ & _ & _ & _ & _ & _ & _ & _ & _ & _
        & _ & _ & _ & _ & E4).
  assert (M4 : cm_Module (codeModule st4) = Some a) by (rewrite E4; reflexivity).
  assert (P4 : CodeBytePtr (codeModule st4) = base)
    by (rewrite E4; cbn; exact P3).
  assert (S4 : CodeBytePtr (codeModule st4) = codeBytePtr (seg st4))
    by (rewrite E4; reflexivity).
  destruct (relocateItab_region _ _ HR S4) as [M5 P5].
  rewrite M4 in M5. rewrite P4 in P5.
  specialize (Hfresh a M5).
  destruct (buildModule_world _ _ _ _ _ _ _ _ l HB Hc)
    as (md & Nmd & _ & _ & _ & Hl & Hw).
  specialize (Hw Hfresh). cbn [heap modules mapped trace w0] in Hw.
  subst w1.
  assert (Hnotin : a ∉ firstmoduledata :: l).
  { intros Hin. apply (chain_dom _ _ _ _ Hc) in Hin.
    apply elem_of_dom in Hin as [? Hin]. congruence. }
  set (h1 := alter (md_set_next (Some a)) (List.last l firstmoduledata)
               (<[a := md]> (heap w))).
  assert (Hc1 : chain h1 firstmoduledata (l ++ [a])).
  { apply (chain_link _ _ _ _ md).
    - apply chain_insert_fresh; assumption.
    - exact Hnotin.
    - apply lookup_insert_eq.
    - exact Nmd. }
  destruct (chain_last _ _ _ Hc) as (mt & Et & Nt).
  assert (Hta : List.last l firstmoduledata ≠ a).
  { intros E. rewrite E in Et. congruence. }
  assert (Ea1 : h1 !! a = Some md).
  { unfold h1. rewrite lookup_alter_ne by exact Hta.
    apply lookup_insert_eq. }
  assert (Eh : alter (md_set_next (md_next md)) (List.last l firstmoduledata) h1
               = <[a := md]> (heap w)).
  { rewrite Nmd. unfold h1.
    apply (alter_link_undo _ _ _ mt); [|exact Nt].
    rewrite lookup_insert_ne by congruence. exact Et. }
  exists a.
  eexists. split; [exact M5|]. split; [exact Hc1|].
  split; [reflexivity|].
  split; [rewrite P5; reflexivity|].
  split.
  { unfold Unload, GC, Lock, emit. rewrite M5, P5.
    cbn [locked heap modules mapped trace mbind outcome_bind].
    unfold removeModule.
    cbn [heap modules mapped trace locked].
    rewrite (unlink_chain _ a md l); [| exact Hc1 | exact Ea1 |].
    2:{ pose proof (chain_length _ _ _ Hc1) as Hlen.
        rewrite length_cons, length_app in Hlen. cbn in Hlen. lia. }
    rewrite Eh.
    cbn [mbind outcome_bind set_heap set_modules emit Unlock locked heap
         modules mapped trace Munmap].
    reflexivity. }
  unfold Munmap, emit. cbn [heap modules mapped trace locked].
  split; [apply chain_insert_fresh; assumption|].
  split; [intros x Hx; apply lookup_insert_ne; congruence|].
  split; [apply set_eq; intros x;
          rewrite !elem_of_difference, elem_of_union; tauto|].
  split; [rewrite P5; apply set_eq; intros x;
          rewrite !elem_of_difference, elem_of_union; tauto|].
  split; [reflexivity|].
  rewrite P5. rewrite <- !app_assoc. reflexivity.
Qed.

End LoadMore.


Lemma buildModule_fills_region_witness :
  buildModule 1 40 0x1000 3 fnState loadedWorld = Done fnBuiltOut
  ∧ codeByte (seg fnBuiltOut.1) = replicate 16 0x90 ++ replicate 16 0
  ∧ CodeByte (codeModule fnBuiltOut.1) = replicate 16 0x90 ++ replicate 16 0.
Proof.
  assert (H : buildModule 1 40 0x1000 3 fnState loadedWorld
              = Done (fnBuiltOut.1, fnBuiltOut.2)) by (vm_compute; reflexivity).
  split; [exact H|].
  destruct (buildModule_fills_region 1 40 0x1000 3 fnState loadedWorld
              fnBuiltOut.1 fnBuiltOut.2 H ltac:(vm_compute; reflexivity))
    as (E1 & E2 & _).
  split; [exact E1|]. rewrite E2. exact E1.
Defined.

Lemma Load_needs_code_witness :
  ∃ e, demoMmap 0 loadedWorld = inl e
       ∧ demoLoad (mkCodeReloc [] [] fnMod []) ∅ loadedWorld
         = Done (mkLoadResult None (Some e) (mkCodeReloc [] [] fnMod []) ∅,
                 loadedWorld).
Proof.
  assert (H : demoLoad (mkCodeReloc [] [] fnMod []) ∅ loadedWorld
              = Done (mkLoadResult None (Some "mmap: invalid argument")
                        (mkCodeReloc [] [] fnMod []) ∅, loadedWorld))
    by (vm_compute; reflexivity).
  destruct (Load_needs_code "(TLS)" demoRegTLS map_to_list demoSubFuncType
              (λ _ _ _, 0) 1 40 0x1000 demoMmap (λ _, 3)
              (mkCodeReloc [] [] fnMod []) ∅ loadedWorld _ _
              (or_introl eq_refl) H)
    as (e & He & _ & _).
  exists e. split; [exact He|].
  rewrite H. vm_compute in He. injection He as <-. reflexivity.
Defined.

Lemma Load_then_Unload_witness :
  ∃ cm w2,
    demoLoad fnImage ∅ loadedWorld = Done fnLoaded
    ∧ lr_module fnLoaded.1 = Some cm
    ∧ cm_Module cm = Some 3
    ∧ chain (heap fnLoaded.2) 1 [2; 3]
    ∧ Unload 1 cm fnLoaded.2 = Done w2
    ∧ chain (heap w2) 1 [2]
    ∧ modules w2 = modules loadedWorld ∖ {[3]}
    ∧ trace w2 = [EvMmap 0x20000000 32; EvLock; EvLink 3; EvUnlock;
                  EvGC; EvLock; EvUnlink (Some 3); EvUnlock;
                  EvMunmap 0x20000000].
Proof.
  assert (H : demoLoad fnImage ∅ loadedWorld = Done (fnLoaded.1, fnLoaded.2))
    by (vm_compute; reflexivity).
  destruct (lr_module fnLoaded.1) as [cm|] eqn:Em; [|vm_compute in Em; discriminate Em].
  assert (Ea : cm_Module cm = Some 3).
  { vm_compute in Em. injection Em as <-. reflexivity. }
  assert (Ep : CodeBytePtr cm = 0x20000000).
  { vm_compute in Em. injection Em as <-. reflexivity. }
  destruct (Load_then_Unload "(TLS)" demoRegTLS map_to_list demoSubFuncType
              (λ _ _ _, 0) 1 40 0x1000 demoMmap (λ _, 3)
              fnImage ∅ loadedWorld [2] fnLoaded.1 fnLoaded.2 cm
              loadedWorld_chain H Em)
    as (a & w2 & Ha & C1 & _ & _ & HU & C2 & _ & M2 & _ & _ & T2).
  { intros a Ha. rewrite Ea in Ha. injection Ha as <-. reflexivity. }
  rewrite Ea in Ha. injection Ha as <-.
  exists cm, w2.
  split; [exact H|]. split; [reflexivity|]. split; [exact Ea|].
  split; [exact C1|]. split; [exact HU|]. split; [exact C2|].
  split; [exact M2|]. rewrite T2, Ep. reflexivity.
Defined.

(** ** [addFuncTab] *)

Lemma foldM_each {A S : Type} (f : A → S → outcome S) l : ∀ s s',
  foldM f l s = Done s' → ∀ x, x ∈ l → ∃ s1 s2, f x s1 = Done s2.
Proof.
  induction l as [|y l IH]; intros s s' H x Hx.
  - apply elem_of_nil in Hx. contradiction.
  - cbn in H. inv_bind H. apply elem_of_cons in Hx as [->|Hx].
    + eauto.
    + eapply IH; eassumption.
Qed.

Lemma land_4 z : Z.land z 4 = if Z.testbit z 2 then 4 else 0.
Proof.
  apply Z.bits_inj'. intros n Hn. rewrite Z.land_spec.
  change 4 with (2 ^ 2) at 1. rewrite Z.pow2_bits_eqb by lia.
  destruct (Z.eqb_spec 2 n) as [<-|Hne].
  - rewrite andb_true_r. destruct (Z.testbit z 2); reflexivity.
  - rewrite andb_false_r. destruct (Z.testbit z 2).
    + change 4 with (2 ^ 2). rewrite Z.pow2_bits_eqb by lia.
      symmetry. apply Z.eqb_neq. exact Hne.
    + rewrite Z.bits_0. reflexivity.
Qed.

Lemma testbit_2_mod z1 z2 :
  z1 mod 8 = z2 mod 8 → Z.testbit z1 2 = Z.testbit z2 2.
Proof.
  intros H.
  rewrite <- (Z.mod_pow2_bits_low z1 3 2), <- (Z.mod_pow2_bits_low z2 3 2) by lia.
  change (2 ^ 3) with 8. rewrite H. reflexivity.
Qed.

Lemma testbit_2_add_4 z : Z.testbit (z + 4) 2 = negb (Z.testbit z 2).
Proof.
  rewrite !Z.testbit_eqb by lia. change (2 ^ 2) with 4.
  replace (z + 4) with (z + 1 * 4) by lia. rewrite Z.div_add by lia.
  replace ((z / 4 + 1) mod 2) with ((z / 4 + 1) mod 2) by reflexivity.
  pose proof (Z.mod_pos_bound (z / 4) 2 ltac:(lia)) as H1.
  pose proof (Z.mod_pos_bound (z / 4 + 1) 2 ltac:(lia)) as H2.
  pose proof (Z.div_mod (z / 4) 2 ltac:(lia)) as D1.
  pose proof (Z.div_mod (z / 4 + 1) 2 ltac:(lia)) as D2.
  destruct (Z.eqb_spec ((z / 4) mod 2) 1), (Z.eqb_spec ((z / 4 + 1) mod 2) 1);
    cbn; try reflexivity; lia.
Qed.

Lemma uintptr_mod_8 z : uintptr z mod 8 = z mod 8.
Proof.
  unfold uintptr. apply Z.mod_mod_divide.
  exists (2 ^ 61). reflexivity.
Qed.

Lemma int_mod_8 z : int z mod 8 = z mod 8.
Proof.
  unfold int.
  rewrite Zminus_mod, (Z.mod_mod_divide _ (2 ^ 64) 8) by (exists (2 ^ 61); reflexivity).
  rewrite <- Zminus_mod. f_equal. lia.
Qed.

(** The test [ptr&4 != 0] of [addFuncTab] and the address four bytes on. *)
Lemma skip_aligns base off :
  Z.land (uintptr (base + uintptr
     (if (PtrSize =? 8) && negb (Z.land (uintptr (base + off)) 4 =? 0)
      then off ⊞ 4 else off))) 4 = 0.
Proof.
  change (PtrSize =? 8) with true. cbn [andb].
  rewrite !land_4.
  destruct (Z.testbit (uintptr (base + off)) 2) eqn:E; cbn [Z.eqb negb].
  - rewrite (testbit_2_mod _ (base + off + 4)).
    + rewrite testbit_2_add_4.
      rewrite (testbit_2_mod _ (base + off)) in E by apply uintptr_mod_8.
      rewrite E. reflexivity.
    + rewrite uintptr_mod_8. rewrite Z.add_mod, uintptr_mod_8 by lia.
      unfold iadd. rewrite int_mod_8, <- Z.add_mod by lia. f_equal. lia.
  - rewrite (testbit_2_mod _ (uintptr (base + off))), E; [reflexivity|].
    rewrite !uintptr_mod_8. rewrite Z.add_mod, uintptr_mod_8 by lia.
    rewrite <- Z.add_mod by lia. reflexivity.
Qed.

Lemma skip_aligns_int base off :
  Z.land (uintptr (base +
     (if (PtrSize =? 8) && negb (Z.land (uintptr (base + (off - 1) + 1)) 4 =? 0)
      then off ⊞ 4 else off))) 4 = 0.
Proof.
  replace (base + (off - 1) + 1) with (base + off) by lia.
  pose proof (skip_aligns base off) as H.
  rewrite land_4 in H |- *.
  erewrite testbit_2_mod; [exact H|].
  rewrite !uintptr_mod_8. rewrite (Z.add_mod base (uintptr _)), uintptr_mod_8 by lia.
  rewrite <- Z.add_mod by lia. reflexivity.
Qed.

Section FuncTab.

Variable firstmoduledata : addr.
Variable funcSize : Z.
Variable pclnBase : Z.

(** [addFuncTab] places the [_func] record of function [i] at the running
    offset, or four bytes on, so that bit 2 of its address is clear, and
    records that offset in [ftab[i].funcoff]; the array of [funcdata]
    pointers, which ends the record, starts at such an address too. *)
Theorem addFuncTab_aligned (c : CodeReloc) (sg : segment) (pclnLen i : Z)
    (mftab : list functab) (off : Z) (mftab' : list functab) (off' : Z) :
  addFuncTab funcSize pclnBase c sg pclnLen i (mftab, off) = Done (mftab', off') →
  ∃ f fi p,
    mftab' !! Z.to_nat i = Some f
    ∧ funcinfo (Mod c) !! Z.to_nat i = Some fi
    ∧ (funcoff f = uintptr off ∨ funcoff f = uintptr (off ⊞ 4))
    ∧ Z.land (uintptr (pclnBase + funcoff f)) 4 = 0
    ∧ 0 ≤ off < pclnLen
    ∧ off' = p ⊞ int (int32 (PtrSize * nfuncdata fi))
    ∧ Z.land (uintptr (pclnBase + p)) 4 = 0
    ∧ 0 ≤ p ≤ pclnLen.
Proof.
  unfold addFuncTab, set_entry, set_funcoff. intros H.
  inv_bind H. rename a into f0. inv_bind H. rename a into e.
  inv_bind H. rename a into m1. inv_bind Ha1. rename a into f1.
  apply set_index_Done in Ha1 as [Hi ->].
  inv_bind H. rename Ha1 into Hoff.
  set (off1 := if _ && _ then _ else off) in H.
  inv_bind H. rename a0 into m2. inv_bind Ha1. rename a0 into f2.
  apply set_index_Done in Ha1 as [_ ->].
  apply bind_Done in H as (fi & Hfi & H).
  apply bind_Done in H as (? & _ & H).
  set (off2 := off1 ⊞ funcSize) in H.
  apply bind_Done in H as (off3 & _ & H).
  apply bind_Done in H as (? & _ & H).
  apply bind_Done in H as (? & _ & H).
  set (cond := _ && _) in H.
  apply bind_Done in H as (p & Hp0 & H).
  apply bind_Done in H as (? & Hsl & H).
  apply bind_Done in H as (? & _ & H).
  injection H as <- <-.
  exists (mkFunctab (entry f2) (uintptr off1)), fi, p.
  unfold len in Hi.
  split. { apply list_lookup_insert_eq. rewrite length_insert. lia. }
  split. { apply index_lookup. assumption. }
  split. { cbn [funcoff]. unfold off1. destruct (_ && _); auto. }
  split. { cbn [funcoff]. apply skip_aligns. }
  split. { unfold check_index in Hoff.
           destruct (_ && _) eqn:E in Hoff; [|discriminate].
           apply andb_true_iff in E as [E1 E2].
           apply Z.leb_le in E1. apply Z.ltb_lt in E2. lia. }
  split. { reflexivity. }
  assert (Hp : p = if cond then off3 ⊞ 4 else off3).
  { destruct cond; [inv_bind Hp0|]; injection Hp0 as <-; reflexivity. }
  split.
  - rewrite Hp. apply skip_aligns_int.
  - unfold check_slice in Hsl.
    destruct (_ && _) eqn:E in Hsl; [|discriminate].
    apply andb_true_iff in E as [E1 E2].
    apply Z.leb_le in E1, E2. lia.
Qed.

End FuncTab.

Section FuncTabBuild.

Variable firstmoduledata : addr.
Variable funcSize : Z.
Variable pclnBase : Z.

Lemma funcdata_loop (c : CodeReloc) l :
  foldM (λ v (_ : unit),
           if v =? 0 then Done tt
           else m ← index (stkmaps (Mod c)) v; _ ← index m 0; Done tt) l tt
  = Done tt →
  ∀ v, v ∈ l → v ≠ 0 →
    ∃ x m, 0 ≤ v ∧ stkmaps (Mod c) !! Z.to_nat v = Some (x :: m).
Proof.
  induction l as [|y l IH]; intros H v Hv Hne.
  - apply elem_of_nil in Hv. contradiction.
  - cbn [foldM] in H. apply bind_Done in H as ([] & Hy & H).
    apply elem_of_cons in Hv as [->|Hv]; [|apply IH; assumption].
    destruct (Z.eqb_spec y 0) as [->|_]; [contradiction|].
    apply bind_Done in Hy as (m & Hm & Hy).
    apply bind_Done in Hy as (x & Hx & _).
    pose proof (index_range _ _ _ Hm) as [Hr _].
    apply index_lookup in Hm, Hx. destruct m as [|x' m]; [discriminate Hx|].
    exists x', m. split; [exact Hr | exact Hm].
Qed.

Lemma addFuncTab_needs c sg pclnLen (i : nat) s s' :
  addFuncTab funcSize pclnBase c sg pclnLen (Z.of_nat i) s = Done s' →
  ∃ f fi,
    ftab (Mod c) !! i = Some f
    ∧ funcinfo (Mod c) !! i = Some fi
    ∧ 0 ≤ int (entry f) < len (symAddrs sg)
    ∧ funcdata fi ≠ []
    ∧ ∀ v, v ∈ funcdata fi → v ≠ 0 →
        ∃ x m, 0 ≤ v ∧ stkmaps (Mod c) !! Z.to_nat v = Some (x :: m).
Proof.
  unfold addFuncTab. destruct s as [mftab off]. intros H.
  apply bind_Done in H as (f & Hf & H).
  apply bind_Done in H as (e & He & H).
  apply bind_Done in H as (? & _ & H).
  apply bind_Done in H as (? & _ & H).
  apply bind_Done in H as (? & _ & H).
  apply bind_Done in H as (fi & Hfi & H).
  apply bind_Done in H as (? & _ & H).
  apply bind_Done in H as (? & _ & H).
  apply bind_Done in H as ([] & Hfd & H).
  apply bind_Done in H as (? & _ & H).
  apply bind_Done in H as (? & _ & H).
  apply bind_Done in H as (? & _ & H).
  apply bind_Done in H as (v0 & Hv0 & _).
  exists f, fi.
  pose proof (index_range _ _ _ He) as Hr.
  apply index_lookup in Hf, Hfi, Hv0. rewrite Nat2Z.id in Hf, Hfi.
  split; [exact Hf|]. split; [exact Hfi|]. split; [exact Hr|].
  split; [intros E; rewrite E in Hv0; discriminate Hv0|].
  apply funcdata_loop. exact Hfd.
Qed.

(** [buildModule] returns only for an image in which every function of the
    table has its metadata record, a symbol with a slot in the array of
    resolved addresses, and at least one [funcdata] entry, each entry being
    zero or the index of a stack map that is not empty: [addFuncTab] takes
    the address of [funcdata[0]] and of [stkmaps[v][0]]. *)
Theorem buildModule_needs_funcdata (a : addr) (st : loadState) (w : world)
    (st' : loadState) (w' : world) :
  buildModule firstmoduledata funcSize pclnBase a st w = Done (st', w') →
  ∀ (i : nat) (f : functab),
    ftab (Mod (code st)) !! i = Some f →
    ∃ fi,
      funcinfo (Mod (code st)) !! i = Some fi
      ∧ 0 ≤ int (entry f) < len (symAddrs (seg st))
      ∧ funcdata fi ≠ []
      ∧ ∀ v, v ∈ funcdata fi → v ≠ 0 →
          ∃ x m, 0 ≤ v ∧ stkmaps (Mod (code st)) !! Z.to_nat v = Some (x :: m).
Proof.
  unfold buildModule. intros H i f Hf.
  apply bind_Done in H as (? & _ & H).
  apply bind_Done in H as (? & _ & H).
  apply bind_Done in H as (? & _ & H).
  apply bind_Done in H as (? & _ & H).
  apply bind_Done in H as (r & Hloop & _).
  assert (Hin : Z.of_nat i ∈ map Z.of_nat (seq 0 (length (ftab (Mod (code st)))))).
  { apply list_elem_of_fmap. exists i. split; [reflexivity|].
    apply elem_of_seq. apply lookup_lt_Some in Hf. lia. }
  destruct (foldM_each _ _ _ _ Hloop _ Hin) as (s1 & s2 & Hs).
  apply addFuncTab_needs in Hs as (f' & fi & Hf' & Hfi & Hr & Hne & Hv).
  rewrite Hf in Hf'. injection Hf' as <-.
  exists fi. auto.
Qed.

End FuncTabBuild.

Lemma addFuncTab_aligned_witness :
  ∃ m' off' f,
    addFuncTab 40 0x1004 fnImage (seg fnState) 176 0 ([mkFunctab 0 0], 8)
    = Done (m', off')
    ∧ m' !! 0%nat = Some f
    ∧ funcoff f = 12
    ∧ Z.land (uintptr (0x1004 + funcoff f)) 4 = 0.
Proof.
  destruct (addFuncTab 40 0x1004 fnImage (seg fnState) 176 0 ([mkFunctab 0 0], 8))
    as [[m' off']|] eqn:E; [|vm_compute in E; discriminate E].
  destruct (addFuncTab_aligned 40 0x1004 fnImage (seg fnState) 176 0
              [mkFunctab 0 0] 8 m' off' E)
    as (f & fi & p & Hf & _ & _ & Ha & _).
  exists m', off', f. split; [reflexivity|]. split; [exact Hf|].
  split; [|exact Ha].
  vm_compute in E. injection E as <- <-.
  vm_compute in Hf. injection Hf as <-. reflexivity.
Defined.

Lemma buildModule_needs_funcdata_witness :
  buildModule 1 40 0x1000 3 fnState loadedWorld = Done fnBuiltOut
  ∧ ∃ fi, funcinfo fnMod !! 0%nat = Some fi ∧ funcdata fi ≠ [].
Proof.
  assert (H : buildModule 1 40 0x1000 3 fnState loadedWorld
              = Done (fnBuiltOut.1, fnBuiltOut.2)) by (vm_compute; reflexivity).
  split; [exact H|].
  destruct (buildModule_needs_funcdata 1 40 0x1000 3 fnState loadedWorld
              fnBuiltOut.1 fnBuiltOut.2 H 0%nat (mkFunctab 0 0) eq_refl)
    as (fi & Hfi & _ & Hne & _).
  exists fi. split; [exact Hfi | exact Hne].
Defined.

(** ** Offsets from the start of the region, and unresolved targets *)

Section RelocateMore.

Variable TLSNAME : string.

(** An offset from the start of the region ([R_ADDROFF], [R_WEAKADDROFF],
    [R_METHODOFF]): the four bytes at the site become the address of the
    target minus [codeBase] plus the addend, cut to 32 bits.  The store
    goes to the data blob, also for a site of a function; the report then
    gets a line that starts with [impossible!], and the data blob is
    patched all the same. *)
Theorem relocSite_addroff (symPtr : gmap string Z) (curSym : SymData)
    (loc : Reloc) (st : loadState) (sym : SymData) (symAddr : Z) :
  resolvedTarget st loc sym symAddr →
  Reloc_Type loc = R_ADDROFF ∨ Reloc_Type loc = R_WEAKADDROFF
  ∨ Reloc_Type loc = R_METHODOFF →
  let d := Data (code st) in
  let off := Reloc_Offset loc in
  let v := uint32 (symAddr ⊟ codeBase (seg st) ⊞ Reloc_Add loc) in
  let st1 := if Sym_Kind curSym =? STEXT
             then diag ["impossible!"; Sym_Name sym; "locate on code segment";
                        newline] st
             else st in
  0 ≤ off → off + 4 ≤ len d →
  relocSite TLSNAME symPtr curSym loc st
  = Done (set_Data (take (Z.to_nat off) d ++ le_bytes 4 v
                      ++ drop (Z.to_nat off + 4) d) st1).
Proof.
  intros Hres Ht d off v st1 Hoff Hlen.
  rewrite (relocSite_resolved _ _ _ _ _ _ _ Hres). cbn zeta.
  etransitivity.
  { destruct Ht as [E | [E | E]]; rewrite E; reflexivity. }
  unfold relocAddrOff. fold st1.
  assert (Hd : Data (code st1) = d).
  { unfold st1. destruct (Sym_Kind curSym =? STEXT); reflexivity. }
  assert (Hb : codeBase (seg st1) = codeBase (seg st)).
  { unfold st1. destruct (Sym_Kind curSym =? STEXT); reflexivity. }
  rewrite Hd.
  rewrite (PutUint32_ok d off) by assumption. reflexivity.
Qed.

(** A site whose target has no address (the resolver has reported it and
    left [-1]) is not patched: when every relocation of the image has such
    a target, [relocate] returns with the image, the module and the region
    as it found them. *)
Theorem relocate_skips_unresolved (symPtr : gmap string Z) (st : loadState) :
  (∀ curSym loc, curSym ∈ Syms (code st) → loc ∈ Sym_Reloc curSym →
     0 ≤ Reloc_SymOff loc < len (Syms (code st))
     ∧ symAddrs (seg st) !! Z.to_nat (Reloc_SymOff loc) = Some (-1)) →
  relocate TLSNAME symPtr st = Done st.
Proof.
  unfold relocate. generalize (Syms (code st)) at 1 3. intros syms H.
  induction syms as [|curSym syms IH]; [reflexivity|].
  cbn [foldM].
  assert (Hin : foldM (relocSite TLSNAME symPtr curSym) (Sym_Reloc curSym) st
                = Done st).
  { assert (Hl : ∀ loc, loc ∈ Sym_Reloc curSym →
               relocSite TLSNAME symPtr curSym loc st = Done st).
    { intros loc Hloc. destruct (H curSym loc ltac:(left) Hloc) as [Hr Ha].
      unfold relocSite.
      destruct (index_ok (Syms (code st)) (Reloc_SymOff loc) Hr) as (sym & -> & _).
      cbn [mbind outcome_bind]. unfold index.
      destruct (0 <=? Reloc_SymOff loc) eqn:E; [|apply Z.leb_gt in E; lia].
      rewrite Ha. reflexivity. }
    induction (Sym_Reloc curSym) as [|loc l IHl]; [reflexivity|].
    cbn [foldM]. rewrite Hl by left. cbn [mbind outcome_bind].
    apply IHl. intros loc' Hloc'. apply Hl. right. exact Hloc'. }
  rewrite Hin. cbn [mbind outcome_bind].
  apply IH. intros c l Hc Hl. apply (H c l); [right; exact Hc | exact Hl].
Qed.

End RelocateMore.

Lemma relocSite_addroff_witness :
  ∃ st', relocSite "(TLS)" ∅ offFn offSite offState = Done st'
         ∧ Data (code st') = [0; 0; 0; 0; 0x14; 0; 0; 0]
         ∧ Code (code st') = replicate 16 0x90
         ∧ err (seg st')
           = ("impossible! type.T locate on code segment " ++ newline)%string.
Proof.
  eexists. split.
  - exact (relocSite_addroff "(TLS)" ∅ offFn offSite offState offType 0x20000014
             ltac:(closed_side) (or_introl eq_refl)
             ltac:(vm_compute; discriminate) ltac:(vm_compute; discriminate)).
  - repeat split; vm_compute; reflexivity.
Defined.

Lemma relocate_skips_unresolved_witness :
  relocate "(TLS)" ∅ (callState (-1)) = Done (callState (-1)).
Proof.
  apply relocate_skips_unresolved.
  intros curSym loc Hc Hl.
  apply elem_of_cons in Hc as [->|Hc].
  - apply list_elem_of_singleton in Hl as ->. split; [|reflexivity].
    vm_compute. split; [discriminate | reflexivity].
  - apply list_elem_of_singleton in Hc as ->. apply elem_of_nil in Hl.
    contradiction.
Defined.

(** ** The dispatch tables *)

Section ItabMore.

Variable rangeOrder : gmap string Z → list (string * Z).
Variable addIFaceSubFuncType :
  gmap string Z → gmap Z Z → Z → Z → list Z →
  outcome (gmap string Z * gmap Z Z * list Z).
Variable getitab : Z → Z → bool → Z.

Lemma relocateItabOne_region it st st' :
  relocateItabOne it st = Done st' →
  code st' = code st
  ∧ itabSyms (codeModule st') = itabSyms (codeModule st)
  ∧ itabs (codeModule st') = itabs (codeModule st)
  ∧ length (codeByte (seg st')) = length (codeByte (seg st))
  ∧ symAddrs (seg st') = symAddrs (seg st)
  ∧ codeBase (seg st') = codeBase (seg st)
  ∧ cm_Syms (codeModule st') = cm_Syms (codeModule st)
  ∧ err (seg st') = err (seg st)
  ∧ (CodeByte (codeModule st) = codeByte (seg st) →
     CodeByte (codeModule st') = codeByte (seg st')).
Proof.
  unfold relocateItabOne. intros H. go;
    unfold set_codeByte_shared, set_offset, set_codeByte, set_codeModule,
      set_seg in *;
    repeat match goal with
           | H : PutUint32 _ _ _ = Done _ |- _ => apply PutUint32_length in H
           | H : PutUintptr _ _ _ = Done _ |- _ => apply PutUintptr_length in H
           | H : set_byte _ _ _ = Done _ |- _ => apply set_byte_length in H
           | H : relocADRP _ _ _ = Done _ |- _ => apply relocADRP_length in H
           end;
    cbn in *; repeat split; try reflexivity; try congruence; try tauto.
  match goal with
  | H : slice_from _ _ = Done _ |- _ => apply slice_from_Done in H as [? ->]
  end.
  rewrite length_app, length_take. rewrite length_drop in *.
  unfold len in *. lia.
Qed.

(** [relocateItab] asks the host for every dispatch table the module
    needs and patches the sites that use one in the mapped region, in
    place: the image is not touched, the region keeps its length, and the
    module's [CodeByte] stays the region. *)
Theorem relocateItab_in_region (st st' : loadState) :
  relocateItab getitab st = Done st' →
  CodeByte (codeModule st) = codeByte (seg st) →
  code st' = code st
  ∧ itabSyms (codeModule st')
    = map (λ it, mkItabSym (getitab (it_inter it) (it_type it) false)
                   (it_inter it) (it_type it))
        (itabSyms (codeModule st))
  ∧ length (codeByte (seg st')) = length (codeByte (seg st))
  ∧ CodeByte (codeModule st') = codeByte (seg st')
  ∧ symAddrs (seg st') = symAddrs (seg st)
  ∧ cm_Syms (codeModule st') = cm_Syms (codeModule st)
  ∧ err (seg st') = err (seg st).
Proof.
  unfold relocateItab. intros H Hshared.
  apply (foldM_inv (λ s s' : loadState,
           code s' = code s
           ∧ itabSyms (codeModule s') = itabSyms (codeModule s)
           ∧ itabs (codeModule s') = itabs (codeModule s)
           ∧ length (codeByte (seg s')) = length (codeByte (seg s))
           ∧ symAddrs (seg s') = symAddrs (seg s)
           ∧ codeBase (seg s') = codeBase (seg s)
           ∧ cm_Syms (codeModule s') = cm_Syms (codeModule s)
           ∧ err (seg s') = err (seg s)
           ∧ (CodeByte (codeModule s) = codeByte (seg s) →
              CodeByte (codeModule s') = codeByte (seg s')))) in H.
  - destruct H as (H1 & H2 & _ & H4 & H5 & _ & H7 & H8 & H9).
    cbn in H1, H2, H4, H5, H7, H8, H9.
    repeat split; try assumption. apply H9. exact Hshared.
  - intros s. repeat split; auto.
  - intros s1 s2 s3 (A1 & A2 & A3 & A4 & A5 & A6 & A7 & A8 & A9)
      (B1 & B2 & B3 & B4 & B5 & B6 & B7 & B8 & B9).
    repeat split; try congruence. auto.
  - intros it s s' _. apply relocateItabOne_region.
Qed.

End ItabMore.

Lemma PutUint32_store b k v :
  0 ≤ k → k + 4 ≤ len b → PutUint32 b k v = Done (store b k (le_bytes 4 v)).
Proof. intros. rewrite PutUint32_ok by assumption. reflexivity. Qed.

Lemma PutUintptr_store b k v :
  0 ≤ k → k + 8 ≤ len b → PutUintptr b k v = Done (store b k (le_bytes 8 v)).
Proof. intros. rewrite PutUintptr_ok by assumption. reflexivity. Qed.

Lemma len_store b k bs :
  0 ≤ k → k + len bs ≤ len b → len (store b k bs) = len b.
Proof.
  intros Hk Hl. unfold len in *. rewrite store_length by lia. reflexivity.
Qed.

(** A site of type [R_PCREL] that uses a dispatch table the host has.
    When the displacement to the table passes the range test, its 32 bits
    go to the site in the mapped region.  When it fails the test, the
    site is pointed at the bump offset, the opcode two bytes before the
    site becomes a load ([movcode]), and the address of the table goes to
    the bump offset, which moves on by eight.  No test of the room left in
    the region comes before this store, unlike in [relocate]: with fewer
    than eight bytes left it runs past the end of the region. *)
Theorem relocateItabOne_pcrel (it : itabReloc) (st : loadState) (its : itabSym) :
  itabSyms (codeModule st) !! Z.to_nat (symOff it) = Some its →
  0 ≤ symOff it →
  it_ptr its ≠ 0 →
  locType it = R_PCREL →
  let region := codeByte (seg st) in
  let pc := codeBase (seg st) ⊞ locOff it ⊞ ir_size it in
  let d := it_ptr its ⊟ pc ⊞ ir_add it in
  let o := offset (seg st) in
  let d' := (codeBase (seg st) ⊞ o) ⊟ pc ⊞ ir_add it in
  2 ≤ locOff it → locOff it + 4 ≤ len region → len region < 2 ^ 63 →
  (- 0x80000000 ≤ d ≤ 0x7FFFFFFF →
     relocateItabOne it st
     = Done (set_codeByte_shared
               (store region (locOff it) (le_bytes 4 (uint32 d))) st))
  ∧ (d < - 0x80000000 ∨ 0x7FFFFFFF < d → 0 ≤ o → o + 8 ≤ len region →
     relocateItabOne it st
     = Done (set_offset (o + 8)
               (set_codeByte_shared
                  (store
                     (store (store region (locOff it) (le_bytes 4 (uint32 d')))
                        (locOff it - 2) [0x8b])
                     o (le_bytes 8 (uintptr (it_ptr its)))) st)))
  ∧ (d < - 0x80000000 ∨ 0x7FFFFFFF < d → 0 ≤ o < len region →
     len region < o + 8 →
     relocateItabOne it st = Fault WildStore).
Proof.
  intros Hits Hso Hptr Ht region pc d o d' Hoff Hlen Hreg.
  assert (Hidx : index (itabSyms (codeModule st)) (symOff it) = Done its).
  { unfold index. destruct (0 <=? symOff it) eqn:E; [|apply Z.leb_gt in E; lia].
    rewrite Hits. reflexivity. }
  assert (Hne : (it_ptr its =? 0) = false) by (apply Z.eqb_neq; exact Hptr).
  assert (Hsub : locOff it ⊟ 2 = locOff it - 2).
  { apply int_id. unfold in_int. lia. }
  assert (Hl1 : ∀ v, len (store region (locOff it) (le_bytes 4 v)) = len region).
  { intros v. apply len_store; [lia|]. change (len (le_bytes 4 v)) with 4. lia. }
  assert (Hl2 : ∀ v, len (store (store region (locOff it) (le_bytes 4 v))
                            (locOff it - 2) [0x8b]) = len region).
  { intros v. rewrite len_store; [apply Hl1 | lia |].
    rewrite Hl1. change (len [0x8b]) with 1. lia. }
  assert (Hstep :
    (d < - 0x80000000 ∨ 0x7FFFFFFF < d) →
    relocateItabOne it st
    = (cb ← PutUintptr
              (store (store region (locOff it) (le_bytes 4 (uint32 d')))
                 (locOff it - 2) [0x8b]) o (uintptr (it_ptr its));
       Done (set_offset (o ⊞ PtrSize) (set_codeByte_shared cb st)))).
  { intros Hd. unfold relocateItabOne. rewrite Hidx. cbn [mbind outcome_bind].
    rewrite Hne, Ht. change (R_PCREL =? R_PCREL) with true. cbn match.
    fold pc. fold d. fold o. fold d'. fold region.
    assert (Hov : (d >? 0x7FFFFFFF) || (d <? - 0x80000000) = true).
    { apply orb_true_iff. destruct Hd as [Hd|Hd].
      - right. apply Z.ltb_lt. lia.
      - left. rewrite Z.gtb_ltb. apply Z.ltb_lt. lia. }
    rewrite Hov.
    rewrite PutUint32_store by lia. cbn [mbind outcome_bind].
    rewrite Hsub. unfold set_byte. rewrite Hl1.
    destruct ((0 <=? locOff it - 2) && (locOff it - 2 <? len region)) eqn:E.
    2:{ apply andb_false_iff in E as [E|E];
          [apply Z.leb_gt in E | apply Z.ltb_ge in E]; lia. }
    cbn [mbind outcome_bind]. reflexivity. }
  split; [|split].
  - intros Hd. unfold relocateItabOne. rewrite Hidx. cbn [mbind outcome_bind].
    rewrite Hne, Ht. change (R_PCREL =? R_PCREL) with true. cbn match.
    fold pc. fold d. fold region.
    assert (Hov : (d >? 0x7FFFFFFF) || (d <? - 0x80000000) = false).
    { apply orb_false_iff. split.
      - rewrite Z.gtb_ltb. apply Z.ltb_ge. lia.
      - apply Z.ltb_ge. lia. }
    rewrite Hov. rewrite PutUint32_store by lia. reflexivity.
  - intros Hd Ho Hroom. rewrite (Hstep Hd).
    rewrite PutUintptr_store by (rewrite ?Hl2; lia).
    cbn [mbind outcome_bind].
    replace (o ⊞ PtrSize) with (o + 8); [reflexivity|].
    symmetry. apply int_id. unfold in_int. rewrite ?PtrSize_8. lia.
  - intros Hd Ho Hroom. rewrite (Hstep Hd).
    rewrite PutUintptr_wild by (rewrite ?Hl2; lia). reflexivity.
Qed.

Lemma relocateItab_in_region_witness :
  ∃ st', relocateItab (λ _ _ _, 0x20000100) (itabState 0 16) = Done st'
         ∧ code st' = fnImage
         ∧ itabSyms (codeModule st') = [mkItabSym 0x20000100 0x1000 0x2000]
         ∧ length (codeByte (seg st')) = 32%nat
         ∧ CodeByte (codeModule st') = codeByte (seg st').
Proof.
  destruct (relocateItab (λ _ _ _, 0x20000100) (itabState 0 16)) as [st'|]
    eqn:E; [|vm_compute in E; discriminate E].
  destruct (relocateItab_in_region (λ _ _ _, 0x20000100) (itabState 0 16) st'
              E eq_refl) as (H1 & H2 & H3 & H4 & _).
  exists st'. split; [reflexivity|]. split; [exact H1|]. split; [exact H2|].
  split; [exact H3 | exact H4].
Defined.

Lemma relocateItabOne_pcrel_witness :
  relocateItabOne itabSite (itabState 0x20000100 16)
  = Done (set_codeByte_shared
            (replicate 4 0x90 ++ [0xf8; 0; 0; 0] ++ replicate 8 0x90
               ++ replicate 16 0)
            (itabState 0x20000100 16))
  ∧ relocateItabOne itabSite (itabState 0x160000000 16)
    = Done (set_offset 24
              (set_codeByte_shared
                 ([0x90; 0x90; 0x8b; 0x90; 0x08; 0; 0; 0] ++ replicate 8 0x90
                    ++ [0; 0; 0; 0x60; 0x01; 0; 0; 0] ++ replicate 8 0)
                 (itabState 0x160000000 16)))
  ∧ relocateItabOne itabSite (itabState 0x160000000 28) = Fault WildStore.
Proof.
  split; [|split].
  - exact (proj1 (relocateItabOne_pcrel itabSite (itabState 0x20000100 16)
                    (mkItabSym 0x20000100 0x1000 0x2000) eq_refl
                    ltac:(vm_compute; discriminate) ltac:(vm_compute; discriminate)
                    eq_refl ltac:(vm_compute; discriminate)
                    ltac:(vm_compute; discriminate) ltac:(vm_compute; reflexivity))
             ltac:(vm_compute; split; discriminate)).
  - exact (proj1 (proj2 (relocateItabOne_pcrel itabSite (itabState 0x160000000 16)
                    (mkItabSym 0x160000000 0x1000 0x2000) eq_refl
                    ltac:(vm_compute; discriminate) ltac:(vm_compute; discriminate)
                    eq_refl ltac:(vm_compute; discriminate)
                    ltac:(vm_compute; discriminate) ltac:(vm_compute; reflexivity)))
             ltac:(right; vm_compute; reflexivity)
             ltac:(vm_compute; discriminate) ltac:(vm_compute; discriminate)).
  - exact (proj2 (proj2 (relocateItabOne_pcrel itabSite (itabState 0x160000000 28)
                    (mkItabSym 0x160000000 0x1000 0x2000) eq_refl
                    ltac:(vm_compute; discriminate) ltac:(vm_compute; discriminate)
                    eq_refl ltac:(vm_compute; discriminate)
                    ltac:(vm_compute; discriminate) ltac:(vm_compute; reflexivity)))
             ltac:(right; vm_compute; reflexivity)
             ltac:(vm_compute; split; [discriminate | reflexivity])
             ltac:(vm_compute; reflexivity)).
Defined.

Section AddItabMore.

Variable rangeOrder : gmap string Z → list (string * Z).
Variable addIFaceSubFuncType :
  gmap string Z → gmap Z Z → Z → Z → list Z →
  outcome (gmap string Z * gmap Z Z * list Z).

Lemma addItabOne_grows n i st st' :
  is_Some (itabMap (seg st) !! n) →
  addItabOne addIFaceSubFuncType (n, i) st = Done st' →
  code st' = code st
  ∧ (∃ new, itabSyms (codeModule st') = itabSyms (codeModule st) ++ new
            ∧ Forall (λ x, it_ptr x = 0) new)
  ∧ dom (itabMap (seg st')) = dom (itabMap (seg st))
  ∧ ∀ m k, itabMap (seg st') !! m = Some k →
      itabMap (seg st) !! m = Some k
      ∨ len (itabSyms (codeModule st)) ≤ k < len (itabSyms (codeModule st')).
Proof.
  intros Hn H. unfold addItabOne in H. go.
  - split; [reflexivity|]. split; [exists []; rewrite app_nil_r; auto|].
    split; [reflexivity|]. auto.
  - cbn. split; [reflexivity|].
    split; [eexists; split; [reflexivity|]; repeat constructor|].
    split.
    + rewrite dom_insert_L. apply set_eq. intros x.
      rewrite elem_of_union, elem_of_singleton. split; [|auto].
      intros [->|Hx]; [|exact Hx]. apply elem_of_dom. exact Hn.
    + intros m k Hm. destruct (decide (m = n)) as [->|Hne].
      * rewrite lookup_insert_eq in Hm. injection Hm as <-. right.
        unfold len. rewrite length_app. cbn. lia.
      * rewrite lookup_insert_ne in Hm by congruence. left. exact Hm.
Qed.

(** [addItab] appends to [itabSyms], one entry without table per name it
    takes up, and keeps the names of [itabMap]: a name keeps its value, the
    index of a symbol, or gets the index of an entry appended. *)
Theorem addItab_grows (st st' : loadState) :
  (∀ m n i, (n, i) ∈ rangeOrder m → m !! n = Some i) →
  addItab rangeOrder addIFaceSubFuncType st = Done st' →
  code st' = code st
  ∧ (∃ new, itabSyms (codeModule st') = itabSyms (codeModule st) ++ new
            ∧ Forall (λ x, it_ptr x = 0) new)
  ∧ dom (itabMap (seg st')) = dom (itabMap (seg st))
  ∧ ∀ m k, itabMap (seg st') !! m = Some k →
      itabMap (seg st) !! m = Some k
      ∨ len (itabSyms (codeModule st)) ≤ k < len (itabSyms (codeModule st')).
Proof.
  intros Hrange. unfold addItab.
  assert (Hl : ∀ n i, (n, i) ∈ rangeOrder (itabMap (seg st)) →
                 n ∈ dom (itabMap (seg st))).
  { intros n i Hni. apply elem_of_dom. rewrite (Hrange _ _ _ Hni). eauto. }
  revert Hl. generalize (rangeOrder (itabMap (seg st))). intros l.
  revert st. induction l as [|[n i] l IH]; intros st Hl H.
  - cbn in H. injection H as <-. split; [reflexivity|].
    split; [exists []; rewrite app_nil_r; auto|]. split; [reflexivity|]. auto.
  - cbn [foldM] in H. inv_bind H. rename a into s1.
    apply addItabOne_grows in Ha as (C1 & (new1 & I1 & F1) & D1 & M1).
    2:{ apply elem_of_dom. apply (Hl n i). left. }
    apply IH in H as (C2 & (new2 & I2 & F2) & D2 & M2).
    2:{ intros n' i' Hin. rewrite D1. apply (Hl n' i'). right. exact Hin. }
    split; [congruence|].
    split.
    { exists (new1 ++ new2). rewrite I2, I1, app_assoc. split; [reflexivity|].
      apply Forall_app. auto. }
    split; [congruence|].
    intros m k Hm. apply M2 in Hm as [Hm|Hm].
    + apply M1 in Hm as [Hm|Hm]; [left; exact Hm|]. right.
      rewrite I2, I1. rewrite I1 in Hm. unfold len in *.
      rewrite !length_app in *. lia.
    + right. rewrite I1 in Hm. unfold len in *. rewrite length_app in Hm. lia.
Qed.

End AddItabMore.

Lemma addItab_grows_witness :
  ∃ st', addItab map_to_list demoSubFuncType itabInit = Done st'
         ∧ code st' = code itabInit
         ∧ dom (itabMap (seg st')) = dom (itabMap (seg itabInit))
         ∧ itabSyms (codeModule st') = [mkItabSym 0 0x20000000 0x20000008]
         ∧ itabMap (seg st') !! "go.itab.T,I" = Some 0.
Proof.
  destruct (addItab map_to_list demoSubFuncType itabInit) as [st'|] eqn:E;
    [|vm_compute in E; discriminate E].
  destruct (addItab_grows map_to_list demoSubFuncType itabInit st'
              ltac:(intros m n i H; apply elem_of_map_to_list in H; exact H) E)
    as (H1 & _ & H3 & _).
  exists st'. split; [reflexivity|]. split; [exact H1|]. split; [exact H3|].
  vm_compute in E. injection E as <-. split; reflexivity.
Defined.

(** ** [buildModule] returns for a buildable image *)











Section BuildReturns.

Variable firstmoduledata : addr.
Variable funcSize : Z.
Variable pclnBase : Z.







End BuildReturns.



Section Sentinels.

Variable firstmoduledata : addr.
Variable funcSize : Z.
Variable pclnBase : Z.


End Sentinels.



